(** * An optimistic single-layer-locking B+tree: model and verification

    The development follows [b_tree/component/osl/b_tree.hpp] (class
    [BTree]) and [b_tree/component/record_iterator.hpp] (class
    [RecordIterator]).  The tree is a set of fixed-size pages linked by raw
    pointers; we model the pages as a list indexed by pointers, the root
    as a pointer into it, and every member function as a function on this
    state.  Loops that the source writes as [while (true)] take an explicit
    amount of fuel and return [None] when it runs out (or when a null or
    dangling pointer would be dereferenced).

    The node classes ([NodeVarLen], [NodeFixLen]) are a template parameter
    of [BTree]; their member functions are modelled from the design
    document and marked as such.

    The model describes quiescent executions: one operation runs at a time.
    Exclusive and intent locks are taken and released inside one operation
    and are left out; the shared locks of scan cursors outlive the call that
    takes them and are counted per node. *)

From stdpp Require Import list numbers.
Set Default Proof Using "Type".

(** ** Keys, payloads, return codes *)

(** Keys and payloads are integers; a pointer is the index of a page. *)
Abbreviation Key := Z (only parsing).
Abbreviation Payload := Z (only parsing).
Abbreviation ptr := nat (only parsing).

(** The codes of the public interface. *)
Inductive ReturnCode := kSuccess | kKeyNotExist | kKeyExist.

(** The codes exchanged between the tree and its nodes. *)
Inductive NodeRC :=
| kCompleted
| kKeyNotInserted
| kKeyAlreadyInserted
| kNeedSplit
| kNeedMerge
| kAbortMerge
| kNeedRetry.

Inductive memory_order :=
| memory_order_relaxed
| memory_order_acquire
| memory_order_release
| memory_order_seq_cst.

(** One access to the atomic root pointer. *)
Inductive RootAccess :=
| RootLoad (mo : memory_order)
| RootStore (mo : memory_order) (p : ptr).

#[global] Instance ReturnCode_eq_dec : EqDecision ReturnCode.
Proof. solve_decision. Defined.
#[global] Instance NodeRC_eq_dec : EqDecision NodeRC.
Proof. solve_decision. Defined.
#[global] Instance memory_order_eq_dec : EqDecision memory_order.
Proof. solve_decision. Defined.
#[global] Instance RootAccess_eq_dec : EqDecision RootAccess.
Proof. solve_decision. Defined.

(** ** Pages *)

(** A record of a leaf: key, payload and the delete flag of its slot. *)
Record LeafRec := mkLeafRec {
  rec_key : Key;
  rec_payload : Payload;
  rec_deleted : bool
}.

(** A record of an inner node: a routing key and a child.  [None] is the
    key of zero length that the leftmost record of a root carries. *)
Record InnerRec := mkInnerRec {
  sep_key : option Key;
  child : ptr
}.

Inductive Records :=
| LeafRecords (rs : list LeafRec)
| InnerRecords (cs : list InnerRec).

(** The header and the slots of one page.  [high_key = None] is the
    rightmost node of a level; [s_lock] counts the shared locks held. *)
Record Node := mkNode {
  is_removed : bool;
  version : Z;
  s_lock : nat;
  high_key : option Key;
  next : option ptr;
  records : Records
}.

#[global] Instance LeafRec_eq_dec : EqDecision LeafRec.
Proof. solve_decision. Defined.
#[global] Instance InnerRec_eq_dec : EqDecision InnerRec.
Proof. solve_decision. Defined.
#[global] Instance Records_eq_dec : EqDecision Records.
Proof. solve_decision. Defined.
#[global] Instance Node_eq_dec : EqDecision Node.
Proof. solve_decision. Defined.

Definition IsInner (n : Node) : bool :=
  match records n with InnerRecords _ => true | LeafRecords _ => false end.

Definition GetRecordCount (n : Node) : nat :=
  match records n with
  | InnerRecords cs => length cs
  | LeafRecords rs => length rs
  end.

Definition leaf_records (n : Node) : list LeafRec :=
  match records n with LeafRecords rs => rs | InnerRecords _ => [] end.

Definition inner_records (n : Node) : list InnerRec :=
  match records n with InnerRecords cs => cs | LeafRecords _ => [] end.

Definition set_records (n : Node) (r : Records) : Node :=
  mkNode (is_removed n) (version n) (s_lock n) (high_key n) (next n) r.

Definition set_version (n : Node) (v : Z) : Node :=
  mkNode (is_removed n) v (s_lock n) (high_key n) (next n) (records n).

Definition set_s_lock (n : Node) (c : nat) : Node :=
  mkNode (is_removed n) (version n) c (high_key n) (next n) (records n).

Definition set_link (n : Node) (hk : option Key) (nx : option ptr) : Node :=
  mkNode (is_removed n) (version n) (s_lock n) hk nx (records n).

Definition set_removed (n : Node) : Node :=
  mkNode true (version n) (s_lock n) (high_key n) (next n) (records n).

(** The version counter sits above the 18 lock and flag bits of the
    64-bit version-and-lock word (see [GetPreviousVersion]). *)
Definition kVersionUnit : Z := Z.shiftl 1 18.

Definition bump_version (n : Node) : Node :=
  set_version n ((version n + kVersionUnit) mod 2 ^ 64)%Z.

(** [GetPreviousVersion] of b_tree.hpp, on 64-bit words. *)
Definition GetPreviousVersion (ver : Z) : Z :=
  (Z.shiftl ((Z.shiftr ver 18 - 1) mod 2 ^ 64) 18 mod 2 ^ 64)%Z.

(** ** The tree object *)
Record BTree := mkBTree {
  heap : list Node;
  root_ : ptr;
  gc_garbage : list ptr;
  gc_guards : nat;
  root_trace : list RootAccess
}.

Definition set_heap (t : BTree) (h : list Node) : BTree :=
  mkBTree h (root_ t) (gc_garbage t) (gc_guards t) (root_trace t).

Definition root_load (mo : memory_order) (t : BTree) : ptr * BTree :=
  (root_ t,
   mkBTree (heap t) (root_ t) (gc_garbage t) (gc_guards t)
     (root_trace t ++ [RootLoad mo])).

Definition root_store (mo : memory_order) (p : ptr) (t : BTree) : BTree :=
  mkBTree (heap t) p (gc_garbage t) (gc_guards t)
    (root_trace t ++ [RootStore mo p]).

Definition CreateEpochGuard (t : BTree) : BTree :=
  mkBTree (heap t) (root_ t) (gc_garbage t) (S (gc_guards t)) (root_trace t).

Definition ReleaseEpochGuard (t : BTree) : BTree :=
  mkBTree (heap t) (root_ t) (gc_garbage t) (pred (gc_guards t)) (root_trace t).

Definition AddGarbage (p : ptr) (t : BTree) : BTree :=
  mkBTree (heap t) (root_ t) (gc_garbage t ++ [p]) (gc_guards t) (root_trace t).

(** [GetNodePage] followed by the placement [new]: the page holds the
    node [n].  Modelled from the spec: the reclaimer is not among the
    sources; "a page retired in epoch E is freed no earlier than when all
    epoch guards for epochs <= E have been released", so whether
    [GetPageIfPossible] hands back a retired page depends on the epochs
    that have passed.  The model takes every page from the allocator,
    which is what the code does whenever the reclaimer has no page to
    hand back: always when the garbage list is empty.  The properties
    below that speak of the page taken say that it was no page of the
    tree, which holds of a retired page as well. *)
Definition GetNodePage (t : BTree) (n : Node) : ptr * BTree :=
  (length (heap t), set_heap t (heap t ++ [n])).

(** ** Searching inside a page *)

(** The position of the first slot whose key is not smaller than [K]
    (what the binary search of a sorted slot array returns). *)
Fixpoint lower_bound (K : Key) (rs : list LeafRec) : nat :=
  match rs with
  | [] => 0
  | r :: rs' => if (rec_key r <? K)%Z then S (lower_bound K rs') else 0
  end.

(** The slot that holds [K], dead or alive. *)
Definition find_slot (K : Key) (rs : list LeafRec) : option LeafRec :=
  match rs !! lower_bound K rs with
  | Some r => if (rec_key r =? K)%Z then Some r else None
  | None => None
  end.

(** The live record of [K]. *)
Definition find_live (K : Key) (rs : list LeafRec) : option LeafRec :=
  match find_slot K rs with
  | Some r => if rec_deleted r then None else Some r
  | None => None
  end.

Definition live (rs : list LeafRec) : list LeafRec :=
  filter (λ r, rec_deleted r = false) rs.

Definition insert_at {A} (pos : nat) (x : A) (l : list A) : list A :=
  take pos l ++ x :: drop pos l.

(** Writing the record of [K]: a slot that already holds [K] is reused,
    otherwise the slots from the position on are shifted. *)
Definition put_record (K : Key) (V : Payload) (rs : list LeafRec) : list LeafRec :=
  let pos := lower_bound K rs in
  match find_slot K rs with
  | Some _ => <[pos := mkLeafRec K V false]> rs
  | None => insert_at pos (mkLeafRec K V false) rs
  end.

Definition mark_deleted (K : Key) (rs : list LeafRec) : list LeafRec :=
  let pos := lower_bound K rs in
  match find_slot K rs with
  | Some r => <[pos := mkLeafRec K (rec_payload r) true]> rs
  | None => rs
  end.

Definition key_le (k : option Key) (K : Key) : bool :=
  match k with None => true | Some k => (k <=? K)%Z end.

(** The number of leading records whose routing key is at most [K]. *)
Fixpoint count_le (K : Key) (cs : list InnerRec) : nat :=
  match cs with
  | [] => 0
  | c :: cs' => if key_le (sep_key c) K then S (count_le K cs') else 0
  end.

(** The position of the child that covers [K]: the record with the
    greatest routing key at most [K]; the leftmost record covers
    everything below the second routing key. *)
Definition child_pos (K : Key) (cs : list InnerRec) : nat :=
  count_le K (tail cs).

(** The position of the routing entry of [K], if there is one. *)
Fixpoint find_sep (K : Key) (cs : list InnerRec) : option nat :=
  match cs with
  | [] => None
  | c :: cs' =>
      if decide (sep_key c = Some K) then Some 0
      else S <$> find_sep K cs'
  end.

(** The compile-time constants of a tree: the number of records that fit
    into the block of one page, the occupancy below which a node asks for
    a merge, and the target occupancies of bulk loading ([kLeafNodeCap]
    and [kInnerNodeCap] of the source, computed there from the page
    size). *)
Class Params := mkParams {
  kMaxRecNum : nat;
  kMinRecNum : nat;
  kLeafNodeCap : nat;
  kInnerNodeCap : nat
}.

Section NodeOps.
Context {cfg : Params}.

(** ** Node operations *)

(** Modelled from the spec: the constructor [Node_t{is_inner}] of the
    node classes, an empty page of the given kind. *)
Definition Node_new (is_inner : bool) : Node :=
  mkNode false 0 0 None None
    (if is_inner then InnerRecords [] else LeafRecords []).

(** Modelled from the spec: the constructor
    [Node_t{l_key, l_key_len, l_child, r_child}], "a new root node
    containing two children". *)
Definition Node_new_root (l_key : Key) (l_child r_child : ptr) : Node :=
  mkNode false 0 0 None None
    (InnerRecords [mkInnerRec None l_child; mkInnerRec (Some l_key) r_child]).

(** Modelled from the spec: [check_key_range], the range recheck.  "If
    K >= N.high_key, release N, follow N.right_sibling, and retry.  If N
    is flagged deleted, signal root-retry to the caller": the inner
    [None] is the null pointer the caller tests for. *)
Fixpoint CheckKeyRange (fuel : nat) (h : list Node) (p : ptr) (K : Key)
  : option (option ptr) :=
  match fuel with
  | 0 => None
  | S fuel' =>
      match h !! p with
      | None => None
      | Some n =>
          if is_removed n then Some None
          else match high_key n, next n with
               | Some hk, Some q =>
                   if (hk <=? K)%Z then CheckKeyRange fuel' h q K
                   else Some (Some p)
               | _, _ => Some (Some p)
               end
      end
  end.

(** Modelled from the spec: [search_child], "returns the child pointer
    for the greatest routing key <= key", after the range recheck that
    every visit of a node for a key makes ("if K >= N.high_key, ...
    follow N.right_sibling, and retry.  If N is flagged deleted, signal
    root-retry").  The source passes the node by reference, tests it for
    null and compares it with the node it looks for afterwards: the first
    component is the node as the call leaves it, the right sibling that
    covers the key where the node itself has been split. *)
Definition Node_SearchChild (fuel : nat) (h : list Node) (p : ptr) (K : Key)
  : option (option ptr * ptr) :=
  match CheckKeyRange fuel h p K with
  | None => None
  | Some None => Some (None, p)
  | Some (Some q) =>
      match h !! q with
      | None => None
      | Some n =>
          match inner_records n !! child_pos K (inner_records n) with
          | Some c => Some (Some q, child c)
          | None => None
          end
      end
  end.

(** Modelled from the spec: [GetLeftmostChild]; null for a removed node. *)
Definition Node_GetLeftmostChild (h : list Node) (p : ptr) : option (option ptr) :=
  match h !! p with
  | None => None
  | Some n =>
      if is_removed n then Some None
      else match inner_records n with
           | c :: _ => Some (Some (child c))
           | [] => None
           end
  end.

(** Modelled from the spec: [read] on leaves, "returns key-present with
    payload or key-absent, together with the version observed at
    completion", after the range recheck of the static entry point. *)
Definition Node_Read (fuel : nat) (h : list Node) (p : ptr) (K : Key)
  : option (ptr * NodeRC * Z * Payload) :=
  match CheckKeyRange fuel h p K with
  | Some (Some q) =>
      match h !! q with
      | Some n =>
          match find_live K (leaf_records n) with
          | Some r => Some (q, kKeyAlreadyInserted, version n, rec_payload r)
          | None => Some (q, kKeyNotInserted, version n, 0%Z)
          end
      | None => None
      end
  | _ => None
  end.

(** Modelled from the spec: whether "free space suffices" for one more
    record.  Dead slots are reclaimed by compaction, so only live records
    count. *)
Definition has_space (rs : list LeafRec) : bool :=
  length (live rs) <? kMaxRecNum.

(** Modelled from the spec: "shift slots (variable-length layout compacts
    when needed), write the record". *)
Definition write_new (K : Key) (V : Payload) (rs : list LeafRec) : list LeafRec :=
  put_record K V (if length rs <? kMaxRecNum then rs else live rs).

(** Modelled from the spec: [write] on a locked leaf, "blind upsert; if
    present, overwrite in place; else behaves like insert". *)
Definition Node_Write (n : Node) (K : Key) (V : Payload) : Node * NodeRC :=
  let rs := leaf_records n in
  match find_live K rs with
  | Some _ => (bump_version (set_records n (LeafRecords (put_record K V rs))), kCompleted)
  | None =>
      if has_space rs
      then (bump_version (set_records n (LeafRecords (write_new K V rs))), kCompleted)
      else (n, kNeedSplit)
  end.

(** Modelled from the spec: [insert], "if present, return key-present
    with the existing payload and the current version; otherwise
    determine whether free space suffices.  If not, return need-split
    without mutating.  Otherwise ... write the record, bump version,
    return success with new version". *)
Definition Node_Insert_locked (n : Node) (K : Key) (V : Payload)
  : Node * NodeRC * Z * option Payload :=
  let rs := leaf_records n in
  match find_live K rs with
  | Some r => (n, kKeyAlreadyInserted, version n, Some (rec_payload r))
  | None =>
      if has_space rs
      then let n' := bump_version (set_records n (LeafRecords (write_new K V rs))) in
           (n', kCompleted, version n', None)
      else (n, kNeedSplit, version n, None)
  end.

(** Modelled from the spec: [update], "if absent, return key-absent;
    else overwrite and bump version". *)
Definition Node_Update_locked (n : Node) (K : Key) (V : Payload) : Node * ReturnCode :=
  let rs := leaf_records n in
  match find_live K rs with
  | Some _ => (bump_version (set_records n (LeafRecords (put_record K V rs))), kSuccess)
  | None => (n, kKeyNotExist)
  end.

(** Modelled from the spec: [delete], "if absent, key-absent.  Otherwise,
    mark the slot deleted and bump version.  If resulting live-record
    count ... falls below the merge threshold, return need-merge". *)
Definition Node_Delete_locked (n : Node) (K : Key) : Node * NodeRC :=
  let rs := leaf_records n in
  match find_live K rs with
  | Some _ =>
      let rs' := mark_deleted K rs in
      (bump_version (set_records n (LeafRecords rs')),
       if length (live rs') <? kMinRecNum then kNeedMerge else kCompleted)
  | None => (n, kKeyNotInserted)
  end.

(** The static entry points take the node by reference, recheck the key
    range under the lock and then run the operation on the node found. *)
Definition with_locked_node {A} (fuel : nat) (h : list Node) (p : ptr) (K : Key)
    (f : Node → Node * A) : option (list Node * ptr * A) :=
  match CheckKeyRange fuel h p K with
  | Some (Some q) =>
      match h !! q with
      | Some n => let '(n', a) := f n in Some (<[q := n']> h, q, a)
      | None => None
      end
  | _ => None
  end.

Definition Node_Insert (fuel : nat) (h : list Node) (p : ptr) (K : Key) (V : Payload)
  : option (list Node * ptr * (NodeRC * Z * option Payload)) :=
  with_locked_node fuel h p K
    (λ n, let '(n', rc, ver, out) := Node_Insert_locked n K V in (n', (rc, ver, out))).

Definition Node_Update (fuel : nat) (h : list Node) (p : ptr) (K : Key) (V : Payload)
  : option (list Node * ptr * ReturnCode) :=
  with_locked_node fuel h p K (λ n, Node_Update_locked n K V).

Definition Node_Delete (fuel : nat) (h : list Node) (p : ptr) (K : Key)
  : option (list Node * ptr * NodeRC) :=
  with_locked_node fuel h p K (λ n, Node_Delete_locked n K).

(** Modelled from the spec: [SearchRecord], the code and the position of
    the binary search for [K]. *)
Definition Node_SearchRecord (n : Node) (K : Key) : NodeRC * nat :=
  let rs := leaf_records n in
  (match find_live K rs with Some _ => kKeyAlreadyInserted | None => kKeyNotInserted end,
   lower_bound K rs).

(** Modelled from the spec: [InsertRecord], which writes the record at
    the given position, bumps the version and returns it. *)
Definition Node_InsertRecord (n : Node) (K : Key) (V : Payload) (pos : nat) : Node * Z :=
  let n' := bump_version
              (set_records n (LeafRecords (insert_at pos (mkLeafRec K V false) (leaf_records n)))) in
  (n', version n').

(** Modelled from the spec: [split], "move the upper half of live records
    to right, set right.right_sibling = self.right_sibling,
    self.right_sibling = right, set high keys, bump versions on both".
    The high key of the left node becomes the smallest key moved. *)
Definition Node_Split (h : list Node) (l r : ptr) : option (list Node) :=
  match h !! l, h !! r with
  | Some nl, Some nr =>
      let '(lrecs, rrecs, sep) :=
        match records nl with
        | LeafRecords rs =>
            let lv := live rs in
            let m := length lv - length lv / 2 in
            (LeafRecords (take m lv), LeafRecords (drop m lv),
             match drop m lv with
             | x :: _ => Some (rec_key x)
             | [] => high_key nl
             end)
        | InnerRecords cs =>
            let m := length cs - length cs / 2 in
            (InnerRecords (take m cs), InnerRecords (drop m cs),
             match drop m cs with
             | x :: _ => sep_key x
             | [] => high_key nl
             end)
        end in
      let nl' := bump_version (set_records (set_link nl sep (Some r)) lrecs) in
      let nr' := bump_version (set_records (set_link nr (high_key nl) (next nl)) rrecs) in
      Some (<[r := nr']> (<[l := nl']> h))
  | _, _ => None
  end.

(** Modelled from the spec: [merge], "append right's live records to
    self; adopt right.high_key and right.right_sibling.  Bump version on
    self.  The right node is flagged deleted". *)
Definition Node_Merge (h : list Node) (l r : ptr) : option (list Node) :=
  match h !! l, h !! r with
  | Some nl, Some nr =>
      let merged :=
        match records nl, records nr with
        | LeafRecords rs, LeafRecords rs' => Some (LeafRecords (rs ++ live rs'))
        | InnerRecords cs, InnerRecords cs' => Some (InnerRecords (cs ++ cs'))
        | _, _ => None
        end in
      match merged with
      | Some recs =>
          let nl' := bump_version
                       (set_records (set_link nl (high_key nr) (next nr)) recs) in
          Some (<[r := set_removed nr]> (<[l := nl']> h))
      | None => None
      end
  | _, _ => None
  end.

(** Modelled from the spec: [insert_child] on a locked inner node.  The
    entry of the right node follows the entry that covers the separator;
    a full node reports need-split without mutating. *)
Definition Node_InsertChild (n : Node) (r_child : ptr) (sep : Key) : Node * NodeRC :=
  let cs := inner_records n in
  if length cs <? kMaxRecNum
  then (bump_version
          (set_records n
             (InnerRecords (insert_at (S (child_pos sep cs)) (mkInnerRec (Some sep) r_child) cs))),
        kCompleted)
  else (n, kNeedSplit).

(** Modelled from the spec: [delete_child] on a locked inner node,
    "delete the routing entry for L.high_key".  An entry that leads the
    node belongs to a sibling whose left neighbour hangs under another
    parent: the merge is aborted.  A missing entry is an unfinished
    structure modification: the caller retries. *)
Definition Node_DeleteChild (n : Node) (del_key : Key) : Node * NodeRC :=
  let cs := inner_records n in
  match find_sep del_key cs with
  | None => (n, kNeedRetry)
  | Some 0 => (n, kAbortMerge)
  | Some (S i) =>
      let cs' := delete (S i) cs in
      (bump_version (set_records n (InnerRecords cs')),
       if length cs' <? kMinRecNum then kNeedMerge else kCompleted)
  end.

(** The records of a node that a merge moves. *)
Definition used_records (n : Node) : nat :=
  match records n with
  | LeafRecords rs => length (live rs)
  | InnerRecords cs => length cs
  end.

(** Modelled from the spec: [get_mergeable_sibling], "returns the right
    sibling if combined occupancy fits, else nothing". *)
Definition Node_GetMergeableSiblingNode (h : list Node) (l : ptr) : option (option ptr) :=
  match h !! l with
  | Some nl =>
      match next nl with
      | None => Some None
      | Some r =>
          match h !! r with
          | Some nr =>
              if GetRecordCount nl + used_records nr <=? kMaxRecNum
              then Some (Some r) else Some None
          | None => None
          end
      end
  | None => None
  end.

(** Modelled from the spec: [RemoveRoot], "retire the old root and
    publish its sole child as the new root": the node is flagged deleted
    and its child returned. *)
Definition Node_RemoveRoot (h : list Node) (p : ptr) : option (list Node * ptr) :=
  match h !! p with
  | Some n =>
      match inner_records n with
      | c :: _ => Some (<[p := set_removed n]> h, child c)
      | [] => None
      end
  | None => None
  end.

(** Modelled from the spec: [GetValidSplitNode], "whichever half covers
    the separator": the node itself or its new right sibling. *)
Definition Node_GetValidSplitNode (h : list Node) (l : ptr) (K : Key) : option ptr :=
  match h !! l with
  | Some nl =>
      match high_key nl with
      | Some hk => if (K <? hk)%Z then Some l else next nl
      | None => Some l
      end
  | None => None
  end.

(** The smallest key stored in a node. *)
Definition lowest_key (n : Node) : option Key :=
  match records n with
  | LeafRecords rs => rec_key <$> head rs
  | InnerRecords cs => head cs ≫= sep_key
  end.

(** Modelled from the spec: [GetSeparatorKey], "the smallest key of the
    right node for went-right cases and the original split boundary
    otherwise". *)
Definition Node_GetSeparatorKey (n : Node) (is_left : bool) : option Key :=
  if is_left then high_key n else lowest_key n.

(** ** Node operations used by scans *)
Definition ScanKey := option (Key * bool).

(** Whether [k] lies before the end of the scan range. *)
Definition before_end (end_key : ScanKey) (k : Key) : bool :=
  match end_key with
  | None => true
  | Some (e, closed) => if closed then (k <=? e)%Z else (k <? e)%Z
  end.

(** Whether [k] lies after the begin of the scan range. *)
Definition after_begin (begin_key : ScanKey) (k : Key) : bool :=
  match begin_key with
  | None => true
  | Some (b, closed) => if closed then (b <=? k)%Z else (b <? k)%Z
  end.

Fixpoint count_before_end (end_key : ScanKey) (rs : list LeafRec) : nat :=
  match rs with
  | [] => 0
  | r :: rs' =>
      if before_end end_key (rec_key r) then S (count_before_end end_key rs') else 0
  end.

Fixpoint count_not_after_begin (begin_key : ScanKey) (rs : list LeafRec) : nat :=
  match rs with
  | [] => 0
  | r :: rs' =>
      if after_begin begin_key (rec_key r) then 0
      else S (count_not_after_begin begin_key rs')
  end.

(** Modelled from the spec: [SearchEndPositionFor], "recompute end slot
    and last-leaf flag against the end key".  The node is the last of the
    scan when it has no right sibling or when its high key is already
    past the end key. *)
Definition Node_SearchEndPositionFor (n : Node) (end_key : ScanKey) : bool * nat :=
  (match next n, high_key n with
   | Some _, Some hk => negb (before_end end_key hk)
   | _, _ => true
   end,
   count_before_end end_key (leaf_records n)).

(** Modelled from the spec: [RecordIsDeleted]. *)
Definition Node_RecordIsDeleted (n : Node) (pos : nat) : bool :=
  match leaf_records n !! pos with
  | Some r => rec_deleted r
  | None => false
  end.

(** Modelled from the spec: [GetRecord], "(key, payload) copied out of
    the current slot". *)
Definition Node_GetRecord (n : Node) (pos : nat) : option (Key * Payload) :=
  (λ r, (rec_key r, rec_payload r)) <$> leaf_records n !! pos.

Definition LockS (n : Node) : Node := set_s_lock n (S (s_lock n)).
Definition UnlockS (n : Node) : Node := set_s_lock n (pred (s_lock n)).

(** Modelled from the spec: [ReleaseSharedLock]. *)
Definition Node_ReleaseSharedLock (h : list Node) (p : ptr) : option (list Node) :=
  match h !! p with
  | Some n => Some (<[p := UnlockS n]> h)
  | None => None
  end.

(** Modelled from the spec: [GetNextNodeForRead], "follow the sibling
    pointer under lock-coupling (acquire S on right sibling, release S on
    current)". *)
Definition Node_GetNextNodeForRead (h : list Node) (p : ptr) : option (list Node * ptr) :=
  match h !! p with
  | Some n =>
      match next n with
      | Some q =>
          match h !! q with
          | Some nq => Some (<[p := UnlockS n]> (<[q := LockS nq]> h), q)
          | None => None
          end
      | None => None
      end
  | None => None
  end.

(** ** Node operations used by bulk loading *)

(** The two kinds of entries a layer is built from: key/payload pairs
    for leaves and [NodeEntry] (key and node) for inner nodes.  The
    class collects what the template [Bulkload<Entry>] reads off the
    entry type. *)
Class BulkEntry (E : Type) := mkBulkEntry {
  entry_key : E → Key;
  entry_is_inner : bool;
  entry_records : list E → Records;
  entry_cap : nat
}.

#[global] Instance leaf_entry : BulkEntry (Key * Payload) := {|
  entry_key := fst;
  entry_is_inner := false;
  entry_records := λ es, LeafRecords (map (λ e, mkLeafRec (fst e) (snd e) false) es);
  entry_cap := kLeafNodeCap
|}.

#[global] Instance node_entry : BulkEntry (Key * ptr) := {|
  entry_key := fst;
  entry_is_inner := true;
  entry_records := λ es, InnerRecords (map (λ e, mkInnerRec (Some (fst e)) (snd e)) es);
  entry_cap := kInnerNodeCap
|}.

(** Modelled from the spec: [bulkload] of a node, "fill the node
    greedily up to a target occupancy ..., link prev.right_sibling =
    self, push a routing entry (first_key_of_self, self, first_key_len)
    into out_nodes".  Linking also sets the high key of the previous node
    to the first key of this one.  The result holds the entries left. *)
Definition Node_Bulkload {E} `{BulkEntry E} (h : list Node) (p : ptr)
    (entries : list E) (prev : option ptr) (nodes : list (Key * ptr))
  : option (list Node * list E * list (Key * ptr)) :=
  match h !! p, entries with
  | Some n, e :: _ =>
      let h1 := <[p := set_records n (entry_records (take entry_cap entries))]> h in
      let h2 := match prev with
                | Some q =>
                    match h1 !! q with
                    | Some nq => Some (<[q := set_link nq (Some (entry_key e)) (Some p)]> h1)
                    | None => None
                    end
                | None => Some h1
                end in
      (λ h2, (h2, drop entry_cap entries, nodes ++ [(entry_key e, p)])) <$> h2
  | _, _ => None
  end.

Definition last_child (n : Node) : option ptr := child <$> list.last (inner_records n).
Definition first_child (n : Node) : option ptr := child <$> head (inner_records n).

(** Modelled from the spec: [LinkVerticalBorderNodes], "the rightmost
    spine of partial i is linked to the leftmost spine of partial i+1 at
    each level". *)
Fixpoint Node_LinkVerticalBorderNodes (fuel : nat) (h : list Node) (l r : ptr)
  : option (list Node) :=
  match fuel with
  | 0 => None
  | S fuel' =>
      match h !! l, h !! r with
      | Some nl, Some nr =>
          let h1 := <[l := set_link nl (lowest_key nr) (Some r)]> h in
          if IsInner nl
          then match last_child nl, first_child nr with
               | Some l', Some r' => Node_LinkVerticalBorderNodes fuel' h1 l' r'
               | _, _ => None
               end
          else Some h1
      | _, _ => None
      end
  end.

(** Modelled from the spec: [RemoveLeftmostKeys], "strip the leftmost key
    of the root (a routing artifact - the leftmost child covers anything
    less than the next separator)". *)
Definition Node_RemoveLeftmostKeys (h : list Node) (p : ptr) : option (list Node) :=
  match h !! p with
  | Some n =>
      match records n with
      | InnerRecords (c :: cs) =>
          Some (<[p := set_records n (InnerRecords (mkInnerRec None (child c) :: cs))]> h)
      | _ => Some h
      end
  | None => None
  end.

End NodeOps.

(** * The tree: [BTree] of b_tree.hpp *)

Section Tree.
Context {cfg : Params}.

(** A stack of nodes is a list whose head is the back of the vector. *)
Definition NodeInfo : Type := ptr * Z * Z.

(** The constructor: an empty leaf is the root. *)
Definition BTree_new : BTree :=
  let t0 := mkBTree [] 0 [] 0 [] in
  let '(root, t1) := GetNodePage t0 (Node_new false) in
  root_store memory_order_release root t1.

(** ** Descent *)
Fixpoint SearchLeafNode_loop (fuel : nat) (t : BTree) (node : ptr) (key : Key)
  : option (ptr * BTree) :=
  match fuel with
  | 0 => None
  | S fuel' =>
      match heap t !! node with
      | None => None
      | Some n =>
          if IsInner n then
            match Node_SearchChild fuel' (heap t) node key with
            | None => None
            | Some (None, _) =>
                (* a root node was removed *)
                let '(r, t') := root_load memory_order_acquire t in
                SearchLeafNode_loop fuel' t' r key
            | Some (Some _, c) =>
                (* go down to the next level *)
                SearchLeafNode_loop fuel' t c key
            end
          else Some (node, t)
      end
  end.

Definition SearchLeafNode (fuel : nat) (t : BTree) (key : Key) : option (ptr * BTree) :=
  let '(r, t') := root_load memory_order_acquire t in
  SearchLeafNode_loop fuel t' r key.

Fixpoint SearchLeftmostLeaf_loop (fuel : nat) (t : BTree) (node : ptr)
  : option (ptr * BTree) :=
  match fuel with
  | 0 => None
  | S fuel' =>
      match heap t !! node with
      | None => None
      | Some n =>
          if IsInner n then
            match Node_GetLeftmostChild (heap t) node with
            | None => None
            | Some None =>
                let '(r, t') := root_load memory_order_acquire t in
                SearchLeftmostLeaf_loop fuel' t' r
            | Some (Some c) => SearchLeftmostLeaf_loop fuel' t c
            end
          else Some (node, t)
      end
  end.

Definition SearchLeftmostLeaf (fuel : nat) (t : BTree) : option (ptr * BTree) :=
  let '(r, t') := root_load memory_order_acquire t in
  SearchLeftmostLeaf_loop fuel t' r.

Fixpoint SearchLeafNodeForWrite_loop (fuel : nat) (t : BTree) (stack : list ptr)
    (node : ptr) (key : Key) : option (list ptr * BTree) :=
  match fuel with
  | 0 => None
  | S fuel' =>
      match heap t !! node with
      | None => None
      | Some n =>
          if IsInner n then
            match Node_SearchChild fuel' (heap t) node key with
            | None => None
            | Some (None, _) =>
                (* a root node was removed *)
                let '(r, t') := root_load memory_order_acquire t in
                SearchLeafNodeForWrite_loop fuel' t' [] r key
            | Some (Some node', c) =>
                (* go down to the next level *)
                SearchLeafNodeForWrite_loop fuel' t (node' :: stack) c key
            end
          else Some (node :: stack, t)
      end
  end.

Definition SearchLeafNodeForWrite (fuel : nat) (t : BTree) (key : Key)
  : option (list ptr * BTree) :=
  let '(r, t') := root_load memory_order_acquire t in
  SearchLeafNodeForWrite_loop fuel t' [] r key.

(** [SearchParentNode]: [node] and [child] are the local variables of the
    loop; a null [node] cannot be dereferenced. *)
Fixpoint SearchParentNode_loop (fuel : nat) (t : BTree) (stack : list ptr)
    (node child : option ptr) (key : Key) (target_node : ptr)
  : option (list ptr * BTree) :=
  match fuel with
  | 0 => None
  | S fuel' =>
      match node with
      | None => None
      | Some p =>
          match heap t !! p with
          | None => None
          | Some n =>
              let searched :=
                if IsInner n then
                  (λ '(nd, c), (nd, Some c)) <$> Node_SearchChild fuel' (heap t) p key
                else
                  (λ nd, (nd, child)) <$> CheckKeyRange fuel' (heap t) p key in
              match searched with
              | None => None
              | Some (node', child') =>
                  if decide (node' = Some target_node) then Some (stack, t)
                  else match node' with
                       | None =>
                           (* a root node is removed *)
                           let '(r, t') := root_load memory_order_acquire t in
                           SearchParentNode_loop fuel' t' [] (Some r) child' key target_node
                       | Some p' =>
                           (* go down to the next level *)
                           SearchParentNode_loop fuel' t (p' :: stack) child' child' key
                             target_node
                       end
              end
          end
      end
  end.

Definition SearchParentNode (fuel : nat) (t : BTree) (stack : list ptr) (key : Key)
    (target_node : ptr) : option (list ptr * BTree) :=
  let '(r, t') := root_load memory_order_acquire t in
  SearchParentNode_loop fuel t' stack (Some r) None key target_node.

(** ** Structure modifications *)
Definition HalfSplit (t : BTree) (l_node : ptr) : option (ptr * BTree) :=
  match heap t !! l_node with
  | None => None
  | Some nl =>
      let '(r_node, t1) := GetNodePage t (Node_new (IsInner nl)) in
      (λ h, (r_node, set_heap t1 h)) <$> Node_Split (heap t1) l_node r_node
  end.

Definition TryRootSplit (t : BTree) (l_child r_child : ptr) (l_key : Key)
  : bool * BTree :=
  let '(cur_root, t1) := root_load memory_order_relaxed t in
  if decide (cur_root = l_child) then
    (* install a new root node *)
    let '(new_root, t2) := GetNodePage t1 (Node_new_root l_key l_child r_child) in
    (true, root_store memory_order_release new_root t2)
  else (false, t1).

(** The loop of [CompleteSplit]; [node] is its local variable, null at
    first.  The recursive call of the source pops the stack and starts
    the loop again with a null [node]. *)
Fixpoint CompleteSplit_loop (fuel : nat) (t : BTree) (stack : list ptr)
    (node : option ptr) (l_child r_child : ptr) (l_key : Key) : option BTree :=
  match fuel with
  | 0 => None
  | S fuel' =>
      match stack with
      | [] =>
          (* splitting a root node if possible *)
          let '(ok, t1) := TryRootSplit t l_child r_child l_key in
          if ok then Some t1
          else
            match SearchParentNode fuel' t1 stack l_key r_child with
            | None => None
            | Some (stack', t2) =>
                CompleteSplit_loop fuel' t2 stack' node l_child r_child l_key
            end
      | top :: _ =>
          let node0 := match node with None => top | Some p => p end in
          (* traverse horizontally to reach a valid parent node *)
          match CheckKeyRange fuel' (heap t) node0 l_key with
          | None => None
          | Some None =>
              (* a root node is removed *)
              let '(ok, t1) := TryRootSplit t l_child r_child l_key in
              if ok then Some t1
              else
                match SearchParentNode fuel' t1 stack l_key r_child with
                | None => None
                | Some (stack', t2) =>
                    CompleteSplit_loop fuel' t2 stack' None l_child r_child l_key
                end
          | Some (Some p) =>
              match heap t !! p with
              | None => None
              | Some n =>
                  (* insert a new entry into a tree *)
                  let '(n', rc) := Node_InsertChild n r_child l_key in
                  let t1 := set_heap t (<[p := n']> (heap t)) in
                  match rc with
                  | kCompleted => Some t1
                  | kNeedSplit =>
                      (* since a parent node is full, perform splitting *)
                      match HalfSplit t1 p with
                      | None => None
                      | Some (r_node, t2) =>
                          match Node_GetValidSplitNode (heap t2) p l_key with
                          | None => None
                          | Some target_node =>
                              match heap t2 !! target_node with
                              | None => None
                              | Some nt =>
                                  let '(nt', _) := Node_InsertChild nt r_child l_key in
                                  let t3 := set_heap t2 (<[target_node := nt']> (heap t2)) in
                                  match Node_GetSeparatorKey nt' (bool_decide (target_node = p)) with
                                  | None => None
                                  | Some sep_key =>
                                      CompleteSplit_loop fuel' t3 (tail stack) None
                                        p r_node sep_key
                                  end
                              end
                          end
                      end
                  | _ =>
                      (* previous merging has not finished, so wait and retry *)
                      CompleteSplit_loop fuel' t1 stack (Some p) l_child r_child l_key
                  end
              end
          end
      end
  end.

Definition CompleteSplit (fuel : nat) (t : BTree) (stack : list ptr)
    (l_child r_child : ptr) (l_key : Key) : option BTree :=
  CompleteSplit_loop fuel t (tail stack) None l_child r_child l_key.

(** The body of the do-while loop of [TryShrinkTree]. *)
Fixpoint TryShrinkTree_loop (fuel : nat) (t : BTree) (node : ptr)
  : option (ptr * BTree) :=
  match fuel with
  | 0 => None
  | S fuel' =>
      let t1 := AddGarbage node t in
      match Node_RemoveRoot (heap t1) node with
      | None => None
      | Some (h, c) =>
          let t2 := set_heap t1 h in
          match heap t2 !! c with
          | None => None
          | Some nc =>
              if (GetRecordCount nc =? 1) && IsInner nc
              then TryShrinkTree_loop fuel' t2 c
              else Some (c, t2)
          end
      end
  end.

Definition TryShrinkTree (fuel : nat) (t : BTree) (node : ptr) : option BTree :=
  let '(r, t1) := root_load memory_order_relaxed t in
  match heap t1 !! node with
  | None => None
  | Some n =>
      if bool_decide (node = r) && (GetRecordCount n =? 1)
      then (λ '(c, t2), root_store memory_order_relaxed c t2)
             <$> TryShrinkTree_loop fuel t1 node
      else Some t1
  end.

(** The loop of [Merge]; [node] is its local variable, null at first. *)
Fixpoint Merge_loop (fuel : nat) (t : BTree) (stack : list ptr)
    (node : option ptr) (l_child : ptr) : option BTree :=
  match fuel with
  | 0 => None
  | S fuel' =>
      (* check there is a mergeable sibling node *)
      match Node_GetMergeableSiblingNode (heap t) l_child with
      | None => None
      | Some None => Some t
      | Some (Some r_child) =>
          match heap t !! l_child ≫= high_key with
          | None => None
          | Some del_key =>
              match stack with
              | [] =>
                  (* other threads have modified this tree concurrently, so retry *)
                  match SearchParentNode fuel' t stack del_key r_child with
                  | None => None
                  | Some (stack', t1) => Merge_loop fuel' t1 stack' node l_child
                  end
              | top :: rest =>
                  let '(node0, stack0) :=
                    match node with
                    | None => (top, rest)
                    | Some p => (p, stack)
                    end in
                  (* traverse horizontally to reach a valid parent node *)
                  match CheckKeyRange fuel' (heap t) node0 del_key with
                  | None => None
                  | Some None =>
                      (* a root node is removed *)
                      match SearchParentNode fuel' t stack0 del_key r_child with
                      | None => None
                      | Some (stack', t1) => Merge_loop fuel' t1 stack' None l_child
                      end
                  | Some (Some p) =>
                      match heap t !! p with
                      | None => None
                      | Some n =>
                          (* delete an entry from a tree *)
                          let '(n', rc) := Node_DeleteChild n del_key in
                          let t1 := set_heap t (<[p := n']> (heap t)) in
                          match rc with
                          | kCompleted =>
                              (λ h, AddGarbage r_child (set_heap t1 h))
                                <$> Node_Merge (heap t1) l_child r_child
                          | kAbortMerge => Some t1
                          | kNeedRetry =>
                              (* previous splitting has not finished, so wait and retry *)
                              Merge_loop fuel' t1 stack0 (Some p) l_child
                          | _ =>
                              match Node_Merge (heap t1) l_child r_child with
                              | None => None
                              | Some h =>
                                  let t2 := AddGarbage r_child (set_heap t1 h) in
                                  match stack0 with
                                  | [] => TryShrinkTree fuel' t2 p
                                  | _ :: _ => Merge_loop fuel' t2 stack0 None p
                                  end
                              end
                          end
                      end
                  end
              end
          end
      end
  end.

Definition Merge (fuel : nat) (t : BTree) (stack : list ptr) (l_child : ptr)
  : option BTree :=
  Merge_loop fuel t (tail stack) None l_child.

(** ** Public read and write APIs *)
Definition Read (fuel : nat) (t : BTree) (key : Key)
  : option (option Payload * NodeInfo * BTree) :=
  let t0 := CreateEpochGuard t in
  match SearchLeafNode fuel t0 key with
  | None => None
  | Some (node, t1) =>
      match Node_Read fuel (heap t1) node key with
      | None => None
      | Some (node', rc, ver, payload) =>
          Some (if decide (rc = kKeyAlreadyInserted) then Some payload else None,
                (node', ver, ver), ReleaseEpochGuard t1)
      end
  end.

(** The split of a full leaf in [Write] and [Insert]: the new record goes
    to the half that covers the key, then the split is completed. *)
Definition split_and_insert (fuel : nat) (t : BTree) (stack : list ptr)
    (node : ptr) (key : Key) (payload : Payload) : option (ptr * Z * BTree) :=
  match HalfSplit t node with
  | None => None
  | Some (r_node, t1) =>
      match Node_GetValidSplitNode (heap t1) node key with
      | None => None
      | Some target_node =>
          match heap t1 !! target_node with
          | None => None
          | Some nt =>
              let pos := snd (Node_SearchRecord nt key) in
              let '(nt', ver) := Node_InsertRecord nt key payload pos in
              let t2 := set_heap t1 (<[target_node := nt']> (heap t1)) in
              (* complete splitting by inserting a new entry *)
              match Node_GetSeparatorKey nt' (bool_decide (target_node = node)) with
              | None => None
              | Some sep_key =>
                  (λ t3, (target_node, ver, t3))
                    <$> CompleteSplit fuel t2 stack node r_node sep_key
              end
          end
      end
  end.

Definition Write (fuel : nat) (t : BTree) (key : Key) (payload : Payload)
  : option (ReturnCode * BTree) :=
  let t0 := CreateEpochGuard t in
  match SearchLeafNodeForWrite fuel t0 key with
  | None => None
  | Some (stack, t1) =>
      match head stack with
      | None => None
      | Some node0 =>
          match CheckKeyRange fuel (heap t1) node0 key with
          | Some (Some node) =>
              match heap t1 !! node with
              | None => None
              | Some n =>
                  let '(n', rc) := Node_Write n key payload in
                  let t2 := set_heap t1 (<[node := n']> (heap t1)) in
                  if decide (rc = kNeedSplit) then
                    (* perform splitting if needed *)
                    (λ '(_, _, t3), (kSuccess, ReleaseEpochGuard t3))
                      <$> split_and_insert fuel t2 stack node key payload
                  else Some (kSuccess, ReleaseEpochGuard t2)
              end
          | _ => None
          end
      end
  end.

(** [Insert] returns its code together with [out_payload] and
    [node_info] as the call leaves them ([None] where the call does not
    write them). *)
Definition Insert (fuel : nat) (t : BTree) (key : Key) (payload : Payload)
  : option (ReturnCode * option Payload * NodeInfo * BTree) :=
  let t0 := CreateEpochGuard t in
  match SearchLeafNodeForWrite fuel t0 key with
  | None => None
  | Some (stack, t1) =>
      match head stack with
      | None => None
      | Some node0 =>
          match Node_Insert fuel (heap t1) node0 key payload with
          | None => None
          | Some (h, node, (rc, ver, out_payload)) =>
              let t2 := set_heap t1 h in
              if decide (rc = kKeyAlreadyInserted) then
                Some (kKeyExist, out_payload, (node, ver, ver), ReleaseEpochGuard t2)
              else if decide (rc = kNeedSplit) then
                (λ '(target_node, ver', t3),
                   (kSuccess, out_payload,
                    (target_node, ver', GetPreviousVersion ver'), ReleaseEpochGuard t3))
                  <$> split_and_insert fuel t2 stack node key payload
              else
                Some (kSuccess, out_payload,
                      (node, ver, GetPreviousVersion ver), ReleaseEpochGuard t2)
          end
      end
  end.

Definition Update (fuel : nat) (t : BTree) (key : Key) (payload : Payload)
  : option (ReturnCode * BTree) :=
  let t0 := CreateEpochGuard t in
  match SearchLeafNode fuel t0 key with
  | None => None
  | Some (node, t1) =>
      (λ '(h, _, rc), (rc, ReleaseEpochGuard (set_heap t1 h)))
        <$> Node_Update fuel (heap t1) node key payload
  end.

Definition Delete (fuel : nat) (t : BTree) (key : Key) : option (ReturnCode * BTree) :=
  let t0 := CreateEpochGuard t in
  match SearchLeafNodeForWrite fuel t0 key with
  | None => None
  | Some (stack, t1) =>
      match head stack with
      | None => None
      | Some node0 =>
          match Node_Delete fuel (heap t1) node0 key with
          | None => None
          | Some (h, node, rc) =>
              let t2 := set_heap t1 h in
              if decide (rc = kKeyNotInserted) then Some (kKeyNotExist, ReleaseEpochGuard t2)
              else if decide (rc = kNeedMerge) then
                (λ t3, (kSuccess, ReleaseEpochGuard t3)) <$> Merge fuel t2 stack node
              else Some (kSuccess, ReleaseEpochGuard t2)
          end
      end
  end.

End Tree.

(** * Scans: [RecordIterator] of record_iterator.hpp *)
Record RecordIterator := mkRecordIterator {
  node_ : ptr;
  pos_ : nat;
  end_pos_ : nat;
  end_key_ : ScanKey;
  is_end_ : bool
}.

Section Scan.
Context {cfg : Params}.

(** The inner loop of [HasNext], "skip deleted records": it runs at most
    [end_pos_ - pos_] times, which is the first argument. *)
Fixpoint skip_deleted (gap : nat) (n : Node) (pos : nat) : nat :=
  match gap with
  | 0 => pos
  | S gap' =>
      if Node_RecordIsDeleted n pos then skip_deleted gap' n (S pos) else pos
  end.

Fixpoint HasNext (fuel : nat) (h : list Node) (it : RecordIterator)
  : option (bool * list Node * RecordIterator) :=
  match fuel with
  | 0 => None
  | S fuel' =>
      match h !! node_ it with
      | None => None
      | Some n =>
          (* check records remain in this node *)
          let pos := skip_deleted (end_pos_ it - pos_ it) n (pos_ it) in
          let it1 := mkRecordIterator (node_ it) pos (end_pos_ it) (end_key_ it) (is_end_ it) in
          if pos <? end_pos_ it then Some (true, h, it1)
          else if is_end_ it then
            (* this node is rightmost for a given end key *)
            (λ h', (false, h', it1)) <$> Node_ReleaseSharedLock h (node_ it)
          else
            (* go to the next node *)
            match Node_GetNextNodeForRead h (node_ it) with
            | None => None
            | Some (h', q) =>
                match h' !! q with
                | None => None
                | Some nq =>
                    let '(is_end, end_pos) := Node_SearchEndPositionFor nq (end_key_ it) in
                    HasNext fuel' h' (mkRecordIterator q 0 end_pos (end_key_ it) is_end)
                end
            end
      end
  end.

(** [operator*] and [operator++]. *)
Definition Deref (h : list Node) (it : RecordIterator) : option (Key * Payload) :=
  h !! node_ it ≫= λ n, Node_GetRecord n (pos_ it).

Definition Advance (it : RecordIterator) : RecordIterator :=
  mkRecordIterator (node_ it) (S (pos_ it)) (end_pos_ it) (end_key_ it) (is_end_ it).

(** Modelled from the spec: the constructor that [Scan] calls with the
    leaf found, the two scan keys and the guard ([RecordIterator_t] of
    b_tree.hpp is the class [OptimisticRecordIterator], whose header is
    not among the sources; its cursor is described with the fields of
    [RecordIterator]).  It takes the shared lock of the leaf that covers
    the begin key and places the cursor on the first slot of the range;
    the guard moves into the cursor, so it stays held when [Scan]
    returns. *)
Definition RecordIterator_new (fuel : nat) (h : list Node) (node : ptr)
    (begin_key end_key : ScanKey) : option (list Node * RecordIterator) :=
  let found :=
    match begin_key with
    | Some (b, _) => CheckKeyRange fuel h node b
    | None => Some (Some node)
    end in
  match found with
  | Some (Some q) =>
      match h !! q with
      | Some n =>
          let '(is_end, end_pos) := Node_SearchEndPositionFor n end_key in
          Some (<[q := LockS n]> h,
                mkRecordIterator q (count_not_after_begin begin_key (leaf_records n))
                  end_pos end_key is_end)
      | None => None
      end
  | _ => None
  end.

Definition Scan (fuel : nat) (t : BTree) (begin_key end_key : ScanKey)
  : option (RecordIterator * BTree) :=
  let t0 := CreateEpochGuard t in
  let found :=
    match begin_key with
    | Some (b, _) => SearchLeafNode fuel t0 b
    | None => SearchLeftmostLeaf fuel t0
    end in
  match found with
  | None => None
  | Some (node, t1) =>
      (λ '(h, it), (it, set_heap t1 h))
        <$> RecordIterator_new fuel (heap t1) node begin_key end_key
  end.

(** The loop of a caller that drains a cursor: while [HasNext] holds,
    the record under the cursor is copied out and the cursor advanced. *)
Fixpoint drain (fuel : nat) (h : list Node) (it : RecordIterator)
  : option (list (Key * Payload) * list Node * RecordIterator) :=
  match fuel with
  | 0 => None
  | S fuel' =>
      match HasNext fuel h it with
      | None => None
      | Some (false, h', it') => Some ([], h', it')
      | Some (true, h', it') =>
          match Deref h' it' with
          | None => None
          | Some kv =>
              (λ '(out, h'', it''), (kv :: out, h'', it''))
                <$> drain fuel' h' (Advance it')
          end
      end
  end.

(** A whole scan: the records the cursor of [Scan] yields.  Modelled
    from the spec: the cursor holds the guard that [Scan] moved into it
    and, "if this node was the last in scan range, release the node's S
    lock, release the guard, false": the guard is released with the call
    of [HasNext] that ends the scan. *)
Definition ScanAll (fuel : nat) (t : BTree) (begin_key end_key : ScanKey)
  : option (list (Key * Payload) * BTree) :=
  match Scan fuel t begin_key end_key with
  | None => None
  | Some (it, t1) =>
      (λ '(out, h, _), (out, ReleaseEpochGuard (set_heap t1 h)))
        <$> drain fuel (heap t1) it
  end.

End Scan.

(** * Bulk loading *)

Section Bulk.
Context {cfg : Params}.

(** The loop of [ConstructSingleLayer], "load child nodes into parent
    nodes": one node per round, each round consumes entries. *)
Fixpoint ConstructSingleLayer_loop {E} `{BulkEntry E} (fuel : nat) (t : BTree)
    (entries : list E) (prev_node : option ptr) (nodes : list (Key * ptr))
  : option (list (Key * ptr) * BTree) :=
  match entries with
  | [] => Some (nodes, t)
  | _ :: _ =>
      match fuel with
      | 0 => None
      | S fuel' =>
          let '(node, t1) := GetNodePage t (Node_new entry_is_inner) in
          match Node_Bulkload (heap t1) node entries prev_node nodes with
          | None => None
          | Some (h, rest, nodes') =>
              ConstructSingleLayer_loop fuel' (set_heap t1 h) rest (Some node) nodes'
          end
      end
  end.

Definition ConstructSingleLayer {E} `{BulkEntry E} (t : BTree) (entries : list E)
  : option (list (Key * ptr) * BTree) :=
  ConstructSingleLayer_loop (length entries) t entries None [].

(** The loop of [BulkloadWithSingleThread], "construct index layers". *)
Fixpoint BulkloadWithSingleThread_loop (fuel : nat) (t : BTree)
    (nodes : list (Key * ptr)) (height : nat)
  : option (nat * list (Key * ptr) * BTree) :=
  if length nodes <=? kInnerNodeCap then Some (height, nodes, t)
  else
    match fuel with
    | 0 => None
    | S fuel' =>
        match ConstructSingleLayer t nodes with
        | None => None
        | Some (nodes', t1) => BulkloadWithSingleThread_loop fuel' t1 nodes' (S height)
        end
    end.

Definition BulkloadWithSingleThread (t : BTree) (entries : list (Key * Payload))
  : option (nat * list (Key * ptr) * BTree) :=
  match ConstructSingleLayer t entries with
  | None => None
  | Some (nodes, t1) => BulkloadWithSingleThread_loop (length nodes) t1 nodes 1
  end.

(** "create threads to construct partial trees": worker [i] of
    [thread_num] loads [(rec_num + i) / thread_num] entries.  The
    workers touch disjoint pages, so they are run one after the other. *)
Fixpoint load_partial_trees (workers : nat) (i : nat) (rec_num thread_num : nat)
    (t : BTree) (entries : list (Key * Payload))
  : option (list (nat * list (Key * ptr)) * BTree) :=
  match workers with
  | 0 => Some ([], t)
  | S workers' =>
      let n := (rec_num + i) / thread_num in
      match BulkloadWithSingleThread t (take n entries) with
      | None => None
      | Some (height, nodes, t1) =>
          (λ '(rest, t2), ((height, nodes) :: rest, t2))
            <$> load_partial_trees workers' (S i) rec_num thread_num t1 (drop n entries)
      end
  end.

(** "align the height of partial trees": the inner while loop. *)
Fixpoint align_height (gap : nat) (t : BTree) (p_nodes : list (Key * ptr))
  : option (list (Key * ptr) * BTree) :=
  match gap with
  | 0 => Some (p_nodes, t)
  | S gap' =>
      match ConstructSingleLayer t p_nodes with
      | None => None
      | Some (p_nodes', t1) => align_height gap' t1 p_nodes'
      end
  end.

(** The loop over the partial trees: align, append, link. *)
Fixpoint link_partial_trees (fuel : nat) (height : nat) (t : BTree)
    (partial_trees : list (nat * list (Key * ptr)))
    (nodes : list (Key * ptr)) (prev_node : option ptr)
  : option (list (Key * ptr) * BTree) :=
  match partial_trees with
  | [] => Some (nodes, t)
  | (p_height, p_nodes) :: rest =>
      match align_height (height - p_height) t p_nodes with
      | None => None
      | Some (p_nodes', t1) =>
          match head p_nodes', list.last p_nodes' with
          | Some front, Some back =>
              let linked :=
                match prev_node with
                | Some prev =>
                    Node_LinkVerticalBorderNodes fuel (heap t1) prev (snd front)
                | None => Some (heap t1)
                end in
              match linked with
              | None => None
              | Some h =>
                  link_partial_trees fuel height (set_heap t1 h) rest
                    (nodes ++ p_nodes') (Some (snd back))
              end
          | _, _ => None
          end
      end
  end.

(** "create upper layers until a root node is created". *)
Fixpoint build_upper_layers (fuel : nat) (t : BTree) (nodes : list (Key * ptr))
  : option (list (Key * ptr) * BTree) :=
  if length nodes <=? 1 then Some (nodes, t)
  else
    match fuel with
    | 0 => None
    | S fuel' =>
        match ConstructSingleLayer t nodes with
        | None => None
        | Some (nodes', t1) => build_upper_layers fuel' t1 nodes'
        end
    end.

Definition max_height (partial_trees : list (nat * list (Key * ptr))) : nat :=
  foldl (λ height p, if height <? fst p then fst p else height) 1 partial_trees.

Definition Bulkload (t : BTree) (entries : list (Key * Payload)) (thread_num : nat)
  : option (ReturnCode * BTree) :=
  if bool_decide (entries = []) then Some (kSuccess, t)
  else
    let rec_num := length entries in
    let built :=
      if (thread_num <=? 1) || (rec_num <? thread_num) then
        (* bulkloading with a single thread *)
        (λ '(_, nodes, t1), (nodes, t1)) <$> BulkloadWithSingleThread t entries
      else
        (* bulkloading with multi-threads *)
        match load_partial_trees thread_num 0 rec_num thread_num t entries with
        | None => None
        | Some (partial_trees, t1) =>
            link_partial_trees (max_height partial_trees) (max_height partial_trees)
              t1 partial_trees [] None
        end in
    match built with
    | None => None
    | Some (nodes, t1) =>
        (* create upper layers until a root node is created *)
        match build_upper_layers (length nodes) t1 nodes with
        | None => None
        | Some (nodes', t2) =>
            match head nodes' with
            | None => None
            | Some (_, root) =>
                (* the assignment to the atomic root is a sequentially
                   consistent store, and the root passed to
                   RemoveLeftmostKeys is read back from it *)
                let t3 := root_store memory_order_seq_cst root t2 in
                let '(r, t4) := root_load memory_order_seq_cst t3 in
                (λ h, (kSuccess, set_heap t4 h)) <$> Node_RemoveLeftmostKeys (heap t4) r
            end
        end
    end.

End Bulk.

(** * The shape of a well-formed tree *)

(** Key ranges are half-open intervals whose ends are keys or infinite. *)
Inductive Bound := NegInf | Fin (k : Key) | PosInf.
Arguments Fin k%_Z.

Definition blt (a b : Bound) : Prop :=
  match a, b with
  | NegInf, NegInf => False
  | NegInf, _ => True
  | Fin x, Fin y => (x < y)%Z
  | Fin _, PosInf => True
  | _, _ => False
  end.

Definition ble (a b : Bound) : Prop :=
  match a, b with
  | NegInf, _ => True
  | Fin x, Fin y => (x ≤ y)%Z
  | _, PosInf => True
  | _, _ => False
  end.

Definition lo_of (k : option Key) : Bound :=
  match k with Some k => Fin k | None => NegInf end.

Definition hi_of (k : option Key) : Bound :=
  match k with Some k => Fin k | None => PosInf end.

Definition in_range (lo : Bound) (K : Key) (hi : Bound) : Prop :=
  ble lo (Fin K) ∧ blt (Fin K) hi.

(** Keys that increase strictly and lie in the range. *)
Fixpoint keys_in (lo : Bound) (ks : list Key) (hi : Bound) : Prop :=
  match ks with
  | [] => True
  | k :: ks' => ble lo (Fin k) ∧ blt (Fin k) hi ∧ keys_in (Fin (k + 1)) ks' hi
  end.

(** The ghost description of a tree: for every node that belongs to it,
    its level (leaves are at level 0) and the lower end of its range. *)
Definition Ghost := ptr → option (nat * Bound).

(** The children of one inner node: each child is a node of the level
    below, the ranges of the children tile the range of the parent, the
    routing key of a record is the lower end of its child, and each child
    but the last points to the next one. *)
Fixpoint chain_ok (h : list Node) (g : Ghost) (lvl : nat) (lo : Bound)
    (cs : list InnerRec) (hi : Bound) (nx : option ptr) : Prop :=
  match cs with
  | [] => False
  | c :: cs' =>
      (∃ n, h !! child c = Some n ∧
            hi_of (high_key n) = match cs' with
                                 | [] => hi
                                 | c' :: _ => lo_of (sep_key c')
                                 end ∧
            next n = match cs' with
                     | [] => nx
                     | c' :: _ => Some (child c')
                     end) ∧
      g (child c) = Some (lvl, lo) ∧
      match cs' with
      | [] => True
      | c' :: _ => chain_ok h g lvl (lo_of (sep_key c')) cs' hi nx
      end
  end.

(** The routing key of the leftmost record is the lower end of the node,
    unless the node is leftmost on its level: then it is not looked at. *)
Definition head_key_ok (lo : Bound) (cs : list InnerRec) : Prop :=
  match cs with
  | c :: _ => lo_of (sep_key c) = lo ∨ lo = NegInf
  | [] => False
  end.

Definition node_ok (g : Ghost) (h : list Node) (H : nat)
    (lvl : nat) (lo : Bound) (n : Node) : Prop :=
  is_removed n = false ∧
  blt lo (hi_of (high_key n)) ∧
  lvl ≤ H ∧
  match next n with
  | Some q => g q = Some (lvl, hi_of (high_key n))
  | None => high_key n = None
  end ∧
  match records n with
  | LeafRecords rs => lvl = 0 ∧ keys_in lo (rec_key <$> rs) (hi_of (high_key n))
  | InnerRecords cs =>
      ∃ lvl' nx, lvl = S lvl' ∧
        chain_ok h g lvl' lo cs (hi_of (high_key n)) nx ∧ head_key_ok lo cs
  end.

Definition has_parent (g : Ghost) (h : list Node) (root p : ptr) : Prop :=
  p = root ∨
  ∃ q lq bq nq, g q = Some (lq, bq) ∧ h !! q = Some nq ∧
                p ∈ child <$> inner_records nq.

(** The invariant: [g] describes a tree of height [H] rooted at [root]. *)
Record inv (g : Ghost) (h : list Node) (root : ptr) (H : nat) : Prop := mkInv {
  inv_root : g root = Some (H, NegInf);
  inv_root_hi : ∃ nr, h !! root = Some nr ∧ high_key nr = None;
  inv_nodes : ∀ p lvl lo, g p = Some (lvl, lo) →
                ∃ n, h !! p = Some n ∧ node_ok g h H lvl lo n;
  inv_parent : ∀ p lvl lo, g p = Some (lvl, lo) → has_parent g h root p
}.

Definition wf (t : BTree) : Prop := ∃ g H, inv g (heap t) (root_ t) H.

(** The leaf whose range covers a key. *)
Definition leaf_for (g : Ghost) (h : list Node) (K : Key) (p : ptr) (n : Node) : Prop :=
  ∃ lo, g p = Some (0, lo) ∧ h !! p = Some n ∧ in_range lo K (hi_of (high_key n)).

(** A key of a range that is not empty. *)
Definition pick (lo hi : Bound) : Key :=
  match lo, hi with
  | Fin k, _ => k
  | _, Fin k => (k - 1)%Z
  | _, _ => 0%Z
  end.

(** * Children of an inner node *)

(** Every node of the tree covers a range that is not empty. *)
Definition ranges_ok (g : Ghost) (h : list Node) : Prop :=
  ∀ p lvl lo n, g p = Some (lvl, lo) → h !! p = Some n → blt lo (hi_of (high_key n)).

Section SearchDefs.
Context {cfg : Params}.

Definition log_load (mo : memory_order) (t : BTree) : BTree := snd (root_load mo t).

End SearchDefs.

Section FrameDefs.
Context {cfg : Params}.

(** ** The stack of a descent *)

(** The stack below a node: its parent, the parent of the parent, and so
    on up to the root. *)
Fixpoint anc_path (g : Ghost) (h : list Node) (root : ptr) (lvl : nat)
    (x : ptr) (stack : list ptr) : Prop :=
  match stack with
  | [] => x = root
  | p :: rest =>
      (∃ lo n, g p = Some (S lvl, lo) ∧ h !! p = Some n ∧
               x ∈ child <$> inner_records n) ∧
      anc_path g h root (S lvl) p rest
  end.

End FrameDefs.

(** * Splits *)
Definition gset (g : Ghost) (p : ptr) (x : nat * Bound) : Ghost :=
  λ q, if decide (q = p) then Some x else g q.

Definition gdel (g : Ghost) (p : ptr) : Ghost :=
  λ q, if decide (q = p) then None else g q.

(** The records of a parent once the entry of a new right sibling is in. *)
Definition with_child (cs : list InnerRec) (sep : Key) (Y : ptr) : list InnerRec :=
  insert_at (S (child_pos sep cs)) (mkInnerRec (Some sep) Y) cs.

Definition same_link (n n' : Node) : Prop :=
  is_removed n' = is_removed n ∧ high_key n' = high_key n ∧ next n' = next n.

(** The state between the split of a node [X] into [X] and [Y] and the
    arrival of the entry of [Y] in the parent: the tree is well-formed
    as soon as the parent holds the entry, or, when [X] is the root, as
    soon as a new root holds both. *)
Definition pending (g : Ghost) (h : list Node) (root : ptr) (H lvl : nat)
    (X Y : ptr) (sep : Key) : Prop :=
  (∃ lo, g X = Some (lvl, lo)) ∧ g Y = Some (lvl, Fin sep) ∧
  (X = root →
     inv (gset g (length h) (S H, NegInf)) (h ++ [Node_new_root sep X Y])
       (length h) (S H)) ∧
  (X ≠ root →
     ∀ P lo_P nP nP', g P = Some (S lvl, lo_P) → h !! P = Some nP →
       X ∈ child <$> inner_records nP → same_link nP nP' →
       records nP' = InnerRecords (with_child (inner_records nP) sep Y) →
       inv g (<[P := nP']> h) root H).

Section SplitDefs.
Context {cfg : Params}.

(** What a split must establish for the two halves. *)
Definition split_halves (lo : Bound) (sep : Key) (nX nX' nY' : Node) : Prop :=
  match records nX with
  | LeafRecords _ =>
      ∃ l1 l2, records nX' = LeafRecords l1 ∧ records nY' = LeafRecords l2 ∧
               keys_in lo (rec_key <$> l1) (Fin sep) ∧
               keys_in (Fin sep) (rec_key <$> l2) (hi_of (high_key nX))
  | InnerRecords cs =>
      ∃ l1 c l2, cs = l1 ++ c :: l2 ∧ l1 ≠ [] ∧ sep_key c = Some sep ∧
                 records nX' = InnerRecords l1 ∧ records nY' = InnerRecords (c :: l2)
  end.

End SplitDefs.

(** * Completing a split *)

Section CompleteDefs.
Context {cfg : Params}.

(** No inner node holds more records than a page has room for. *)
Definition caps_ok (h : list Node) : Prop :=
  ∀ p n, h !! p = Some n → length (inner_records n) ≤ kMaxRecNum.

(** Routing keys that increase strictly above a bound. *)
Fixpoint seps_above (lo : Bound) (cs : list InnerRec) : Prop :=
  match cs with
  | [] => True
  | c :: cs' => ∃ k, sep_key c = Some k ∧ blt lo (Fin k) ∧ seps_above (Fin k) cs'
  end.

(** Every node that the ghost names is a page. *)
Definition bounded (g : Ghost) (h : list Node) : Prop :=
  ∀ p x, g p = Some x → p < length h.

(** ** [CompleteSplit]

    The split of a node is completed by one pass up the stack of its
    ancestors: the entry of the new node is inserted into the parent; a
    full parent is split in turn; a split root gets a new root above it. *)

(** The accesses to the root pointer of a split that is completed:
    those of a lost root split, if there was one ([lost]), and nothing
    more unless the tree grows; a tree that grows gets its new root by
    one relaxed load and one release store. *)
Definition root_grown (t : BTree) (lost : list RootAccess) (H : nat)
    (t' : BTree) (H' : nat) : Prop :=
  if decide (H' = H) then root_ t' = root_ t ∧ root_trace t' = root_trace t ++ lost
  else root_trace t' =
         root_trace t ++ lost ++ [RootLoad memory_order_relaxed;
                                  RootStore memory_order_release (root_ t')].

(** A root split that is lost: the root is read with relaxed ordering
    and found to be another node, then read again, with acquire
    ordering, by the search for the parent. *)
Definition lost_root_split : list RootAccess :=
  [RootLoad memory_order_relaxed; RootLoad memory_order_acquire].

End CompleteDefs.

(** * The records of a tree *)

(** What a tree holds for a key: the payload of the live record of the key
    in the leaf that covers it. *)
Definition holds (g : Ghost) (h : list Node) (K : Key) (v : option Payload) : Prop :=
  ∃ p n, leaf_for g h K p n ∧ rec_payload <$> find_live K (leaf_records n) = v.

(** The same, for a tree with some ghost description. *)
Definition stores (t : BTree) (K : Key) (v : option Payload) : Prop :=
  ∃ g H, inv g (heap t) (root_ t) H ∧ holds g (heap t) K v.

(** A tree of height [H] whose inner nodes fit their pages. *)
Definition tree_ok {cfg : Params} (t : BTree) (H : nat) : Prop :=
  (∃ g, inv g (heap t) (root_ t) H) ∧ caps_ok (heap t).

(** The state an operation leaves that touches nothing: the guard is
    released again, the load of the root is in the trace. *)
Definition observed (t : BTree) : BTree :=
  mkBTree (heap t) (root_ t) (gc_garbage t) (gc_guards t)
    (root_trace t ++ [RootLoad memory_order_acquire]).

Section WriteDefs.
Context {cfg : Params}.

(** ** Splitting a full leaf *)

(** The leaf [q], which held the records of [n], has been split for the
    record of [K]: its live records and the new one are divided between
    the leaf and a new page, its right sibling. *)
Definition leaf_split (t : BTree) (q : ptr) (n : Node) (K : Key) (V : Payload)
    (t' : BTree) : Prop :=
  ∃ nq nr,
    heap t' !! q = Some nq ∧ heap t' !! length (heap t) = Some nr ∧
    IsInner nq = false ∧ IsInner nr = false ∧
    leaf_records nq ++ leaf_records nr = put_record K V (live (leaf_records n)) ∧
    leaf_records nq ≠ [] ∧ leaf_records nr ≠ [] ∧
    high_key nq = rec_key <$> head (leaf_records nr) ∧ next nq = Some (length (heap t)) ∧
    high_key nr = high_key n ∧ next nr = next n.

End WriteDefs.

(** ** The merge of two siblings *)

Section MergeDefs.
Context {cfg : Params}.

(** The records of the merged node. *)
Definition merged_records (nl nr : Node) : Records :=
  match records nl, records nr with
  | LeafRecords rs, LeafRecords rs' => LeafRecords (rs ++ live rs')
  | InnerRecords cs, InnerRecords cs' => InnerRecords (cs ++ cs')
  | _, _ => records nl
  end.

End MergeDefs.

(** The lower end of a scan range as a bound. *)
Definition begin_bound (b : ScanKey) : Bound :=
  match b with
  | None => NegInf
  | Some (k, true) => Fin k
  | Some (k, false) => Fin (k + 1)
  end.

(** ** The leaves right of a leaf *)
Definition bltb (a b : Bound) : bool :=
  match a, b with
  | NegInf, NegInf => false
  | NegInf, _ => true
  | Fin x, Fin y => (x <? y)%Z
  | Fin _, PosInf => true
  | _, _ => false
  end.

Definition is_right (g : Ghost) (lo : Bound) (q : ptr) : bool :=
  match g q with
  | Some (0, lo') => bltb lo lo'
  | _ => false
  end.

(** The number of leaves that start right of [lo]: the hops a cursor at
    a leaf that starts at [lo] can still make. *)
Definition rank (g : Ghost) (n : nat) (lo : Bound) : nat :=
  length (filter (λ q, is_right g lo q = true) (seq 0 n)).

Section ScanDefs.
Context {cfg : Params}.

(** ** The cursor *)

(** The cursor sits in a leaf of the tree with the end position and the
    flag of that leaf; the records left of its position are below [cur],
    the others are not. *)
Definition cursor_ok (g : Ghost) (h : list Node) (e : ScanKey) (it : RecordIterator)
    (cur lo : Bound) (n : Node) : Prop :=
  g (node_ it) = Some (0, lo) ∧ h !! node_ it = Some n ∧ end_key_ it = e ∧
  end_pos_ it = count_before_end e (leaf_records n) ∧
  is_end_ it = (Node_SearchEndPositionFor n e).1 ∧
  ble lo cur ∧ ble cur (hi_of (high_key n)) ∧
  ∀ i r, leaf_records n !! i = Some r →
    if decide (i < pos_ it) then blt (Fin (rec_key r)) cur else ble cur (Fin (rec_key r)).

End ScanDefs.

(** * The pages of a bulk-loaded layer *)

(** The entries of a layer, cut into the runs that go to one page
    each. *)
Fixpoint chunks {A} (fuel cap : nat) (l : list A) : list (list A) :=
  match fuel, l with
  | S fuel', _ :: _ => take cap l :: chunks fuel' cap (drop cap l)
  | _, _ => []
  end.

Section LayerDefs.
Context {cfg : Params}.
Context {E : Type} `{!BulkEntry E}.

(** The key a page is entered under in the layer above: the key of its
    first entry. *)
Definition chunk_key (c : list E) : Key :=
  match c with
  | e :: _ => entry_key e
  | [] => 0%Z
  end.

(** The page of a run of entries: it is linked to the page of the next
    run, whose first key is its high key. *)
Definition page_of (c : list E) (rest : list (list E)) (base : ptr) : Node :=
  mkNode false 0 0
    (match rest with c' :: _ => Some (chunk_key c') | [] => None end)
    (match rest with _ :: _ => Some (S base) | [] => None end)
    (entry_records c).

Fixpoint layer_pages (base : ptr) (cs : list (list E)) : list Node :=
  match cs with
  | [] => []
  | c :: rest => page_of c rest base :: layer_pages (S base) rest
  end.

Fixpoint layer_entries (base : ptr) (cs : list (list E)) : list (Key * ptr) :=
  match cs with
  | [] => []
  | c :: rest => (chunk_key c, base) :: layer_entries (S base) rest
  end.

End LayerDefs.

(** * Forests of bulk-loaded pages *)

(** While a tree is loaded the pages form a forest: every page is
    well-formed, the pages of the top layers have no parent yet and
    every other page has one parent. *)
Definition is_parent (g : Ghost) (h : list Node) (q x : ptr) : Prop :=
  ∃ lq bq nq, g q = Some (lq, bq) ∧ h !! q = Some nq ∧ x ∈ child <$> inner_records nq.

Record forest (g : Ghost) (h : list Node) (H : nat) (tops : ptr → Prop) : Prop := mkForest {
  fr_nodes : ∀ p lvl lo, g p = Some (lvl, lo) →
               ∃ n, h !! p = Some n ∧ node_ok g h H lvl lo n;
  fr_parent : ∀ p x, g p = Some x → tops p ∨ ∃ q, is_parent g h q p;
  fr_unique : ∀ x q q', is_parent g h q x → is_parent g h q' x → q = q';
  fr_free : ∀ x q, tops x → ¬ is_parent g h q x;
  fr_tops : ∀ x, tops x → x < length h
}.

(** The routing records of node entries. *)
Definition to_inner (nodes : list (Key * ptr)) : list InnerRec :=
  map (λ e, mkInnerRec (Some (fst e)) (snd e)) nodes.

Section LayerAtDefs.
Context {cfg : Params}.
Context {E : Type} `{!BulkEntry E}.

Definition next_lo (lo : Bound) (rest : list (list E)) : Bound :=
  match rest with
  | c' :: _ => Fin (chunk_key c')
  | [] => lo
  end.

Definition next_hi (hi : Bound) (rest : list (list E)) : Bound :=
  match rest with
  | c' :: _ => Fin (chunk_key c')
  | [] => hi
  end.

(** The pages of a layer are in the heap and in the ghost state. *)
Fixpoint layer_at (g : Ghost) (h : list Node) (lvl : nat) (lo : Bound) (base : ptr)
    (cs : list (list E)) : Prop :=
  match cs with
  | [] => True
  | c :: rest =>
      h !! base = Some (page_of c rest base) ∧ g base = Some (lvl, lo) ∧
      layer_at g h lvl (next_lo lo rest) (S base) rest
  end.

Fixpoint layer_ghost (g : Ghost) (lvl : nat) (lo : Bound) (base : ptr)
    (cs : list (list E)) : Ghost :=
  match cs with
  | [] => g
  | c :: rest => gset (layer_ghost g lvl (next_lo lo rest) (S base) rest) base (lvl, lo)
  end.

(** What makes the page of a run well-formed. *)
Definition page_ok (g : Ghost) (h : list Node) (H lvl : nat) (lo : Bound)
    (c : list E) (hi : Bound) : Prop :=
  blt lo hi ∧ lvl ≤ H ∧
  match entry_records c with
  | LeafRecords rs => lvl = 0 ∧ keys_in lo (rec_key <$> rs) hi
  | InnerRecords cs =>
      ∃ lvl' nx, lvl = S lvl' ∧ chain_ok h g lvl' lo cs hi nx ∧ head_key_ok lo cs
  end.

Fixpoint pages_ok (g : Ghost) (h : list Node) (H lvl : nat) (lo : Bound)
    (cs : list (list E)) : Prop :=
  match cs with
  | [] => True
  | c :: rest =>
      page_ok g h H lvl lo c (next_hi PosInf rest) ∧
      pages_ok g h H lvl (next_lo lo rest) rest
  end.

Definition kids_of (c : list E) : list ptr :=
  child <$> match entry_records c with
            | InnerRecords cs => cs
            | LeafRecords _ => []
            end.

End LayerAtDefs.

(** * The partial trees of a bulk load *)

(** The right border of a partial tree: the last page of a layer, then
    its last child, down to a leaf.  The pages are open to the right and
    hold keys below [ub]. *)
Fixpoint rspine (g : Ghost) (h : list Node) (lb ub : Bound) (lvl : nat) (p : ptr) : Prop :=
  ∃ lo n, g p = Some (lvl, lo) ∧ h !! p = Some n ∧ ble lb lo ∧ blt lo ub ∧
          high_key n = None ∧
    match lvl with
    | 0 => keys_in lo (rec_key <$> leaf_records n) ub
    | S lvl' => ∃ c, list.last (inner_records n) = Some c ∧ rspine g h lb ub lvl' (child c)
    end.

(** The left border: the first page of a layer, then its first child,
    down to a leaf.  The pages start at the first key of the partial
    tree. *)
Fixpoint lspine (g : Ghost) (h : list Node) (k : Key) (lvl : nat) (p : ptr) : Prop :=
  ∃ n, g p = Some (lvl, Fin k) ∧ h !! p = Some n ∧ lowest_key n = Some k ∧
    match lvl with
    | 0 => True
    | S lvl' => ∃ c, head (inner_records n) = Some c ∧ lspine g h k lvl' (child c)
    end.

(** A partial tree: the pages of its top layer with their borders. *)
Record group (g : Ghost) (h : list Node) (lo ub : Bound) (L : nat)
    (nodes : list (Key * ptr)) : Prop := mkGroup {
  gr_chain : chain_ok h g L lo (to_inner nodes) PosInf None;
  gr_rspine : ∃ e, list.last nodes = Some e ∧ rspine g h lo ub L (snd e);
  gr_lspine : lo = NegInf ∨
              ∃ k e, lo = Fin k ∧ head nodes = Some e ∧ fst e = k ∧ lspine g h k L (snd e)
}.

(** Pages right of [lb] keep their place. *)
Definition kept (lb : Bound) (g g' : Ghost) (h h' : list Node) : Prop :=
  ∀ p l b, g p = Some (l, b) → ble lb b → g' p = Some (l, b) ∧ h' !! p = h !! p.

(** ** What the leaves hold *)
Definition leaves_from (g : Ghost) (h : list Node) (es : list (Key * Payload)) : Prop :=
  ∀ p lo n r, g p = Some (0, lo) → h !! p = Some n → r ∈ leaf_records n →
    rec_deleted r = false ∧ (rec_key r, rec_payload r) ∈ es.

Definition leaves_have (g : Ghost) (h : list Node) (es : list (Key * Payload)) : Prop :=
  ∀ e, e ∈ es → ∃ p lo n, g p = Some (0, lo) ∧ h !! p = Some n ∧
                          mkLeafRec (fst e) (snd e) false ∈ leaf_records n.

(** The pages keep their records. *)
Definition same_records (g g' : Ghost) (h h' : list Node) : Prop :=
  (∀ p x, g p = Some x → g' p = Some x) ∧
  (∀ p x n, g p = Some x → h !! p = Some n →
     ∃ n', h' !! p = Some n' ∧ leaf_records n' = leaf_records n) ∧
  (∀ p lo, g' p = Some (0, lo) → g p = Some (0, lo)).

(** * Loading a partial tree *)

(** Pages are added at the end of the heap: the old ones stay, the new
    ones are at level [lmin] or above and right of [lo]. *)
Record grown (lmin : nat) (lo : Bound) (g g' : Ghost) (h h' : list Node) : Prop := mkGrown {
  gw_heap : ∃ pages, h' = h ++ pages;
  gw_old : ∀ p, p < length h → g' p = g p;
  gw_new : ∀ p l b, g' p = Some (l, b) → length h ≤ p → lmin ≤ l ∧ ble lo b
}.

Section PartialDefs.
Context {cfg : Params}.

(** The pages of a partial tree with its top layer. *)
Definition tops_with (T : ptr → Prop) (nodes : list (Key * ptr)) : ptr → Prop :=
  λ p, T p ∨ p ∈ snd <$> nodes.

Definition tops_without (T : ptr → Prop) (nodes : list (Key * ptr)) : ptr → Prop :=
  λ p, T p ∧ p ∉ snd <$> nodes.

(** [build_upper_layers] with the height it builds. *)
Fixpoint upper_layers (fuel : nat) (t : BTree) (nodes : list (Key * ptr)) (height : nat)
  : option (nat * list (Key * ptr) * BTree) :=
  if length nodes <=? 1 then Some (height, nodes, t)
  else
    match fuel with
    | 0 => None
    | S fuel' =>
        match ConstructSingleLayer t nodes with
        | None => None
        | Some (nodes', t1) => upper_layers fuel' t1 nodes' (S height)
        end
    end.

End PartialDefs.

(** * Linking the borders of two partial trees *)

(** The pairs of pages that are linked: a page of the right border of
    the left tree and the page of the left border of the right tree at
    the same level. *)
Fixpoint spine_pairs (h : list Node) (lvl : nat) (l r : ptr) : list (ptr * ptr) :=
  (l, r) ::
  match lvl with
  | 0 => []
  | S lvl' =>
      match h !! l ≫= last_child, h !! r ≫= first_child with
      | Some l', Some r' => spine_pairs h lvl' l' r'
      | _, _ => []
      end
  end.

(** * Bulk loading *)

(** ** The shares of the workers *)

(** The number of entries of the workers [i], [i + 1], ... *)
Fixpoint shares (workers i rec_num thread_num : nat) : nat :=
  match workers with
  | 0 => 0
  | S workers' => (rec_num + i) / thread_num + shares workers' (S i) rec_num thread_num
  end.

(** ** The partial trees *)
Definition all_tops (parts : list (nat * list (Key * ptr))) : list ptr :=
  concat ((λ part : nat * list (Key * ptr), snd <$> snd part) <$> parts).

(** The partial trees cover adjacent ranges of keys; the last one is
    open to the right. *)
Fixpoint partials_ok (g : Ghost) (h : list Node) (H : nat) (lo : Bound)
    (parts : list (nat * list (Key * ptr))) : Prop :=
  match parts with
  | [] => lo = PosInf
  | part :: rest =>
      ∃ L ub, fst part = S L ∧ L ≤ H ∧ group g h lo ub L (snd part) ∧
              partials_ok g h H ub rest
  end.

Section BulkDefs.
Context {cfg : Params}.

Definition next_bound (es : list (Key * Payload)) : Bound :=
  match es with
  | [] => PosInf
  | e :: _ => Fin (fst e)
  end.

(** ** Linking the partial trees *)

(** The partial trees that are linked already: none, or one tree that
    starts at the smallest key. *)
Definition acc_ok (g : Ghost) (h : list Node) (L : nat) (acc : list (Key * ptr))
    (prev : option ptr) (lo : Bound) : Prop :=
  (acc = [] ∧ prev = None ∧ lo = NegInf) ∨
  (group g h NegInf lo L acc ∧ prev = snd <$> list.last acc).

(** ** The bulk-loaded tree *)
Definition no_ghost : Ghost := λ _, None.

End BulkDefs.

(** * The interface of the tree *)

(** The constants of the examples: pages of four records that ask for a
    merge below two. *)
Definition cfg4 : Params := mkParams 4 2 3 3.

Section InterfaceDefs.
Context {cfg : Params}.

(** The ghost of the tree the constructor builds: one leaf that covers
    every key. *)
Definition ghost_new : Ghost := λ p, if decide (p = 0) then Some (0, NegInf) else None.

(** A tree that is one leaf. *)
Definition leaf_tree (rs : list LeafRec) : BTree :=
  mkBTree [mkNode false 0 0 None None (LeafRecords rs)] 0 [] 0 [].

End InterfaceDefs.

(** * Bulk loading and insertion *)

(** The payload of a key in a list of entries. *)
Fixpoint assoc (K : Key) (es : list (Key * Payload)) : option Payload :=
  match es with
  | [] => None
  | e :: es' => if (fst e =? K)%Z then Some (snd e) else assoc K es'
  end.

(** "Inserted one by one": [Insert] is run on the entries in turn. *)
Fixpoint insert_all {cfg : Params} (fuel : nat) (t : BTree) (es : list (Key * Payload))
  : option BTree :=
  match es with
  | [] => Some t
  | e :: es' =>
      match Insert fuel t (fst e) (snd e) with
      | Some (_, _, _, t') => insert_all fuel t' es'
      | None => None
      end
  end.

(** * The properties of the interface *)

Section ClaimsDefs.
Context {cfg : Params}.

(** [p] is no page of the tree [t]. *)
Definition outside (t : BTree) (p : ptr) : Prop :=
  ∀ g H, inv g (heap t) (root_ t) H → g p = None.

(** The leaf [q] of [t], which held the records of [n], has been split
    for the record of [K]: its live records and the new one are divided
    between [q] and a page [r] that was no page of the tree, neither half
    is empty, and [r] has become the right sibling of [q], which ends
    where [r] begins. *)
Definition split_leaf (t : BTree) (q : ptr) (n : Node) (K : Key) (V : Payload)
    (t' : BTree) : Prop :=
  ∃ r nq nr,
    outside t r ∧ heap t' !! q = Some nq ∧ heap t' !! r = Some nr ∧
    IsInner nq = false ∧ IsInner nr = false ∧
    leaf_records nq ++ leaf_records nr = put_record K V (live (leaf_records n)) ∧
    leaf_records nq ≠ [] ∧ leaf_records nr ≠ [] ∧
    high_key nq = rec_key <$> head (leaf_records nr) ∧ next nq = Some r ∧
    high_key nr = high_key n ∧ next nr = next n.

(** The node without its version counter. *)
Definition unversioned (n : Node) : Node := set_version n 0.

(** ** The root pointer *)

(** The pages of [path], from [p] down, are inner pages with one child
    each, every one the only child of the one before, and [c], the only
    child of the last, is a leaf or has several children. *)
Fixpoint sole_chain (h : list Node) (p : ptr) (path : list ptr) (c : ptr) : Prop :=
  match path with
  | [] => p = c ∧ ∃ nc, h !! c = Some nc ∧ (GetRecordCount nc =? 1) && IsInner nc = false
  | p' :: rest =>
      p' = p ∧ ∃ n ch, h !! p = Some n ∧ records n = InnerRecords [ch] ∧
                       sole_chain h (child ch) rest c
  end.

(** The pages of [path] flagged as removed. *)
Definition retire (path : list ptr) (h : list Node) (p : ptr) : option Node :=
  (λ m, if decide (p ∈ path) then set_removed m else m) <$> h !! p.

(** ** Scans *)

(** [RecordIterator::HasNext] run in a state of the tree.  The members
    of the class are the node, the two positions, the end key and the
    flag: the call reads and writes these and the pages, it has no access
    to the reclaimer of the tree. *)
Definition HasNext_in (fuel : nat) (t : BTree) (it : RecordIterator)
  : option (bool * BTree * RecordIterator) :=
  (λ '(b, h, it'), (b, set_heap t h, it')) <$> HasNext fuel (heap t) it.

End ClaimsDefs.

(** * Examples

    The properties above at concrete trees: pages of four records, a
    leaf that is full, keys that cause a split or a merge. *)

Section ExamplesDefs.
#[local] Existing Instance cfg4.

(** A root leaf that is full. *)
Definition four : list LeafRec :=
  [mkLeafRec 1 10 false; mkLeafRec 2 20 false; mkLeafRec 3 30 false; mkLeafRec 4 40 false].

(** A leaf with a slot that is marked deleted. *)
Definition holed : list LeafRec :=
  [mkLeafRec 1 10 false; mkLeafRec 2 20 true; mkLeafRec 3 30 false].

Definition holed_cursor : RecordIterator := mkRecordIterator 0 1 3 None true.

(** A root with one child, a leaf. *)
Definition lonely_root : BTree :=
  mkBTree [mkNode false 0 0 None None (LeafRecords four);
           mkNode false 0 0 None None (InnerRecords [mkInnerRec None 0])]
    1 [] 0 [].

(** The accesses to the root pointer that the specification asks for:
    stores with release ordering, loads with acquire ordering. *)
Definition release_acquire (a : RootAccess) : Prop :=
  match a with
  | RootLoad mo => mo = memory_order_acquire
  | RootStore mo _ => mo = memory_order_release
  end.

(** Five entries, loaded by two threads. *)
Definition five : list (Key * Payload) :=
  [(1, 10); (2, 20); (3, 30); (4, 40); (5, 50)]%Z.

End ExamplesDefs.

(** * The descents and the stacks they build *)

(** [stack] lists the ancestors of [x]: its parent first, the root
    last. *)
Fixpoint parents_ok (h : list Node) (root x : ptr) (stack : list ptr) : Prop :=
  match stack with
  | [] => x = root
  | p :: rest =>
      (∃ n, h !! p = Some n ∧ x ∈ child <$> inner_records n) ∧
      parents_ok h root p rest
  end.

(** * The cursor of a scan *)

(** Modelled from the spec: [GetKey] and [GetPayload] of a node, the key
    and the payload of a slot. *)
Definition Node_GetKey (n : Node) (pos : nat) : option Key :=
  rec_key <$> leaf_records n !! pos.

Definition Node_GetPayload (n : Node) (pos : nat) : option Payload :=
  rec_payload <$> leaf_records n !! pos.

(** [GetKey] and [GetPayload] of record_iterator.hpp. *)
Definition GetKey (h : list Node) (it : RecordIterator) : option Key :=
  h !! node_ it ≫= λ n, Node_GetKey n (pos_ it).

Definition GetPayload (h : list Node) (it : RecordIterator) : option Payload :=
  h !! node_ it ≫= λ n, Node_GetPayload n (pos_ it).

(** The pages [h] are the pages [h0] with one more shared lock on the
    page [q]. *)
Definition locked_at (h0 h : list Node) (q : ptr) : Prop :=
  ∃ n, h0 !! q = Some n ∧ h = <[q := LockS n]> h0.

(** * The pages that a deletion retires *)

(** No page is added or dropped, and a page that is flagged removed
    stays flagged. *)
Definition pages_kept (h h' : list Node) : Prop :=
  length h' = length h ∧
  ∀ p n, h !! p = Some n → is_removed n = true →
    ∃ n', h' !! p = Some n' ∧ is_removed n' = true.

(** The pages handed to the garbage collector between [t] and [t'] are
    flagged removed; the guards are the same. *)
Definition retires (t t' : BTree) : Prop :=
  pages_kept (heap t) (heap t') ∧ gc_guards t' = gc_guards t ∧
  ∃ extra, gc_garbage t' = gc_garbage t ++ extra ∧
    ∀ p, p ∈ extra → ∃ n, heap t' !! p = Some n ∧ is_removed n = true.

(** * Walking the whole tree: the destructor *)

(** Modelled from the spec: [GetPayload<Node_t *>(i)] of an inner node,
    the child pointer of slot [i]. *)
Definition Node_GetChild (n : Node) (i : nat) : option ptr :=
  child <$> inner_records n !! i.

(** [DeleteChildren]: the children are deleted in the order of the
    slots, then the page of the node is released.  [released] lists the
    pages handed to [Release] so far, in that order; a page that has
    been released cannot be dereferenced any more. *)
Fixpoint DeleteChildren (fuel : nat) (h : list Node) (node : ptr) (released : list ptr)
  : option (list ptr) :=
  match fuel with
  | 0 => None
  | S fuel' =>
      if bool_decide (node ∈ released) then None
      else
        match h !! node with
        | None => None
        | Some n =>
            (if IsInner n then
               (* delete children nodes recursively *)
               foldl (λ acc i,
                        acc ≫= λ rel,
                        Node_GetChild n i ≫= λ child_node,
                        DeleteChildren fuel' h child_node rel)
                 (Some released) (seq 0 (GetRecordCount n))
             else Some released)
            ≫= λ rel, Some (rel ++ [node])
        end
  end.

(** The destructor [~BTree]: the pages it releases, in order. *)
Definition BTree_destroy (fuel : nat) (t : BTree) : option (list ptr * BTree) :=
  let '(r, t') := root_load memory_order_acquire t in
  (λ released, (released, t')) <$> DeleteChildren fuel (heap t') r [].

(** [x] is a page of the subtree of [p]: it lies at the level of [p] or
    below, and a key of its range lies in the range of [p]. *)
Definition under (g : Ghost) (h : list Node) (p x : ptr) : Prop :=
  ∃ lp bp np lx bx nx,
    g p = Some (lp, bp) ∧ h !! p = Some np ∧
    g x = Some (lx, bx) ∧ h !! x = Some nx ∧ lx ≤ lp ∧
    in_range bp (pick bx (hi_of (high_key nx))) (hi_of (high_key np)).

(** * Walking the whole tree: the statistics *)

(** One element of the statistics: the number of nodes of a level, their
    actual usage and their virtual usage. *)
Abbreviation Stat := (nat * nat * nat)%type (only parsing).

Section StatModel.
Context (GetNodeUsage : Node → nat) (kPageSize : nat).

(** The recursive [CollectStatisticalData].  The recursion changes lock
    counts only, so the record count and the children of the node are
    those of the node as it is locked here; [at] fails when the level
    lies outside the vector. *)
Fixpoint CollectStatisticalData_rec (fuel : nat) (h : list Node) (node : ptr)
    (level : nat) (stat_data : list Stat) : option (list Node * list Stat) :=
  match fuel with
  | 0 => None
  | S fuel' =>
      match h !! node with
      | None => None
      | Some n0 =>
          let n := LockS n0 in
          let h1 := <[node := n]> h in
          (* add an element for a new level *)
          let stat1 :=
            if length stat_data <=? level then stat_data ++ [(0, 0, 0)] else stat_data in
          (* add statistical data of this node *)
          match stat1 !! level with
          | None => None
          | Some (node_num, actual_usage, virtual_usage) =>
              let stat2 :=
                <[level := (S node_num, actual_usage + GetNodeUsage n,
                            virtual_usage + kPageSize)]> stat1 in
              (* collect data recursively *)
              let collected :=
                if IsInner n then
                  foldl (λ acc i,
                           acc ≫= λ '(h', st),
                           Node_GetChild n i ≫= λ child,
                           CollectStatisticalData_rec fuel' h' child (S level) st)
                    (Some (h1, stat2)) (seq 0 (GetRecordCount n))
                else Some (h1, stat2) in
              match collected with
              | None => None
              | Some (h2, stat3) =>
                  match h2 !! node with
                  | None => None
                  | Some n2 => Some (<[node := UnlockS n2]> h2, stat3)
                  end
              end
          end
      end
  end.

(** The public [CollectStatisticalData]. *)
Definition CollectStatisticalData (fuel : nat) (t : BTree) : option (list Stat * BTree) :=
  let '(node, t') := root_load memory_order_acquire t in
  (λ '(h, stat_data), (stat_data, set_heap t' h))
    <$> CollectStatisticalData_rec fuel (heap t') node 0 [].

End StatModel.

(** The pages of level [lvl] of the tree, in the order of their
    addresses. *)
Definition level_pages (g : Ghost) (h : list Node) (lvl : nat) : list ptr :=
  filter (λ p, fst <$> g p = Some lvl) (seq 0 (length h)).

(** The usage that the walk reads from the page [p]: the page holds one
    more shared lock at that time. *)
Definition usage_of (GetNodeUsage : Node → nat) (h : list Node) (p : ptr) : nat :=
  match h !! p with
  | Some n => GetNodeUsage (LockS n)
  | None => 0
  end.

(** The pages that a walk [W] has visited at depth [d]. *)
Definition at_depth (d : nat) (W : list (nat * ptr)) : list ptr :=
  snd <$> filter (λ e, e.1 = d) W.

(** The statistics [st] count the walk [W]. *)
Definition tally (u : ptr → nat) (page : nat) (W : list (nat * ptr)) (st : list Stat)
  : Prop :=
  (∀ e, e ∈ W → e.1 < length st) ∧
  ∀ d, d < length st →
    st !! d = Some (length (at_depth d W), sum_list_with u (at_depth d W),
                    length (at_depth d W) * page).

(** * More examples

    A tree of two levels: a root over two leaves of two records each,
    which the deletion of one record merges into one leaf. *)
Definition left_leaf : Node :=
  mkNode false 0 0 (Some 3%Z) (Some 1)
    (LeafRecords [mkLeafRec 1 10 false; mkLeafRec 2 20 false]).

Definition right_leaf : Node :=
  mkNode false 0 0 None None
    (LeafRecords [mkLeafRec 3 30 false; mkLeafRec 4 40 false]).

Definition top_node : Node :=
  mkNode false 0 0 None None
    (InnerRecords [mkInnerRec None 0; mkInnerRec (Some 3%Z) 1]).

Definition two_level : BTree :=
  mkBTree [left_leaf; right_leaf; top_node] 2 [] 0 [].

Definition ghost_two : Ghost :=
  λ p, match p with
       | 0 => Some (0, NegInf)
       | 1 => Some (0, Fin 3)
       | 2 => Some (1, NegInf)
       | _ => None
       end.

(** The usage of a page in the examples: 16 bytes per record. *)
Definition usage16 (n : Node) : nat := 16 * GetRecordCount n.

Section MoreExamplesDefs.
#[local] Existing Instance cfg4.

(** A tree of three levels with two inner pages of two leaves each. *)
Definition wide_tree : BTree :=
  mkBTree [mkNode false 0 0 (Some 3%Z) (Some 1)
             (LeafRecords [mkLeafRec 1 10 false; mkLeafRec 2 20 false]);
           mkNode false 0 0 (Some 5%Z) (Some 2)
             (LeafRecords [mkLeafRec 3 30 false; mkLeafRec 4 40 false]);
           mkNode false 0 0 (Some 7%Z) (Some 3)
             (LeafRecords [mkLeafRec 5 50 false; mkLeafRec 6 60 false]);
           mkNode false 0 0 None None
             (LeafRecords [mkLeafRec 7 70 false; mkLeafRec 8 80 false]);
           mkNode false 0 0 (Some 5%Z) (Some 5)
             (InnerRecords [mkInnerRec None 0; mkInnerRec (Some 3%Z) 1]);
           mkNode false 0 0 None None
             (InnerRecords [mkInnerRec (Some 5%Z) 2; mkInnerRec (Some 7%Z) 3]);
           mkNode false 0 0 None None
             (InnerRecords [mkInnerRec None 4; mkInnerRec (Some 5%Z) 5])]
    6 [] 0 [].

(** ** The cursor *)

(** The pages of [two_level] with the first leaf locked by a cursor. *)
Definition locked_pages : list Node := <[0 := LockS left_leaf]> (heap two_level).

(** A leaf with a dead slot whose shared lock a cursor holds, in a state
    in which the caller holds one guard. *)
Definition guarded_leaf : BTree :=
  mkBTree [LockS (mkNode false 0 0 None None (LeafRecords holed))] 0 [] 1 [].

(** ** Root splits that are lost *)

(** A tree of two levels whose first leaf is full. *)
Definition left_full : Node :=
  mkNode false 0 0 (Some 5%Z) (Some 1) (LeafRecords four).

Definition right_small : Node :=
  mkNode false 0 0 None None (LeafRecords [mkLeafRec 5 50 false; mkLeafRec 6 60 false]).

Definition top_five : Node :=
  mkNode false 0 0 None None (InnerRecords [mkInnerRec None 0; mkInnerRec (Some 5%Z) 1]).

Definition grown_tree : BTree := mkBTree [left_full; right_small; top_five] 2 [] 0 [].

Definition ghost_grown : Ghost :=
  λ p, match p with
       | 0 => Some (0, NegInf)
       | 1 => Some (0, Fin 5)
       | 2 => Some (1, NegInf)
       | _ => None
       end.

(** A tree of three levels: a root with one child, an inner page that is
    full, over four leaves of which the first is full. *)
Definition deep_tree : BTree :=
  mkBTree [mkNode false 0 0 (Some 10%Z) (Some 1) (LeafRecords four);
           mkNode false 0 0 (Some 20%Z) (Some 2) (LeafRecords [mkLeafRec 10 100 false]);
           mkNode false 0 0 (Some 30%Z) (Some 3) (LeafRecords [mkLeafRec 20 200 false]);
           mkNode false 0 0 None None (LeafRecords [mkLeafRec 30 300 false]);
           mkNode false 0 0 None None
             (InnerRecords [mkInnerRec None 0; mkInnerRec (Some 10%Z) 1;
                            mkInnerRec (Some 20%Z) 2; mkInnerRec (Some 30%Z) 3]);
           mkNode false 0 0 None None (InnerRecords [mkInnerRec None 4])]
    5 [] 0 [].

Definition ghost_lonely : Ghost :=
  λ p, match p with
       | 0 => Some (0, NegInf)
       | 1 => Some (1, NegInf)
       | _ => None
       end.

End MoreExamplesDefs.

(** * Lemmas and theorems *)

(** ** Bounds *)
Arguments blt : simpl never.
Arguments ble : simpl never.

Ltac bnd :=
  intros;
  repeat match goal with
         | H : in_range _ _ _ |- _ => destruct H
         | H : _ ∧ _ |- _ => destruct H
         end;
  repeat match goal with
         | b : Bound |- _ => destruct b
         | o : option Key |- _ => destruct o
         end;
  unfold in_range, blt, ble in *; simpl in *;
  try done; try congruence; try lia; try (split; simpl; (done || lia)).

Lemma blt_trans a b c : blt a b → blt b c → blt a c.
Proof. bnd. Qed.
Lemma ble_trans a b c : ble a b → ble b c → ble a c.
Proof. bnd. Qed.
Lemma blt_ble_trans a b c : blt a b → ble b c → blt a c.
Proof. bnd. Qed.
Lemma ble_blt_trans a b c : ble a b → blt b c → blt a c.
Proof. bnd. Qed.
Lemma blt_ble a b : blt a b → ble a b.
Proof. bnd. Qed.
Lemma ble_refl a : ble a a.
Proof. bnd. Qed.
Lemma blt_irrefl a : ¬ blt a a.
Proof. bnd. Qed.
Lemma hi_of_lo_of a b : hi_of a = lo_of b → ∃ k, a = Some k ∧ b = Some k.
Proof. destruct a, b; simpl; intros; try done. simplify_eq. eauto. Qed.

Lemma pick_in_range lo hi : blt lo hi → in_range lo (pick lo hi) hi.
Proof.
  unfold pick; bnd.
Qed.

(** ** Sorted keys *)
Lemma keys_in_weaken lo lo' ks hi hi' :
  ble lo' lo → ble hi hi' → keys_in lo ks hi → keys_in lo' ks hi'.
Proof.
  revert lo lo'. induction ks as [|k ks IH]; simpl; [done|].
  intros lo lo' Hlo Hhi (H1 & H2 & H3). split_and!.
  - by eapply ble_trans.
  - by eapply blt_ble_trans.
  - eapply IH; [apply ble_refl|done|done].
Qed.

Lemma keys_in_Forall lo ks hi :
  keys_in lo ks hi → Forall (λ k, in_range lo k hi) ks.
Proof.
  revert lo. induction ks as [|k ks IH]; simpl; intros lo; [constructor|].
  intros (H1 & H2 & H3). constructor; [done|].
  eapply Forall_impl; [|exact (IH _ H3)].
  intros k' [Ha Hb]. split; [|done]. eapply ble_trans; [|apply Ha].
  clear -H1. bnd.
Qed.

Lemma keys_in_app lo l1 l2 hi :
  keys_in lo (l1 ++ l2) hi ↔
  keys_in lo l1 hi ∧
  keys_in (match list.last l1 with Some k => Fin (k + 1) | None => lo end) l2 hi.
Proof.
  revert lo. induction l1 as [|k l1 IH]; intros lo; simpl.
  - tauto.
  - rewrite IH. destruct l1 as [|k' l1]; [simpl; tauto|].
    rewrite last_cons_cons.
    destruct (list.last (k' :: l1)) eqn:E; [tauto|].
    by apply last_None in E.
Qed.

(** Splitting a sorted list at one of its keys, and the converse. *)
Lemma keys_in_split lo l1 s l2 hi :
  keys_in lo (l1 ++ s :: l2) hi →
  keys_in lo l1 (Fin s) ∧ keys_in (Fin s) (s :: l2) hi.
Proof.
  revert lo. induction l1 as [|k l1 IH]; intros lo; simpl.
  - intros (?&?&?). split_and!; [done|apply ble_refl|done|done].
  - intros (H1 & H2 & H3). destruct (IH _ H3) as [Ha Hb].
    split; [|exact Hb]. split_and!; [done| |done].
    apply keys_in_Forall in H3. apply Forall_app in H3 as [_ H3].
    apply Forall_cons_1 in H3 as [[H3 _] _]. unfold ble, blt in *. lia.
Qed.

Lemma keys_in_join lo l1 s l2 hi :
  keys_in lo l1 (Fin s) → keys_in (Fin s) l2 hi →
  ble lo (Fin s) → ble (Fin s) hi →
  keys_in lo (l1 ++ l2) hi.
Proof.
  revert lo. induction l1 as [|k l1 IH]; intros lo; simpl.
  - intros _ H2 Hlo _. eapply keys_in_weaken; [exact Hlo|apply ble_refl|done].
  - intros (H1 & H2 & H3) H4 _ Hhi. split_and!; [done| |].
    + by eapply blt_ble_trans.
    + apply IH; try done. unfold ble, blt in *. lia.
Qed.

Lemma keys_in_nonempty lo k ks hi : keys_in lo (k :: ks) hi → blt lo hi.
Proof. intros (?&?&?). by eapply ble_blt_trans. Qed.

Lemma keys_in_sublist lo ks ks' hi :
  sublist ks' ks → keys_in lo ks hi → keys_in lo ks' hi.
Proof.
  intros Hs. revert lo. induction Hs as [|k l1 l2 Hs IH|k l1 l2 Hs IH]; intros lo; simpl.
  - done.
  - intros (?&?&?). split_and!; try done. by apply IH.
  - intros (?&?&?). apply IH. eapply keys_in_weaken; [|apply ble_refl|done].
    unfold ble, blt in *. destruct lo; lia.
Qed.

(** * Records of a leaf *)
Lemma find_slot_nil K : find_slot K [] = None.
Proof. done. Qed.

Lemma find_slot_cons K r rs :
  find_slot K (r :: rs) =
  if (rec_key r <? K)%Z then find_slot K rs
  else if (rec_key r =? K)%Z then Some r else None.
Proof.
  unfold find_slot. simpl. destruct (rec_key r <? K)%Z; simpl; done.
Qed.

Lemma find_live_cons K r rs :
  find_live K (r :: rs) =
  if (rec_key r <? K)%Z then find_live K rs
  else if (rec_key r =? K)%Z then (if rec_deleted r then None else Some r) else None.
Proof.
  unfold find_live. rewrite find_slot_cons.
  destruct (rec_key r <? K)%Z; [done|]. by destruct (rec_key r =? K)%Z.
Qed.

Lemma put_record_nil K V : put_record K V [] = [mkLeafRec K V false].
Proof. done. Qed.

Lemma put_record_cons K V r rs :
  put_record K V (r :: rs) =
  if (rec_key r <? K)%Z then r :: put_record K V rs
  else if (rec_key r =? K)%Z then mkLeafRec K V false :: rs
       else mkLeafRec K V false :: r :: rs.
Proof.
  unfold put_record. rewrite find_slot_cons. simpl.
  destruct (rec_key r <? K)%Z; simpl.
  - unfold insert_at. by destruct (find_slot K rs).
  - by destruct (rec_key r =? K)%Z.
Qed.

Lemma mark_deleted_cons K r rs :
  mark_deleted K (r :: rs) =
  if (rec_key r <? K)%Z then r :: mark_deleted K rs
  else if (rec_key r =? K)%Z then mkLeafRec K (rec_payload r) true :: rs
       else r :: rs.
Proof.
  unfold mark_deleted. rewrite find_slot_cons. simpl.
  destruct (rec_key r <? K)%Z; simpl.
  - by destruct (find_slot K rs).
  - by destruct (rec_key r =? K)%Z.
Qed.

Lemma insert_at_lower_bound K V rs :
  find_slot K rs = None →
  insert_at (lower_bound K rs) (mkLeafRec K V false) rs = put_record K V rs.
Proof. unfold put_record. by intros ->. Qed.

Ltac zcmp :=
  repeat match goal with
         | |- context [(?a <? ?b)%Z] => destruct (Z.ltb_spec a b)
         | |- context [(?a =? ?b)%Z] => destruct (Z.eqb_spec a b)
         | H : context [(?a <? ?b)%Z] |- _ => destruct (Z.ltb_spec a b)
         | H : context [(?a =? ?b)%Z] |- _ => destruct (Z.eqb_spec a b)
         end.

Lemma find_live_key K rs r : find_live K rs = Some r → rec_key r = K ∧ rec_deleted r = false.
Proof.
  induction rs as [|r' rs IH]; [done|]. rewrite find_live_cons.
  zcmp; try done. destruct (rec_deleted r') eqn:E; [done|]. by intros [= <-].
Qed.

Lemma find_live_elem K rs r : find_live K rs = Some r → r ∈ rs.
Proof.
  induction rs as [|r' rs IH]; [done|]. rewrite find_live_cons.
  zcmp; try done.
  - intros ?. right. by apply IH.
  - destruct (rec_deleted r'); [done|]. intros [= <-]. left.
Qed.

(** In a sorted slot array, the live record of a key is found. *)
Lemma find_live_sorted lo hi rs r :
  keys_in lo (rec_key <$> rs) hi → r ∈ rs → rec_deleted r = false →
  find_live (rec_key r) rs = Some r.
Proof.
  revert lo. induction rs as [|r' rs IH]; intros lo Hk Hin Hd.
  - by apply elem_of_nil in Hin.
  - rewrite find_live_cons. simpl in Hk. destruct Hk as (H1 & H2 & H3).
    apply elem_of_cons in Hin as [->|Hin].
    + zcmp; try lia. by rewrite Hd.
    + assert (rec_key r' < rec_key r)%Z.
      { apply keys_in_Forall in H3. rewrite list.Forall_forall in H3.
        specialize (H3 (rec_key r)). destruct H3 as [H3 _].
        - apply list_elem_of_fmap. eauto.
        - unfold ble in H3. lia. }
      zcmp; try lia. by eapply IH.
Qed.

Lemma find_live_put K V K' rs :
  find_live K' (put_record K V rs) =
  if decide (K' = K) then Some (mkLeafRec K V false) else find_live K' rs.
Proof.
  induction rs as [|r rs IH].
  - rewrite put_record_nil, find_live_cons. simpl. case_decide; zcmp; try done; lia.
  - rewrite put_record_cons. zcmp; subst; rewrite !find_live_cons; simpl.
    + rewrite IH. case_decide; zcmp; try done; lia.
    + case_decide; zcmp; try done; lia.
    + case_decide; zcmp; try done; try lia.
Qed.

Lemma find_live_mark K K' rs :
  find_live K' (mark_deleted K rs) =
  if decide (K' = K) then None else find_live K' rs.
Proof.
  induction rs as [|r rs IH].
  - by case_decide.
  - rewrite mark_deleted_cons. zcmp; subst; rewrite !find_live_cons; simpl.
    + rewrite IH. case_decide; zcmp; try done; lia.
    + case_decide; zcmp; try done; lia.
    + case_decide; zcmp; try done; try lia.
Qed.

Lemma find_live_above lo hi K rs :
  keys_in lo (rec_key <$> rs) hi → blt (Fin K) lo → find_live K rs = None.
Proof.
  destruct rs as [|r rs]; [done|]. simpl. intros (H1 & _ & _) H2.
  rewrite find_live_cons. unfold ble, blt in *. destruct lo; try done.
  zcmp; try done; lia.
Qed.

Lemma find_live_live lo hi K rs :
  keys_in lo (rec_key <$> rs) hi → find_live K (live rs) = find_live K rs.
Proof.
  revert lo. induction rs as [|r rs IH]; intros lo Hk; [done|]. unfold live in *.
  simpl in Hk. destruct Hk as (H1 & H2 & H3).
  rewrite filter_cons. case_decide as Hd.
  - rewrite !find_live_cons, (IH _ H3). done.
  - rewrite find_live_cons, (IH _ H3). zcmp; try done.
    + subst. destruct (rec_deleted r); [|done].
      eapply find_live_above; [exact H3|]. unfold blt. lia.
    + eapply find_live_above; [exact H3|]. unfold blt. lia.
Qed.

Lemma keys_put lo hi K V rs :
  keys_in lo (rec_key <$> rs) hi → in_range lo K hi →
  keys_in lo (rec_key <$> put_record K V rs) hi.
Proof.
  revert lo. induction rs as [|r rs IH]; intros lo Hk [Hl Hh].
  - simpl. done.
  - rewrite put_record_cons. simpl in Hk. destruct Hk as (H1 & H2 & H3).
    zcmp; simpl.
    + split_and!; try done. apply IH; [done|]. split; [|done]. unfold ble. lia.
    + subst. split_and!; done.
    + split_and!; try done. unfold ble. lia.
Qed.

Lemma keys_mark K rs : rec_key <$> mark_deleted K rs = rec_key <$> rs.
Proof.
  induction rs as [|r rs IH]; [done|]. rewrite mark_deleted_cons.
  zcmp; csimpl; [by rewrite IH|by subst|done].
Qed.

Lemma keys_live lo hi rs :
  keys_in lo (rec_key <$> rs) hi → keys_in lo (rec_key <$> live rs) hi.
Proof.
  apply keys_in_sublist. apply fmap_sublist. unfold live. apply sublist_filter.
Qed.

Lemma inv_ranges_ok g h root H : inv g h root H → ranges_ok g h.
Proof.
  intros Hinv p lvl lo n Hg Hp.
  destruct (inv_nodes _ _ _ _ Hinv _ _ _ Hg) as (n' & Hn' & Hok).
  simplify_eq. apply Hok.
Qed.

Lemma chain_ok_cons h g lvl lo c cs hi nx :
  chain_ok h g lvl lo (c :: cs) hi nx ↔
  (∃ n, h !! child c = Some n ∧
        hi_of (high_key n) = match cs with
                             | [] => hi
                             | c' :: _ => lo_of (sep_key c')
                             end ∧
        next n = match cs with
                 | [] => nx
                 | c' :: _ => Some (child c')
                 end) ∧
  g (child c) = Some (lvl, lo) ∧
  match cs with
  | [] => True
  | c' :: _ => chain_ok h g lvl (lo_of (sep_key c')) cs hi nx
  end.
Proof. done. Qed.

Arguments chain_ok : simpl never.

(** The chain reads only the links of the children. *)
Lemma chain_ok_ext h h' g g' lvl lo cs hi nx :
  (∀ c n, c ∈ cs → h !! child c = Some n →
     ∃ n', h' !! child c = Some n' ∧ high_key n' = high_key n ∧ next n' = next n) →
  (∀ c, c ∈ cs → g' (child c) = g (child c)) →
  chain_ok h g lvl lo cs hi nx → chain_ok h' g' lvl lo cs hi nx.
Proof.
  revert lo. induction cs as [|c cs IH]; intros lo Hh Hg; [done|].
  rewrite !chain_ok_cons. intros ((n & Hn & Hhi & Hnx) & Hgc & Hrest).
  destruct (Hh c n) as (n' & Hn' & E1 & E2); [left|done|].
  split_and!.
  - exists n'. by rewrite E1, E2.
  - rewrite Hg; [done|left].
  - destruct cs as [|c' cs]; [done|]. apply IH; [| |done].
    + intros c0 n0 Hc0. apply Hh. by right.
    + intros c0 Hc0. apply Hg. by right.
Qed.

Lemma chain_ok_app h g lvl lo l1 c l2 hi nx :
  chain_ok h g lvl lo (l1 ++ c :: l2) hi nx ↔
  match l1 with
  | [] => True
  | _ :: _ => chain_ok h g lvl lo l1 (lo_of (sep_key c)) (Some (child c))
  end ∧
  chain_ok h g lvl (match l1 with [] => lo | _ :: _ => lo_of (sep_key c) end)
    (c :: l2) hi nx.
Proof.
  revert lo. induction l1 as [|c1 l1 IH]; intros lo.
  - simpl. tauto.
  - destruct l1 as [|c2 l1].
    + simpl. rewrite (chain_ok_cons _ _ _ _ c1 (c :: l2)), (chain_ok_cons _ _ _ _ c1 []).
      tauto.
    + specialize (IH (lo_of (sep_key c2))). simpl in *.
      rewrite (chain_ok_cons _ _ _ _ c1 (c2 :: l1 ++ c :: l2)).
      rewrite (chain_ok_cons _ _ _ _ c1 (c2 :: l1)). tauto.
Qed.

(** The chain of a node whose children have ranges that are not empty:
    every child lies inside the range of the node. *)
Lemma chain_elem h g lvl lo cs hi nx c :
  ranges_ok g h → chain_ok h g lvl lo cs hi nx → c ∈ cs →
  ∃ n lo_c, h !! child c = Some n ∧ g (child c) = Some (lvl, lo_c) ∧
            ble lo lo_c ∧ ble (hi_of (high_key n)) hi.
Proof.
  intros Hr. revert lo c. induction cs as [|c0 cs IH]; intros lo c Hc Hin.
  - by apply elem_of_nil in Hin.
  - apply chain_ok_cons in Hc as ((n & Hn & Hhi & Hnx) & Hg & Hrest).
    pose proof (Hr _ _ _ _ Hg Hn) as Hne.
    destruct cs as [|c1 cs].
    + apply list_elem_of_singleton in Hin as ->. exists n, lo.
      split_and!; try done; [apply ble_refl|rewrite Hhi; apply ble_refl].
    + apply elem_of_cons in Hin as [->|Hin].
      * exists n, lo. split_and!; try done; [apply ble_refl|].
        rewrite Hhi.
        destruct (IH _ c1 Hrest) as (n1 & lo1 & Hn1 & Hg1 & Hl1 & Hh1); [left|].
        apply chain_ok_cons in Hrest as (_ & Hg1' & _). simplify_eq.
        eapply ble_trans; [|exact Hh1]. apply blt_ble. eauto.
      * destruct (IH _ c Hrest Hin) as (n1 & lo1 & Hn1 & Hg1 & Hl1 & Hh1).
        exists n1, lo1. split_and!; try done.
        eapply ble_trans; [|exact Hl1]. rewrite <- Hhi. by apply blt_ble.
Qed.

Lemma chain_head_range h g lvl lo c cs hi nx :
  chain_ok h g lvl lo (c :: cs) hi nx →
  g (child c) = Some (lvl, lo).
Proof. rewrite chain_ok_cons. tauto. Qed.

(** Routing: the child at [child_pos] is the one whose range holds the
    key. *)
Lemma chain_search h g lvl lo cs hi nx K :
  chain_ok h g lvl lo cs hi nx → in_range lo K hi →
  ∃ c n lo_c, cs !! child_pos K cs = Some c ∧ h !! child c = Some n ∧
              g (child c) = Some (lvl, lo_c) ∧ in_range lo_c K (hi_of (high_key n)).
Proof.
  unfold child_pos. revert lo. induction cs as [|c cs IH]; intros lo Hc [Hlo Hhi]; [done|].
  apply chain_ok_cons in Hc as ((n & Hn & Hh & Hnx) & Hg & Hrest).
  destruct cs as [|c' cs].
  - exists c, n, lo. simpl. rewrite Hh. done.
  - simpl. apply hi_of_lo_of in Hh as Hk. destruct Hk as (k & Hk1 & Hk2).
    rewrite Hk2 in *. simpl. destruct (Z.leb_spec k K).
    + destruct (IH (Fin k) Hrest) as (c0 & n0 & lo0 & H1 & H2 & H3 & H4).
      { split; [done|done]. }
      exists c0, n0, lo0. done.
    + exists c, n, lo. simpl. split_and!; try done. rewrite Hh. split; done.
Qed.

Lemma chain_search_unique h g lvl lo cs hi nx K c n lo_c :
  ranges_ok g h → chain_ok h g lvl lo cs hi nx →
  c ∈ cs → h !! child c = Some n → g (child c) = Some (lvl, lo_c) →
  in_range lo_c K (hi_of (high_key n)) →
  ∃ c', cs !! child_pos K cs = Some c' ∧ child c' = child c.
Proof.
  intros Hr. unfold child_pos. revert lo.
  induction cs as [|c0 cs IH]; intros lo Hc Hin Hn Hg [Hlo Hhi].
  - by apply elem_of_nil in Hin.
  - destruct cs as [|c1 cs].
    + apply list_elem_of_singleton in Hin as ->. by exists c0.
    + pose proof Hc as Hc'.
      apply chain_ok_cons in Hc as ((n0 & Hn0 & Hh0 & Hnx0) & Hg0 & Hrest).
      apply hi_of_lo_of in Hh0 as Hk. destruct Hk as (k & Hk1 & Hk2).
      simpl. rewrite Hk2 in *. simpl.
      pose proof (Hr _ _ _ _ Hg0 Hn0) as Hne0. rewrite Hk1 in Hne0. simpl in Hne0.
      destruct (decide (child c = child c0)) as [E|E].
      * rewrite E in *. simplify_eq. rewrite Hk1 in Hhi. simpl in Hhi.
        destruct (Z.leb_spec k K); [unfold blt in Hhi; lia|]. by exists c0.
      * apply elem_of_cons in Hin as [->|Hin]; [done|].
        destruct (chain_elem _ _ _ _ _ _ _ _ Hr Hrest Hin) as (n' & lo' & Hn' & Hg' & Hl' & Hh').
        simplify_eq. destruct (Z.leb_spec k K).
        -- destruct (IH _ Hrest Hin Hn Hg) as (c' & H1 & H2); [done|]. by exists c'.
        -- exfalso. clear -Hl' Hlo H. simpl in Hl'. unfold ble in *.
           destruct lo_c; try done; lia.
Qed.

(** * Descent *)

(** The pointer that ends a chain is the link of its last child. *)
Lemma chain_ok_last h g lvl lo cs hi nx c n :
  chain_ok h g lvl lo cs hi nx → list.last cs = Some c → h !! child c = Some n →
  next n = nx ∧ hi_of (high_key n) = hi.
Proof.
  revert lo. induction cs as [|c0 cs IH]; intros lo Hc Hlast Hn; [done|].
  apply chain_ok_cons in Hc as ((n0 & Hn0 & Hhi & Hnx) & Hg & Hrest).
  destruct cs as [|c1 cs].
  - simpl in Hlast. simplify_eq. done.
  - rewrite last_cons_cons in Hlast. by eapply IH.
Qed.

Section Search.
Context {cfg : Params}.

Lemma node_ok_inner g h H lvl lo n :
  node_ok g h H (S lvl) lo n →
  ∃ cs nx, records n = InnerRecords cs ∧ is_removed n = false ∧
           chain_ok h g lvl lo cs (hi_of (high_key n)) nx ∧ head_key_ok lo cs.
Proof.
  intros (Hr & _ & _ & _ & Hb). destruct (records n) as [rs|cs].
  - by destruct Hb.
  - destruct Hb as (lvl' & nx & [= <-] & Hc & Hk). by exists cs, nx.
Qed.

Lemma node_ok_leaf g h H lo n :
  node_ok g h H 0 lo n →
  ∃ rs, records n = LeafRecords rs ∧ is_removed n = false ∧
        keys_in lo (rec_key <$> rs) (hi_of (high_key n)).
Proof.
  intros (Hr & _ & _ & _ & Hb). destruct (records n) as [rs|cs].
  - destruct Hb. eauto.
  - by destruct Hb as (lvl' & nx & ? & _).
Qed.

Lemma node_ok_IsInner g h H lvl lo n :
  node_ok g h H lvl lo n → IsInner n = bool_decide (lvl ≠ 0).
Proof.
  intros (_ & _ & _ & _ & Hb). unfold IsInner. destruct (records n).
  - destruct Hb as [-> _]. done.
  - destruct Hb as (lvl' & nx & -> & _). done.
Qed.

(** The range recheck of a node that covers the key finds the node. *)
Lemma CheckKeyRange_here fuel h p n K lo :
  h !! p = Some n → is_removed n = false → in_range lo K (hi_of (high_key n)) →
  CheckKeyRange (S fuel) h p K = Some (Some p).
Proof.
  intros Hp Hrm [_ Hhi]. simpl. rewrite Hp, Hrm.
  destruct (high_key n) as [hk|]; [|done]. destruct (next n); [|done].
  simpl in Hhi. unfold blt in Hhi. destruct (Z.leb_spec hk K); [lia|done].
Qed.

(** The search for a child in a node that covers the key stays in the
    node. *)
Lemma Node_SearchChild_here fuel h p n K lo c :
  h !! p = Some n → is_removed n = false → in_range lo K (hi_of (high_key n)) →
  inner_records n !! child_pos K (inner_records n) = Some c →
  Node_SearchChild (S fuel) h p K = Some (Some p, child c).
Proof.
  intros Hp Hrm Hr Hc. unfold Node_SearchChild.
  rewrite (CheckKeyRange_here fuel h p n K lo Hp Hrm Hr), Hp, Hc. done.
Qed.

(** One step of the descent: the record that the search picks in a node
    that covers the key, and its child. *)
Lemma search_record g h root H p lvl lo n K :
  inv g h root H → g p = Some (S lvl, lo) → h !! p = Some n →
  in_range lo K (hi_of (high_key n)) →
  ∃ c nc lo_c, is_removed n = false ∧ IsInner n = true ∧
               inner_records n !! child_pos K (inner_records n) = Some c ∧
               g (child c) = Some (lvl, lo_c) ∧ h !! child c = Some nc ∧
               in_range lo_c K (hi_of (high_key nc)).
Proof.
  intros Hinv Hg Hp Hr.
  destruct (inv_nodes _ _ _ _ Hinv _ _ _ Hg) as (n' & Hn' & Hok). simplify_eq.
  destruct (node_ok_inner _ _ _ _ _ _ Hok) as (cs & nx & Hrec & Hrm & Hc & _).
  destruct (chain_search _ _ _ _ _ _ _ K Hc Hr) as (c & nc & lo_c & H1 & H2 & H3 & H4).
  exists c, nc, lo_c.
  assert (inner_records n = cs) as Ecs by (unfold inner_records; by rewrite Hrec).
  rewrite Ecs. split_and!; try done. unfold IsInner. by rewrite Hrec.
Qed.

Lemma search_step g h root H p lvl lo n K fuel :
  inv g h root H → g p = Some (S lvl, lo) → h !! p = Some n →
  in_range lo K (hi_of (high_key n)) →
  ∃ c nc lo_c, Node_SearchChild (S fuel) h p K = Some (Some p, c) ∧
               c ∈ child <$> inner_records n ∧
               g c = Some (lvl, lo_c) ∧ h !! c = Some nc ∧
               in_range lo_c K (hi_of (high_key nc)).
Proof.
  intros Hinv Hg Hp Hr.
  destruct (search_record _ _ _ _ _ _ _ _ K Hinv Hg Hp Hr)
    as (c & nc & lo_c & Hrm & _ & H1 & H2 & H3 & H4).
  exists (child c), nc, lo_c. split_and!; try done.
  - by eapply Node_SearchChild_here.
  - apply list_elem_of_fmap. exists c. split; [done|]. by eapply list_elem_of_lookup_2.
Qed.

Lemma level_unique g h root H K :
  inv g h root H →
  ∀ d p q lvl lo_p lo_q np nq,
    lvl + d = H →
    g p = Some (lvl, lo_p) → h !! p = Some np → in_range lo_p K (hi_of (high_key np)) →
    g q = Some (lvl, lo_q) → h !! q = Some nq → in_range lo_q K (hi_of (high_key nq)) →
    p = q.
Proof.
  intros Hinv. pose proof (inv_ranges_ok _ _ _ _ Hinv) as Hro.
  assert (∀ p lvl lo, g p = Some (lvl, lo) → p ≠ root →
            ∃ q lo_q nq cs nx, g q = Some (S lvl, lo_q) ∧ h !! q = Some nq ∧
              records nq = InnerRecords cs ∧
              chain_ok h g lvl lo_q cs (hi_of (high_key nq)) nx ∧
              p ∈ child <$> cs) as Hpar.
  { intros p lvl lo Hg Hne.
    destruct (inv_parent _ _ _ _ Hinv _ _ _ Hg) as [?|(q & lq & bq & nq & Hgq & Hq & Hin)]; [done|].
    destruct (inv_nodes _ _ _ _ Hinv _ _ _ Hgq) as (n' & Hn' & Hok). simplify_eq.
    destruct lq as [|lq].
    { destruct (node_ok_leaf _ _ _ _ _ Hok) as (rs & Hrec & _).
      unfold inner_records in Hin. rewrite Hrec in Hin. by apply elem_of_nil in Hin. }
    destruct (node_ok_inner _ _ _ _ _ _ Hok) as (cs & nx & Hrec & _ & Hc & _).
    unfold inner_records in Hin. rewrite Hrec in Hin.
    apply list_elem_of_fmap in Hin as (c & -> & Hin).
    destruct (chain_elem _ _ _ _ _ _ _ _ Hro Hc Hin) as (n1 & lo1 & Hn1 & Hg1 & _).
    simplify_eq. exists q, bq, nq, cs, nx. split_and!; try done.
    apply list_elem_of_fmap. eauto. }
  assert (∀ p lo, g p = Some (H, lo) → p = root) as Htop.
  { intros p lo Hg. destruct (decide (p = root)) as [|Hne]; [done|].
    destruct (Hpar _ _ _ Hg Hne) as (q & lo_q & nq & cs & nx & Hgq & Hq & _).
    destruct (inv_nodes _ _ _ _ Hinv _ _ _ Hgq) as (n' & _ & (_ & _ & Hle & _)). lia. }
  induction d as [|d IH]; intros p q lvl lo_p lo_q np nq Hd Hgp Hp Hrp Hgq Hq Hrq.
  - rewrite Nat.add_0_r in Hd. subst lvl.
    rewrite (Htop _ _ Hgp), (Htop _ _ Hgq). done.
  - assert (p ≠ root) as Hp1.
    { intros ->. rewrite (inv_root _ _ _ _ Hinv) in Hgp. simplify_eq. lia. }
    assert (q ≠ root) as Hq1.
    { intros ->. rewrite (inv_root _ _ _ _ Hinv) in Hgq. simplify_eq. lia. }
    destruct (Hpar _ _ _ Hgp Hp1) as (P & lo_P & nP & csP & nxP & HgP & HP & HrecP & HcP & HinP).
    destruct (Hpar _ _ _ Hgq Hq1) as (Q & lo_Q & nQ & csQ & nxQ & HgQ & HQ & HrecQ & HcQ & HinQ).
    apply list_elem_of_fmap in HinP as (cp & -> & HinP).
    apply list_elem_of_fmap in HinQ as (cq & -> & HinQ).
    destruct (chain_elem _ _ _ _ _ _ _ _ Hro HcP HinP) as (n1 & lo1 & Hn1 & Hg1 & Hl1 & Hh1).
    destruct (chain_elem _ _ _ _ _ _ _ _ Hro HcQ HinQ) as (n2 & lo2 & Hn2 & Hg2 & Hl2 & Hh2).
    simplify_eq.
    assert (P = Q) as ->.
    { eapply (IH P Q (S lvl)); try done; [lia| |].
      - destruct Hrp. split; [by eapply ble_trans|by eapply blt_ble_trans].
      - destruct Hrq. split; [by eapply ble_trans|by eapply blt_ble_trans]. }
    simplify_eq. assert (csQ = csP) as -> by congruence.
    destruct (chain_search_unique _ _ _ _ _ _ _ K _ _ _ Hro HcP HinP Hp Hgp Hrp) as (c1 & E1 & E1').
    destruct (chain_search_unique _ _ _ _ _ _ _ K _ _ _ Hro HcP HinQ Hq Hgq Hrq) as (c2 & E2 & E2').
    congruence.
Qed.

Lemma leaf_for_unique g h root H K p n p' n' :
  inv g h root H → leaf_for g h K p n → leaf_for g h K p' n' → p = p' ∧ n = n'.
Proof.
  intros Hinv (lo & Hg & Hp & Hr) (lo' & Hg' & Hp' & Hr').
  assert (0 ≤ H) as Hle by lia.
  assert (p = p') as ->.
  { eapply (level_unique _ _ _ _ K Hinv (H - 0) p p' 0); try done. lia. }
  split; [done|congruence].
Qed.

(** The descent reaches the leaf that covers the key. *)
Lemma SearchLeafNode_loop_spec g t H K :
  inv g (heap t) (root_ t) H →
  ∀ lvl p lo n fuel,
    g p = Some (lvl, lo) → heap t !! p = Some n →
    in_range lo K (hi_of (high_key n)) → lvl < fuel →
    ∃ q nq, SearchLeafNode_loop fuel t p K = Some (q, t) ∧ leaf_for g (heap t) K q nq.
Proof.
  intros Hinv. induction lvl as [|lvl IH]; intros p lo n fuel Hg Hp Hr Hf.
  - destruct fuel as [|fuel]; [lia|]. simpl. rewrite Hp.
    destruct (inv_nodes _ _ _ _ Hinv _ _ _ Hg) as (n' & Hn' & Hok). simplify_eq.
    rewrite (node_ok_IsInner _ _ _ _ _ _ Hok). simpl.
    exists p, n. split; [done|]. by exists lo.
  - destruct fuel as [|fuel]; [lia|]. cbn [SearchLeafNode_loop]. rewrite Hp.
    destruct (inv_nodes _ _ _ _ Hinv _ _ _ Hg) as (n' & Hn' & Hok). simplify_eq.
    rewrite (node_ok_IsInner _ _ _ _ _ _ Hok). simpl bool_decide. cbv iota.
    destruct fuel as [|fuel]; [lia|].
    destruct (search_step _ _ _ _ _ _ _ _ K fuel Hinv Hg Hp Hr)
      as (c & nc & lo_c & -> & _ & Hgc & Hc & Hrc).
    eapply IH; try done. lia.
Qed.

Lemma root_range g h root H K :
  inv g h root H → ∃ nr, h !! root = Some nr ∧ in_range NegInf K (hi_of (high_key nr)).
Proof.
  intros Hinv. destruct (inv_root_hi _ _ _ _ Hinv) as (nr & Hnr & Hhk).
  exists nr. rewrite Hhk. done.
Qed.

Lemma heap_log_load mo t : heap (log_load mo t) = heap t.
Proof. done. Qed.
Lemma root_log_load mo t : root_ (log_load mo t) = root_ t.
Proof. done. Qed.

Lemma SearchLeafNode_spec g t H K fuel :
  inv g (heap t) (root_ t) H → H < fuel →
  ∃ q nq, SearchLeafNode fuel t K = Some (q, log_load memory_order_acquire t) ∧
          leaf_for g (heap t) K q nq.
Proof.
  intros Hinv Hf. unfold SearchLeafNode, root_load.
  destruct (root_range _ _ _ _ K Hinv) as (nr & Hnr & Hr).
  destruct (SearchLeafNode_loop_spec g (log_load memory_order_acquire t) H K Hinv
              H (root_ t) NegInf nr fuel) as (q & nq & E & Hl); try done.
  - apply Hinv.
  - exists q, nq. done.
Qed.

End Search.

(** * Frame lemmas for the invariant *)

(** A node that is not modified stays well-formed when the nodes it
    points to keep their links and their ghost description. *)
Lemma node_ok_transfer g g' h h' H H' lvl lo n :
  node_ok g h H lvl lo n → lvl ≤ H' →
  (∀ q, next n = Some q → g' q = g q) →
  (∀ c nc, c ∈ inner_records n → h !! child c = Some nc →
     ∃ nc', h' !! child c = Some nc' ∧ high_key nc' = high_key nc ∧ next nc' = next nc) →
  (∀ c, c ∈ inner_records n → g' (child c) = g (child c)) →
  node_ok g' h' H' lvl lo n.
Proof.
  intros (Hrm & Hne & Hle & Hnx & Hb) Hle' Hq Hh Hg. split_and!; try done.
  - destruct (next n) as [q|]; [|done]. by rewrite Hq.
  - unfold inner_records in *. destruct (records n) as [rs|cs]; [done|].
    destruct Hb as (lvl' & nx & -> & Hc & Hk). exists lvl', nx. split_and!; try done.
    by eapply chain_ok_ext.
Qed.

(** A node keeps its shape when its records are replaced by records that
    are as good. *)
Lemma node_ok_same_link g h H lvl lo n n' :
  node_ok g h H lvl lo n →
  is_removed n' = is_removed n → high_key n' = high_key n → next n' = next n →
  match records n' with
  | LeafRecords rs => lvl = 0 ∧ keys_in lo (rec_key <$> rs) (hi_of (high_key n))
  | InnerRecords cs =>
      ∃ lvl' nx, lvl = S lvl' ∧
        chain_ok h g lvl' lo cs (hi_of (high_key n)) nx ∧ head_key_ok lo cs
  end →
  node_ok g h H lvl lo n'.
Proof.
  intros (Hrm & Hne & Hle & Hnx & Hb) E1 E2 E3 Hb'.
  unfold node_ok. rewrite E1, E2, E3. done.
Qed.

Section Frame.
Context {cfg : Params}.

Lemma inv_node g h root H p lvl lo :
  inv g h root H → g p = Some (lvl, lo) →
  ∃ n, h !! p = Some n ∧ node_ok g h H lvl lo n.
Proof. intros Hinv. apply Hinv. Qed.

Lemma inv_child g h root H p lvl lo n c :
  inv g h root H → g p = Some (lvl, lo) → h !! p = Some n →
  c ∈ inner_records n →
  ∃ lvl' nc lo_c, lvl = S lvl' ∧ h !! child c = Some nc ∧ g (child c) = Some (lvl', lo_c) ∧
                  ble lo lo_c ∧ ble (hi_of (high_key nc)) (hi_of (high_key n)).
Proof.
  intros Hinv Hg Hp Hin.
  destruct (inv_node _ _ _ _ _ _ _ Hinv Hg) as (n' & Hn' & Hok). simplify_eq.
  destruct lvl as [|lvl].
  { destruct (node_ok_leaf _ _ _ _ _ Hok) as (rs & Hrec & _).
    unfold inner_records in Hin. rewrite Hrec in Hin. by apply elem_of_nil in Hin. }
  destruct (node_ok_inner _ _ _ _ _ _ Hok) as (cs & nx & Hrec & _ & Hc & _).
  unfold inner_records in Hin. rewrite Hrec in Hin.
  destruct (chain_elem _ _ _ _ _ _ _ _ (inv_ranges_ok _ _ _ _ Hinv) Hc Hin)
    as (nc & lo_c & ? & ? & ? & ?).
  exists lvl, nc, lo_c. done.
Qed.

(** A node has one parent. *)
Lemma parent_unique g h root H x p q lp bp np lq bq nq :
  inv g h root H →
  g p = Some (lp, bp) → h !! p = Some np → x ∈ child <$> inner_records np →
  g q = Some (lq, bq) → h !! q = Some nq → x ∈ child <$> inner_records nq →
  p = q.
Proof.
  intros Hinv Hgp Hp Hxp Hgq Hq Hxq.
  apply list_elem_of_fmap in Hxp as (cp & -> & Hcp).
  apply list_elem_of_fmap in Hxq as (cq & Ex & Hcq).
  destruct (inv_child _ _ _ _ _ _ _ _ _ Hinv Hgp Hp Hcp) as (l1 & n1 & lo1 & -> & Hn1 & Hg1 & Hl1 & Hh1).
  destruct (inv_child _ _ _ _ _ _ _ _ _ Hinv Hgq Hq Hcq) as (l2 & n2 & lo2 & -> & Hn2 & Hg2 & Hl2 & Hh2).
  rewrite <- Ex in *. simplify_eq.
  pose proof (inv_ranges_ok _ _ _ _ Hinv _ _ _ _ Hg1 Hn1) as Hne.
  destruct (pick_in_range _ _ Hne) as [Ha Hb].
  destruct (inv_node _ _ _ _ _ _ _ Hinv Hgp) as (? & ? & (_ & _ & Hle & _)).
  simplify_eq.
  eapply (level_unique _ _ _ _ (pick lo1 (hi_of (high_key n1))) Hinv (H - S l1) p q (S l1));
    try done; [lia| |].
  - split; [by eapply ble_trans|by eapply blt_ble_trans].
  - split; [by eapply ble_trans|by eapply blt_ble_trans].
Qed.

(** The nodes of the tree are allocated. *)
Lemma inv_lt_length g h root H p x :
  inv g h root H → g p = Some x → p < length h.
Proof.
  intros Hinv Hg. destruct x as [lvl lo].
  destruct (inv_node _ _ _ _ _ _ _ Hinv Hg) as (n & Hn & _).
  by eapply lookup_lt_Some.
Qed.

Lemma inv_fresh g h root H p :
  inv g h root H → length h ≤ p → g p = None.
Proof.
  intros Hinv Hle. destruct (g p) as [x|] eqn:E; [|done].
  pose proof (inv_lt_length _ _ _ _ _ _ Hinv E). lia.
Qed.

Lemma anc_path_ext g g' h h' root lvl x stack :
  (∀ p l b, g p = Some (l, b) → lvl < l →
     g' p = g p ∧ ∃ n n', h !! p = Some n ∧ h' !! p = Some n' ∧
                          inner_records n' = inner_records n) →
  anc_path g h root lvl x stack → anc_path g' h' root lvl x stack.
Proof.
  revert lvl x. induction stack as [|p rest IH]; intros lvl x Hext; [done|].
  simpl. intros ((lo & n & Hg & Hp & Hin) & Hrest). split.
  - destruct (Hext _ _ _ Hg) as (Eg & n0 & n' & Hn0 & Hn' & Er); [lia|]. simplify_eq.
    exists lo, n'. rewrite Eg, Er. done.
  - apply IH; [|done]. intros p0 l b Hg0 Hl. apply (Hext p0 l b Hg0). lia.
Qed.

Lemma anc_path_level g h root H lvl x stack lo b :
  g root = Some (H, b) → g x = Some (lvl, lo) → anc_path g h root lvl x stack →
  lvl + length stack = H.
Proof.
  intros Hroot. revert lvl x lo. induction stack as [|p rest IH]; intros lvl x lo Hg.
  - simpl. intros ->. rewrite Hroot in Hg. simplify_eq. lia.
  - simpl. intros ((lo' & n & Hgp & _) & Hrest).
    specialize (IH _ _ _ Hgp Hrest). lia.
Qed.

Lemma anc_path_length g h root H lvl x stack lo :
  inv g h root H → g x = Some (lvl, lo) → anc_path g h root lvl x stack →
  lvl + length stack = H.
Proof. intros Hinv. eapply anc_path_level, Hinv. Qed.

Lemma SearchLeafNodeForWrite_loop_spec g t H K :
  inv g (heap t) (root_ t) H →
  ∀ lvl p lo n fuel stack,
    g p = Some (lvl, lo) → heap t !! p = Some n →
    in_range lo K (hi_of (high_key n)) → lvl < fuel →
    anc_path g (heap t) (root_ t) lvl p stack →
    ∃ q nq stack',
      SearchLeafNodeForWrite_loop fuel t stack p K = Some (q :: stack', t) ∧
      leaf_for g (heap t) K q nq ∧ anc_path g (heap t) (root_ t) 0 q stack'.
Proof.
  intros Hinv. induction lvl as [|lvl IH]; intros p lo n fuel stack Hg Hp Hr Hf Hst.
  - destruct fuel as [|fuel]; [lia|]. simpl. rewrite Hp.
    destruct (inv_node _ _ _ _ _ _ _ Hinv Hg) as (n' & Hn' & Hok). simplify_eq.
    rewrite (node_ok_IsInner _ _ _ _ _ _ Hok). simpl.
    exists p, n, stack. split_and!; [done| |done]. by exists lo.
  - destruct fuel as [|fuel]; [lia|]. cbn [SearchLeafNodeForWrite_loop]. rewrite Hp.
    destruct (inv_node _ _ _ _ _ _ _ Hinv Hg) as (n' & Hn' & Hok). simplify_eq.
    rewrite (node_ok_IsInner _ _ _ _ _ _ Hok). simpl bool_decide. cbv iota.
    destruct fuel as [|fuel]; [lia|].
    destruct (search_step _ _ _ _ _ _ _ _ K fuel Hinv Hg Hp Hr)
      as (c & nc & lo_c & -> & Hin & Hgc & Hc & Hrc).
    eapply IH; try done; [lia|]. simpl. split; [|done]. by exists lo, n.
Qed.

Lemma SearchLeafNodeForWrite_spec g t H K fuel :
  inv g (heap t) (root_ t) H → H < fuel →
  ∃ q nq stack,
    SearchLeafNodeForWrite fuel t K = Some (q :: stack, log_load memory_order_acquire t) ∧
    leaf_for g (heap t) K q nq ∧ anc_path g (heap t) (root_ t) 0 q stack.
Proof.
  intros Hinv Hf. unfold SearchLeafNodeForWrite, root_load.
  destruct (root_range _ _ _ _ K Hinv) as (nr & Hnr & Hr).
  destruct (SearchLeafNodeForWrite_loop_spec g (log_load memory_order_acquire t) H K Hinv
              H (root_ t) NegInf nr fuel []) as (q & nq & st & E & Hl & Ha); try done.
  - apply Hinv.
  - exists q, nq, st. done.
Qed.

End Frame.

Lemma with_child_cons c cs sep Y :
  with_child (c :: cs) sep Y =
  match cs with
  | c' :: _ =>
      if key_le (sep_key c') sep then c :: with_child cs sep Y
      else c :: mkInnerRec (Some sep) Y :: cs
  | [] => [c; mkInnerRec (Some sep) Y]
  end.
Proof.
  unfold with_child, child_pos, insert_at. destruct cs as [|c' cs]; [done|].
  simpl. destruct (key_le (sep_key c') sep); done.
Qed.

Lemma elem_of_with_child c cs sep Y :
  c ∈ with_child cs sep Y ↔ c = mkInnerRec (Some sep) Y ∨ c ∈ cs.
Proof.
  unfold with_child, insert_at. generalize (S (child_pos sep cs)). intros i.
  rewrite <- (take_drop i cs) at 3.
  rewrite !list.elem_of_app, list.elem_of_cons. tauto.
Qed.

(** The chain of a parent after one of its children was split. *)
Lemma chain_insert_child h g h2 g2 lvl X Y sep loX nX nX' nY' :
  ranges_ok g h →
  g X = Some (lvl, loX) → h !! X = Some nX →
  blt loX (Fin sep) → blt (Fin sep) (hi_of (high_key nX)) →
  h2 !! X = Some nX' → high_key nX' = Some sep → next nX' = Some Y →
  h2 !! Y = Some nY' → high_key nY' = high_key nX → next nY' = next nX →
  g2 X = Some (lvl, loX) → g2 Y = Some (lvl, Fin sep) →
  ∀ cs lo hi nx,
    (∀ c nc, c ∈ cs → child c ≠ X → h !! child c = Some nc →
       g2 (child c) = g (child c) ∧
       ∃ nc', h2 !! child c = Some nc' ∧ high_key nc' = high_key nc ∧ next nc' = next nc) →
    chain_ok h g lvl lo cs hi nx →
    X ∈ child <$> cs →
    chain_ok h2 g2 lvl lo (with_child cs sep Y) hi nx.
Proof.
  intros Hro HgX HX Hlo Hhi HX2 EhX EnX HY2 EhY EnY HgX2 HgY2.
  induction cs as [|c cs IH]; intros lo hi nx Hext Hc Hin.
  { by apply elem_of_nil in Hin. }
  rewrite with_child_cons.
  pose proof Hc as Hc0.
  apply chain_ok_cons in Hc as ((n & Hn & Hh & Hnx) & Hg & Hrest).
  assert (∀ c', c' ∈ cs → child c' ≠ child c) as Hneq.
  { intros c' Hc' E. destruct cs as [|c1 cs]; [by apply elem_of_nil in Hc'|].
    destruct (chain_elem _ _ _ _ _ _ _ _ Hro Hrest Hc') as (n' & lo' & Hn' & Hg' & Hl' & _).
    rewrite E in *. simplify_eq.
    pose proof (Hro _ _ _ _ Hg Hn) as Hne. rewrite Hh in Hne.
    clear -Hne Hl'. unfold blt, ble in *. destruct lo, (lo_of (sep_key c1)); try done; lia. }
  destruct cs as [|c' cs].
  - (* the only child is the one that was split *)
    assert (child c = X) as EX.
    { apply list_elem_of_fmap in Hin as (c0 & -> & Hc0').
      by apply list_elem_of_singleton in Hc0' as ->. }
    subst X. simplify_eq.
    rewrite chain_ok_cons. split_and!.
    + exists nX'. rewrite EhX, EnX. done.
    + done.
    + rewrite chain_ok_cons. simpl. split_and!; [|done|done].
      exists nY'. rewrite EhY, EnY. done.
  - apply hi_of_lo_of in Hh as Hk. destruct Hk as (k & Hk1 & Hk2).
    rewrite Hk2. simpl. destruct (Z.leb_spec k sep) as [Hle|Hlt].
    + (* the split child is further right *)
      assert (child c ≠ X) as HcX.
      { intros E. subst X. simplify_eq. rewrite Hk1 in Hhi.
        unfold blt in Hhi. simpl in Hhi. lia. }
      destruct (Hext c n) as (Eg & n' & Hn' & E1 & E2); [left|done|done|].
      rewrite chain_ok_cons.
      assert (X ∈ child <$> c' :: cs) as Hin'.
      { apply list_elem_of_fmap in Hin as (c0 & E0 & Hc0').
        apply elem_of_cons in Hc0' as [->|Hc0']; [done|].
        apply list_elem_of_fmap. eauto. }
      specialize (IH _ _ _ (λ c0 nc0 H0, Hext c0 nc0 (list_elem_of_further _ _ _ H0)) Hrest Hin').
      rewrite with_child_cons in *.
      destruct cs as [|c'' cs].
      * split_and!; [|by rewrite Eg|done].
        exists n'. rewrite E1, E2, Hh, Hnx. done.
      * destruct (key_le (sep_key c'') sep).
        -- split_and!; [|by rewrite Eg|done].
           exists n'. rewrite E1, E2, Hh, Hnx. done.
        -- split_and!; [|by rewrite Eg|done].
           exists n'. rewrite E1, E2, Hh, Hnx. done.
    + (* the split child is the first one *)
      assert (child c = X) as EX.
      { destruct (decide (child c = X)) as [|HcX]; [done|exfalso].
        apply list_elem_of_fmap in Hin as (c0 & E0 & Hc0').
        apply elem_of_cons in Hc0' as [->|Hc0']; [done|].
        destruct (chain_elem _ _ _ _ _ _ _ _ Hro Hrest Hc0') as (n' & lo' & Hn' & Hg' & Hl' & _).
        subst X. simplify_eq. rewrite Hk2 in Hl'. simpl in Hl'.
        clear -Hl' Hlo Hlt. unfold blt, ble in *. destruct loX; try done; lia. }
      subst X. simplify_eq.
      rewrite chain_ok_cons. split_and!.
      * exists nX'. rewrite EhX, EnX. done.
      * done.
      * rewrite chain_ok_cons. split_and!.
        -- exists nY'. rewrite EhY, EnY, Hh, Hnx, Hk2. done.
        -- done.
        -- eapply chain_ok_ext; [| |exact Hrest].
           ++ intros c0 n0 Hc0' Hn0.
              destruct (Hext c0 n0) as (_ & Hres); [by right| |done|done].
              by apply Hneq.
           ++ intros c0 Hc0'.
              destruct (chain_elem _ _ _ _ _ _ _ _ Hro Hrest Hc0') as (n0 & lo0 & Hn0 & _).
              destruct (Hext c0 n0) as (Eg & _); [by right| |done|done].
              by apply Hneq.
Qed.

Section Split.
Context {cfg : Params}.

Lemma gset_eq g p x : gset g p x p = Some x.
Proof. unfold gset. by rewrite decide_True. Qed.
Lemma gset_ne g p x q : q ≠ p → gset g p x q = g q.
Proof. intros. unfold gset. by rewrite decide_False. Qed.

Lemma split_nodes_ok g h h' root H lvl X Y sep lo nX nX' nY' :
  inv g h root H → g X = Some (lvl, lo) → h !! X = Some nX →
  length h ≤ Y →
  (∀ p, p ≠ X → p ≠ Y → h' !! p = h !! p) →
  h' !! X = Some nX' → h' !! Y = Some nY' →
  is_removed nX' = false → is_removed nY' = false →
  high_key nX' = Some sep → next nX' = Some Y →
  high_key nY' = high_key nX → next nY' = next nX →
  blt lo (Fin sep) → blt (Fin sep) (hi_of (high_key nX)) →
  split_halves lo sep nX nX' nY' →
  let g' := gset g Y (lvl, Fin sep) in
  (∀ p x, g p = Some x → p ≠ Y ∧ g' p = Some x) ∧
  node_ok g' h' H lvl lo nX' ∧
  node_ok g' h' H lvl (Fin sep) nY' ∧
  (∀ p l b n, g p = Some (l, b) → h !! p = Some n → p ≠ X →
     X ∉ child <$> inner_records n →
     h' !! p = Some n ∧ node_ok g' h' H l b n).
Proof.
  intros Hinv HgX HX HYfresh Hh' HX' HY' RX RY EhX EnX EhY EnY Hlo Hhi Hhalves g'.
  pose proof (inv_ranges_ok _ _ _ _ Hinv) as Hro.
  assert (g Y = None) as HgY by (eapply inv_fresh; [done|lia]).
  assert (∀ p x, g p = Some x → p ≠ Y ∧ g' p = Some x) as Hg'.
  { intros p x Hp. assert (p ≠ Y) by congruence.
    split; [done|]. unfold g'. by rewrite gset_ne. }
  assert (X ≠ Y) as HXY by (by apply (Hg' _ _ HgX)).
  destruct (inv_node _ _ _ _ _ _ _ Hinv HgX) as (n0 & Hn0 & HokX). simplify_eq.
  destruct HokX as (RX0 & HneX & HleX & HnxX & HbX).
  (* children of the split node keep their links *)
  assert (∀ c nc, c ∈ inner_records nX → h !! child c = Some nc →
            g' (child c) = g (child c) ∧ h' !! child c = Some nc) as HchX.
  { intros c nc Hc Hnc.
    destruct (inv_child _ _ _ _ _ _ _ _ _ Hinv HgX HX Hc) as (l' & nc' & lo_c & -> & ? & Hgc & _).
    simplify_eq. destruct (Hg' _ _ Hgc) as [Hne ->]. split; [done|].
    rewrite Hh'; [done| |done]. intros E. rewrite E in Hgc. simplify_eq. lia. }
  split_and!.
  - done.
  - (* the left half *)
    split_and!; try done.
    + by rewrite EhX.
    + rewrite EnX, EhX. unfold g'. by rewrite gset_eq.
    + unfold split_halves in Hhalves. destruct (records nX) as [rs|cs] eqn:Erec.
      * destruct Hhalves as (l1 & l2 & -> & _ & Hk1 & _). destruct HbX as [-> _].
        rewrite EhX. done.
      * destruct Hhalves as (l1 & c & l2 & -> & Hl1 & Hsep & -> & _).
        destruct HbX as (lvl' & nx & -> & Hc & Hk). exists lvl', (Some (child c)).
        split_and!; [done| |].
        -- apply chain_ok_app in Hc as [Hc _]. destruct l1 as [|c1 l1]; [done|].
           rewrite EhX, Hsep in *. simpl in Hc.
           eapply chain_ok_ext; [| |exact Hc].
           ++ intros c0 n0 Hc0 Hn0. exists n0. split; [|done].
              apply (HchX c0 n0); [|done]. unfold inner_records. rewrite Erec.
              apply list.elem_of_app. by left.
           ++ intros c0 Hc0.
              assert (c0 ∈ inner_records nX) as Hin.
              { unfold inner_records. rewrite Erec. apply list.elem_of_app. by left. }
              destruct (inv_child _ _ _ _ _ _ _ _ _ Hinv HgX HX Hin) as (? & nc & ? & _ & Hnc & _).
              by apply (HchX c0 nc).
        -- destruct l1 as [|c1 l1]; [done|]. done.
  - (* the right half *)
    split_and!; try done.
    + by rewrite EhY.
    + rewrite EnY, EhY. destruct (next nX) as [q|]; [|done].
      by apply Hg'.
    + unfold split_halves in Hhalves. destruct (records nX) as [rs|cs] eqn:Erec.
      * destruct Hhalves as (l1 & l2 & _ & -> & _ & Hk2). destruct HbX as [-> _].
        rewrite EhY. done.
      * destruct Hhalves as (l1 & c & l2 & -> & Hl1 & Hsep & _ & ->).
        destruct HbX as (lvl' & nx & -> & Hc & Hk). exists lvl', nx.
        split_and!; [done| |].
        -- apply chain_ok_app in Hc as [_ Hc]. destruct l1 as [|c1 l1]; [done|].
           rewrite EhY, Hsep in *. simpl in Hc.
           eapply chain_ok_ext; [| |exact Hc].
           ++ intros c0 n0 Hc0 Hn0. exists n0. split; [|done].
              apply (HchX c0 n0); [|done]. unfold inner_records. rewrite Erec.
              apply list.elem_of_app. by right.
           ++ intros c0 Hc0.
              assert (c0 ∈ inner_records nX) as Hin.
              { unfold inner_records. rewrite Erec. apply list.elem_of_app. by right. }
              destruct (inv_child _ _ _ _ _ _ _ _ _ Hinv HgX HX Hin) as (? & nc & ? & _ & Hnc & _).
              by apply (HchX c0 nc).
        -- simpl. left. by rewrite Hsep.
  - (* the other nodes *)
    intros p l b n Hgp Hp HpX HXp.
    destruct (Hg' _ _ Hgp) as [HpY Hgp'].
    split; [by rewrite Hh'|].
    destruct (inv_node _ _ _ _ _ _ _ Hinv Hgp) as (n0 & Hn0 & Hok). simplify_eq.
    eapply node_ok_transfer; [exact Hok| | | |].
    + apply Hok.
    + intros q Hq. destruct Hok as (_ & _ & _ & Hnx & _). rewrite Hq in Hnx.
      destruct (Hg' _ _ Hnx) as [_ ->]. done.
    + intros c nc Hc Hnc. exists nc. split; [|done].
      destruct (inv_child _ _ _ _ _ _ _ _ _ Hinv Hgp Hp Hc) as (? & ? & ? & _ & _ & Hgc & _).
      rewrite Hh'; [done| |by apply (Hg' _ _ Hgc)].
      intros E. apply HXp. apply list_elem_of_fmap. eauto.
    + intros c Hc.
      destruct (inv_child _ _ _ _ _ _ _ _ _ Hinv Hgp Hp Hc) as (? & ? & ? & _ & _ & Hgc & _).
      destruct (Hg' _ _ Hgc) as [_ ->]. done.
Qed.

Lemma node_ok_update_same_link g h H lvl lo n P nP nP' :
  node_ok g h H lvl lo n → h !! P = Some nP → same_link nP nP' →
  node_ok g (<[P := nP']> h) H lvl lo n.
Proof.
  intros Hok HP (E1 & E2 & E3).
  eapply node_ok_transfer; [exact Hok|apply Hok|done| |done].
  intros c nc Hc Hnc. destruct (decide (child c = P)) as [E|Hne].
  - rewrite E in *. simplify_eq. exists nP'. split_and!; [|done|done].
    apply list_lookup_insert_eq. by eapply lookup_lt_Some.
  - exists nc. by rewrite list_lookup_insert_ne.
Qed.

Lemma node_ok_alloc g h H lvl lo n N x m :
  node_ok g h H lvl lo n → g N = None →
  (∀ c, c ∈ inner_records n → is_Some (h !! child c)) →
  node_ok (gset g N x) (h ++ [m]) (S H) lvl lo n.
Proof.
  intros Hok HN Hch.
  eapply node_ok_transfer; [exact Hok| | | |].
  - destruct Hok as (_ & _ & ? & _). lia.
  - intros q Hq. destruct Hok as (_ & _ & _ & Hnx & _). rewrite Hq in Hnx.
    apply gset_ne. congruence.
  - intros c nc Hc Hnc. exists nc. split; [|done]. by apply lookup_app_l_Some.
  - intros c Hc. apply gset_ne.
    destruct Hok as (_ & _ & _ & _ & Hb). unfold inner_records in Hc.
    destruct (records n) as [rs|cs]; [by apply elem_of_nil in Hc|].
    destruct Hb as (lvl' & nx & _ & Hchain & _).
    clear -Hchain Hc HN. revert lo Hchain. induction cs as [|c0 cs IH]; intros lo Hchain.
    + by apply elem_of_nil in Hc.
    + apply chain_ok_cons in Hchain as (_ & Hg0 & Hrest).
      apply elem_of_cons in Hc as [->|Hc]; [congruence|].
      destruct cs as [|c1 cs]; [by apply elem_of_nil in Hc|]. by eapply IH.
Qed.

Lemma head_key_ok_with_child lo cs sep Y :
  head_key_ok lo cs → head_key_ok lo (with_child cs sep Y).
Proof.
  destruct cs as [|c cs]; [done|]. rewrite with_child_cons.
  destruct cs as [|c' cs]; [done|]. by destruct (key_le (sep_key c') sep).
Qed.

(** A split leaves the tree in the pending state. *)
Lemma split_pending g h h' root H lvl X Y sep lo nX nX' nY' :
  inv g h root H → g X = Some (lvl, lo) → h !! X = Some nX →
  length h ≤ Y → Y < length h' → length h ≤ length h' →
  (∀ p, p ≠ X → p ≠ Y → h' !! p = h !! p) →
  h' !! X = Some nX' → h' !! Y = Some nY' →
  is_removed nX' = false → is_removed nY' = false →
  high_key nX' = Some sep → next nX' = Some Y →
  high_key nY' = high_key nX → next nY' = next nX →
  blt lo (Fin sep) → blt (Fin sep) (hi_of (high_key nX)) →
  split_halves lo sep nX nX' nY' →
  pending (gset g Y (lvl, Fin sep)) h' root H lvl X Y sep.
Proof.
  intros Hinv HgX HX EY HYlt Hlen Hh' HX' HY' RX RY EhX EnX EhY EnY Hlo Hhi Hhalves.
  destruct (split_nodes_ok _ _ _ _ _ _ _ _ _ _ _ _ _ Hinv HgX HX EY Hh' HX' HY' RX RY
              EhX EnX EhY EnY Hlo Hhi Hhalves) as (Hg' & HokX & HokY & Hother).
  cbv zeta in Hg', HokX, HokY, Hother.
  assert (g Y = None) as HgY by (eapply inv_fresh; [done|lia]).
  assert ((gset g Y (lvl, Fin sep)) Y = Some (lvl, Fin sep)) as Hg'Y by apply gset_eq.
  destruct (Hg' _ _ HgX) as [HXY Hg'X].
  (* where the children of the split node are now *)
  assert (∀ c, c ∈ inner_records nX →
            c ∈ inner_records nX' ∨ c ∈ inner_records nY') as Hmoved.
  { intros c Hc. unfold split_halves, inner_records in *.
    destruct (records nX) as [rs|cs]; [by apply elem_of_nil in Hc|].
    destruct Hhalves as (l1 & c0 & l2 & -> & _ & _ & -> & ->).
    by apply list.elem_of_app in Hc. }
  split_and!; [by exists lo|done| |].
  - (* the split node is the root *)
    intros ->.
    assert (lvl = H ∧ lo = NegInf) as [-> ->].
    { rewrite (inv_root _ _ _ _ Hinv) in HgX. by simplify_eq. }
    assert (high_key nX = None) as HhkX.
    { destruct (inv_root_hi _ _ _ _ Hinv) as (nr & ? & ?). by simplify_eq. }
    assert (next nX = None) as HnxX.
    { destruct (inv_node _ _ _ _ _ _ _ Hinv HgX) as (n0 & ? & (_ & _ & _ & Hnx & _)).
      simplify_eq. destruct (next nX) as [q|] eqn:Eq; [|done].
      pose proof (inv_ranges_ok _ _ _ _ Hinv) as Hro.
      destruct (inv_node _ _ _ _ _ _ _ Hinv Hnx) as (nq & Hq & _).
      specialize (Hro _ _ _ _ Hnx Hq). rewrite HhkX in Hro. done. }
    assert ((gset g Y (H, Fin sep)) (length h') = None) as HgN.
    { rewrite gset_ne; [|lia].
      eapply inv_fresh; [done|lia]. }
    assert (∀ p x, (gset g Y (H, Fin sep)) p = Some x → p ≠ (length h') ∧ (gset (gset g Y (H, Fin sep)) (length h') (S H, NegInf)) p = Some x) as HgN'.
    { intros p x Hp. assert (p ≠ (length h')) by congruence. split; [done|].
      by rewrite gset_ne. }
    assert (∀ p l b, (gset g Y (H, Fin sep)) p = Some (l, b) →
              ∃ n, h' !! p = Some n ∧ node_ok (gset g Y (H, Fin sep)) h' H l b n ∧
                   (p ≠ root → p ≠ Y → h !! p = Some n)) as Hnodes.
    { intros p l b Hp. destruct (decide (p = Y)) as [->|HpY].
      { rewrite Hg'Y in Hp. simplify_eq. exists nY'. done. }
      destruct (decide (p = root)) as [->|HpX].
      { rewrite Hg'X in Hp. simplify_eq. exists nX'. done. }
      rewrite gset_ne in Hp by done.
      destruct (inv_node _ _ _ _ _ _ _ Hinv Hp) as (n & Hn & Hok).
      destruct (Hother _ _ _ _ Hp Hn HpX) as [? ?]; [|by exists n].
      intros Hin. apply list_elem_of_fmap in Hin as (c & Ec & Hc).
      destruct (inv_child _ _ _ _ _ _ _ _ _ Hinv Hp Hn Hc) as (l' & ? & ? & -> & _ & Hgc & _).
      rewrite <- Ec in Hgc. rewrite (inv_root _ _ _ _ Hinv) in Hgc. simplify_eq.
      destruct Hok as (_ & _ & ? & _). lia. }
    constructor.
    + apply gset_eq.
    + exists (Node_new_root sep root Y). split; [|done].
      by apply list_lookup_middle.
    + intros p l b Hp. destruct (decide (p = (length h'))) as [->|HpN].
      * rewrite gset_eq in Hp. simplify_eq.
        exists (Node_new_root sep root Y). split; [by apply list_lookup_middle|].
        split_and!; try done. simpl. exists H, (next nX). split_and!; [done| |by left].
        rewrite chain_ok_cons. split_and!.
        -- exists nX'. simpl. rewrite EhX, EnX. split_and!; [|done|done].
           by apply lookup_app_l_Some.
        -- simpl. by apply HgN'.
        -- rewrite chain_ok_cons. split_and!; [|by apply HgN'|done].
           exists nY'. simpl. rewrite EhY, EnY, HhkX. split_and!; [|done|done].
           by apply lookup_app_l_Some.
      * rewrite gset_ne in Hp by done.
        destruct (Hnodes _ _ _ Hp) as (n & Hn & Hok & _). exists n.
        split; [by apply lookup_app_l_Some|].
        apply node_ok_alloc; [done|done|].
        intros c Hc. destruct Hok as (_ & _ & _ & _ & Hb). unfold inner_records in Hc.
        destruct (records n) as [rs|cs]; [by apply elem_of_nil in Hc|].
        destruct Hb as (lvl' & nx & _ & Hchain & _).
        clear -Hchain Hc. revert b Hchain. induction cs as [|c0 cs IH]; intros b Hchain.
        -- by apply elem_of_nil in Hc.
        -- apply chain_ok_cons in Hchain as ((n0 & Hn0 & _) & _ & Hrest).
           apply elem_of_cons in Hc as [->|Hc]; [by eexists|].
           destruct cs as [|c1 cs]; [by apply elem_of_nil in Hc|]. by eapply IH.
    + intros p l b Hp. destruct (decide (p = (length h'))) as [->|HpN]; [by left|right].
      rewrite gset_ne in Hp by done.
      assert (∀ q, q ∈ [root; Y] →
                ∃ (lq : nat) (bq : Bound) (nq : Node),
                  (gset (gset g Y (H, Fin sep)) (length h') (S H, NegInf)) (length h') = Some (lq, bq) ∧ (h' ++ [Node_new_root sep root Y]) !! (length h') = Some nq ∧
                  q ∈ child <$> inner_records nq) as Htop.
      { intros q Hq. exists (S H), NegInf, (Node_new_root sep root Y).
        split_and!; [apply gset_eq|by apply list_lookup_middle|].
        exact Hq. }
      destruct (decide (p = Y)) as [->|HpY].
      { exists (length h'). apply Htop. apply list_elem_of_further, list_elem_of_here. }
      destruct (decide (p = root)) as [->|HpX].
      { exists (length h'). apply Htop. apply list_elem_of_here. }
      rewrite gset_ne in Hp by done.
      destruct (inv_parent _ _ _ _ Hinv _ _ _ Hp) as [?|(q & lq & bq & nq & Hgq & Hq & Hin)];
        [done|].
      destruct (decide (q = root)) as [->|HqX].
      * simplify_eq. apply list_elem_of_fmap in Hin as (c & -> & Hc).
        destruct (Hmoved _ Hc) as [Hc'|Hc'].
        -- exists root, H, NegInf, nX'. split_and!; [by apply HgN'|by apply lookup_app_l_Some|].
           apply list_elem_of_fmap. eauto.
        -- exists Y, H, (Fin sep), nY'. split_and!; [by apply HgN'|by apply lookup_app_l_Some|].
           apply list_elem_of_fmap. eauto.
      * destruct (Hg' _ _ Hgq) as [HqY Hgq'].
        exists q, lq, bq, nq. split_and!; [by apply HgN'| |done].
        apply lookup_app_l_Some. by rewrite Hh'.
  - (* the split node has a parent *)
    intros HXroot P lo_P nP nP' HgP HP HXP (E1 & E2 & E3) Erec.
    assert (g P = Some (S lvl, lo_P)) as HgP0.
    { rewrite gset_ne in HgP; [done|].
      intros E. rewrite E, Hg'Y in HgP. simplify_eq. lia. }
    assert (P ≠ Y) as HPY by congruence.
    assert (P ≠ X) as HPX by (intros ->; simplify_eq; lia).
    assert (h !! P = Some nP) as HP0 by (by rewrite <- Hh').
    assert (P < length h') as HPlt by (by eapply lookup_lt_Some).
    assert ((<[P := nP']> h') !! P = Some nP') as HhpP by (by apply list_lookup_insert_eq).
    assert (∀ p, p ≠ P → (<[P := nP']> h') !! p = h' !! p) as Hhp.
    { intros p Hp. by rewrite list_lookup_insert_ne. }
    destruct (inv_node _ _ _ _ _ _ _ Hinv HgP0) as (n0 & ? & HokP). simplify_eq.
    constructor.
    + apply Hg'. apply Hinv.
    + destruct (inv_root_hi _ _ _ _ Hinv) as (nr & Hnr & Hhk).
      destruct (decide (root = P)) as [->|HrP].
      * simplify_eq. exists nP'. split; [done|]. by rewrite E2.
      * exists nr. split; [|done]. rewrite Hhp by done. rewrite Hh'; [done|done|].
        apply (Hg' _ _ (inv_root _ _ _ _ Hinv)).
    + intros p l b Hp. destruct (decide (p = P)) as [->|HpP].
      * rewrite HgP in Hp. simplify_eq. exists nP'. split; [done|].
        destruct HokP as (RP & HneP & HleP & HnxP & HbP).
        split_and!; try done.
        -- by rewrite E1.
        -- by rewrite E2.
        -- rewrite E3, E2. destruct (next nP) as [q|]; [|done]. by apply Hg'.
        -- rewrite Erec, E2.
           assert (∃ cs, records nP = InnerRecords cs) as [cs EcsP].
           { destruct (records nP); [by destruct HbP|eauto]. }
           assert (inner_records nP = cs) as EcsP'.
           { unfold inner_records. by rewrite EcsP. }
           rewrite EcsP in HbP. rewrite EcsP'.
           destruct HbP as (lvl' & nx & [= <-] & Hchain & Hk).
           exists lvl, nx. split_and!; [done| |by apply head_key_ok_with_child].
           destruct (inv_node _ _ _ _ _ _ _ Hinv HgX) as (nX0 & ? & _). simplify_eq.
           eapply (chain_insert_child h g (<[P := nP']> h') (gset g Y (lvl, Fin sep)) lvl X Y sep lo nX nX' nY');
             try done.
           ++ by eapply inv_ranges_ok.
           ++ by rewrite Hhp.
           ++ by rewrite Hhp.
           ++ intros c nc Hc HcX Hnc.
              pose proof Hc as Hc'.
              destruct (inv_child _ _ _ _ _ _ _ _ _ Hinv HgP0 HP0 Hc')
                as (l' & ? & lo_c & [= <-] & _ & Hgc & _).
              destruct (Hg' _ _ Hgc) as [HcY ->]. split; [done|].
              exists nc. split; [|done]. rewrite Hhp; [by rewrite Hh'|].
              intros E. rewrite E in Hgc. simplify_eq. lia.
      * destruct (decide (p = Y)) as [->|HpY].
        { rewrite Hg'Y in Hp. simplify_eq. exists nY'. split; [by rewrite Hhp|].
          eapply node_ok_update_same_link; [done| |done]. by rewrite Hh'. }
        destruct (decide (p = X)) as [->|HpX].
        { rewrite Hg'X in Hp. simplify_eq. exists nX'. split; [by rewrite Hhp|].
          eapply node_ok_update_same_link; [done| |done]. by rewrite Hh'. }
        rewrite gset_ne in Hp by done.
        destruct (inv_node _ _ _ _ _ _ _ Hinv Hp) as (n & Hn & Hok).
        destruct (Hother _ _ _ _ Hp Hn HpX) as [Hn' Hok'].
        { intros Hin. apply HpP.
          eapply (parent_unique g h root H X p P); try done. }
        exists n. split; [by rewrite Hhp|].
        eapply node_ok_update_same_link; [done| |done]. by rewrite Hh'.
    + intros p l b Hp. destruct (decide (p = Y)) as [->|HpY].
      { right. exists P, (S lvl), lo_P, nP'. split_and!; [done|done|].
        rewrite (f_equal inner_records Erec) || unfold inner_records. rewrite Erec.
        apply list_elem_of_fmap. exists (mkInnerRec (Some sep) Y). split; [done|].
        apply elem_of_with_child. by left. }
      rewrite gset_ne in Hp by done.
      destruct (inv_parent _ _ _ _ Hinv _ _ _ Hp) as [?|(q & lq & bq & nq & Hgq & Hq & Hin)];
        [by left|right].
      destruct (Hg' _ _ Hgq) as [HqY Hgq'].
      destruct (decide (q = P)) as [->|HqP].
      { simplify_eq. exists P, (S lvl), lo_P, nP'. split_and!; [done|done|].
        unfold inner_records at 1. rewrite Erec.
        apply list_elem_of_fmap in Hin as (c & -> & Hc).
        apply list_elem_of_fmap. exists c. split; [done|].
        apply elem_of_with_child. by right. }
      destruct (decide (q = X)) as [->|HqX].
      { simplify_eq. apply list_elem_of_fmap in Hin as (c & -> & Hc).
        destruct (Hmoved _ Hc) as [Hc'|Hc'].
        - exists X, lvl, lo, nX'. split_and!; [done|by rewrite Hhp|].
          apply list_elem_of_fmap. eauto.
        - exists Y, lvl, (Fin sep), nY'. split_and!; [done|by rewrite Hhp|].
          apply list_elem_of_fmap. eauto. }
      exists q, lq, bq, nq. split_and!; [done| |done].
      rewrite Hhp by done. by rewrite Hh'.
Qed.

End Split.

(** * Completing a split *)

Section Complete.
Context {cfg : Params}.

Lemma caps_ok_insert h p n :
  caps_ok h → length (inner_records n) ≤ kMaxRecNum → caps_ok (<[p := n]> h).
Proof.
  intros Hc Hn q nq Hq. destruct (decide (q = p)) as [->|Hne].
  - apply list_lookup_insert_Some in Hq as [(_ & <- & _)|[? _]]; done.
  - rewrite list_lookup_insert_ne in Hq by done. by eapply Hc.
Qed.

Lemma caps_ok_app h n :
  caps_ok h → length (inner_records n) ≤ kMaxRecNum → caps_ok (h ++ [n]).
Proof.
  intros Hc Hn q nq Hq. apply lookup_app_Some in Hq as [Hq|[_ Hq]].
  - by eapply Hc.
  - apply list_lookup_singleton_Some in Hq as [_ <-]. done.
Qed.

(** The root is the only node of the top level. *)
Lemma inv_top g h root H p lo :
  inv g h root H → g p = Some (H, lo) → p = root.
Proof.
  intros Hinv Hg. destruct (decide (p = root)) as [|Hne]; [done|exfalso].
  destruct (inv_parent _ _ _ _ Hinv _ _ _ Hg) as [?|(q & lq & bq & nq & Hgq & Hq & Hin)]; [done|].
  apply list_elem_of_fmap in Hin as (c & -> & Hc).
  destruct (inv_child _ _ _ _ _ _ _ _ _ Hinv Hgq Hq Hc) as (l' & ? & ? & -> & _ & Hgc & _).
  simplify_eq. destruct (inv_node _ _ _ _ _ _ _ Hinv Hgq) as (? & _ & (_ & _ & Hle & _)). lia.
Qed.

(** ** Routing keys of a chain *)
Lemma chain_tail_keys h g lvl lo c cs hi nx c' :
  chain_ok h g lvl lo (c :: cs) hi nx → c' ∈ cs →
  g (child c') = Some (lvl, lo_of (sep_key c')) ∧ ∃ k, sep_key c' = Some k.
Proof.
  revert lo c. induction cs as [|c1 cs IH]; intros lo c Hc Hin.
  - by apply elem_of_nil in Hin.
  - apply chain_ok_cons in Hc as ((n & _ & Hh & _) & _ & Hrest).
    apply elem_of_cons in Hin as [->|Hin].
    + split; [by eapply chain_head_range|].
      apply hi_of_lo_of in Hh as (k & _ & ?). eauto.
    + by eapply IH.
Qed.

Lemma count_le_app_all K l1 l2 :
  Forall (λ c, key_le (sep_key c) K = true) l1 →
  count_le K (l1 ++ l2) = length l1 + count_le K l2.
Proof.
  induction 1 as [|c l1 Hc _ IH]; [done|]. simpl. by rewrite Hc, IH.
Qed.

Lemma count_le_app_stop K l1 c l2 :
  key_le (sep_key c) K = false →
  count_le K (l1 ++ c :: l2) = count_le K l1.
Proof.
  intros Hc. induction l1 as [|c1 l1 IH]; simpl; [by rewrite Hc|].
  destruct (key_le (sep_key c1) K); [by rewrite IH|done].
Qed.

Lemma count_le_le K l : count_le K l ≤ length l.
Proof.
  induction l as [|c l IH]; simpl; [done|]. destruct (key_le (sep_key c) K); simpl; lia.
Qed.

Lemma insert_at_app_l {A} i (x : A) l1 l2 :
  i ≤ length l1 → insert_at i x (l1 ++ l2) = insert_at i x l1 ++ l2.
Proof.
  intros Hi. unfold insert_at.
  rewrite take_app_le, drop_app_le by done. by rewrite <- app_assoc.
Qed.

Lemma insert_at_app_r {A} i (x : A) l1 l2 :
  insert_at (length l1 + i) x (l1 ++ l2) = l1 ++ insert_at i x l2.
Proof.
  unfold insert_at. rewrite take_app_add, drop_app_add. by rewrite <- app_assoc.
Qed.

Lemma seps_above_weaken lo lo' cs : ble lo' lo → seps_above lo cs → seps_above lo' cs.
Proof.
  destruct cs as [|c cs]; [done|]. simpl. intros Hle (k & ? & ? & ?).
  exists k. split_and!; try done. by eapply ble_blt_trans.
Qed.

Lemma seps_above_sublist lo cs cs' :
  cs `sublist_of` cs' → seps_above lo cs' → seps_above lo cs.
Proof.
  intros Hs. revert lo. induction Hs as [|c l1 l2 Hs IH|c l1 l2 Hs IH]; intros lo; simpl.
  - done.
  - intros (k & ? & ? & ?). exists k. split_and!; try done. by apply IH.
  - intros (k & ? & ? & ?). apply IH. eapply seps_above_weaken; [|done]. by apply blt_ble.
Qed.

Lemma seps_above_app lo l1 c l2 k :
  seps_above lo (l1 ++ c :: l2) → sep_key c = Some k →
  Forall (λ c', ∃ k', sep_key c' = Some k' ∧ (k' < k)%Z) l1.
Proof.
  revert lo. induction l1 as [|c1 l1 IH]; intros lo; simpl; [constructor|].
  intros (k1 & Hk1 & Hlo & Hrest) Hk. constructor; [|by eapply IH].
  exists k1. split; [done|].
  destruct l1 as [|c2 l1]; simpl in Hrest.
  - destruct Hrest as (k' & ? & Hlt & _). simplify_eq. done.
  - specialize (IH _ Hrest Hk). apply Forall_cons_1 in IH as [(k2 & Hk2 & Hlt2) _].
    destruct Hrest as (k2' & ? & Hlt & _). simplify_eq. unfold blt in Hlt. lia.
Qed.

Lemma chain_seps_above h g lvl lo cs hi nx :
  ranges_ok g h → chain_ok h g lvl lo cs hi nx → seps_above lo (list.tail cs).
Proof.
  intros Hro. revert lo. induction cs as [|c cs IH]; intros lo Hc; [done|].
  apply chain_ok_cons in Hc as ((n & Hn & Hh & Hnx) & Hg & Hrest).
  destruct cs as [|c1 cs]; [done|]. simpl.
  apply hi_of_lo_of in Hh as Hk. destruct Hk as (k & Hk1 & Hk2).
  exists k. split_and!; [done| |].
  - pose proof (Hro _ _ _ _ Hg Hn) as Hne. by rewrite Hk1 in Hne.
  - rewrite Hk2 in Hrest. by apply IH in Hrest.
Qed.

Lemma tail_with_child_sublist cs sep Y :
  list.tail cs `sublist_of` list.tail (with_child cs sep Y).
Proof.
  destruct cs as [|c cs]; [apply sublist_nil_l|]. unfold with_child, insert_at. simpl.
  rewrite <- (take_drop (child_pos sep (c :: cs)) cs) at 1.
  apply sublist_app; [done|]. by apply sublist_cons.
Qed.

(** The entry of a new child goes to the half that covers its key. *)
Lemma with_child_app lo l1 c l2 sep Y k :
  seps_above lo (list.tail (l1 ++ c :: l2)) → l1 ≠ [] →
  sep_key c = Some k →
  with_child (l1 ++ c :: l2) sep Y =
  if (sep <? k)%Z then with_child l1 sep Y ++ c :: l2
  else l1 ++ with_child (c :: l2) sep Y.
Proof.
  intros Hs Hl1 Hk.
  assert (list.tail (l1 ++ c :: l2) = list.tail l1 ++ c :: l2) as Et.
  { by destruct l1. }
  assert (S (length (list.tail l1)) = length l1) as El.
  { by destruct l1. }
  unfold with_child, child_pos. rewrite Et in *.
  destruct (Z.ltb_spec sep k) as [Hlt|Hge].
  - rewrite count_le_app_stop.
    + rewrite insert_at_app_l; [done|].
      pose proof (count_le_le sep (list.tail l1)). lia.
    + rewrite Hk. simpl. by apply Z.leb_gt.
  - rewrite count_le_app_all.
    + simpl. rewrite Hk. simpl. destruct (Z.leb_spec k sep); [|lia].
      replace (S (length (list.tail l1) + S (count_le sep l2)))
        with (length l1 + S (count_le sep l2)) by lia.
      by rewrite insert_at_app_r.
    + eapply Forall_impl; [|exact (seps_above_app _ _ _ _ _ Hs Hk)].
      intros c' (k' & -> & Hlt). simpl. apply Z.leb_le. lia.
Qed.

Lemma seps_above_elem lo cs c :
  seps_above lo cs → c ∈ cs → ∃ k, sep_key c = Some k ∧ blt lo (Fin k).
Proof.
  revert lo. induction cs as [|c1 cs IH]; intros lo Hs Hin.
  - by apply elem_of_nil in Hin.
  - destruct Hs as (k1 & Hk1 & Hlo & Hrest). apply elem_of_cons in Hin as [->|Hin].
    + eauto.
    + destruct (IH _ Hrest Hin) as (k & ? & ?). exists k. split; [done|].
      by eapply blt_trans.
Qed.

Lemma length_with_child cs sep Y : length (with_child cs sep Y) = S (length cs).
Proof.
  unfold with_child, insert_at. rewrite length_app. simpl.
  rewrite length_take, length_drop. lia.
Qed.

Lemma length_insert_at {A} i (x : A) l : length (insert_at i x l) = S (length l).
Proof.
  unfold insert_at. rewrite length_app. simpl. rewrite length_take, length_drop. lia.
Qed.

Lemma inv_bounded g h root H : inv g h root H → bounded g h.
Proof. intros Hinv p x Hp. by eapply inv_lt_length. Qed.

(** ** A full parent

    The parent of a split node has no room for the new entry: it is split
    itself, and the entry goes to the half that covers it.  The result is
    what the split of a parent that holds the entry already would give. *)
Lemma inner_split_pending g h root H lvl X Y sep P lo_P nP :
  2 ≤ kMaxRecNum →
  pending g h root H lvl X Y sep → X ≠ root → bounded g h →
  g P = Some (S lvl, lo_P) → h !! P = Some nP →
  X ∈ child <$> inner_records nP →
  length (inner_records nP) = kMaxRecNum →
  ∃ h2 target nt nt' k,
    Node_Split (h ++ [Node_new (IsInner nP)]) P (length h) = Some h2 ∧
    Node_GetValidSplitNode h2 P sep = Some target ∧
    h2 !! target = Some nt ∧
    Node_InsertChild nt Y sep = (nt', kCompleted) ∧
    Node_GetSeparatorKey nt' (bool_decide (target = P)) = Some k ∧
    pending (gset g (length h) (S lvl, Fin k)) (<[target := nt']> h2) root H (S lvl)
      P (length h) k ∧
    length (<[target := nt']> h2) = S (length h) ∧
    (∀ p, p ≠ P → p < length h → (<[target := nt']> h2) !! p = h !! p) ∧
    (∀ p n, (<[target := nt']> h2) !! p = Some n → p = P ∨ p = length h →
       length (inner_records n) ≤ kMaxRecNum).
Proof.
  intros Hmax Hpend HXr Hbnd HgP HP HXin Hfull.
  destruct Hpend as ((loX & HgX) & HgY & _ & Hpar).
  assert (P < length h) as HPlt by (by eapply lookup_lt_Some).
  assert (∃ cs, records nP = InnerRecords cs ∧ inner_records nP = cs) as (cs & Ecs & Ecs').
  { unfold inner_records in *. destruct (records nP) as [|cs]; [|by eauto].
    by apply elem_of_nil in HXin. }
  pose (nPv := set_records nP (InnerRecords (with_child cs sep Y))).
  assert (inv g (<[P := nPv]> h) root H) as Hinv.
  { eapply Hpar; try done. simpl. by rewrite Ecs'. }
  rewrite Ecs' in *.
  pose proof (inv_ranges_ok _ _ _ _ Hinv) as Hro.
  destruct (inv_node _ _ _ _ _ _ _ Hinv HgP) as (n0 & Hn0 & Hok0).
  rewrite list_lookup_insert_eq in Hn0 by done. injection Hn0 as <-.
  destruct (node_ok_inner _ _ _ _ _ _ Hok0) as (csv & nx & Ecsv & _ & Hchain & Hhead).
  simpl in Ecsv. injection Ecsv as <-. simpl in Hchain.
  pose proof (chain_seps_above _ _ _ _ _ _ _ Hro Hchain) as Hsv.
  pose proof (seps_above_sublist _ _ _ (tail_with_child_sublist cs sep Y) Hsv) as Hs.
  set (m := length cs - length cs / 2).
  assert (0 < length cs / 2) as Hhalf.
  { apply Nat.div_str_pos. lia. }
  assert (length cs / 2 < length cs) as Hhalf'.
  { apply Nat.div_lt; lia. }
  assert (∃ c l2, drop m cs = c :: l2) as (c & l2 & Edrop).
  { destruct (drop m cs) as [|c l2] eqn:E; [|by eauto].
    apply (f_equal length) in E. rewrite length_drop in E. simpl in E. lia. }
  assert (take m cs ≠ []) as Hl1.
  { intros E. apply (f_equal length) in E. rewrite length_take in E. simpl in E. lia. }
  assert (cs = take m cs ++ c :: l2) as Esplit.
  { by rewrite <- Edrop, take_drop. }
  assert (length (take m cs) = m) as Elen1 by (rewrite length_take; lia).
  assert (S (length l2) = length cs / 2) as Elen2.
  { apply (f_equal length) in Edrop. rewrite length_drop in Edrop. simpl in Edrop. lia. }
  assert (c ∈ list.tail cs) as Hctail.
  { rewrite Esplit. destruct (take m cs) as [|c0 l1]; [done|]. simpl.
    apply list.elem_of_app. right. left. }
  destruct (seps_above_elem _ _ _ Hs Hctail) as (k & Hk & Hlok).
  assert (blt (Fin k) (hi_of (high_key nP))) as Hhik.
  { assert (c ∈ with_child cs sep Y) as Hcv.
    { apply elem_of_with_child. right. rewrite Esplit. apply list.elem_of_app. right. left. }
    destruct (chain_elem _ _ _ _ _ _ _ _ Hro Hchain Hcv) as (nc & lo_c & Hnc & Hgc & _ & Hhic).
    assert (c ∈ list.tail (with_child cs sep Y)) as Hcvt.
    { eapply elem_of_sublist; [exact Hctail|apply tail_with_child_sublist]. }
    destruct (with_child cs sep Y) as [|c0 csv] eqn:Ev; [by apply elem_of_nil in Hcv|].
    destruct (chain_tail_keys _ _ _ _ _ _ _ _ _ Hchain Hcvt) as [Hgc' _].
    rewrite Hk in Hgc'. simpl in Hgc'. simplify_eq.
    eapply blt_ble_trans; [|exact Hhic]. by eapply Hro. }
  assert (is_removed nP = false) as RnP by (by destruct Hok0 as [? _]).
  set (new := Node_new (IsInner nP)).
  set (R := length h).
  set (nl' := bump_version (set_records (set_link nP (Some k) (Some R))
                              (InnerRecords (take m cs)))).
  set (nr' := bump_version (set_records (set_link new (high_key nP) (next nP))
                              (InnerRecords (c :: l2)))).
  set (h2 := <[R := nr']> (<[P := nl']> (h ++ [new]))).
  assert (Node_Split (h ++ [new]) P R = Some h2) as ESplit.
  { unfold Node_Split. rewrite (lookup_app_l_Some _ _ _ _ HP).
    rewrite list_lookup_middle by done. rewrite Ecs. cbv zeta. fold m.
    rewrite Edrop, Hk. done. }
  assert (P ≠ R) as HPR by (unfold R; lia).
  assert (length h2 = S (length h)) as Elenh2.
  { unfold h2. rewrite !length_insert, length_app. simpl. lia. }
  assert (h2 !! P = Some nl') as Eh2P.
  { unfold h2. rewrite list_lookup_insert_ne by done.
    apply list_lookup_insert_eq. rewrite length_app. simpl. lia. }
  assert (h2 !! R = Some nr') as Eh2R.
  { unfold h2. apply list_lookup_insert_eq. rewrite length_insert, length_app. simpl.
    unfold R. lia. }
  (* what the split of the parent that holds the entry gives *)
  assert (∀ l1' l2' h3 nX' nY',
            with_child cs sep Y = l1' ++ c :: l2' → l1' ≠ [] →
            h3 !! P = Some nX' → h3 !! R = Some nY' →
            (∀ p, p ≠ P → p ≠ R → h3 !! p = (h ++ [new]) !! p) →
            length h3 = S (length h) →
            records nX' = InnerRecords l1' → records nY' = InnerRecords (c :: l2') →
            is_removed nX' = false → is_removed nY' = false →
            high_key nX' = Some k → next nX' = Some R →
            high_key nY' = high_key nP → next nY' = next nP →
            pending (gset g R (S lvl, Fin k)) h3 root H (S lvl) P R k) as Hfinal.
  { intros l1' l2' h3 nX' nY' Ev Hl1' H3P H3R H3o H3len RX RY DX DY HkX HnX HkY HnY.
    eapply (split_pending g (<[P := nPv]> h) h3 root H (S lvl) P R k lo_P nPv nX' nY');
      try done.
    - apply list_lookup_insert_eq. done.
    - rewrite length_insert. unfold R. lia.
    - rewrite H3len. unfold R. lia.
    - rewrite length_insert, H3len. lia.
    - intros p Hp1 Hp2. rewrite (H3o p Hp1 Hp2).
      rewrite list_lookup_insert_ne by done.
      destruct (decide (p < length h)).
      + by rewrite lookup_app_l.
      + rewrite !lookup_ge_None_2; [done|lia|].
        rewrite length_app. simpl. unfold R in Hp2. lia.
    - unfold split_halves. simpl. exists l1', c, l2'. done. }
  assert (seps_above lo_P (list.tail (take m cs ++ c :: l2))) as Hs' by (by rewrite <- Esplit).
  pose proof (with_child_app _ _ _ _ sep Y _ Hs' Hl1 Hk) as Ewc. rewrite <- Esplit in Ewc.
  exists h2. destruct (Z.ltb_spec sep k) as [Hlt|Hge].
  - (* the entry goes to the left half *)
    set (nt' := bump_version (set_records nl' (InnerRecords (with_child (take m cs) sep Y)))).
    exists P, nl', nt', k.
    assert (length (<[P := nt']> h2) = S R) as E3len by (by rewrite length_insert).
    assert (<[P := nt']> h2 !! P = Some nt') as E3P.
    { apply list_lookup_insert_eq. rewrite Elenh2. lia. }
    assert (<[P := nt']> h2 !! R = Some nr') as E3R.
    { by rewrite list_lookup_insert_ne. }
    split_and!; try done.
    + unfold Node_GetValidSplitNode. rewrite Eh2P. simpl.
      destruct (Z.ltb_spec sep k); [done|lia].
    + unfold Node_InsertChild.
      assert (inner_records nl' = take m cs) as -> by done.
      destruct (Nat.ltb_spec (length (take m cs)) kMaxRecNum) as [|Hbad]; [done|].
      rewrite Elen1 in Hbad. lia.
    + rewrite bool_decide_eq_true_2 by done. done.
    + eapply (Hfinal (with_child (take m cs) sep Y) l2); try done.
      * intros E. apply (f_equal length) in E. rewrite length_with_child in E. done.
      * intros p Hp1 Hp2. rewrite list_lookup_insert_ne by done. unfold h2.
        by rewrite !list_lookup_insert_ne.
    + intros p Hp1 Hp2. rewrite list_lookup_insert_ne by done. unfold h2.
      rewrite !list_lookup_insert_ne by (unfold R; lia). by rewrite lookup_app_l.
    + intros p n Hn [->| ->].
      * rewrite E3P in Hn. injection Hn as <-.
        change (length (with_child (take m cs) sep Y) ≤ kMaxRecNum).
        rewrite length_with_child, Elen1. lia.
      * rewrite E3R in Hn. injection Hn as <-.
        change (length (c :: l2) ≤ kMaxRecNum). simpl. lia.
  - (* the entry goes to the right half *)
    set (nt' := bump_version (set_records nr' (InnerRecords (with_child (c :: l2) sep Y)))).
    exists R, nr', nt', k.
    assert (length (<[R := nt']> h2) = S R) as E3len by (by rewrite length_insert).
    assert (<[R := nt']> h2 !! R = Some nt') as E3R.
    { apply list_lookup_insert_eq. rewrite Elenh2. unfold R. lia. }
    assert (<[R := nt']> h2 !! P = Some nl') as E3P.
    { by rewrite list_lookup_insert_ne. }
    assert (∃ l2', with_child (c :: l2) sep Y = c :: l2') as (l2' & El2').
    { rewrite with_child_cons. destruct l2 as [|c' l2]; [by eauto|].
      destruct (key_le (sep_key c') sep); by eauto. }
    split_and!; try done.
    + unfold Node_GetValidSplitNode. rewrite Eh2P. simpl.
      destruct (Z.ltb_spec sep k); [lia|done].
    + unfold Node_InsertChild.
      assert (inner_records nr' = c :: l2) as -> by done.
      destruct (Nat.ltb_spec (length (c :: l2)) kMaxRecNum) as [|Hbad]; [done|].
      simpl in Hbad. lia.
    + rewrite bool_decide_eq_false_2 by done.
      unfold Node_GetSeparatorKey, lowest_key. simpl. done.
    + eapply (Hfinal (take m cs) l2'); try done.
      * by rewrite <- El2'.
      * intros p Hp1 Hp2. rewrite list_lookup_insert_ne by done. unfold h2.
        by rewrite !list_lookup_insert_ne.
      * simpl. by rewrite El2'.
    + intros p Hp1 Hp2. rewrite list_lookup_insert_ne by (unfold R; lia). unfold h2.
      rewrite !list_lookup_insert_ne by (unfold R; lia). by rewrite lookup_app_l.
    + intros p n Hn [->| ->].
      * rewrite E3P in Hn. injection Hn as <-.
        change (length (take m cs) ≤ kMaxRecNum). rewrite Elen1. lia.
      * rewrite E3R in Hn. injection Hn as <-.
        change (length (with_child (c :: l2) sep Y) ≤ kMaxRecNum).
        rewrite length_with_child. simpl. lia.
Qed.

(** ** The search for the parent of a new node

    While the split of [X] is pending the new node [Y] has no entry in a
    parent: it is reached from [X], by the link to the right sibling.  The
    search for its parent descends with the separator to the level of
    [X], where the range recheck moves on to [Y]; the stack it builds is
    the stack of the ancestors of [X]. *)
Lemma child_pos_lt K cs : cs ≠ [] → child_pos K cs < length cs.
Proof.
  destruct cs as [|c cs]; [done|]. intros _. unfold child_pos. simpl.
  pose proof (count_le_le K cs). lia.
Qed.

Lemma CheckKeyRange_hop fuel h p n K hk q :
  h !! p = Some n → is_removed n = false → high_key n = Some hk → next n = Some q →
  (hk ≤ K)%Z → CheckKeyRange (S fuel) h p K = CheckKeyRange fuel h q K.
Proof.
  intros Hp Hrm Hhk Hnx Hle. simpl. rewrite Hp, Hrm, Hhk, Hnx.
  destruct (Z.leb_spec hk K); [done|lia].
Qed.

(** The parent of a node whose split is pending, with the entry of the
    new node. *)
Lemma pending_parent g h root H lvl X Y sep P lo_P nP :
  pending g h root H lvl X Y sep → X ≠ root →
  g P = Some (S lvl, lo_P) → h !! P = Some nP → X ∈ child <$> inner_records nP →
  let nPv := set_records nP (InnerRecords (with_child (inner_records nP) sep Y)) in
  inv g (<[P := nPv]> h) root H ∧
  is_removed nP = false ∧ IsInner nP = true ∧ in_range lo_P sep (hi_of (high_key nP)) ∧
  P ≠ Y ∧
  (* the child that the separator is routed to, and the new node *)
  ∃ c nc nY,
    inner_records nP !! child_pos sep (inner_records nP) = Some c ∧
    h !! child c = Some nc ∧ is_removed nc = false ∧
    high_key nc = Some sep ∧ next nc = Some Y ∧ IsInner nc = bool_decide (lvl ≠ 0) ∧
    h !! Y = Some nY ∧ is_removed nY = false ∧
    in_range (Fin sep) sep (hi_of (high_key nY)) ∧ IsInner nY = bool_decide (lvl ≠ 0) ∧
    (lvl ≠ 0 → inner_records nY ≠ []).
Proof.
  intros Hpend HXr HgP HP HXin nPv.
  destruct Hpend as ((loX & HgX) & HgY & _ & Hpar).
  assert (P < length h) as HPlt by (by eapply lookup_lt_Some).
  assert (inv g (<[P := nPv]> h) root H) as Hinv by (by eapply Hpar).
  pose proof (inv_ranges_ok _ _ _ _ Hinv) as Hro.
  destruct (inv_node _ _ _ _ _ _ _ Hinv HgP) as (n0 & Hn0 & Hok0).
  rewrite list_lookup_insert_eq in Hn0 by done. injection Hn0 as <-.
  destruct (node_ok_inner _ _ _ _ _ _ Hok0) as (csv & nx & Ecsv & R0 & Hchain & _).
  simpl in Ecsv. injection Ecsv as <-. simpl in Hchain, R0.
  set (cs := inner_records nP) in *.
  assert (cs ≠ []) as Hcs by (intros E; rewrite E in HXin; by apply elem_of_nil in HXin).
  assert (IsInner nP = true) as HIn.
  { unfold IsInner. unfold cs, inner_records in Hcs. by destruct (records nP). }
  assert (P ≠ Y) as HPY by (intros ->; rewrite HgP in HgY; injection HgY; lia).
  assert (∀ q l b, g q = Some (l, b) → l = lvl → (<[P := nPv]> h) !! q = h !! q) as Hsame.
  { intros q l b Hq ->. apply list_lookup_insert_ne. intros <-.
    rewrite HgP in Hq. injection Hq. lia. }
  (* the new node *)
  destruct (inv_node _ _ _ _ _ _ _ Hinv HgY) as (nY & HY & HokY).
  rewrite (Hsame _ _ _ HgY eq_refl) in HY.
  assert (in_range (Fin sep) sep (hi_of (high_key nY))) as HrY.
  { split; [apply ble_refl|apply HokY]. }
  (* the parent covers the separator *)
  assert (mkInnerRec (Some sep) Y ∈ with_child cs sep Y) as HYin.
  { apply elem_of_with_child. by left. }
  destruct (chain_elem _ _ _ _ _ _ _ _ Hro Hchain HYin) as (nY' & lo_Y & HY' & HgY' & Hlo & Hhi).
  simpl in HY', HgY'. rewrite HgY in HgY'. injection HgY' as <-.
  rewrite (Hsame _ _ _ HgY eq_refl), HY in HY'. injection HY' as <-.
  assert (in_range lo_P sep (hi_of (high_key nP))) as HrP.
  { split; [done|]. eapply blt_ble_trans; [apply HokY|exact Hhi]. }
  (* the child that the separator is routed to *)
  set (i := child_pos sep cs).
  pose proof (child_pos_lt sep cs Hcs) as Hi. fold i in Hi.
  destruct (lookup_lt_is_Some_2 cs i Hi) as (c & Hc).
  assert (with_child cs sep Y = take (S i) cs ++ mkInnerRec (Some sep) Y :: drop (S i) cs)
    as Ewc by done.
  rewrite Ewc in Hchain. apply chain_ok_app in Hchain as [Hleft _].
  rewrite (take_S_r _ _ _ Hc) in Hleft.
  destruct (take i cs ++ [c]) as [|c0 l0] eqn:El; [by destruct (take i cs)|].
  rewrite <- El in Hleft. simpl in Hleft.
  assert (c ∈ take i cs ++ [c]) as Hcin by (apply list.elem_of_app; right; left).
  assert (ranges_ok g (<[P := nPv]> h)) as Hro' by done.
  destruct (chain_elem _ _ _ _ _ _ _ _ Hro' Hleft Hcin) as (nc & lo_c & Hnc & Hgc & _).
  destruct (chain_ok_last _ _ _ _ _ _ _ _ _ Hleft (last_snoc _ _) Hnc) as [Hnx Hhk].
  destruct (inv_node _ _ _ _ _ _ _ Hinv Hgc) as (nc' & Hnc' & Hokc).
  rewrite Hnc in Hnc'. injection Hnc' as <-.
  rewrite (Hsame _ _ _ Hgc eq_refl) in Hnc.
  split_and!; try done.
  exists c, nc, nY. split_and!; try done.
  - apply Hokc.
  - destruct (high_key nc); simpl in Hhk; by simplify_eq.
  - by eapply node_ok_IsInner.
  - apply HokY.
  - by eapply node_ok_IsInner.
  - intros Hl. destruct lvl as [|lvl']; [done|].
    destruct (node_ok_inner _ _ _ _ _ _ HokY) as (csY & nxY & EY & _ & HchY & _).
    unfold inner_records. rewrite EY. by destruct csY.
Qed.

Lemma SearchParentNode_loop_pending g t H lvl X Y sep P lo_P nP :
  pending g (heap t) (root_ t) H lvl X Y sep → X ≠ root_ t →
  g P = Some (S lvl, lo_P) → heap t !! P = Some nP →
  X ∈ child <$> inner_records nP →
  ∀ d p lo n stack0 path c0 fuel,
    g p = Some (S lvl + d, lo) → heap t !! p = Some n →
    in_range lo sep (hi_of (high_key n)) → d + 4 ≤ fuel →
    anc_path g (heap t) (root_ t) (S lvl + d) p path →
    ∃ path',
      SearchParentNode_loop fuel t (path ++ stack0) (Some p) c0 sep Y =
        Some (path' ++ stack0, t) ∧
      anc_path g (heap t) (root_ t) lvl X path'.
Proof.
  intros Hpend HXr HgP HP HXin.
  destruct (pending_parent _ _ _ _ _ _ _ _ _ _ _ Hpend HXr HgP HP HXin)
    as (Hinv & RnP & InP & HrP & HPY & c & nc & nY & Hc & Hnc & Rnc & Hkc & Hxc & Inc
        & HY & RnY & HrY & InY & HcsY).
  set (nPv := set_records nP (InnerRecords (with_child (inner_records nP) sep Y))) in *.
  assert (P < length (heap t)) as HPlt by (by eapply lookup_lt_Some).
  assert (<[P := nPv]> (heap t) !! P = Some nPv) as HPv by (by apply list_lookup_insert_eq).
  pose proof Hpend as (_ & HgY & _).
  induction d as [|d IH]; intros p lo n stack0 path c0 fuel Hp Hn Hr Hfuel Hpath.
  - rewrite Nat.add_0_r in Hp, Hpath.
    assert (p = P) as ->.
    { destruct (decide (p = P)) as [|Hne]; [done|].
      eapply (level_unique _ _ _ _ sep Hinv (H - S lvl) p P (S lvl)); try done.
      - destruct (inv_node _ _ _ _ _ _ _ Hinv HgP) as (? & _ & (_ & _ & Hle & _)). lia.
      - by rewrite list_lookup_insert_ne. }
    rewrite HP in Hn. injection Hn as <-.
    destruct fuel as [|[|[|[|fuel]]]]; try lia.
    exists (P :: path). split; [|split; [by eauto 10|done]].
    cbn [SearchParentNode_loop]. rewrite HP, InP.
    rewrite (Node_SearchChild_here _ _ _ _ _ _ _ HP RnP HrP Hc).
    cbn [fmap option_fmap option_map].
    rewrite decide_False by congruence.
    rewrite Hnc, Inc.
    assert (CheckKeyRange (S (S fuel)) (heap t) (child c) sep = Some (Some Y)) as ECheck.
    { rewrite (CheckKeyRange_hop _ _ _ _ _ _ _ Hnc Rnc Hkc Hxc) by lia.
      by eapply CheckKeyRange_here. }
    destruct (decide (lvl = 0)) as [->|Hl].
    + rewrite bool_decide_eq_false_2 by lia. rewrite ECheck.
      cbn [fmap option_fmap option_map]. by rewrite decide_True.
    + rewrite bool_decide_eq_true_2 by done.
      unfold Node_SearchChild. rewrite ECheck, HY.
      destruct (lookup_lt_is_Some_2 (inner_records nY) (child_pos sep (inner_records nY)))
        as (cY & HcY); [by apply child_pos_lt, HcsY|].
      rewrite HcY. cbn [fmap option_fmap option_map]. by rewrite decide_True.
  - destruct fuel as [|[|fuel]]; [lia|lia|].
    replace (S lvl + S d) with (S (S lvl + d)) in Hp, Hpath by lia.
    assert (p ≠ P) as HpP by (intros ->; rewrite HgP in Hp; injection Hp; lia).
    assert (p ≠ Y) as HpY by (intros ->; rewrite HgY in Hp; injection Hp; lia).
    assert (<[P := nPv]> (heap t) !! p = Some n) as Hn' by (by rewrite list_lookup_insert_ne).
    destruct (search_record _ _ _ _ _ _ _ _ sep Hinv Hp Hn' Hr)
      as (c1 & nc1 & lc1 & Rn & In & Hc1 & Hgc1 & Hnc1 & Hrc1).
    assert (∃ n2, heap t !! child c1 = Some n2 ∧ in_range lc1 sep (hi_of (high_key n2)))
      as (n2 & Hn2 & Hr2).
    { destruct (decide (child c1 = P)) as [E|Hne].
      - exists nP. rewrite E in *. rewrite HPv in Hnc1. injection Hnc1 as <-. done.
      - exists nc1. by rewrite list_lookup_insert_ne in Hnc1. }
    destruct (IH (child c1) lc1 n2 stack0 (p :: path) (Some (child c1)) (S fuel) Hgc1 Hn2 Hr2)
      as (path' & E' & Hp'); [lia| |].
    { split; [|done]. exists lo, n. split_and!; try done.
      apply list_elem_of_fmap. exists c1. split; [done|]. by eapply list_elem_of_lookup_2. }
    exists path'. split; [|done].
    cbn [SearchParentNode_loop]. rewrite Hn, In.
    rewrite (Node_SearchChild_here _ _ _ _ _ _ _ Hn Rn Hr Hc1).
    cbn [fmap option_fmap option_map].
    rewrite decide_False by congruence. exact E'.
Qed.

Lemma SearchParentNode_pending g t H lvl X Y sep rest stack0 fuel :
  pending g (heap t) (root_ t) H lvl X Y sep → X ≠ root_ t →
  anc_path g (heap t) (root_ t) lvl X rest → H - lvl + 3 ≤ fuel →
  ∃ path,
    SearchParentNode fuel t stack0 sep Y =
      Some (path ++ stack0, log_load memory_order_acquire t) ∧
    anc_path g (heap t) (root_ t) lvl X path ∧ lvl + length path = H.
Proof.
  intros Hpend HXr Hrest Hfuel.
  destruct rest as [|P rest]; [done|].
  destruct Hrest as ((lo_P & nP & HgP & HP & HXin) & _).
  destruct (pending_parent _ _ _ _ _ _ _ _ _ _ _ Hpend HXr HgP HP HXin)
    as (Hinv & RnP & _ & HrP & _).
  set (nPv := set_records nP (InnerRecords (with_child (inner_records nP) sep Y))) in *.
  assert (P < length (heap t)) as HPlt by (by eapply lookup_lt_Some).
  assert (S lvl ≤ H) as Hle.
  { by destruct (inv_node _ _ _ _ _ _ _ Hinv HgP) as (? & _ & (_ & _ & ? & _)). }
  destruct (inv_root_hi _ _ _ _ Hinv) as (nr & Hnr & Hhk).
  assert (∃ nr0, heap t !! root_ t = Some nr0 ∧ high_key nr0 = None) as (nr0 & Hnr0 & Hhk0).
  { destruct (decide (root_ t = P)) as [E|Hne].
    - rewrite E in *. rewrite list_lookup_insert_eq in Hnr by done.
      injection Hnr as <-. by exists nP.
    - rewrite list_lookup_insert_ne in Hnr by done. by exists nr. }
  unfold SearchParentNode, root_load.
  destruct (SearchParentNode_loop_pending g (log_load memory_order_acquire t) H lvl X Y sep
              P lo_P nP Hpend HXr HgP HP HXin (H - S lvl) (root_ t) NegInf nr0 stack0 []
              None fuel) as (path & E & Hpath); try done.
  - replace (S lvl + (H - S lvl)) with H by lia. apply Hinv.
  - by rewrite Hhk0.
  - lia.
  - exists path. split_and!; try done.
    destruct Hpend as ((loX & HgX) & _).
    eapply anc_path_level; [apply Hinv|exact HgX|exact Hpath].
Qed.

(** The split node is the root. *)
Lemma CompleteSplit_loop_root H g t lvl Y sep fuel :
  2 ≤ kMaxRecNum →
  pending g (heap t) (root_ t) H lvl (root_ t) Y sep →
  bounded g (heap t) → caps_ok (heap t) → 1 ≤ fuel →
  ∃ t' g' H',
    CompleteSplit_loop fuel t [] None (root_ t) Y sep = Some t' ∧
    inv g' (heap t') (root_ t') H' ∧ caps_ok (heap t') ∧
    H ≤ H' ≤ S H ∧
    (∀ p l b, l ≤ lvl → g' p = Some (l, b) ↔ g p = Some (l, b)) ∧
    (∀ p l b, l ≤ lvl → g p = Some (l, b) → heap t' !! p = heap t !! p) ∧
    gc_garbage t' = gc_garbage t ∧ gc_guards t' = gc_guards t ∧
    root_grown t [] H t' H'.
Proof.
  intros Hmax Hpend Hbnd Hcaps Hfuel.
  destruct fuel as [|fuel']; [simpl in Hfuel; lia|].
  destruct Hpend as ((loX & HgX) & HgY & Hroot & _).
  specialize (Hroot eq_refl).
  simpl. unfold TryRootSplit. simpl. rewrite decide_True by done. simpl.
  eexists _, _, (S H). split; [done|]. simpl.
  assert (g (length (heap t)) = None) as Hfresh.
  { destruct (g (length (heap t))) eqn:E; [|done]. apply Hbnd in E. lia. }
  assert (lvl = H) as ->.
  { assert (mkInnerRec None (root_ t) ∈ inner_records (Node_new_root sep (root_ t) Y))
      as Hc by (simpl; left).
    edestruct (inv_child _ _ _ _ _ _ _ _ _ Hroot (gset_eq _ _ _)
                 (list_lookup_middle _ [] _ _ eq_refl) Hc)
      as (l' & nc & lo_c & El & _ & Hgc & _).
    simpl in Hgc. rewrite gset_ne in Hgc.
    - rewrite HgX in Hgc. injection El as <-. by injection Hgc.
    - apply Hbnd in HgX. lia. }
  split_and!; try done; try lia.
  + apply caps_ok_app; [done|]. simpl. lia.
  + intros p l b Hl. unfold gset. case_decide as Ep; [|done]. subst p.
    rewrite Hfresh. split; intros [=]. lia.
  + intros p l b Hl Hg. apply Hbnd in Hg. by rewrite lookup_app_l.
  + unfold root_grown. rewrite decide_False by lia. simpl. by rewrite <- app_assoc.
Qed.

(** The split node has a parent: one step up the stack, the rest of
    the way being given. *)
Lemma CompleteSplit_loop_step H (stack full : list ptr) (extra : nat)
    (Q : list RootAccess → Prop) :
  2 ≤ kMaxRecNum → 2 ≤ extra → Q [] →
  (∀ g t lvl X Y sep fuel,
     pending g (heap t) (root_ t) H lvl X Y sep →
     anc_path g (heap t) (root_ t) lvl X full →
     bounded g (heap t) → caps_ok (heap t) →
     length stack + extra ≤ fuel →
     ∃ t' g' H' lost,
       CompleteSplit_loop fuel t stack None X Y sep = Some t' ∧ Q lost ∧
       inv g' (heap t') (root_ t') H' ∧ caps_ok (heap t') ∧
       H ≤ H' ≤ S H ∧
       (∀ p l b, l ≤ lvl → g' p = Some (l, b) ↔ g p = Some (l, b)) ∧
       (∀ p l b, l ≤ lvl → g p = Some (l, b) → heap t' !! p = heap t !! p) ∧
       gc_garbage t' = gc_garbage t ∧ gc_guards t' = gc_guards t ∧
       root_grown t lost H t' H') →
  ∀ P g t lvl X Y sep fuel,
    pending g (heap t) (root_ t) H lvl X Y sep →
    anc_path g (heap t) (root_ t) lvl X (P :: full) →
    bounded g (heap t) → caps_ok (heap t) →
    length (P :: stack) + extra ≤ fuel →
    ∃ t' g' H' lost,
      CompleteSplit_loop fuel t (P :: stack) None X Y sep = Some t' ∧ Q lost ∧
      inv g' (heap t') (root_ t') H' ∧ caps_ok (heap t') ∧
      H ≤ H' ≤ S H ∧
      (∀ p l b, l ≤ lvl → g' p = Some (l, b) ↔ g p = Some (l, b)) ∧
      (∀ p l b, l ≤ lvl → g p = Some (l, b) → heap t' !! p = heap t !! p) ∧
      gc_garbage t' = gc_garbage t ∧ gc_guards t' = gc_guards t ∧
      root_grown t lost H t' H'.
Proof.
  intros Hmax Hextra HQ IH P g t lvl X Y sep fuel Hpend Hpath Hbnd Hcaps Hfuel.
  destruct Hpath as ((lo_P & nP & HgP & HP & HXin) & Hrest).
  assert (P < length (heap t)) as HPlt by (by eapply lookup_lt_Some).
  assert (X ≠ root_ t) as HXr.
  { intros ->. destruct Hpend as ((loX & HgX) & _ & Hroot & _).
    specialize (Hroot eq_refl).
    assert (P = length (heap t)); [|lia].
    eapply (parent_unique _ _ _ _ (root_ t) P (length (heap t))); [exact Hroot|..].
    - rewrite gset_ne by lia. exact HgP.
    - by apply lookup_app_l_Some.
    - done.
    - apply gset_eq.
    - by apply list_lookup_middle.
    - simpl. left. }
  pose proof Hpend as ((loX & HgX) & HgY & _ & Hpar).
  pose proof (λ nP', Hpar HXr P lo_P nP nP' HgP HP HXin) as Hpar'. clear Hpar.
  (* the parent covers the separator *)
  assert (is_removed nP = false ∧ in_range lo_P sep (hi_of (high_key nP))) as [RnP Hrange].
  { pose (nPv := set_records nP (InnerRecords (with_child (inner_records nP) sep Y))).
    assert (inv g (<[P := nPv]> (heap t)) (root_ t) H) as Hinv by (by apply Hpar').
    destruct (inv_node _ _ _ _ _ _ _ Hinv HgP) as (n0 & Hn0 & Hok0).
    rewrite list_lookup_insert_eq in Hn0 by done. injection Hn0 as <-.
    destruct (node_ok_inner _ _ _ _ _ _ Hok0) as (csv & nx & Ecsv & R0 & Hchain & _).
    simpl in Ecsv. injection Ecsv as <-. split; [done|].
    assert (mkInnerRec (Some sep) Y ∈ with_child (inner_records nP) sep Y) as HYin.
    { apply elem_of_with_child. by left. }
    pose proof (inv_ranges_ok _ _ _ _ Hinv) as Hro.
    destruct (chain_elem _ _ _ _ _ _ _ _ Hro Hchain HYin)
      as (nY & lo_Y & HY & HgY' & Hlo & Hhi).
    simpl in *. rewrite HgY in HgY'. injection HgY' as <-.
    split; [done|]. eapply blt_ble_trans; [|exact Hhi]. by eapply Hro. }
  destruct fuel as [|fuel']; [simpl in Hfuel; lia|].
  destruct fuel' as [|fuel'']; [simpl in Hfuel; lia|].
  assert (CheckKeyRange (S fuel'') (heap t) P sep = Some (Some P)) as ECheck.
  { by eapply CheckKeyRange_here. }
  cbn [CompleteSplit_loop]. rewrite ECheck, HP.
  unfold Node_InsertChild at 1.
  destruct (Nat.ltb_spec (length (inner_records nP)) kMaxRecNum) as [Hroom|Hfull].
  + (* there is room in the parent *)
    eexists _, g, H, []. split; [done|]. simpl.
    split_and!; try done; try lia.
    * apply Hpar'; done.
    * apply caps_ok_insert; [done|]. cbn [inner_records records bump_version set_version set_records].
      rewrite length_insert_at. lia.
    * intros p l b Hl Hg. rewrite list_lookup_insert_ne; [done|].
      intros ->. rewrite HgP in Hg. injection Hg as <-. lia.
    * unfold root_grown. rewrite decide_True by done. simpl. by rewrite app_nil_r.
  + (* the parent is full *)
    assert (length (inner_records nP) = kMaxRecNum) as Hlen.
    { pose proof (Hcaps _ _ HP). lia. }
    destruct (inner_split_pending _ _ _ _ _ _ _ _ _ _ _ Hmax Hpend HXr Hbnd HgP HP HXin Hlen)
      as (h2 & target & nt & nt' & k & ESplit & ETarget & Hnt & EIns & ESep & Hpend'
          & Elen & Hsame & Hcap2).
    rewrite list_insert_id by done.
    unfold HalfSplit. cbn [heap set_heap GetNodePage]. rewrite HP.
    cbn [heap set_heap GetNodePage fst snd]. rewrite ESplit. simpl.
    rewrite ETarget, Hnt, EIns, ESep.
    set (t3 := set_heap _ (<[target := nt']> h2)).
    destruct (IH (gset g (length (heap t)) (S lvl, Fin k)) t3 (S lvl) P (length (heap t)) k
                (S fuel''))
      as (t' & g' & H' & lost & Erun & HQl & Hinv' & Hcaps' & HH & Hlv1 & Hlv2 & Hgc1 & Hgc2
          & Hgr).
    * exact Hpend'.
    * eapply anc_path_ext; [|exact Hrest]. intros p l b Hg Hl.
      pose proof (Hbnd _ _ Hg) as Hplt.
      split; [rewrite gset_ne; [done|lia]|].
      assert (p ≠ P) as HpP by (intros ->; rewrite HgP in Hg; injection Hg as <-; lia).
      destruct (lookup_lt_is_Some_2 _ _ Hplt) as [n Hn].
      exists n, n. split_and!; try done. simpl. by rewrite Hsame.
    * intros p x. unfold gset. destruct (decide (p = length (heap t))) as [->|Ep].
      -- intros _. simpl. rewrite Elen. lia.
      -- intros Hg. apply Hbnd in Hg. simpl. rewrite Elen. lia.
    * intros p n Hn. simpl in Hn.
      destruct (decide (p = P ∨ p = length (heap t))) as [Hp|Hp].
      -- by eapply Hcap2.
      -- assert (p < length (heap t)) as Hplt.
         { apply lookup_lt_Some in Hn. rewrite Elen in Hn.
           destruct (decide (p = length (heap t))); [tauto|lia]. }
         rewrite Hsame in Hn by tauto. by eapply Hcaps.
    * simpl in Hfuel. lia.
    * exists t', g', H', lost. split; [exact Erun|].
      split_and!; try done; try lia.
      -- intros p l b Hl. rewrite Hlv1 by lia. unfold gset.
         destruct (decide (p = length (heap t))) as [->|Ep]; [|done].
         split; [intros [=]; lia|].
         intros Hg. apply Hbnd in Hg. lia.
      -- intros p l b Hl Hg. pose proof (Hbnd _ _ Hg) as Hplt.
         rewrite (Hlv2 p l b); [|lia|rewrite gset_ne; [done|lia]].
         simpl. apply Hsame; [|by eapply Hbnd].
         intros ->. rewrite HgP in Hg. injection Hg as <-. lia.
Qed.

Lemma CompleteSplit_loop_spec H :
  2 ≤ kMaxRecNum →
  ∀ stack g t lvl X Y sep fuel,
    pending g (heap t) (root_ t) H lvl X Y sep →
    anc_path g (heap t) (root_ t) lvl X stack →
    bounded g (heap t) → caps_ok (heap t) →
    length stack + 2 ≤ fuel →
    ∃ t' g' H',
      CompleteSplit_loop fuel t stack None X Y sep = Some t' ∧
      inv g' (heap t') (root_ t') H' ∧ caps_ok (heap t') ∧
      H ≤ H' ≤ S H ∧
      (∀ p l b, l ≤ lvl → g' p = Some (l, b) ↔ g p = Some (l, b)) ∧
      (∀ p l b, l ≤ lvl → g p = Some (l, b) → heap t' !! p = heap t !! p) ∧
      gc_garbage t' = gc_garbage t ∧ gc_guards t' = gc_guards t ∧
      root_grown t [] H t' H'.
Proof.
  intros Hmax stack.
  assert (∀ g t lvl X Y sep fuel,
            pending g (heap t) (root_ t) H lvl X Y sep →
            anc_path g (heap t) (root_ t) lvl X stack →
            bounded g (heap t) → caps_ok (heap t) →
            length stack + 2 ≤ fuel →
            ∃ t' g' H' lost,
              CompleteSplit_loop fuel t stack None X Y sep = Some t' ∧ lost = [] ∧
              inv g' (heap t') (root_ t') H' ∧ caps_ok (heap t') ∧
              H ≤ H' ≤ S H ∧
              (∀ p l b, l ≤ lvl → g' p = Some (l, b) ↔ g p = Some (l, b)) ∧
              (∀ p l b, l ≤ lvl → g p = Some (l, b) → heap t' !! p = heap t !! p) ∧
              gc_garbage t' = gc_garbage t ∧ gc_guards t' = gc_guards t ∧
              root_grown t lost H t' H') as Hall.
  { induction stack as [|P rest IH];
      intros g t lvl X Y sep fuel Hpend Hpath Hbnd Hcaps Hfuel.
    - simpl in Hpath. subst X.
      destruct (CompleteSplit_loop_root H g t lvl Y sep fuel Hmax Hpend Hbnd Hcaps)
        as (t' & g' & H' & E & Hc); [lia|].
      by exists t', g', H', [].
    - by eapply (CompleteSplit_loop_step H rest rest 2 (λ lost, lost = [])). }
  intros g t lvl X Y sep fuel Hpend Hpath Hbnd Hcaps Hfuel.
  destruct (Hall g t lvl X Y sep fuel Hpend Hpath Hbnd Hcaps Hfuel)
    as (t' & g' & H' & lost & E & -> & Hc).
  by exists t', g', H'.
Qed.

(** The root split is lost: the stack is exhausted, but the split node is
    not the root, because the tree has grown since the descent.  The
    parent is searched for from the root, and the split is completed
    along the stack that the search returns. *)
Lemma CompleteSplit_loop_lost H g t lvl X Y sep rest fuel :
  2 ≤ kMaxRecNum →
  pending g (heap t) (root_ t) H lvl X Y sep → X ≠ root_ t →
  anc_path g (heap t) (root_ t) lvl X rest →
  bounded g (heap t) → caps_ok (heap t) → H - lvl + 4 ≤ fuel →
  ∃ t' g' H',
    CompleteSplit_loop fuel t [] None X Y sep = Some t' ∧
    inv g' (heap t') (root_ t') H' ∧ caps_ok (heap t') ∧
    H ≤ H' ≤ S H ∧
    (∀ p l b, l ≤ lvl → g' p = Some (l, b) ↔ g p = Some (l, b)) ∧
    (∀ p l b, l ≤ lvl → g p = Some (l, b) → heap t' !! p = heap t !! p) ∧
    gc_garbage t' = gc_garbage t ∧ gc_guards t' = gc_guards t ∧
    root_grown t lost_root_split H t' H'.
Proof.
  intros Hmax Hpend HXr Hrest Hbnd Hcaps Hfuel.
  destruct fuel as [|fuel]; [lia|].
  cbn [CompleteSplit_loop]. unfold TryRootSplit. cbn [root_load].
  rewrite decide_False by done.
  set (t1 := mkBTree _ _ _ _ _).
  destruct (SearchParentNode_pending g t1 H lvl X Y sep rest [] fuel)
    as (path & E & Hpath & Hlen); try done; [lia|].
  rewrite E, app_nil_r.
  destruct (CompleteSplit_loop_spec H Hmax path g (log_load memory_order_acquire t1)
              lvl X Y sep fuel) as (t' & g' & H' & E' & Hinv' & Hcaps' & HH & Hlv1 & Hlv2
                                    & Hgc1 & Hgc2 & Hgr); try done; [lia|].
  exists t', g', H'. split; [exact E'|]. split_and!; try done; try lia.
  unfold root_grown in *. simpl in Hgr. rewrite app_nil_r in Hgr.
  unfold lost_root_split. rewrite <- !app_assoc in Hgr. exact Hgr.
Qed.

(** The same for a stack that is stale: it holds the ancestors of the
    split node up to the node that was the root when the writer
    descended, and the tree has grown above it. *)
Lemma CompleteSplit_loop_stale H :
  2 ≤ kMaxRecNum →
  ∀ stack rest g t lvl X Y sep fuel,
    pending g (heap t) (root_ t) H lvl X Y sep →
    anc_path g (heap t) (root_ t) lvl X (stack ++ rest) →
    bounded g (heap t) → caps_ok (heap t) →
    length stack + (H + 4) ≤ fuel →
    ∃ t' g' H' lost,
      CompleteSplit_loop fuel t stack None X Y sep = Some t' ∧
      (lost = [] ∨ lost = lost_root_split) ∧
      inv g' (heap t') (root_ t') H' ∧ caps_ok (heap t') ∧
      H ≤ H' ≤ S H ∧
      (∀ p l b, l ≤ lvl → g' p = Some (l, b) ↔ g p = Some (l, b)) ∧
      (∀ p l b, l ≤ lvl → g p = Some (l, b) → heap t' !! p = heap t !! p) ∧
      gc_garbage t' = gc_garbage t ∧ gc_guards t' = gc_guards t ∧
      root_grown t lost H t' H'.
Proof.
  intros Hmax. induction stack as [|P stack IH];
    intros rest g t lvl X Y sep fuel Hpend Hpath Hbnd Hcaps Hfuel.
  - simpl in Hpath. destruct (decide (X = root_ t)) as [->|HXr].
    + destruct (CompleteSplit_loop_root H g t lvl Y sep fuel Hmax Hpend Hbnd Hcaps)
        as (t' & g' & H' & E & Hc); [simpl in Hfuel; lia|].
      exists t', g', H', []. split; [done|]. split; [by left|done].
    + destruct (CompleteSplit_loop_lost H g t lvl X Y sep rest fuel Hmax Hpend HXr Hpath
                  Hbnd Hcaps) as (t' & g' & H' & E & Hc); [simpl in Hfuel; lia|].
      exists t', g', H', lost_root_split. split; [done|]. split; [by right|done].
  - eapply (CompleteSplit_loop_step H stack (stack ++ rest) (H + 4)
              (λ lost, lost = [] ∨ lost = lost_root_split)); try done; [lia|by left|].
    intros g0 t0 lvl0 X0 Y0 sep0 fuel0. apply IH.
Qed.

End Complete.

Lemma find_live_app lo hi s l1 l2 K :
  keys_in lo (rec_key <$> l1) (Fin s) → keys_in (Fin s) (rec_key <$> l2) hi →
  find_live K (l1 ++ l2) = if (K <? s)%Z then find_live K l1 else find_live K l2.
Proof.
  intros H1 H2. revert lo H1. induction l1 as [|r l1 IH]; intros lo H1.
  - simpl. destruct (Z.ltb_spec K s); [|done].
    eapply find_live_above; [exact H2|]. unfold blt. lia.
  - simpl in H1. destruct H1 as (Ha & Hb & Hc). specialize (IH _ Hc).
    change ((r :: l1) ++ l2) with (r :: (l1 ++ l2)). rewrite !find_live_cons, IH.
    unfold blt in Hb. zcmp; try done; try lia.
Qed.

Ltac tree_simpl :=
  cbn [heap root_ gc_guards gc_garbage root_trace log_load root_load root_store
       CreateEpochGuard ReleaseEpochGuard AddGarbage set_heap GetNodePage fst snd] in *.

Section Records.
Context {cfg : Params}.

Lemma holds_unique g h root H K v v' :
  inv g h root H → holds g h K v → holds g h K v' → v = v'.
Proof.
  intros Hinv (p & n & Hl & <-) (p' & n' & Hl' & <-).
  by destruct (leaf_for_unique _ _ _ _ _ _ _ _ _ Hinv Hl Hl') as [-> ->].
Qed.

Lemma holds_total g h root H K : inv g h root H → ∃ v, holds g h K v.
Proof.
  intros Hinv.
  destruct (SearchLeafNode_spec g (mkBTree h root [] 0 []) H K (S H)) as (q & nq & _ & Hl);
    [done|lia|].
  eexists. exists q, nq. split; [exact Hl|done].
Qed.

(** ** [Read] *)
Lemma Read_spec g t H K v fuel :
  inv g (heap t) (root_ t) H → H < fuel → holds g (heap t) K v →
  ∃ p n, Read fuel t K = Some (v, (p, version n, version n), observed t) ∧
         leaf_for g (heap t) K p n.
Proof.
  intros Hinv Hfuel (p & n & Hl & Hv).
  destruct (SearchLeafNode_spec g (CreateEpochGuard t) H K fuel Hinv Hfuel)
    as (q & nq & Erun & Hl').
  destruct (leaf_for_unique _ _ _ _ _ _ _ _ _ Hinv Hl Hl') as [<- <-].
  destruct Hl as (lo & Hg & Hp & Hrange).
  destruct (inv_node _ _ _ _ _ _ _ Hinv Hg) as (n' & Hn' & Hok). simplify_eq.
  exists p, n. split; [|by exists lo].
  unfold Read. rewrite Erun. unfold Node_Read. tree_simpl.
  destruct fuel as [|fuel']; [lia|].
  rewrite (CheckKeyRange_here fuel' _ _ _ _ _ Hp (proj1 Hok) Hrange), Hp.
  destruct (find_live K (leaf_records n)) as [r|]; simpl; done.
Qed.

(** [Read] computes what the tree stores, whatever the ghost is. *)
Lemma stores_Read t K v :
  stores t K v → ∃ fuel0, ∀ fuel, fuel0 ≤ fuel →
    ∃ info, Read fuel t K = Some (v, info, observed t).
Proof.
  intros (g & H & Hinv & Hh). exists (S H). intros fuel Hfuel.
  destruct (Read_spec g t H K v fuel Hinv) as (p & n & E & _); [lia|done|]. eauto.
Qed.

Lemma stores_unique t K v v' : stores t K v → stores t K v' → v = v'.
Proof.
  intros H1 H2. destruct (stores_Read _ _ _ H1) as (f1 & E1).
  destruct (stores_Read _ _ _ H2) as (f2 & E2).
  destruct (E1 (f1 + f2)) as (i1 & E1'); [lia|].
  destruct (E2 (f1 + f2)) as (i2 & E2'); [lia|]. congruence.
Qed.

End Records.

(** * Writing records *)
Lemma find_slot_elem K rs r : find_slot K rs = Some r → r ∈ rs.
Proof.
  unfold find_slot. destruct (rs !! lower_bound K rs) as [r'|] eqn:E; [|done].
  destruct (rec_key r' =? K)%Z; [|done]. intros [= <-]. by eapply list_elem_of_lookup_2.
Qed.

Lemma find_slot_all_live K rs :
  Forall (λ r, rec_deleted r = false) rs → find_live K rs = None → find_slot K rs = None.
Proof.
  intros Hall. unfold find_live. destruct (find_slot K rs) as [r|] eqn:E; [|done].
  apply find_slot_elem in E. rewrite list.Forall_forall in Hall. by rewrite (Hall _ E).
Qed.

Lemma live_all_live rs : Forall (λ r, rec_deleted r = false) (live rs).
Proof.
  apply list.Forall_forall. intros r Hr. unfold live in Hr.
  by apply list_elem_of_filter in Hr as [? _].
Qed.

Lemma put_record_idem K V rs : put_record K V (put_record K V rs) = put_record K V rs.
Proof.
  induction rs as [|r rs IH].
  - rewrite put_record_nil, put_record_cons. simpl. zcmp; done || lia.
  - rewrite put_record_cons. zcmp; rewrite put_record_cons; simpl; zcmp;
      try done; try lia. by rewrite IH.
Qed.

Lemma put_record_length K V rs r :
  find_slot K rs = Some r → length (put_record K V rs) = length rs.
Proof. unfold put_record. intros ->. by rewrite length_insert. Qed.

Lemma find_live_slot K rs r : find_live K rs = Some r → find_slot K rs = Some r.
Proof.
  unfold find_live. destruct (find_slot K rs) as [r'|]; [|done].
  destruct (rec_deleted r'); [done|]. by intros [= <-].
Qed.

(** Putting a record into a list that is divided at a key. *)
Lemma put_record_app_l K V l1 x l2 :
  (K < rec_key x)%Z →
  put_record K V (l1 ++ x :: l2) = put_record K V l1 ++ x :: l2.
Proof.
  intros Hlt. induction l1 as [|r l1 IH].
  - change ([] ++ x :: l2) with (x :: l2). rewrite put_record_cons, put_record_nil.
    destruct (Z.ltb_spec (rec_key x) K); [lia|].
    destruct (Z.eqb_spec (rec_key x) K); [lia|done].
  - change ((r :: l1) ++ x :: l2) with (r :: (l1 ++ x :: l2)).
    rewrite !put_record_cons, IH.
    destruct (rec_key r <? K)%Z; [done|]. by destruct (rec_key r =? K)%Z.
Qed.

Lemma put_record_app_r K V l1 l2 :
  Forall (λ r, (rec_key r < K)%Z) l1 →
  put_record K V (l1 ++ l2) = l1 ++ put_record K V l2.
Proof.
  induction 1 as [|r l1 Hr _ IH]; [done|].
  change ((r :: l1) ++ l2) with (r :: (l1 ++ l2)).
  rewrite put_record_cons, IH. by destruct (Z.ltb_spec (rec_key r) K); [|lia].
Qed.

Lemma put_record_length_le K V rs : length (put_record K V rs) ≤ S (length rs).
Proof.
  induction rs as [|r rs IH]; [rewrite put_record_nil; simpl; lia|].
  rewrite put_record_cons.
  destruct (rec_key r <? K)%Z; [simpl; lia|].
  destruct (rec_key r =? K)%Z; simpl; lia.
Qed.

Lemma put_record_length_ge K V rs : length rs ≤ length (put_record K V rs).
Proof.
  induction rs as [|r rs IH]; [rewrite put_record_nil; simpl; lia|].
  rewrite put_record_cons.
  destruct (rec_key r <? K)%Z; [simpl; lia|].
  destruct (rec_key r =? K)%Z; simpl; lia.
Qed.

Section Write.
Context {cfg : Params}.

(** ** Updates of one node that keep its links *)
Lemma inv_update g h root H q lvl lo n n' :
  inv g h root H → g q = Some (lvl, lo) → h !! q = Some n → same_link n n' →
  child <$> inner_records n' = child <$> inner_records n →
  node_ok g h H lvl lo n' →
  inv g (<[q := n']> h) root H.
Proof.
  intros Hinv Hg Hq Hsl Hch Hok. pose proof (lookup_lt_Some _ _ _ Hq) as Hlt.
  split.
  - apply Hinv.
  - destruct (inv_root_hi _ _ _ _ Hinv) as (nr & Hr & Hhk).
    destruct (decide (root = q)) as [->|Hne].
    + exists n'. rewrite list_lookup_insert_eq by done. split; [done|]. simplify_eq.
      destruct Hsl as (_ & -> & _). done.
    + exists nr. by rewrite list_lookup_insert_ne.
  - intros p l b Hp. destruct (decide (p = q)) as [->|Hne].
    + exists n'. rewrite list_lookup_insert_eq by done. split; [done|]. simplify_eq.
      by eapply node_ok_update_same_link.
    + destruct (inv_node _ _ _ _ _ _ _ Hinv Hp) as (np & Hnp & Hokp). exists np.
      rewrite list_lookup_insert_ne by done. split; [done|].
      by eapply node_ok_update_same_link.
  - intros p l b Hp.
    destruct (inv_parent _ _ _ _ Hinv _ _ _ Hp) as [->|(qq & lq & bq & nq & Hgq & Hqq & Hin)];
      [by left|right].
    destruct (decide (qq = q)) as [->|Hne].
    + exists q, lq, bq, n'. rewrite list_lookup_insert_eq by done. simplify_eq.
      split_and!; try done. by rewrite Hch.
    + exists qq, lq, bq, nq. by rewrite list_lookup_insert_ne.
Qed.

(** The records of one leaf change: the tree stays well formed, and what
    it holds changes as the records of the leaf do. *)
Lemma leaf_update g h root H K q n n' rs' new :
  inv g h root H → leaf_for g h K q n → same_link n n' →
  records n' = LeafRecords rs' →
  (∀ lo, g q = Some (0, lo) → keys_in lo (rec_key <$> rs') (hi_of (high_key n))) →
  (∀ K', rec_payload <$> find_live K' rs' =
         if decide (K' = K) then new else rec_payload <$> find_live K' (leaf_records n)) →
  inv g (<[q := n']> h) root H ∧
  ∀ K' v, holds g h K' v → holds g (<[q := n']> h) K' (if decide (K' = K) then new else v).
Proof.
  intros Hinv Hl Hsl Erec Hkeys Hfind.
  pose proof Hl as (lo & Hg & Hq & Hrange).
  destruct (inv_node _ _ _ _ _ _ _ Hinv Hg) as (n0 & Hn0 & Hok). simplify_eq.
  pose proof (lookup_lt_Some _ _ _ Hq) as Hlt.
  destruct Hsl as (E1 & E2 & E3).
  split.
  - eapply inv_update; try done.
    + unfold inner_records. rewrite Erec.
      destruct (node_ok_leaf _ _ _ _ _ Hok) as (rs & -> & _). done.
    + eapply node_ok_same_link; try done. rewrite Erec. split; [done|]. by apply Hkeys.
  - intros K' v (p & np & Hl' & Hv). destruct (decide (p = q)) as [->|Hne].
    + destruct Hl' as (lo' & Hg' & Hp' & Hrange'). simplify_eq.
      exists q, n'. split.
      * exists lo. rewrite list_lookup_insert_eq by done. rewrite E2. done.
      * unfold leaf_records at 1. rewrite Erec. apply Hfind.
    + rewrite decide_False.
      * exists p, np. split; [|done]. destruct Hl' as (lo' & Hg' & Hp' & Hrange').
        exists lo'. by rewrite list_lookup_insert_ne.
      * intros ->. destruct (leaf_for_unique _ _ _ _ _ _ _ _ _ Hinv Hl Hl'). done.
Qed.

(** The split of a full leaf, up to the completion of the split, which is
    given: it runs in a state in which the split is pending. *)
Lemma split_and_insert_with g t H K V q n stack fuel (Q : list RootAccess → Prop) :
  2 ≤ kMaxRecNum →
  inv g (heap t) (root_ t) H → caps_ok (heap t) →
  leaf_for g (heap t) K q n →
  find_live K (leaf_records n) = None → has_space (leaf_records n) = false →
  (∀ g2 t2 Y sep,
     pending g2 (heap t2) (root_ t2) H 0 q Y sep →
     (∀ st, anc_path g (heap t) (root_ t) 0 q st →
            anc_path g2 (heap t2) (root_ t2) 0 q st) →
     bounded g2 (heap t2) → caps_ok (heap t2) →
     root_ t2 = root_ t → root_trace t2 = root_trace t →
     ∃ t' g' H' lost,
       CompleteSplit_loop fuel t2 stack None q Y sep = Some t' ∧ Q lost ∧
       inv g' (heap t') (root_ t') H' ∧ caps_ok (heap t') ∧
       H ≤ H' ≤ S H ∧
       (∀ p l b, l ≤ 0 → g' p = Some (l, b) ↔ g2 p = Some (l, b)) ∧
       (∀ p l b, l ≤ 0 → g2 p = Some (l, b) → heap t' !! p = heap t2 !! p) ∧
       gc_garbage t' = gc_garbage t2 ∧ gc_guards t' = gc_guards t2 ∧
       root_grown t2 lost H t' H') →
  ∃ target nt t' g' H' lost,
    split_and_insert fuel t (q :: stack) q K V = Some (target, version nt, t') ∧
    Q lost ∧
    inv g' (heap t') (root_ t') H' ∧ caps_ok (heap t') ∧ H ≤ H' ≤ S H ∧
    (∀ K' v, holds g (heap t) K' v →
       holds g' (heap t') K' (if decide (K' = K) then Some V else v)) ∧
    gc_garbage t' = gc_garbage t ∧ gc_guards t' = gc_guards t ∧
    leaf_for g' (heap t') K target nt ∧
    root_grown t lost H t' H' ∧ leaf_split t q n K V t'.
Proof.
  intros Hmax Hinv Hcaps Hl Hnone Hfull HCS.
  pose proof Hl as (lo & Hg & Hq & Hrange).
  destruct (inv_node _ _ _ _ _ _ _ Hinv Hg) as (n0 & Hn0 & Hok). simplify_eq.
  destruct (node_ok_leaf _ _ _ _ _ Hok) as (rs & Ers & Rn & Hkeys).
  assert (leaf_records n = rs) as Elr by (unfold leaf_records; by rewrite Ers).
  rewrite Elr in *.
  pose proof (lookup_lt_Some _ _ _ Hq) as Hqlt.
  pose proof (inv_bounded _ _ _ _ Hinv) as Hbnd.
  set (h := heap t) in *.
  set (lv := live rs).
  assert (kMaxRecNum ≤ length lv) as Hlen.
  { unfold has_space in Hfull. apply Nat.ltb_ge in Hfull. done. }
  set (m := length lv - length lv / 2).
  assert (0 < length lv / 2) as Hhalf by (apply Nat.div_str_pos; lia).
  assert (length lv / 2 < length lv) as Hhalf' by (apply Nat.div_lt; lia).
  assert (∃ x l2, drop m lv = x :: l2) as (x & l2 & Edrop).
  { destruct (drop m lv) as [|x l2] eqn:E; [|by eauto].
    apply (f_equal length) in E. rewrite length_drop in E. simpl in E. lia. }
  set (l1 := take m lv).
  assert (l1 ≠ []) as Hl1.
  { intros E. apply (f_equal length) in E. unfold l1 in E. rewrite length_take in E.
    simpl in E. lia. }
  assert (lv = l1 ++ x :: l2) as Esplit by (by rewrite <- Edrop; unfold l1; rewrite take_drop).
  set (s := rec_key x).
  assert (keys_in lo (rec_key <$> lv) (hi_of (high_key n))) as Hklv by (by apply keys_live).
  assert (keys_in lo (rec_key <$> l1) (Fin s) ∧
          keys_in (Fin s) (rec_key <$> (x :: l2)) (hi_of (high_key n))) as [Hk1 Hk2].
  { rewrite Esplit, fmap_app in Hklv. by apply keys_in_split in Hklv. }
  assert (blt lo (Fin s)) as Hlos.
  { destruct l1 as [|r l1']; [done|]. by eapply keys_in_nonempty. }
  assert (blt (Fin s) (hi_of (high_key n))) as Hshi by (by eapply keys_in_nonempty).
  assert (Forall (λ r, rec_deleted r = false) lv) as Hlive by apply live_all_live.
  assert (Forall (λ r, rec_deleted r = false) l1 ∧
          Forall (λ r, rec_deleted r = false) (x :: l2)) as [Hlive1 Hlive2].
  { rewrite Esplit in Hlive. by apply Forall_app in Hlive. }
  assert (∀ K', find_live K' (if (K' <? s)%Z then l1 else x :: l2) = find_live K' rs)
    as Hfl.
  { intros K'. rewrite <- (find_live_live _ _ _ _ Hkeys). fold lv. rewrite Esplit.
    rewrite (find_live_app _ _ _ _ _ K' Hk1 Hk2). by destruct (K' <? s)%Z. }
  (* the two halves *)
  set (new := Node_new (IsInner n)).
  set (R := length h).
  set (nl' := bump_version (set_records (set_link n (Some s) (Some R)) (LeafRecords l1))).
  set (nr' := bump_version (set_records (set_link new (high_key n) (next n))
                              (LeafRecords (x :: l2)))).
  set (h2 := <[R := nr']> (<[q := nl']> (h ++ [new]))).
  assert (Node_Split (h ++ [new]) q R = Some h2) as ESplit.
  { unfold Node_Split. rewrite (lookup_app_l_Some _ _ _ _ Hq).
    rewrite list_lookup_middle by done. rewrite Ers. cbv zeta. fold lv. fold m.
    rewrite Edrop. done. }
  assert (q ≠ R) as HqR by (unfold R; lia).
  assert (length h2 = S (length h)) as Elenh2.
  { unfold h2. rewrite !length_insert, length_app. simpl. lia. }
  assert (h2 !! q = Some nl') as Eh2q.
  { unfold h2. rewrite list_lookup_insert_ne by done.
    apply list_lookup_insert_eq. rewrite length_app. simpl. lia. }
  assert (h2 !! R = Some nr') as Eh2R.
  { unfold h2. apply list_lookup_insert_eq. rewrite length_insert, length_app. simpl.
    unfold R. lia. }
  (* the half that takes the record *)
  set (target := if (K <? s)%Z then q else R).
  set (nt := if (K <? s)%Z then nl' else nr').
  set (nt' := bump_version
                (set_records nt (LeafRecords (put_record K V (leaf_records nt))))).
  set (h3 := <[target := nt']> h2).
  set (l1' := if (K <? s)%Z then put_record K V l1 else l1).
  set (l2' := if (K <? s)%Z then x :: l2 else put_record K V (x :: l2)).
  assert (Node_GetValidSplitNode h2 q K = Some target) as ETarget.
  { unfold Node_GetValidSplitNode, target. rewrite Eh2q.
    change (high_key nl') with (Some s). change (next nl') with (Some R).
    cbv beta iota. by destruct (K <? s)%Z. }
  assert (h2 !! target = Some nt) as Hnt.
  { unfold target, nt. by destruct (K <? s)%Z. }
  assert (find_slot K (leaf_records nt) = None) as Hslot.
  { specialize (Hfl K). rewrite Hnone in Hfl. unfold nt.
    destruct (K <? s)%Z; by apply find_slot_all_live. }
  assert (Node_InsertRecord nt K V (snd (Node_SearchRecord nt K)) = (nt', version nt'))
    as EIns.
  { unfold Node_InsertRecord, Node_SearchRecord. cbn [snd].
    by rewrite insert_at_lower_bound. }
  assert (Node_GetSeparatorKey nt' (bool_decide (target = q)) = Some s) as ESep.
  { unfold target, nt', nt, Node_GetSeparatorKey, lowest_key.
    destruct (Z.ltb_spec K s) as [Hlt|Hge].
    - rewrite bool_decide_eq_true_2 by done. done.
    - rewrite bool_decide_eq_false_2 by done.
      cbn [records bump_version set_version set_records leaf_records].
      change (leaf_records nr') with (x :: l2).
      rewrite put_record_cons. fold s.
      destruct (Z.ltb_spec s K); [done|].
      assert (K = s) as -> by lia. exfalso.
      specialize (Hfl s). rewrite Z.ltb_irrefl, Hnone, find_live_cons in Hfl.
      fold s in Hfl. rewrite Z.ltb_irrefl, Z.eqb_refl in Hfl.
      apply Forall_cons_1 in Hlive2 as [Hx _]. by rewrite Hx in Hfl. }
  assert (h3 !! q = Some (if (K <? s)%Z then nt' else nl')) as E3q.
  { unfold h3, target. destruct (K <? s)%Z.
    - apply list_lookup_insert_eq. rewrite Elenh2. lia.
    - by rewrite list_lookup_insert_ne. }
  assert (h3 !! R = Some (if (K <? s)%Z then nr' else nt')) as E3R.
  { unfold h3, target. destruct (K <? s)%Z.
    - by rewrite list_lookup_insert_ne.
    - apply list_lookup_insert_eq. rewrite Elenh2. unfold R. lia. }
  assert (∀ p, p ≠ q → p ≠ R → h3 !! p = (h ++ [new]) !! p) as E3o.
  { intros p Hp1 Hp2. unfold h3, h2, target.
    destruct (K <? s)%Z; by rewrite !list_lookup_insert_ne. }
  assert (length h3 = S (length h)) as E3len.
  { unfold h3. by rewrite length_insert. }
  assert (records (if (K <? s)%Z then nt' else nl') = LeafRecords l1' ∧
          records (if (K <? s)%Z then nr' else nt') = LeafRecords l2') as [Er1 Er2].
  { unfold nt', nt, l1', l2'. by destruct (K <? s)%Z. }
  assert (keys_in lo (rec_key <$> l1') (Fin s) ∧
          keys_in (Fin s) (rec_key <$> l2') (hi_of (high_key n))) as [Hk1' Hk2'].
  { unfold l1', l2'. destruct Hrange as [Hr1 Hr2]. destruct (Z.ltb_spec K s).
    - split; [|done]. apply keys_put; [done|]. split; [done|]. unfold blt. lia.
    - split; [done|]. apply keys_put; [done|]. split; [|done]. unfold ble. lia. }
  assert (∀ K', rec_payload <$> find_live K' (if (K' <? s)%Z then l1' else l2') =
                if decide (K' = K) then Some V else rec_payload <$> find_live K' rs)
    as Hfl'.
  { intros K'. rewrite <- Hfl. unfold l1', l2'.
    destruct (Z.ltb_spec K s), (Z.ltb_spec K' s); rewrite ?find_live_put;
      destruct (decide (K' = K)); try done; lia. }
  (* the pending state *)
  assert (pending (gset g R (0, Fin s)) h3 (root_ t) H 0 q R s) as Hpend.
  { eapply (split_pending g h h3 (root_ t) H 0 q R s lo n); try done.
    - rewrite E3len. unfold R. lia.
    - rewrite E3len. lia.
    - intros p Hp1 Hp2. rewrite (E3o p Hp1 Hp2).
      destruct (decide (p < length h)).
      + by rewrite lookup_app_l.
      + rewrite !lookup_ge_None_2; [done|lia|].
        rewrite length_app. simpl. unfold R in Hp2. lia.
    - unfold nt', nt. by destruct (K <? s)%Z.
    - unfold nt', nt. by destruct (K <? s)%Z.
    - unfold nt', nt. by destruct (K <? s)%Z.
    - unfold nt', nt. by destruct (K <? s)%Z.
    - unfold nt', nt. by destruct (K <? s)%Z.
    - unfold nt', nt. by destruct (K <? s)%Z.
    - unfold split_halves. rewrite Ers. exists l1', l2'. done. }
  set (t2 := set_heap (set_heap (snd (GetNodePage t new)) h2) h3).
  assert (split_and_insert fuel t (q :: stack) q K V =
          (λ t3, (target, version nt', t3)) <$> CompleteSplit_loop fuel t2 stack None q R s)
    as Erun.
  { unfold split_and_insert, HalfSplit. fold h. rewrite Hq. fold new.
    cbn [GetNodePage heap set_heap fst snd]. fold h. fold R. rewrite ESplit.
    cbn [fmap option_fmap option_map heap set_heap]. rewrite ETarget, Hnt, EIns.
    fold h3. rewrite ESep. done. }
  assert (∀ st, anc_path g h (root_ t) 0 q st →
                anc_path (gset g R (0, Fin s)) (heap t2) (root_ t2) 0 q st) as Hanc.
  { intros st Hpath. eapply anc_path_ext; [|exact Hpath]. intros p l b Hgp Hl0.
    pose proof (Hbnd _ _ Hgp) as Hplt.
    split; [rewrite gset_ne; [done|unfold R; lia]|].
    assert (p ≠ q) as Hpq by (intros ->; rewrite Hg in Hgp; injection Hgp as <-; lia).
    destruct (lookup_lt_is_Some_2 _ _ Hplt) as [np Hnp].
    exists np, np. split_and!; try done. cbn [heap t2 set_heap].
    rewrite E3o by (try done; unfold R; lia). by apply lookup_app_l_Some. }
  assert (bounded (gset g R (0, Fin s)) (heap t2)) as Hbnd2.
  { intros p y. unfold gset. destruct (decide (p = R)) as [->|Hne].
    - intros _. cbn [heap t2 set_heap]. rewrite E3len. unfold R. lia.
    - intros Hgp. apply Hbnd in Hgp. cbn [heap t2 set_heap]. rewrite E3len. lia. }
  assert (caps_ok (heap t2)) as Hcaps2.
  { intros p np Hnp. cbn [heap t2 set_heap] in Hnp.
    destruct (decide (p = q)) as [->|Hpq].
    { rewrite E3q in Hnp. injection Hnp as <-. unfold inner_records. rewrite Er1. simpl. lia. }
    destruct (decide (p = R)) as [->|HpR].
    { rewrite E3R in Hnp. injection Hnp as <-. unfold inner_records. rewrite Er2. simpl. lia. }
    rewrite E3o in Hnp by done. apply lookup_app_Some in Hnp as [Hnp|[Hge Hnp]].
    - by eapply Hcaps.
    - apply list_lookup_singleton_Some in Hnp as [Hz _]. unfold R in HpR. lia. }
  destruct (HCS (gset g R (0, Fin s)) t2 R s Hpend Hanc Hbnd2 Hcaps2 eq_refl eq_refl)
    as (t' & g' & H' & lost & Ecs & HQ & Hinv' & Hcaps' & HH & Hlv1 & Hlv2 & Hgc1 & Hgc2
        & Hgr).
  (* the leaves of the new tree *)
  assert (∀ p l b, g p = Some (l, b) → p ≠ R) as HnotR.
  { intros p l b Hgp ->. apply Hbnd in Hgp. unfold R in Hgp. lia. }
  assert (∀ K', in_range lo K' (hi_of (high_key n)) →
            ∃ n', leaf_for g' (heap t') K' (if (K' <? s)%Z then q else R) n' ∧
                  h3 !! (if (K' <? s)%Z then q else R) = Some n' ∧
                  leaf_records n' = if (K' <? s)%Z then l1' else l2') as Hleaf.
  { intros K' [Hr1 Hr2]. destruct (Z.ltb_spec K' s).
    - eexists. split_and!; [|exact E3q|unfold leaf_records; by rewrite Er1].
      exists lo. split_and!.
      + apply Hlv1; [lia|]. rewrite gset_ne; [done|by eapply HnotR].
      + rewrite (Hlv2 q 0 lo); [exact E3q|lia|]. rewrite gset_ne; [done|by eapply HnotR].
      + split; [done|]. unfold nt', nt. unfold blt.
        destruct (K <? s)%Z; simpl; lia.
    - eexists. split_and!; [|exact E3R|unfold leaf_records; by rewrite Er2].
      exists (Fin s). split_and!.
      + apply Hlv1; [lia|]. apply gset_eq.
      + rewrite (Hlv2 R 0 (Fin s)); [exact E3R|lia|apply gset_eq].
      + split; [unfold ble; lia|]. unfold nt', nt.
        destruct (K <? s)%Z; simpl; done. }
  assert (put_record K V lv = l1' ++ l2') as Eput.
  { unfold l1', l2'. rewrite Esplit. destruct (Z.ltb_spec K s) as [Hlt|Hge].
    - by apply put_record_app_l.
    - apply put_record_app_r. pose proof (keys_in_Forall _ _ _ Hk1) as Hf1.
      apply Forall_fmap in Hf1. rewrite Forall_forall in Hf1.
      apply Forall_forall. intros r Hin. destruct (Hf1 r Hin) as [_ Hr].
      simpl in Hr. unfold blt in Hr. lia. }
  assert (l1' ≠ [] ∧ l2' ≠ [] ∧ head l2' = Some x) as (Hne1 & Hne2 & Hhead).
  { unfold l1', l2'. destruct (Z.ltb_spec K s) as [Hlt|Hge].
    - split_and!; try done. intros E. apply (f_equal length) in E.
      pose proof (put_record_length_ge K V l1). rewrite E in *.
      destruct l1; [done|]. simpl in *. lia.
    - rewrite put_record_cons. fold s.
      destruct (Z.ltb_spec s K) as [|Hge']; [done|].
      destruct (Z.eqb_spec s K) as [Es|]; [|lia]. exfalso.
      specialize (Hfl K). rewrite Hnone in Hfl.
      destruct (Z.ltb_spec K s); [lia|]. rewrite find_live_cons in Hfl. fold s in Hfl.
      rewrite Es, Z.ltb_irrefl, Z.eqb_refl in Hfl.
      apply Forall_cons_1 in Hlive2 as [Hx _]. by rewrite Hx in Hfl. }
  exists target, nt', t', g', H', lost. rewrite Erun, Ecs. split; [done|].
  split_and!; try done; try lia.
  - intros K' v (p & np & Hl' & Hv). destruct (decide (p = q)) as [->|Hne].
    + destruct Hl' as (lo' & Hg' & Hp' & Hrange'). simplify_eq.
      destruct (Hleaf K' Hrange') as (n' & Hl'' & _ & Erecs).
      eexists _, n'. split; [exact Hl''|]. by rewrite Erecs, Hfl'.
    + rewrite decide_False.
      * exists p, np. split; [|done]. destruct Hl' as (lo' & Hg' & Hp' & Hrange').
        exists lo'. split_and!; [| |done].
        -- apply Hlv1; [lia|]. rewrite gset_ne; [done|by eapply HnotR].
        -- rewrite (Hlv2 p 0 lo'); [|lia|rewrite gset_ne; [done|by eapply HnotR]].
           cbn [heap t2 set_heap]. rewrite E3o; [|done|by eapply HnotR].
           by apply lookup_app_l_Some.
      * intros ->. destruct (leaf_for_unique _ _ _ _ _ _ _ _ _ Hinv Hl Hl'). done.
  - destruct (Hleaf K Hrange) as (n' & Hl'' & Hn' & _).
    fold target in Hl'', Hn'. unfold h3 in Hn'.
    rewrite list_lookup_insert_eq in Hn'; [by injection Hn' as <-|].
    by eapply lookup_lt_Some.
  - unfold leaf_split. fold h. fold R.
    exists (if (K <? s)%Z then nt' else nl'), (if (K <? s)%Z then nr' else nt').
    assert (heap t' !! q = h3 !! q) as Eq'.
    { apply (Hlv2 q 0 lo); [lia|]. rewrite gset_ne; [done|by eapply HnotR]. }
    assert (heap t' !! R = h3 !! R) as ER'.
    { apply (Hlv2 R 0 (Fin s)); [lia|]. apply gset_eq. }
    rewrite Eq', ER', E3q, E3R. unfold IsInner, leaf_records. rewrite Er1, Er2.
    rewrite Hhead, Ers. fold lv. rewrite Eput.
    split_and!; try done; unfold nt', nt; by destruct (K <? s)%Z.
Qed.

Lemma split_and_insert_spec g t H K V q n stack fuel :
  2 ≤ kMaxRecNum →
  inv g (heap t) (root_ t) H → caps_ok (heap t) →
  leaf_for g (heap t) K q n → anc_path g (heap t) (root_ t) 0 q stack →
  find_live K (leaf_records n) = None → has_space (leaf_records n) = false →
  H + 2 ≤ fuel →
  ∃ target nt t' g' H',
    split_and_insert fuel t (q :: stack) q K V = Some (target, version nt, t') ∧
    inv g' (heap t') (root_ t') H' ∧ caps_ok (heap t') ∧ H ≤ H' ≤ S H ∧
    (∀ K' v, holds g (heap t) K' v →
       holds g' (heap t') K' (if decide (K' = K) then Some V else v)) ∧
    gc_garbage t' = gc_garbage t ∧ gc_guards t' = gc_guards t ∧
    leaf_for g' (heap t') K target nt ∧
    root_grown t [] H t' H' ∧ leaf_split t q n K V t'.
Proof.
  intros Hmax Hinv Hcaps Hl Hpath Hnone Hfull Hfuel.
  destruct (split_and_insert_with g t H K V q n stack fuel (λ lost, lost = [])
              Hmax Hinv Hcaps Hl Hnone Hfull)
    as (target & nt & t' & g' & H' & lost & E & -> & Hc).
  - intros g2 t2 Y sep Hpend Hanc Hbnd2 Hcaps2 Er Et.
    destruct (CompleteSplit_loop_spec H Hmax stack g2 t2 0 q Y sep fuel)
      as (t' & g' & H' & Hc); try done; [by apply Hanc|..].
    + destruct Hl as (lo & Hg & _).
      rewrite <- (anc_path_length _ _ _ _ _ _ _ _ Hinv Hg Hpath) in Hfuel. lia.
    + destruct Hc as (E & Hc). by exists t', g', H', [].
  - by exists target, nt, t', g', H'.
Qed.

(** The same with a stack that is stale: it ends below the root, the
    tree having grown since the descent of the writer. *)
Lemma split_and_insert_stale g t H K V q n stack rest fuel :
  2 ≤ kMaxRecNum →
  inv g (heap t) (root_ t) H → caps_ok (heap t) →
  leaf_for g (heap t) K q n → anc_path g (heap t) (root_ t) 0 q (stack ++ rest) →
  find_live K (leaf_records n) = None → has_space (leaf_records n) = false →
  length stack + (H + 4) ≤ fuel →
  ∃ target nt t' g' H' lost,
    split_and_insert fuel t (q :: stack) q K V = Some (target, version nt, t') ∧
    ((lost = [] ∨ lost = lost_root_split) ∧
     (stack = [] → rest ≠ [] → lost = lost_root_split)) ∧
    inv g' (heap t') (root_ t') H' ∧ caps_ok (heap t') ∧ H ≤ H' ≤ S H ∧
    (∀ K' v, holds g (heap t) K' v →
       holds g' (heap t') K' (if decide (K' = K) then Some V else v)) ∧
    gc_garbage t' = gc_garbage t ∧ gc_guards t' = gc_guards t ∧
    leaf_for g' (heap t') K target nt ∧
    root_grown t lost H t' H' ∧ leaf_split t q n K V t'.
Proof.
  intros Hmax Hinv Hcaps Hl Hpath Hnone Hfull Hfuel.
  apply (split_and_insert_with g t H K V q n stack fuel
           (λ lost, (lost = [] ∨ lost = lost_root_split) ∧
                    (stack = [] → rest ≠ [] → lost = lost_root_split))
           Hmax Hinv Hcaps Hl Hnone Hfull).
  intros g2 t2 Y sep Hpend Hanc Hbnd2 Hcaps2 Er Et.
  destruct stack as [|P stack].
  - destruct rest as [|P rest].
    + destruct (CompleteSplit_loop_spec H Hmax [] g2 t2 0 q Y sep fuel)
        as (t' & g' & H' & E & Hc); try done; [by apply Hanc|simpl; lia|].
      exists t', g', H', []. split; [done|]. split; [|done]. split; [by left|done].
    + assert (q ≠ root_ t2) as Hqr.
      { rewrite Er. intros ->. destruct Hl as (lo & Hg & _).
        destruct Hpath as ((lo' & n' & Hg' & _) & Hrest).
        pose proof (anc_path_length _ _ _ _ _ _ _ _ Hinv Hg' Hrest).
        pose proof (inv_root _ _ _ _ Hinv) as Hr. rewrite Hg in Hr.
        injection Hr as Hr _. lia. }
      destruct (CompleteSplit_loop_lost H g2 t2 0 q Y sep (P :: rest) fuel)
        as (t' & g' & H' & E & Hc); try done; [by apply Hanc|simpl in Hfuel; lia|].
      exists t', g', H', lost_root_split. split; [done|]. split; [|done].
      split; [by right|done].
  - destruct (CompleteSplit_loop_stale H Hmax (P :: stack) rest g2 t2 0 q Y sep fuel)
      as (t' & g' & H' & lost & E & HQ & Hc); try done; [by apply Hanc|].
    exists t', g', H', lost. split; [done|]. split; [|done]. split; [done|]. done.
Qed.

(** ** The descent of the writers *)
Lemma descend_spec g t H K fuel :
  inv g (heap t) (root_ t) H → H < fuel →
  ∃ q n stack,
    SearchLeafNodeForWrite fuel (CreateEpochGuard t) K =
      Some (q :: stack, log_load memory_order_acquire (CreateEpochGuard t)) ∧
    leaf_for g (heap t) K q n ∧ anc_path g (heap t) (root_ t) 0 q stack ∧
    CheckKeyRange fuel (heap t) q K = Some (Some q) ∧ heap t !! q = Some n ∧
    is_removed n = false.
Proof.
  intros Hinv Hfuel.
  destruct (SearchLeafNodeForWrite_spec g (CreateEpochGuard t) H K fuel Hinv Hfuel)
    as (q & n & stack & Erun & Hl & Hpath).
  exists q, n, stack. split_and!; try done.
  - destruct Hl as (lo & Hg & Hq & Hrange).
    destruct (inv_node _ _ _ _ _ _ _ Hinv Hg) as (n' & Hn' & Hok). tree_simpl. simplify_eq.
    destruct fuel as [|fuel']; [lia|].
    eapply CheckKeyRange_here; [done|apply Hok|done].
  - by destruct Hl as (lo & Hg & Hq & Hrange).
  - destruct Hl as (lo & Hg & Hq & Hrange).
    destruct (inv_node _ _ _ _ _ _ _ Hinv Hg) as (n' & Hn' & Hok). tree_simpl. simplify_eq.
    apply Hok.
Qed.

Lemma leaf_records_eq g h K q n :
  ∀ root H, inv g h root H → leaf_for g h K q n →
  ∃ lo, g q = Some (0, lo) ∧ records n = LeafRecords (leaf_records n) ∧
        keys_in lo (rec_key <$> leaf_records n) (hi_of (high_key n)) ∧
        in_range lo K (hi_of (high_key n)).
Proof.
  intros root H Hinv (lo & Hg & Hq & Hrange).
  destruct (inv_node _ _ _ _ _ _ _ Hinv Hg) as (n' & Hn' & Hok). simplify_eq.
  destruct (node_ok_leaf _ _ _ _ _ Hok) as (rs & Ers & _ & Hkeys).
  exists lo. unfold leaf_records. rewrite Ers. done.
Qed.

(** The record of [K] is put into the leaf that covers [K]. *)
Lemma leaf_put g h root H K V q n rs0 :
  inv g h root H → leaf_for g h K q n →
  (rs0 = leaf_records n ∨ rs0 = live (leaf_records n)) →
  let n' := bump_version (set_records n (LeafRecords (put_record K V rs0))) in
  inv g (<[q := n']> h) root H ∧
  ∀ K' v, holds g h K' v → holds g (<[q := n']> h) K' (if decide (K' = K) then Some V else v).
Proof.
  intros Hinv Hl Hrs0 n'.
  destruct (leaf_records_eq _ _ _ _ _ _ _ Hinv Hl) as (lo & Hg & Ers & Hkeys & Hrange).
  eapply leaf_update; try done.
  - intros lo' Hg'. simplify_eq. apply keys_put; [|done].
    destruct Hrs0 as [->| ->]; [done|by apply keys_live].
  - intros K'. rewrite find_live_put. case_decide; [done|].
    destruct Hrs0 as [->| ->]; [done|]. by erewrite find_live_live.
Qed.

(** ** [Write] *)
Lemma Write_at g t H K V q n fuel :
  2 ≤ kMaxRecNum →
  inv g (heap t) (root_ t) H → caps_ok (heap t) → H + 2 ≤ fuel →
  leaf_for g (heap t) K q n →
  ∃ t' g' H',
    Write fuel t K V = Some (kSuccess, t') ∧
    inv g' (heap t') (root_ t') H' ∧ caps_ok (heap t') ∧ H ≤ H' ≤ S H ∧
    (∀ K' v, holds g (heap t) K' v →
       holds g' (heap t') K' (if decide (K' = K) then Some V else v)) ∧
    gc_garbage t' = gc_garbage t ∧ gc_guards t' = gc_guards t ∧
    match (Node_Write n K V).2 with
    | kNeedSplit => leaf_split t q n K V t'
    | _ => t' = set_heap (observed t) (<[q := (Node_Write n K V).1]> (heap t))
    end.
Proof.
  intros Hmax Hinv Hcaps Hfuel Hl0.
  destruct (descend_spec g t H K fuel Hinv) as (q' & n' & stack & Erun & Hl & Hpath & ECheck & Hq & Rn);
    [lia|].
  destruct (leaf_for_unique _ _ _ _ _ _ _ _ _ Hinv Hl0 Hl) as [<- <-].
  unfold Write. rewrite Erun. cbn [head]. tree_simpl. rewrite ECheck, Hq.
  unfold Node_Write.
  destruct (find_live K (leaf_records n)) as [r|] eqn:Efind.
  - (* overwrite in place *)
    rewrite decide_False by done.
    destruct (leaf_put g _ _ _ K V q n (leaf_records n) Hinv Hl) as [Hinv' Hholds]; [by left|].
    eexists _, g, H. split; [done|]. tree_simpl. split_and!; try done; try lia.
    apply caps_ok_insert; [done|]. simpl. lia.
  - destruct (has_space (leaf_records n)) eqn:Espace.
    + (* a new record in a leaf with room *)
      rewrite decide_False by done. unfold write_new.
      destruct (leaf_put g _ _ _ K V q n
                  (if length (leaf_records n) <? kMaxRecNum then leaf_records n
                   else live (leaf_records n)) Hinv Hl) as [Hinv' Hholds].
      { destruct (length (leaf_records n) <? kMaxRecNum); by eauto. }
      eexists _, g, H. split; [done|]. tree_simpl. split_and!; try done; try lia.
      apply caps_ok_insert; [done|]. simpl. lia.
    + (* the leaf is full *)
      rewrite decide_True by done. rewrite list_insert_id by done.
      set (t1 := set_heap _ (heap t)).
      destruct (split_and_insert_spec g t1 H K V q n stack fuel)
        as (target & nt & t' & g' & H' & Esp & Hinv' & Hcaps' & HH & Hholds & Hgc1 & Hgc2 & _
            & _ & Hsplit);
        try done.
      rewrite Esp. eexists _, g', H'. split; [done|]. tree_simpl.
      split_and!; try done; try lia. by rewrite Hgc2.
Qed.

Lemma Write_spec g t H K V fuel :
  2 ≤ kMaxRecNum →
  inv g (heap t) (root_ t) H → caps_ok (heap t) → H + 2 ≤ fuel →
  ∃ t' g' H',
    Write fuel t K V = Some (kSuccess, t') ∧
    inv g' (heap t') (root_ t') H' ∧ caps_ok (heap t') ∧ H ≤ H' ≤ S H ∧
    (∀ K' v, holds g (heap t) K' v →
       holds g' (heap t') K' (if decide (K' = K) then Some V else v)) ∧
    gc_garbage t' = gc_garbage t ∧ gc_guards t' = gc_guards t.
Proof.
  intros Hmax Hinv Hcaps Hfuel.
  destruct (descend_spec g t H K fuel Hinv) as (q & n & _ & _ & Hl & _); [lia|].
  destruct (Write_at g t H K V q n fuel Hmax Hinv Hcaps Hfuel Hl)
    as (t' & g' & H' & E & Hc1 & Hc2 & Hc3 & Hc4 & Hc5 & Hc6 & _).
  by exists t', g', H'.
Qed.

(** A key that is present is overwritten in its slot: no page is
    allocated, and the leaf keeps its number of slots. *)
Lemma Write_present g t H K V v0 fuel :
  inv g (heap t) (root_ t) H → H < fuel → holds g (heap t) K (Some v0) →
  ∃ q n, leaf_for g (heap t) K q n ∧
    let n' := bump_version (set_records n (LeafRecords (put_record K V (leaf_records n)))) in
    Write fuel t K V = Some (kSuccess, set_heap (observed t) (<[q := n']> (heap t))) ∧
    length (leaf_records n') = length (leaf_records n).
Proof.
  intros Hinv Hfuel (q0 & n0 & Hl0 & Hv).
  destruct (descend_spec g t H K fuel Hinv Hfuel)
    as (q & n & stack & Erun & Hl & Hpath & ECheck & Hq & Rn).
  destruct (leaf_for_unique _ _ _ _ _ _ _ _ _ Hinv Hl0 Hl) as [-> ->].
  exists q, n. split; [done|]. cbv zeta.
  unfold Write. rewrite Erun. cbn [head]. tree_simpl. rewrite ECheck, Hq.
  unfold Node_Write.
  destruct (find_live K (leaf_records n)) as [r|] eqn:Efind; [|done].
  rewrite decide_False by done. split; [done|].
  unfold leaf_records at 1. simpl. eapply put_record_length. by apply find_live_slot.
Qed.

(** ** [Insert] *)
Lemma Insert_present g t H K V v0 fuel :
  inv g (heap t) (root_ t) H → H < fuel → holds g (heap t) K (Some v0) →
  ∃ q n, leaf_for g (heap t) K q n ∧
    Insert fuel t K V = Some (kKeyExist, Some v0, (q, version n, version n), observed t).
Proof.
  intros Hinv Hfuel (q0 & n0 & Hl0 & Hv).
  destruct (descend_spec g t H K fuel Hinv Hfuel)
    as (q & n & stack & Erun & Hl & Hpath & ECheck & Hq & Rn).
  destruct (leaf_for_unique _ _ _ _ _ _ _ _ _ Hinv Hl0 Hl) as [-> ->].
  exists q, n. split; [done|].
  unfold Insert. rewrite Erun. cbn [head]. tree_simpl.
  unfold Node_Insert, with_locked_node. rewrite ECheck, Hq. unfold Node_Insert_locked.
  destruct (find_live K (leaf_records n)) as [r|]; [|done]. simpl in Hv. injection Hv as ->.
  rewrite decide_True by done. rewrite list_insert_id by done. done.
Qed.

Lemma Insert_absent_at g t H K V q n fuel :
  2 ≤ kMaxRecNum →
  inv g (heap t) (root_ t) H → caps_ok (heap t) → H + 2 ≤ fuel →
  leaf_for g (heap t) K q n → find_live K (leaf_records n) = None →
  ∃ p np t' g' H',
    Insert fuel t K V =
      Some (kSuccess, None, (p, version np, GetPreviousVersion (version np)), t') ∧
    inv g' (heap t') (root_ t') H' ∧ caps_ok (heap t') ∧ H ≤ H' ≤ S H ∧
    (∀ K' v, holds g (heap t) K' v →
       holds g' (heap t') K' (if decide (K' = K) then Some V else v)) ∧
    gc_garbage t' = gc_garbage t ∧ gc_guards t' = gc_guards t ∧
    leaf_for g' (heap t') K p np ∧
    match (Node_Insert_locked n K V).1.1.2 with
    | kNeedSplit => leaf_split t q n K V t'
    | _ => t' = set_heap (observed t) (<[q := (Node_Insert_locked n K V).1.1.1]> (heap t))
    end.
Proof.
  intros Hmax Hinv Hcaps Hfuel Hl0 Efind.
  destruct (descend_spec g t H K fuel Hinv)
    as (q' & n' & stack & Erun & Hl & Hpath & ECheck & Hq & Rn); [lia|].
  destruct (leaf_for_unique _ _ _ _ _ _ _ _ _ Hinv Hl0 Hl) as [<- <-].
  unfold Insert. rewrite Erun. cbn [head]. tree_simpl.
  unfold Node_Insert, with_locked_node. rewrite ECheck, Hq. unfold Node_Insert_locked.
  rewrite Efind.
  destruct (has_space (leaf_records n)) eqn:Espace.
  - (* a leaf with room *)
    rewrite decide_False by done. rewrite decide_False by done. unfold write_new.
    destruct (leaf_put g _ _ _ K V q n
                (if length (leaf_records n) <? kMaxRecNum then leaf_records n
                 else live (leaf_records n)) Hinv Hl) as [Hinv' Hholds].
    { destruct (length (leaf_records n) <? kMaxRecNum); by eauto. }
    eexists q, _, _, g, H. split; [done|]. tree_simpl. split_and!; try done; try lia.
    + apply caps_ok_insert; [done|]. simpl. lia.
    + destruct Hl as (lo & Hg & _ & Hrange). exists lo. split_and!; [done| |done].
      apply list_lookup_insert_eq. by eapply lookup_lt_Some.
  - (* the leaf is full *)
    rewrite decide_False by done. rewrite decide_True by done.
    rewrite list_insert_id by done.
    set (t1 := set_heap _ (heap t)).
    destruct (split_and_insert_spec g t1 H K V q n stack fuel)
      as (target & nt & t' & g' & H' & Esp & Hinv' & Hcaps' & HH & Hholds & Hgc1 & Hgc2 & Hl'
          & _ & Hsplit);
      try done.
    rewrite Esp. eexists target, nt, _, g', H'. split; [done|]. tree_simpl.
    split_and!; try done; try lia. by rewrite Hgc2.
Qed.

Lemma Insert_absent g t H K V fuel :
  2 ≤ kMaxRecNum →
  inv g (heap t) (root_ t) H → caps_ok (heap t) → H + 2 ≤ fuel →
  holds g (heap t) K None →
  ∃ p np t' g' H',
    Insert fuel t K V =
      Some (kSuccess, None, (p, version np, GetPreviousVersion (version np)), t') ∧
    inv g' (heap t') (root_ t') H' ∧ caps_ok (heap t') ∧ H ≤ H' ≤ S H ∧
    (∀ K' v, holds g (heap t) K' v →
       holds g' (heap t') K' (if decide (K' = K) then Some V else v)) ∧
    gc_garbage t' = gc_garbage t ∧ gc_guards t' = gc_guards t ∧
    leaf_for g' (heap t') K p np.
Proof.
  intros Hmax Hinv Hcaps Hfuel (q & n & Hl & Hv).
  assert (find_live K (leaf_records n) = None) as Efind.
  { by destruct (find_live K (leaf_records n)). }
  destruct (Insert_absent_at g t H K V q n fuel Hmax Hinv Hcaps Hfuel Hl Efind)
    as (p & np & t' & g' & H' & E & Hc1 & Hc2 & Hc3 & Hc4 & Hc5 & Hc6 & Hc7 & _).
  by exists p, np, t', g', H'.
Qed.

(** ** [Update] *)
Lemma Update_present g t H K V v0 fuel :
  inv g (heap t) (root_ t) H → H < fuel → holds g (heap t) K (Some v0) →
  ∃ q n, leaf_for g (heap t) K q n ∧
    let n' := bump_version (set_records n (LeafRecords (put_record K V (leaf_records n)))) in
    Update fuel t K V = Some (kSuccess, set_heap (observed t) (<[q := n']> (heap t))) ∧
    inv g (<[q := n']> (heap t)) (root_ t) H ∧
    ∀ K' v, holds g (heap t) K' v →
      holds g (<[q := n']> (heap t)) K' (if decide (K' = K) then Some V else v).
Proof.
  intros Hinv Hfuel (q & n & Hl & Hv).
  destruct (SearchLeafNode_spec g (CreateEpochGuard t) H K fuel Hinv Hfuel)
    as (q' & n' & Erun & Hl').
  destruct (leaf_for_unique _ _ _ _ _ _ _ _ _ Hinv Hl Hl') as [<- <-].
  exists q, n. split; [done|]. cbv zeta.
  destruct (leaf_put g _ _ _ K V q n (leaf_records n) Hinv Hl) as [Hinv' Hholds]; [by left|].
  split_and!; try done.
  pose proof Hl as (lo & Hg & Hq & Hrange).
  destruct (inv_node _ _ _ _ _ _ _ Hinv Hg) as (n0 & Hn0 & Hok). simplify_eq.
  unfold Update. rewrite Erun. tree_simpl.
  unfold Node_Update, with_locked_node.
  destruct fuel as [|fuel']; [lia|].
  rewrite (CheckKeyRange_here fuel' _ _ _ _ _ Hq (proj1 Hok) Hrange), Hq.
  unfold Node_Update_locked.
  destruct (find_live K (leaf_records n)) as [r|]; [|done]. done.
Qed.

Lemma Update_absent g t H K V fuel :
  inv g (heap t) (root_ t) H → H < fuel → holds g (heap t) K None →
  Update fuel t K V = Some (kKeyNotExist, observed t).
Proof.
  intros Hinv Hfuel (q & n & Hl & Hv).
  destruct (SearchLeafNode_spec g (CreateEpochGuard t) H K fuel Hinv Hfuel)
    as (q' & n' & Erun & Hl').
  destruct (leaf_for_unique _ _ _ _ _ _ _ _ _ Hinv Hl Hl') as [<- <-].
  pose proof Hl as (lo & Hg & Hq & Hrange).
  destruct (inv_node _ _ _ _ _ _ _ Hinv Hg) as (n0 & Hn0 & Hok). simplify_eq.
  unfold Update. rewrite Erun. tree_simpl.
  unfold Node_Update, with_locked_node.
  destruct fuel as [|fuel']; [lia|].
  rewrite (CheckKeyRange_here fuel' _ _ _ _ _ Hq (proj1 Hok) Hrange), Hq.
  unfold Node_Update_locked.
  destruct (find_live K (leaf_records n)) as [r|]; [done|].
  rewrite list_insert_id by done. done.
Qed.

End Write.

(** * Merging nodes *)

(** ** Chains of children *)
Lemma chain_NoDup h g lvl lo cs hi nx :
  ranges_ok g h → chain_ok h g lvl lo cs hi nx → NoDup (child <$> cs).
Proof.
  intros Hr. revert lo. induction cs as [|c cs IH]; intros lo Hc; csimpl; [constructor|].
  pose proof Hc as Hc'.
  apply chain_ok_cons in Hc as ((n & Hn & Hhi & Hnx) & Hg & Hrest).
  destruct cs as [|c1 cs]; [repeat constructor; by intros ?%elem_of_nil|].
  constructor; [|by eapply IH].
  intros Hin. apply list_elem_of_fmap in Hin as (c' & Ec & Hin).
  destruct (chain_elem _ _ _ _ _ _ _ _ Hr Hrest Hin) as (n' & lo' & Hn' & Hg' & Hlo' & _).
  rewrite <- Ec in *. simplify_eq.
  pose proof (Hr _ _ _ _ Hg Hn) as Hne. rewrite Hhi in Hne.
  eapply blt_irrefl. eapply blt_ble_trans; done.
Qed.

Lemma chain_ok_relink h g lvl lo cs hi nx hi' nx' :
  chain_ok h g lvl lo cs hi nx →
  (∀ c n, list.last cs = Some c → h !! child c = Some n →
     next n = nx' ∧ hi_of (high_key n) = hi') →
  chain_ok h g lvl lo cs hi' nx'.
Proof.
  revert lo. induction cs as [|c0 cs IH]; intros lo Hc Hlast; [done|].
  apply chain_ok_cons in Hc as ((n0 & Hn0 & Hhi & Hnx) & Hg & Hrest).
  apply chain_ok_cons. destruct cs as [|c1 cs].
  - destruct (Hlast c0 n0) as [E1 E2]; [done|done|]. split_and!; try done.
    exists n0. by rewrite E1, E2.
  - split_and!; try done; [by exists n0|]. apply IH; [done|].
    intros c n Hl. apply Hlast. by rewrite last_cons_cons.
Qed.

(** The entry of the right node of a merge leaves the chain of the
    parent: the left node has taken over its range and its link. *)
Lemma chain_delete h g h' g' lvl lo l1 cL cR l2 hi nx nl' :
  chain_ok h g lvl lo (l1 ++ cL :: cR :: l2) hi nx →
  h' !! child cL = Some nl' →
  (∀ nr, h !! child cR = Some nr → high_key nl' = high_key nr ∧ next nl' = next nr) →
  (∀ c, c ∈ l1 ++ cL :: l2 → g' (child c) = g (child c)) →
  (∀ c n, c ∈ l1 ++ l2 → h !! child c = Some n →
     ∃ n', h' !! child c = Some n' ∧ high_key n' = high_key n ∧ next n' = next n) →
  chain_ok h' g' lvl lo (l1 ++ cL :: l2) hi nx.
Proof.
  intros Hc HL Hnr Hg Hh.
  apply chain_ok_app in Hc as [Hc1 Hc2]. apply chain_ok_app. split.
  - destruct l1 as [|c1 l1]; [done|]. eapply chain_ok_ext; [| |exact Hc1].
    + intros c n Hin. apply Hh. apply list.elem_of_app. by left.
    + intros c Hin. apply Hg. apply list.elem_of_app. by left.
  - set (lo' := match l1 with [] => lo | _ :: _ => lo_of (sep_key cL) end) in *.
    apply chain_ok_cons in Hc2 as ((nl & Hnl & Hhil & Hnxl) & HgL & Hc3).
    apply chain_ok_cons in Hc3 as ((nr & Hnr' & Hhir & Hnxr) & HgR & Hc4).
    destruct (Hnr _ Hnr') as [E1 E2].
    apply chain_ok_cons. split_and!.
    + exists nl'. by rewrite E1, E2.
    + rewrite Hg; [done|]. apply list.elem_of_app. right. left.
    + destruct l2 as [|c2 l2]; [done|]. eapply chain_ok_ext; [| |exact Hc4].
      * intros c n Hin. apply Hh. apply list.elem_of_app. by right.
      * intros c Hin. apply Hg. apply list.elem_of_app. right. by right.
Qed.

(** ** The routing entry of a key *)
Lemma find_sep_app dk l c l2 :
  Forall (λ c', sep_key c' ≠ Some dk) l → sep_key c = Some dk →
  find_sep dk (l ++ c :: l2) = Some (length l).
Proof.
  intros Hl Hc. induction Hl as [|c' l Hc' _ IH]; simpl.
  - by rewrite decide_True.
  - rewrite decide_False by done. by rewrite IH.
Qed.

Lemma find_sep_spec lo l1 cL cR l2 dk :
  seps_above lo (list.tail (l1 ++ cL :: cR :: l2)) → sep_key cR = Some dk →
  find_sep dk (l1 ++ cL :: cR :: l2) = Some 0 ∨
  find_sep dk (l1 ++ cL :: cR :: l2) = Some (S (length l1)).
Proof.
  intros Hs Hk.
  assert (∃ c0 l1', l1 ++ cL :: cR :: l2 = c0 :: l1' ++ cR :: l2 ∧ length l1' = length l1)
    as (c0 & l1' & E & Elen).
  { destruct l1 as [|c0 l1]; [by exists cL, []|]. exists c0, (l1 ++ [cL]).
    rewrite length_app. simpl. split; [|lia]. by rewrite <- app_assoc. }
  rewrite E in *. simpl in Hs. simpl.
  destruct (decide (sep_key c0 = Some dk)); [by left|right].
  rewrite find_sep_app; [by rewrite Elen|  |done].
  eapply Forall_impl; [|exact (seps_above_app _ _ _ _ _ Hs Hk)].
  intros c (k' & -> & Hlt). intros [=]. lia.
Qed.

Lemma delete_entry (l1 : list InnerRec) cL cR l2 :
  delete (S (length l1)) (l1 ++ cL :: cR :: l2) = l1 ++ cL :: l2.
Proof.
  induction l1 as [|c l1 IH]; [done|]. simpl. f_equal. exact IH.
Qed.

(** ** The merge of two siblings *)

Section Merge.
Context {cfg : Params}.

Lemma level_lt_hi g h root H K p q l lo_p lo_q np nq :
  inv g h root H →
  g p = Some (l, lo_p) → h !! p = Some np → in_range lo_p K (hi_of (high_key np)) →
  g q = Some (l, lo_q) → h !! q = Some nq → in_range lo_q K (hi_of (high_key nq)) →
  p = q.
Proof.
  intros Hinv Hgp Hp Hrp Hgq Hq Hrq.
  destruct (inv_node _ _ _ _ _ _ _ Hinv Hgp) as (? & _ & (_ & _ & Hle & _)).
  eapply (level_unique g h root H K Hinv (H - l) p q l); try done. lia.
Qed.

(** Two nodes of a level that end at the same key are the same node. *)
Lemma same_hi_same_node g h root H p q l lo_p lo_q np nq dk :
  inv g h root H →
  g p = Some (l, lo_p) → h !! p = Some np → high_key np = Some dk →
  g q = Some (l, lo_q) → h !! q = Some nq → high_key nq = Some dk →
  p = q.
Proof.
  intros Hinv Hgp Hp Hkp Hgq Hq Hkq.
  pose proof (inv_ranges_ok _ _ _ _ Hinv) as Hro.
  pose proof (Hro _ _ _ _ Hgp Hp) as H1. pose proof (Hro _ _ _ _ Hgq Hq) as H2.
  rewrite Hkp in H1. rewrite Hkq in H2.
  eapply (level_lt_hi g h root H (dk - 1) p q); try done.
  - rewrite Hkp. clear -H1. bnd.
  - rewrite Hkq. clear -H2. bnd.
Qed.

(** Two nodes of a level that start at the same key are the same node. *)
Lemma same_lo_same_node g h root H p q l k :
  inv g h root H → g p = Some (l, Fin k) → g q = Some (l, Fin k) → p = q.
Proof.
  intros Hinv Hgp Hgq.
  pose proof (inv_ranges_ok _ _ _ _ Hinv) as Hro.
  destruct (inv_node _ _ _ _ _ _ _ Hinv Hgp) as (np & Hp & _).
  destruct (inv_node _ _ _ _ _ _ _ Hinv Hgq) as (nq & Hq & _).
  pose proof (Hro _ _ _ _ Hgp Hp) as H1. pose proof (Hro _ _ _ _ Hgq Hq) as H2.
  eapply (level_lt_hi g h root H k p q); try done.
  - split; [apply ble_refl|done].
  - split; [apply ble_refl|done].
Qed.

Lemma merge_inv g h root H lvl P lo_P nP n'P l1 cL cR l2 nl nr nl' :
  inv g h root H →
  g P = Some (S lvl, lo_P) → h !! P = Some nP →
  inner_records nP = l1 ++ cL :: cR :: l2 →
  h !! child cL = Some nl → h !! child cR = Some nr →
  same_link nP n'P → records n'P = InnerRecords (l1 ++ cL :: l2) →
  is_removed nl' = false → high_key nl' = high_key nr → next nl' = next nr →
  records nl' = merged_records nl nr →
  inv (gdel g (child cR))
    (<[child cR := set_removed nr]> (<[child cL := nl']> (<[P := n'P]> h))) root H ∧
  ∀ K v, holds g h K v →
    holds (gdel g (child cR))
      (<[child cR := set_removed nr]> (<[child cL := nl']> (<[P := n'P]> h))) K v.
Proof.
  intros Hinv HgP HP Ecs HL HR Hsl ErecP RL' EhL' EnL' ErecL'.
  pose proof (inv_ranges_ok _ _ _ _ Hinv) as Hro.
  destruct (inv_node _ _ _ _ _ _ _ Hinv HgP) as (n0 & Hn0 & HokP).
  rewrite HP in Hn0. injection Hn0 as <-.
  destruct (node_ok_inner _ _ _ _ _ _ HokP) as (cs & nxP & ErP & RP & HchainP & HheadP).
  assert (cs = l1 ++ cL :: cR :: l2) as ->.
  { unfold inner_records in Ecs. by rewrite ErP in Ecs. }
  pose proof HchainP as HchainP'.
  apply chain_ok_app in HchainP' as [Hc1 Hc2].
  set (lo_L := match l1 with [] => lo_P | _ :: _ => lo_of (sep_key cL) end) in *.
  apply chain_ok_cons in Hc2 as ((nl0 & Hnl0 & HhiL & HnxL) & HgL & Hc3).
  rewrite HL in Hnl0. injection Hnl0 as <-.
  pose proof Hc3 as Hc3'.
  apply chain_ok_cons in Hc3' as ((nr0 & Hnr0 & HhiR & HnxR) & HgR & Hc4).
  rewrite HR in Hnr0. injection Hnr0 as <-.
  destruct (hi_of_lo_of _ _ HhiL) as (dk & EhkL & EkR).
  rewrite EkR in HgR, Hc3, HhiL. simpl in HgR, Hc3.
  destruct (inv_node _ _ _ _ _ _ _ Hinv HgL) as (n0 & Hn0 & HokL).
  rewrite HL in Hn0. injection Hn0 as <-.
  destruct (inv_node _ _ _ _ _ _ _ Hinv HgR) as (n0 & Hn0 & HokR).
  rewrite HR in Hn0. injection Hn0 as <-.
  set (L := child cL) in *. set (R := child cR) in *.
  assert (blt lo_L (Fin dk)) as HloL.
  { pose proof (Hro _ _ _ _ HgL HL) as Hne. by rewrite EhkL in Hne. }
  assert (blt (Fin dk) (hi_of (high_key nr))) as HhiR' by (by eapply Hro).
  assert (L ≠ R) as HLR.
  { intros E. rewrite E in HgL. rewrite HgR in HgL. injection HgL as E'.
    rewrite <- E' in HloL. by apply blt_irrefl in HloL. }
  assert (P ≠ L) as HPL.
  { intros E. rewrite E in HgP. rewrite HgL in HgP. injection HgP as E'. lia. }
  assert (P ≠ R) as HPR.
  { intros E. rewrite E in HgP. rewrite HgR in HgP. injection HgP as E'. lia. }
  pose proof (lookup_lt_Some _ _ _ HP) as HPlt.
  pose proof (lookup_lt_Some _ _ _ HL) as HLlt.
  pose proof (lookup_lt_Some _ _ _ HR) as HRlt.
  set (g' := gdel g R).
  set (h' := <[R := set_removed nr]> (<[L := nl']> (<[P := n'P]> h))).
  assert (h' !! R = Some (set_removed nr)) as E'R.
  { unfold h'. apply list_lookup_insert_eq. by rewrite !length_insert. }
  assert (h' !! L = Some nl') as E'L.
  { unfold h'. rewrite list_lookup_insert_ne by done.
    apply list_lookup_insert_eq. by rewrite !length_insert. }
  assert (h' !! P = Some n'P) as E'P.
  { unfold h'. rewrite !list_lookup_insert_ne by done. by apply list_lookup_insert_eq. }
  assert (∀ p, p ≠ P → p ≠ L → p ≠ R → h' !! p = h !! p) as E'o.
  { intros p ? ? ?. unfold h'. by rewrite !list_lookup_insert_ne. }
  assert (∀ p, p ≠ R → g' p = g p) as Eg'.
  { intros p Hp. unfold g', gdel. by rewrite decide_False. }
  assert (g' R = None) as Eg'R.
  { unfold g', gdel. by rewrite decide_True. }
  (* the children of the parent are distinct *)
  pose proof (chain_NoDup _ _ _ _ _ _ _ Hro HchainP) as Hnd.
  assert (∀ c, c ∈ l1 ++ l2 → child c ≠ L ∧ child c ≠ R) as Hnd'.
  { intros c Hc. rewrite fmap_app in Hnd. csimpl in Hnd. fold L R in Hnd.
    apply list.NoDup_app in Hnd as (_ & Hnd1 & Hnd2).
    apply list.NoDup_cons in Hnd2 as [HL2 Hnd2]. apply list.NoDup_cons in Hnd2 as [HR2 _].
    apply list.elem_of_app in Hc as [Hc|Hc].
    - assert (child c ∈ child <$> l1) as Hc' by (apply list_elem_of_fmap; eauto).
      specialize (Hnd1 _ Hc'). split; intros E; apply Hnd1; rewrite E.
      + left.
      + right. left.
    - assert (child c ∈ child <$> l2) as Hc' by (apply list_elem_of_fmap; eauto).
      split; intros E.
      + apply HL2. right. by rewrite <- E.
      + apply HR2. by rewrite <- E. }
  (* the other parents *)
  assert (∀ p l b np, g p = Some (l, b) → h !! p = Some np → p ≠ P →
            ∀ c, c ∈ inner_records np → child c ≠ L ∧ child c ≠ R) as Hpar.
  { intros p l b np Hgp Hp HpP c Hc.
    assert (child c ∈ child <$> inner_records np) as Hc' by (apply list_elem_of_fmap; eauto).
    split; intros E; apply HpP.
    - eapply (parent_unique g h root H L p P); try done; [by rewrite <- E|].
      rewrite Ecs. apply list_elem_of_fmap. exists cL. split; [done|].
      apply list.elem_of_app. right. left.
    - eapply (parent_unique g h root H R p P); try done; [by rewrite <- E|].
      rewrite Ecs. apply list_elem_of_fmap. exists cR. split; [done|].
      apply list.elem_of_app. right. right. left. }
  (* no other node points to the right node *)
  assert (∀ p l b np, g p = Some (l, b) → h !! p = Some np → p ≠ L →
            next np ≠ Some R) as Hnext.
  { intros p l b np Hgp Hp HpL Hn.
    destruct (inv_node _ _ _ _ _ _ _ Hinv Hgp) as (n0 & Hn0 & Hokp).
    rewrite Hp in Hn0. injection Hn0 as <-.
    destruct Hokp as (_ & _ & _ & Hnx & _). rewrite Hn, HgR in Hnx.
    injection Hnx as -> Ehi. apply HpL.
    assert (high_key np = Some dk) as Ehk.
    { destruct (high_key np); simpl in Ehi; by simplify_eq. }
    by eapply (same_hi_same_node g h root H p L). }
  (* nodes of another level are not touched *)
  assert (∀ p l b, g p = Some (l, b) → l ≠ lvl → l ≠ S lvl →
            g' p = Some (l, b) ∧ h' !! p = h !! p) as Hfar.
  { intros p l b Hgp Hl1 Hl2.
    assert (p ≠ R) by (intros ->; rewrite HgR in Hgp; by injection Hgp).
    assert (p ≠ L) by (intros ->; rewrite HgL in Hgp; by injection Hgp).
    assert (p ≠ P) by (intros ->; rewrite HgP in Hgp; by injection Hgp).
    split; [by rewrite Eg'|by apply E'o]. }
  (* the parent *)
  assert (node_ok g' h' H (S lvl) lo_P n'P) as HokP'.
  { destruct HokP as (R1 & R2 & R3 & R4 & _). destruct Hsl as (S1 & S2 & S3).
    unfold node_ok. rewrite S1, S2, S3, ErecP. split_and!; try done.
    - destruct (next nP) as [q|]; [|done]. rewrite Eg'; [done|].
      intros ->. rewrite HgR in R4. injection R4. lia.
    - exists lvl, nxP. split; [done|]. split.
      + eapply chain_delete; [exact HchainP|exact E'L| | |].
        * intros nr0 Hnr0. fold R in Hnr0. rewrite HR in Hnr0. by injection Hnr0 as <-.
        * intros c Hc. apply Eg'. apply list.elem_of_app in Hc as [Hc|Hc].
          -- apply Hnd'. apply list.elem_of_app. by left.
          -- apply elem_of_cons in Hc as [->|Hc]; [done|].
             apply Hnd'. apply list.elem_of_app. by right.
        * intros c n Hc Hn. exists n. split; [|done]. rewrite E'o; [done| |apply Hnd'..]; try done.
          assert (c ∈ l1 ++ cL :: cR :: l2) as Hc'.
          { apply list.elem_of_app in Hc as [Hc|Hc]; apply list.elem_of_app;
              [by left|right; right; by right]. }
          destruct (chain_elem _ _ _ _ _ _ _ _ Hro HchainP Hc') as (? & ? & _ & Hgc & _).
          intros E. rewrite E, HgP in Hgc. injection Hgc. lia.
      + clear -HheadP. by destruct l1. }
  (* the merged node *)
  assert (node_ok g' h' H lvl lo_L nl') as HokL'.
  { unfold node_ok. rewrite RL', EhL', EnL', ErecL'. split_and!; try done.
    - by eapply blt_trans.
    - apply HokL.
    - destruct HokR as (_ & _ & _ & R4 & _). destruct (next nr) as [q|]; [|done].
      rewrite Eg'; [done|]. intros ->. rewrite HgR in R4. injection R4 as E.
      rewrite <- E in HhiR'. by apply blt_irrefl in HhiR'.
    - unfold merged_records. destruct lvl as [|lvl'].
      + destruct (node_ok_leaf _ _ _ _ _ HokL) as (rs & -> & _ & HkL).
        destruct (node_ok_leaf _ _ _ _ _ HokR) as (rs' & -> & _ & HkR).
        split; [done|]. rewrite fmap_app. rewrite EhkL in HkL. simpl in HkL.
        eapply keys_in_join; [exact HkL|by apply keys_live|by apply blt_ble|by apply blt_ble].
      + destruct (node_ok_inner _ _ _ _ _ _ HokL) as (csL & nxL & -> & _ & HchL & HhdL).
        destruct (node_ok_inner _ _ _ _ _ _ HokR) as (csR & nxR & -> & _ & HchR & HhdR).
        rewrite EhkL in HchL. simpl in HchL.
        destruct csR as [|c0 csR]; [done|].
        assert (sep_key c0 = Some dk) as Ek0.
        { destruct HhdR as [E|E]; [|done]. destruct (sep_key c0); simpl in E; by simplify_eq. }
        pose proof (chain_head_range _ _ _ _ _ _ _ _ HchR) as Hg0.
        assert (∀ c, c ∈ csL ++ c0 :: csR → g' (child c) = g (child c) ∧
                  h' !! child c = h !! child c) as Hkids.
        { intros c Hc.
          assert (∃ lo_c, g (child c) = Some (lvl', lo_c)) as (lo_c & Hgc).
          { apply list.elem_of_app in Hc as [Hc|Hc].
            - destruct (chain_elem _ _ _ _ _ _ _ _ Hro HchL Hc) as (? & ? & _ & ? & _). eauto.
            - destruct (chain_elem _ _ _ _ _ _ _ _ Hro HchR Hc) as (? & ? & _ & ? & _). eauto. }
          destruct (Hfar _ _ _ Hgc) as [E1 E2]; [lia|lia|]. split; [congruence|done]. }
        exists lvl', nxR. split; [done|]. split.
        * eapply (chain_ok_ext h h' g g').
          -- intros c n Hc Hn. exists n. split; [|done]. destruct (Hkids c Hc) as [_ E].
             by rewrite E.
          -- intros c Hc. by apply Hkids.
          -- destruct csL as [|cl csL]; [done|].
             apply chain_ok_app. rewrite Ek0. simpl. split; [|exact HchR].
             eapply chain_ok_relink; [exact HchL|]. intros c n Hlast Hn.
             destruct (chain_ok_last _ _ _ _ _ _ _ _ _ HchL Hlast Hn) as [_ Ehi].
             split; [|done].
             assert (c ∈ cl :: csL) as Hc.
             { apply last_Some in Hlast as (l' & ->). apply list.elem_of_app. right. left. }
             destruct (chain_elem _ _ _ _ _ _ _ _ Hro HchL Hc) as (n0 & lo_c & Hn0 & Hgc & _).
             rewrite Hn in Hn0. injection Hn0 as <-.
             destruct (inv_node _ _ _ _ _ _ _ Hinv Hgc) as (n0 & Hn0 & Hokc).
             rewrite Hn in Hn0. injection Hn0 as <-.
             destruct Hokc as (_ & _ & _ & Hnx & _).
             destruct (next n) as [q|].
             ++ rewrite Ehi in Hnx. f_equal.
                by eapply (same_lo_same_node g h root H q (child c0)).
             ++ rewrite Hnx in Ehi. done.
        * clear -HhdL. destruct csL; done. }
  (* the other nodes *)
  assert (∀ p l b np, g p = Some (l, b) → h !! p = Some np →
            p ≠ P → p ≠ L → p ≠ R → node_ok g' h' H l b np) as Hokother.
  { intros p l b np Hgp Hp HpP HpL HpR.
    destruct (inv_node _ _ _ _ _ _ _ Hinv Hgp) as (n0 & Hn0 & Hokp).
    rewrite Hp in Hn0. injection Hn0 as <-.
    eapply node_ok_transfer; [exact Hokp|apply Hokp| | |].
    - intros q Hq. apply Eg'. intros ->. by eapply Hnext.
    - intros c nc Hc Hnc.
      destruct (Hpar _ _ _ _ Hgp Hp HpP c Hc) as [HcL HcR].
      destruct (decide (child c = P)) as [E|HcP].
      + rewrite E in *. rewrite HP in Hnc. injection Hnc as <-.
        exists n'P. destruct Hsl as (_ & ? & ?). done.
      + exists nc. by rewrite E'o.
    - intros c Hc. apply Eg'. by eapply Hpar. }
  split.
  - (* the tree *)
    assert (root ≠ R) as HrR.
    { intros ->. pose proof (inv_root _ _ _ _ Hinv) as Hr. rewrite HgR in Hr. done. }
    assert (root ≠ L) as HrL.
    { intros ->. pose proof (inv_root _ _ _ _ Hinv) as Hr. rewrite HgL in Hr.
      injection Hr as -> _. destruct HokP as (_ & _ & ? & _). lia. }
    split.
    + rewrite Eg' by done. apply Hinv.
    + destruct (inv_root_hi _ _ _ _ Hinv) as (nr0 & Hr & Hhk).
      destruct (decide (root = P)) as [->|HrP].
      * exists n'P. split; [done|]. rewrite HP in Hr. injection Hr as <-.
        destruct Hsl as (_ & -> & _). done.
      * exists nr0. by rewrite E'o.
    + intros p l b Hgp'.
      assert (p ≠ R) as HpR by (intros ->; by rewrite Eg'R in Hgp').
      rewrite Eg' in Hgp' by done.
      destruct (decide (p = P)) as [->|HpP].
      { rewrite HgP in Hgp'. injection Hgp' as <- <-. by exists n'P. }
      destruct (decide (p = L)) as [->|HpL].
      { rewrite HgL in Hgp'. injection Hgp' as <- <-. by exists nl'. }
      destruct (inv_node _ _ _ _ _ _ _ Hinv Hgp') as (np & Hp & _).
      exists np. rewrite E'o by done. split; [done|]. by eapply Hokother.
    + intros p l b Hgp'.
      assert (p ≠ R) as HpR by (intros ->; by rewrite Eg'R in Hgp').
      rewrite Eg' in Hgp' by done.
      destruct (inv_parent _ _ _ _ Hinv _ _ _ Hgp') as [->|(q & lq & bq & nq & Hgq & Hq & Hin)];
        [by left|right].
      destruct (decide (q = R)) as [->|HqR].
      { (* a child of the right node is a child of the merged node *)
        exists L, lvl, lo_L, nl'. rewrite Eg' by done. split_and!; try done.
        rewrite HR in Hq. injection Hq as <-.
        unfold inner_records in *. rewrite ErecL'. unfold merged_records.
        destruct (records nr) as [|csR] eqn:ErR; [by apply elem_of_nil in Hin|].
        rewrite HgR in Hgq. injection Hgq as <- <-.
        destruct lvl as [|lvl'].
        { destruct (node_ok_leaf _ _ _ _ _ HokR) as (? & ? & _). congruence. }
        destruct (node_ok_inner _ _ _ _ _ _ HokL) as (csL & ? & -> & _).
        rewrite fmap_app. apply list.elem_of_app. by right. }
      destruct (decide (q = L)) as [->|HqL].
      { exists L, lvl, lo_L, nl'. rewrite Eg' by done. split_and!; try done.
        rewrite HL in Hq. injection Hq as <-.
        unfold inner_records in *. rewrite ErecL'. unfold merged_records.
        destruct (records nl) as [|csL] eqn:ErL; [by apply elem_of_nil in Hin|].
        destruct lvl as [|lvl'].
        { destruct (node_ok_leaf _ _ _ _ _ HokL) as (? & ? & _). congruence. }
        destruct (node_ok_inner _ _ _ _ _ _ HokR) as (csR & ? & -> & _).
        rewrite fmap_app. apply list.elem_of_app. by left. }
      destruct (decide (q = P)) as [->|HqP].
      { exists P, (S lvl), lo_P, n'P. rewrite Eg' by done. split_and!; try done.
        rewrite HP in Hq. injection Hq as <-. rewrite Ecs in Hin.
        unfold inner_records. rewrite ErecP.
        apply list_elem_of_fmap in Hin as (c & -> & Hc). apply list_elem_of_fmap.
        exists c. split; [done|].
        apply list.elem_of_app in Hc as [Hc|Hc]; apply list.elem_of_app; [by left|right].
        apply elem_of_cons in Hc as [->|Hc]; [left|].
        apply elem_of_cons in Hc as [->|Hc]; [done|by right]. }
      exists q, lq, bq, nq. rewrite Eg' by done. rewrite E'o by done. done.
  - (* the records *)
    intros K v (p & np & (lo & Hgp & Hp & Hrange) & Hv).
    destruct (decide (lvl = 0)) as [->|Hlvl].
    + destruct (node_ok_leaf _ _ _ _ _ HokL) as (rs & ErL & _ & HkL).
      destruct (node_ok_leaf _ _ _ _ _ HokR) as (rs' & ErR & _ & HkR).
      rewrite EhkL in HkL. simpl in HkL.
      assert (leaf_records nl' = rs ++ live rs') as Erecs.
      { unfold leaf_records. rewrite ErecL'. unfold merged_records. by rewrite ErL, ErR. }
      pose proof (find_live_app _ _ _ _ _ K HkL (keys_live _ _ _ HkR)) as Hfind.
      destruct (decide (p = L)) as [->|HpL].
      { rewrite HgL in Hgp. injection Hgp as <-. rewrite HL in Hp. injection Hp as <-.
        exists L, nl'. split.
        - exists lo_L. rewrite Eg' by done. split_and!; try done.
          destruct Hrange as [Hr1 Hr2]. split; [done|]. rewrite EhL'.
          rewrite EhkL in Hr2. by eapply blt_trans.
        - rewrite Erecs, Hfind. destruct Hrange as [_ Hr2]. rewrite EhkL in Hr2.
          unfold blt in Hr2. simpl in Hr2. destruct (Z.ltb_spec K dk); [|lia].
          unfold leaf_records in Hv. by rewrite ErL in Hv. }
      destruct (decide (p = R)) as [->|HpR].
      { rewrite HgR in Hgp. injection Hgp as <-. rewrite HR in Hp. injection Hp as <-.
        exists L, nl'. split.
        - exists lo_L. rewrite Eg' by done. split_and!; try done.
          destruct Hrange as [Hr1 Hr2]. split; [|by rewrite EhL'].
          apply blt_ble. by eapply blt_ble_trans.
        - rewrite Erecs, Hfind. destruct Hrange as [Hr1 _].
          unfold ble in Hr1. destruct (Z.ltb_spec K dk); [lia|].
          rewrite (find_live_live _ _ _ _ HkR).
          unfold leaf_records in Hv. by rewrite ErR in Hv. }
      assert (p ≠ P) as HpP.
      { intros ->. rewrite HgP in Hgp. by injection Hgp. }
      exists p, np. split; [|done]. exists lo. rewrite Eg' by done. by rewrite E'o.
    + destruct (Hfar _ _ _ Hgp) as [E1 E2]; [lia|lia|].
      exists p, np. split; [|done]. exists lo. by rewrite E2.
Qed.

(** ** Shrinking the tree *)

(** A root with one child is retired: the child is the new root. *)
Lemma shrink_inv g h r H1 n c :
  inv g h r (S H1) → h !! r = Some n → inner_records n = [c] →
  inv (gdel g r) (<[r := set_removed n]> h) (child c) H1 ∧
  ∀ K v, holds g h K v → holds (gdel g r) (<[r := set_removed n]> h) K v.
Proof.
  intros Hinv Hr Ecs.
  pose proof (inv_root _ _ _ _ Hinv) as Hgr.
  destruct (inv_node _ _ _ _ _ _ _ Hinv Hgr) as (n0 & Hn0 & Hokr).
  rewrite Hr in Hn0. injection Hn0 as <-.
  destruct (node_ok_inner _ _ _ _ _ _ Hokr) as (cs & nx & Er & _ & Hchain & _).
  assert (cs = [c]) as -> by (unfold inner_records in Ecs; by rewrite Er in Ecs).
  apply chain_ok_cons in Hchain as ((nc & Hnc & Hhic & _) & Hgc & _).
  destruct (inv_root_hi _ _ _ _ Hinv) as (n0 & Hn0 & Hhk).
  rewrite Hr in Hn0. injection Hn0 as <-. rewrite Hhk in Hhic.
  assert (child c ≠ r) as Hcr.
  { intros E. rewrite E, Hgr in Hgc. injection Hgc. lia. }
  assert (∀ p l b, g p = Some (l, b) → p ≠ r → l ≤ H1) as Hlow.
  { intros p l b Hgp Hpr.
    destruct (inv_node _ _ _ _ _ _ _ Hinv Hgp) as (np & _ & (_ & _ & Hle & _)).
    destruct (decide (l = S H1)) as [->|]; [|lia].
    destruct Hpr. by eapply inv_top. }
  assert (∀ p l b, g p = Some (l, b) → l ≤ H1 →
            gdel g r p = g p ∧ <[r := set_removed n]> h !! p = h !! p) as Hsame.
  { intros p l b Hgp Hl.
    assert (p ≠ r) by (intros ->; rewrite Hgr in Hgp; injection Hgp; lia).
    unfold gdel. rewrite decide_False by done. by rewrite list_lookup_insert_ne. }
  split; [split|].
  - destruct (Hsame _ _ _ Hgc) as [-> _]; done.
  - exists nc. rewrite list_lookup_insert_ne by done. split; [done|].
    by destruct (high_key nc).
  - intros p l b Hgp'. unfold gdel in Hgp'. case_decide as Hpr; [done|].
    pose proof (Hlow _ _ _ Hgp' Hpr) as Hl.
    destruct (inv_node _ _ _ _ _ _ _ Hinv Hgp') as (np & Hp & Hokp).
    exists np. rewrite list_lookup_insert_ne by done. split; [done|].
    eapply node_ok_transfer; [exact Hokp|done| | |].
    + intros q Hq. destruct Hokp as (_ & _ & _ & Hnx & _). rewrite Hq in Hnx.
      by destruct (Hsame _ _ _ Hnx Hl).
    + intros c' nc' Hc' Hnc'.
      destruct (inv_child _ _ _ _ _ _ _ _ _ Hinv Hgp' Hp Hc') as (l' & ? & ? & -> & _ & Hgc' & _).
      exists nc'. destruct (Hsame _ _ _ Hgc') as [_ ->]; [lia|done].
    + intros c' Hc'.
      destruct (inv_child _ _ _ _ _ _ _ _ _ Hinv Hgp' Hp Hc') as (l' & ? & ? & -> & _ & Hgc' & _).
      destruct (Hsame _ _ _ Hgc') as [-> _]; [lia|done].
  - intros p l b Hgp'. unfold gdel in Hgp'. case_decide as Hpr; [done|].
    destruct (inv_parent _ _ _ _ Hinv _ _ _ Hgp') as [->|(q & lq & bq & nq & Hgq & Hq & Hin)];
      [done|].
    destruct (decide (q = r)) as [->|Hqr].
    + left. rewrite Hr in Hq. injection Hq as <-. rewrite Ecs in Hin.
      by apply list_elem_of_singleton in Hin.
    + right. exists q, lq, bq, nq. unfold gdel. rewrite decide_False by done.
      by rewrite list_lookup_insert_ne.
  - intros K v (p & np & (lo & Hgp & Hp & Hrange) & Hv).
    destruct (Hsame _ _ _ Hgp) as [E1 E2]; [lia|].
    exists p, np. split; [|done]. exists lo. by rewrite E1, E2.
Qed.

(** ** One step of [Merge]

    The left node [L] has a right sibling [r] and a parent [P].  Either
    the entry of [r] is found in the node that covers the high key of [L]
    and the two nodes are merged, or that entry leads its node ([r] hangs
    under the next parent) and nothing changes. *)
Lemma merge_step g h root H lvl L lo P lo_P nP nl r nr :
  inv g h root H → caps_ok h →
  g L = Some (lvl, lo) → h !! L = Some nl → next nl = Some r → h !! r = Some nr →
  GetRecordCount nl + used_records nr ≤ kMaxRecNum →
  g P = Some (S lvl, lo_P) → h !! P = Some nP → L ∈ child <$> inner_records nP →
  ∃ dk p n,
    high_key nl = Some dk ∧
    (∀ fuel, CheckKeyRange (S (S fuel)) h P dk = Some (Some p)) ∧ h !! p = Some n ∧
    ((Node_DeleteChild n dk = (n, kAbortMerge)) ∨
     (p = P ∧ ∃ n'P rc h',
        Node_DeleteChild nP dk = (n'P, rc) ∧ (rc = kCompleted ∨ rc = kNeedMerge) ∧
        (rc = kNeedMerge → length (inner_records n'P) < kMinRecNum) ∧
        Node_Merge (<[P := n'P]> h) L r = Some h' ∧
        inv (gdel g r) h' root H ∧ caps_ok h' ∧
        (∀ K v, holds g h K v → holds (gdel g r) h' K v) ∧
        (∀ p l b, g p = Some (l, b) → S lvl < l → gdel g r p = g p ∧ h' !! p = h !! p) ∧
        gdel g r P = Some (S lvl, lo_P) ∧ h' !! P = Some n'P)).
Proof.
  intros Hinv Hcaps HgL HL HnL HR Hfit HgP HP HLin.
  pose proof (inv_ranges_ok _ _ _ _ Hinv) as Hro.
  destruct (inv_node _ _ _ _ _ _ _ Hinv HgL) as (n0 & Hn0 & HokL).
  rewrite HL in Hn0. injection Hn0 as <-.
  pose proof HokL as (_ & _ & _ & HnxL & _). rewrite HnL in HnxL.
  destruct (inv_node _ _ _ _ _ _ _ Hinv HnxL) as (n0 & Hn0 & HokR).
  rewrite HR in Hn0. injection Hn0 as <-.
  assert (∃ dk, high_key nl = Some dk) as (dk & EhkL).
  { destruct (high_key nl) as [dk|] eqn:E; [by eauto|].
    destruct HokR as (_ & Hne & _). simpl in Hne. by destruct (hi_of (high_key nr)). }
  rewrite EhkL in HnxL. simpl in HnxL.
  exists dk.
  destruct (inv_node _ _ _ _ _ _ _ Hinv HgP) as (n0 & Hn0 & HokP).
  rewrite HP in Hn0. injection Hn0 as <-.
  destruct (node_ok_inner _ _ _ _ _ _ HokP) as (cs & nxP & ErP & RP & HchainP & HheadP).
  assert (inner_records nP = cs) as Ecs by (unfold inner_records; by rewrite ErP).
  rewrite Ecs in HLin.
  apply list_elem_of_fmap in HLin as (cL & EL & HcL).
  apply list_elem_of_split in HcL as (l1 & rest & ->).
  pose proof HchainP as HchainP'.
  apply chain_ok_app in HchainP' as [_ Hc2].
  apply chain_ok_cons in Hc2 as ((n0 & Hn0 & HhiL & HnxL') & _ & _).
  rewrite <- EL, HL in Hn0. injection Hn0 as <-. rewrite EhkL in HhiL. simpl in HhiL.
  assert (blt lo (Fin dk)) as Hlodk.
  { pose proof (Hro _ _ _ _ HgL HL) as Hne. by rewrite EhkL in Hne. }
  assert (ble lo_P lo) as HloP.
  { assert (cL ∈ l1 ++ cL :: rest) as Hin by (apply list.elem_of_app; right; left).
    destruct (chain_elem _ _ _ _ _ _ _ _ Hro HchainP Hin) as (? & lo' & _ & Hg' & Hle & _).
    rewrite <- EL, HgL in Hg'. by injection Hg' as <-. }
  destruct rest as [|cR l2].
  - (* the left node is the last child of its parent *)
    assert (high_key nP = Some dk) as EhkP.
    { destruct (high_key nP); simpl in HhiL; by simplify_eq. }
    pose proof HokP as (_ & _ & _ & HnxP & _). rewrite EhkP in HnxP.
    destruct (next nP) as [P2|] eqn:EnP; [|done]. simpl in HnxP.
    destruct (inv_node _ _ _ _ _ _ _ Hinv HnxP) as (nP2 & HP2 & HokP2).
    exists P2, nP2. split_and!; try done.
    + intros fuel. simpl. rewrite HP, RP, EhkP, EnP.
      rewrite Z.leb_refl. rewrite HP2. destruct HokP2 as (-> & Hne & _).
      destruct (high_key nP2) as [hk2|]; [|done]. destruct (next nP2); [|done].
      unfold blt in Hne. simpl in Hne. destruct (Z.leb_spec hk2 dk); [lia|done].
    + left. unfold Node_DeleteChild.
      destruct (node_ok_inner _ _ _ _ _ _ HokP2) as (cs2 & ? & Er2 & _ & Hch2 & Hhd2).
      unfold inner_records. rewrite Er2. destruct cs2 as [|c0 cs2]; [done|].
      destruct Hhd2 as [E|E]; [|done].
      assert (sep_key c0 = Some dk) as Ek0.
      { destruct (sep_key c0); simpl in E; by simplify_eq. }
      simpl. by rewrite decide_True.
  - (* the right node is the next child *)
    destruct (hi_of_lo_of (Some dk) (sep_key cR)) as (dk' & [= <-] & EkR); [done|].
    rewrite HnL in HnxL'. injection HnxL' as ->.
    exists P, nP.
    assert (blt (Fin dk) (hi_of (high_key nP))) as HdkP.
    { assert (cR ∈ l1 ++ cL :: cR :: l2) as Hin.
      { apply list.elem_of_app; right; right; left. }
      destruct (chain_elem _ _ _ _ _ _ _ _ Hro HchainP Hin) as (n0 & ? & Hn0 & _ & _ & Hle).
      rewrite HR in Hn0. injection Hn0 as <-.
      eapply blt_ble_trans; [|exact Hle]. by eapply Hro. }
    split_and!; try done.
    + intros fuel. eapply CheckKeyRange_here; [done|done|]. split; [|done].
      apply blt_ble. by eapply ble_blt_trans.
    + pose proof (chain_seps_above _ _ _ _ _ _ _ Hro HchainP) as Hs.
      unfold Node_DeleteChild. rewrite Ecs.
      destruct (find_sep_spec _ _ _ _ _ _ Hs EkR) as [-> | ->]; [by left|right].
      split; [done|]. rewrite delete_entry.
      set (n'P := bump_version (set_records nP (InnerRecords (l1 ++ cL :: l2)))).
      set (nl' := bump_version (set_records (set_link nl (high_key nr) (next nr))
                                  (merged_records nl nr))).
      exists n'P, (if length (l1 ++ cL :: l2) <? kMinRecNum then kNeedMerge else kCompleted),
        (<[child cR := set_removed nr]> (<[L := nl']> (<[P := n'P]> h))).
      assert (P ≠ L) as HPL.
      { intros E. rewrite E in HgP. rewrite HgL in HgP. injection HgP as E'. lia. }
      assert (P ≠ child cR) as HPR.
      { intros E. rewrite E in HgP. rewrite HnxL in HgP. injection HgP as E'. lia. }
      assert (L ≠ child cR) as HLR.
      { intros E. rewrite <- E, HgL in HnxL. injection HnxL as ->.
        by apply blt_irrefl in Hlodk. }
      assert (records nl' = merged_records nl nr ∧
              Node_Merge (<[P := n'P]> h) L (child cR) =
                Some (<[child cR := set_removed nr]> (<[L := nl']> (<[P := n'P]> h))))
        as [Erec EMerge].
      { split; [done|]. unfold Node_Merge. rewrite !list_lookup_insert_ne by done.
        rewrite HL, HR. unfold nl', merged_records.
        destruct lvl as [|lvl'].
        - destruct (node_ok_leaf _ _ _ _ _ HokL) as (rs & -> & _).
          destruct (node_ok_leaf _ _ _ _ _ HokR) as (rs' & -> & _). done.
        - destruct (node_ok_inner _ _ _ _ _ _ HokL) as (csL & ? & -> & _).
          destruct (node_ok_inner _ _ _ _ _ _ HokR) as (csR & ? & -> & _). done. }
      assert (h !! child cL = Some nl) as HL' by (by rewrite <- EL).
      assert (is_removed nl' = false) as RL' by apply HokL.
      destruct (merge_inv g h root H lvl P lo_P nP n'P l1 cL cR l2 nl nr nl')
        as [Hinv' Hholds]; try done.
      rewrite <- EL in Hinv', Hholds.
      split_and!; try done.
      * destruct (length (l1 ++ cL :: l2) <? kMinRecNum); by eauto.
      * destruct (Nat.ltb_spec (length (l1 ++ cL :: l2)) kMinRecNum); [done|].
        intros [=].
      * intros p n Hn.
        destruct (decide (p = child cR)) as [->|HpR].
        { rewrite list_lookup_insert_eq in Hn by (rewrite !length_insert; by eapply lookup_lt_Some).
          injection Hn as <-. exact (Hcaps _ _ HR). }
        rewrite list_lookup_insert_ne in Hn by done.
        destruct (decide (p = L)) as [->|HpL].
        { rewrite list_lookup_insert_eq in Hn by (rewrite !length_insert; by eapply lookup_lt_Some).
          injection Hn as <-. unfold inner_records. rewrite Erec. unfold merged_records.
          unfold GetRecordCount, used_records in Hfit.
          pose proof (Hcaps _ _ HL) as Hc. unfold inner_records in Hc.
          destruct (records nl) as [|csL], (records nr) as [|csR];
            rewrite ?length_app; simpl in *; lia. }
        rewrite list_lookup_insert_ne in Hn by done.
        destruct (decide (p = P)) as [->|HpP].
        { rewrite list_lookup_insert_eq in Hn by (by eapply lookup_lt_Some).
          injection Hn as <-. pose proof (Hcaps _ _ HP) as Hc. rewrite Ecs in Hc.
          change (length (l1 ++ cL :: l2) ≤ kMaxRecNum).
          rewrite !length_app in *. simpl in *. lia. }
        rewrite list_lookup_insert_ne in Hn by done. by eapply Hcaps.
      * intros p l b Hgp Hl.
        assert (p ≠ child cR) by (intros ->; rewrite HnxL in Hgp; injection Hgp; lia).
        assert (p ≠ L) by (intros ->; rewrite HgL in Hgp; injection Hgp; lia).
        assert (p ≠ P) by (intros ->; rewrite HgP in Hgp; injection Hgp; lia).
        unfold gdel. rewrite decide_False by done. by rewrite !list_lookup_insert_ne.
      * unfold gdel. by rewrite decide_False.
      * rewrite !list_lookup_insert_ne by done. apply list_lookup_insert_eq.
        by eapply lookup_lt_Some.
Qed.

(** ** [TryShrinkTree] *)
Lemma caps_ok_removed h p n :
  caps_ok h → h !! p = Some n → caps_ok (<[p := set_removed n]> h).
Proof. intros Hc Hp. apply caps_ok_insert; [done|]. exact (Hc _ _ Hp). Qed.

Lemma TryShrinkTree_loop_spec :
  ∀ H1 g t r n fuel,
    inv g (heap t) r (S H1) → caps_ok (heap t) →
    heap t !! r = Some n → length (inner_records n) = 1 → S H1 ≤ fuel →
    ∃ c t' g' H',
      TryShrinkTree_loop fuel t r = Some (c, t') ∧
      inv g' (heap t') c H' ∧ caps_ok (heap t') ∧ H' ≤ H1 ∧
      (∀ K v, holds g (heap t) K v → holds g' (heap t') K v) ∧
      gc_guards t' = gc_guards t ∧ root_ t' = root_ t ∧ root_trace t' = root_trace t.
Proof.
  induction H1 as [|H1 IH]; intros g t r n fuel Hinv Hcaps Hr Hlen Hfuel.
  - destruct fuel as [|fuel']; [lia|].
    destruct (inner_records n) as [|c [|??]] eqn:Ecs; try done.
    destruct (shrink_inv _ _ _ _ _ _ Hinv Hr Ecs) as [Hinv' Hholds].
    pose proof (inv_root _ _ _ _ Hinv') as Hgc.
    destruct (inv_node _ _ _ _ _ _ _ Hinv' Hgc) as (nc & Hnc & Hokc).
    simpl. unfold Node_RemoveRoot. rewrite Hr, Ecs. tree_simpl. rewrite Hnc.
    rewrite (node_ok_IsInner _ _ _ _ _ _ Hokc). rewrite bool_decide_eq_false_2 by lia.
    rewrite andb_false_r.
    eexists _, _, _, 0. split; [done|]. tree_simpl. split_and!; try done.
    by apply caps_ok_removed.
  - destruct fuel as [|fuel']; [lia|].
    destruct (inner_records n) as [|c [|??]] eqn:Ecs; try done.
    destruct (shrink_inv _ _ _ _ _ _ Hinv Hr Ecs) as [Hinv' Hholds].
    pose proof (inv_root _ _ _ _ Hinv') as Hgc.
    destruct (inv_node _ _ _ _ _ _ _ Hinv' Hgc) as (nc & Hnc & Hokc).
    simpl. unfold Node_RemoveRoot. rewrite Hr, Ecs. tree_simpl. rewrite Hnc.
    rewrite (node_ok_IsInner _ _ _ _ _ _ Hokc). rewrite bool_decide_eq_true_2 by lia.
    rewrite andb_true_r.
    destruct (Nat.eqb_spec (GetRecordCount nc) 1) as [Hone|Hmore].
    + set (t2 := set_heap (AddGarbage r t) (<[r := set_removed n]> (heap t))).
      destruct (IH (gdel g r) t2 (child c) nc fuel') as
        (c' & t' & g' & H' & Erun & Hinv'' & Hcaps' & HH & Hholds' & Hgc1 & Hgc2 & Hgc3);
        try done.
      * by apply caps_ok_removed.
      * unfold GetRecordCount in Hone. unfold inner_records.
        destruct (node_ok_inner _ _ _ _ _ _ Hokc) as (cs & ? & Ercs & _).
        by rewrite Ercs in *.
      * lia.
      * exists c', t', g', H'. split; [done|]. split_and!; try done; [lia|].
        intros K v Hv. by apply Hholds', Hholds.
    + eexists _, _, _, (S H1). split; [done|]. tree_simpl. split_and!; try done.
      by apply caps_ok_removed.
Qed.

Lemma TryShrinkTree_spec g t H P fuel :
  inv g (heap t) (root_ t) H → caps_ok (heap t) → P = root_ t → 0 < H → H ≤ fuel →
  ∃ t' g' H',
    TryShrinkTree fuel t P = Some t' ∧
    inv g' (heap t') (root_ t') H' ∧ caps_ok (heap t') ∧ H' ≤ H ∧
    (∀ K v, holds g (heap t) K v → holds g' (heap t') K v) ∧
    gc_guards t' = gc_guards t.
Proof.
  intros Hinv Hcaps -> HH Hfuel.
  pose proof (inv_root _ _ _ _ Hinv) as Hgr.
  destruct (inv_node _ _ _ _ _ _ _ Hinv Hgr) as (n & Hn & Hok).
  unfold TryShrinkTree. tree_simpl. rewrite Hn. rewrite bool_decide_eq_true_2 by done.
  simpl. destruct (Nat.eqb_spec (GetRecordCount n) 1) as [Hone|Hmore].
  - destruct H as [|H1]; [lia|].
    set (t1 := mkBTree _ _ _ _ _).
    destruct (TryShrinkTree_loop_spec H1 g t1 (root_ t) n fuel) as
      (c & t' & g' & H' & Erun & Hinv' & Hcaps' & HH' & Hholds & Hgc1 & Hgc2 & Hgc3);
      try done.
    + unfold GetRecordCount in Hone. unfold inner_records.
      destruct (node_ok_inner _ _ _ _ _ _ Hok) as (cs & ? & Ercs & _).
      by rewrite Ercs in *.
    + rewrite Erun. eexists _, g', H'. split; [done|]. tree_simpl.
      split_and!; try done. lia.
  - eexists _, g, H. split; [done|]. tree_simpl. done.
Qed.

(** ** [Merge] *)
Lemma Merge_loop_spec H :
  ∀ stack g t lvl L lo fuel,
    inv g (heap t) (root_ t) H → caps_ok (heap t) →
    g L = Some (lvl, lo) → anc_path g (heap t) (root_ t) lvl L stack →
    length stack + H + 3 ≤ fuel →
    ∃ t' g' H',
      Merge_loop fuel t stack None L = Some t' ∧
      inv g' (heap t') (root_ t') H' ∧ caps_ok (heap t') ∧ H' ≤ H ∧
      (∀ K v, holds g (heap t) K v → holds g' (heap t') K v) ∧
      gc_guards t' = gc_guards t.
Proof.
  induction stack as [|P rest IH]; intros g t lvl L lo fuel Hinv Hcaps HgL Hpath Hfuel.
  - (* the root has no sibling *)
    simpl in Hpath. subst L.
    destruct (inv_root_hi _ _ _ _ Hinv) as (nl & HL & Ehk).
    destruct (inv_node _ _ _ _ _ _ _ Hinv HgL) as (n0 & Hn0 & HokL).
    rewrite HL in Hn0. injection Hn0 as <-.
    destruct fuel as [|fuel']; [lia|]. simpl.
    unfold Node_GetMergeableSiblingNode. rewrite HL.
    destruct HokL as (_ & _ & _ & Hnx & _).
    destruct (next nl) as [r|] eqn:HnL.
    + destruct (inv_node _ _ _ _ _ _ _ Hinv Hnx) as (nr & HR & (_ & Hne & _)).
      rewrite Ehk in Hne. simpl in Hne. by destruct (hi_of (high_key nr)).
    + exists t, g, H. done.
  - destruct Hpath as ((lo_P & nP & HgP & HP & HLin) & Hrest).
    destruct (inv_node _ _ _ _ _ _ _ Hinv HgL) as (nl & HL & HokL).
    destruct fuel as [|fuel']; [lia|]. cbn [Merge_loop].
    unfold Node_GetMergeableSiblingNode. rewrite HL.
    pose proof HokL as (_ & _ & _ & Hnx & _).
    destruct (next nl) as [r|] eqn:HnL; [|by exists t, g, H].
    destruct (inv_node _ _ _ _ _ _ _ Hinv Hnx) as (nr & HR & HokR).
    rewrite HR.
    destruct (Nat.leb_spec (GetRecordCount nl + used_records nr) kMaxRecNum) as [Hfit|Hbig];
      [|by exists t, g, H].
    destruct (merge_step g (heap t) (root_ t) H lvl L lo P lo_P nP nl r nr)
      as (dk & p & n & EhkL & ECheck & Hp & Hcases); try done.
    cbn [mbind option_bind]. rewrite EhkL.
    destruct fuel' as [|[|fuel'']]; [simpl in Hfuel; lia..|].
    rewrite ECheck, Hp.
    destruct Hcases as [Eabort|(-> & n'P & rc & h' & EDel & Hrc & Hmin & EMerge & Hinv' & Hcaps'
                                 & Hholds & Hfar & HgP' & HP')].
    + (* the entry leads its node *)
      rewrite Eabort. rewrite list_insert_id by done.
      eexists _, g, H. split; [done|]. tree_simpl. done.
    + rewrite HP in Hp. injection Hp as <-. rewrite EDel. cbn [heap set_heap].
      destruct Hrc as [-> | ->].
      * rewrite EMerge. eexists _, _, H. split; [done|]. tree_simpl. done.
      * rewrite EMerge.
        set (t2 := AddGarbage r (set_heap (set_heap t (<[P := n'P]> (heap t))) h')).
        destruct rest as [|P' rest'].
        -- (* the parent is the root *)
           simpl in Hrest.
           destruct (TryShrinkTree_spec (gdel g r) t2 H P (S (S fuel'')))
             as (t' & g' & H' & Erun & Hinv'' & Hcaps'' & HH & Hholds' & Hgc); try done.
           ++ destruct (inv_node _ _ _ _ _ _ _ Hinv HgP) as (? & _ & (_ & _ & ? & _)). lia.
           ++ simpl in Hfuel. lia.
           ++ exists t', g', H'. split; [done|]. split_and!; try done.
              intros K v Hv. by apply Hholds', Hholds.
        -- destruct (IH (gdel g r) t2 (S lvl) P lo_P (S (S fuel'')))
             as (t' & g' & H' & Erun & Hinv'' & Hcaps'' & HH & Hholds' & Hgc); try done.
           ++ eapply anc_path_ext; [|exact Hrest]. intros q l b Hgq Hl.
              destruct (Hfar _ _ _ Hgq Hl) as [E1 E2]. split; [done|].
              destruct (inv_node _ _ _ _ _ _ _ Hinv Hgq) as (nq & Hq & _).
              exists nq, nq. split_and!; try done. unfold t2. tree_simpl. by rewrite E2.
           ++ simpl in *. lia.
           ++ exists t', g', H'. split; [done|]. split_and!; try done.
              intros K v Hv. by apply Hholds', Hholds.
Qed.

(** ** [Delete] *)
Lemma Delete_absent g t H K fuel :
  inv g (heap t) (root_ t) H → H < fuel → holds g (heap t) K None →
  Delete fuel t K = Some (kKeyNotExist, observed t).
Proof.
  intros Hinv Hfuel (q0 & n0 & Hl0 & Hv).
  destruct (descend_spec g t H K fuel Hinv Hfuel)
    as (q & n & stack & Erun & Hl & Hpath & ECheck & Hq & Rn).
  destruct (leaf_for_unique _ _ _ _ _ _ _ _ _ Hinv Hl0 Hl) as [-> ->].
  unfold Delete. rewrite Erun. cbn [head]. tree_simpl.
  unfold Node_Delete, with_locked_node. rewrite ECheck, Hq. unfold Node_Delete_locked.
  destruct (find_live K (leaf_records n)) as [r|]; [done|].
  rewrite decide_True by done. rewrite list_insert_id by done. done.
Qed.

Lemma Delete_present_at g t H K q n v0 fuel :
  inv g (heap t) (root_ t) H → caps_ok (heap t) → 2 * H + 3 ≤ fuel →
  leaf_for g (heap t) K q n → rec_payload <$> find_live K (leaf_records n) = Some v0 →
  ∃ t' g' H',
    Delete fuel t K = Some (kSuccess, t') ∧
    inv g' (heap t') (root_ t') H' ∧ caps_ok (heap t') ∧ H' ≤ H ∧
    (∀ K' v, holds g (heap t) K' v →
       holds g' (heap t') K' (if decide (K' = K) then None else v)) ∧
    gc_guards t' = gc_guards t ∧
    match (Node_Delete_locked n K).2 with
    | kNeedMerge => True
    | _ => t' = set_heap (observed t) (<[q := (Node_Delete_locked n K).1]> (heap t))
    end.
Proof.
  intros Hinv Hcaps Hfuel Hl0 Hv.
  destruct (descend_spec g t H K fuel Hinv)
    as (q' & n' & stack & Erun & Hl & Hpath & ECheck & Hq & Rn); [lia|].
  destruct (leaf_for_unique _ _ _ _ _ _ _ _ _ Hinv Hl0 Hl) as [<- <-].
  unfold Delete. rewrite Erun. cbn [head]. tree_simpl.
  unfold Node_Delete, with_locked_node. rewrite ECheck, Hq. unfold Node_Delete_locked.
  destruct (find_live K (leaf_records n)) as [r|] eqn:Efind; [|done].
  set (n' := bump_version (set_records n (LeafRecords (mark_deleted K (leaf_records n))))).
  destruct (leaf_records_eq _ _ _ _ _ _ _ Hinv Hl) as (lo & Hg & Ers & Hkeys & Hrange).
  destruct (leaf_update g (heap t) (root_ t) H K q n n' (mark_deleted K (leaf_records n)) None)
    as [Hinv' Hholds]; try done.
  { intros lo' Hg'. rewrite keys_mark. by simplify_eq. }
  { intros K'. rewrite find_live_mark. by case_decide. }
  assert (caps_ok (<[q := n']> (heap t))) as Hcaps'.
  { apply caps_ok_insert; [done|]. simpl. lia. }
  destruct (length (live (mark_deleted K (leaf_records n))) <? kMinRecNum).
  - (* the leaf asks for a merge *)
    rewrite decide_False by done. rewrite decide_True by done.
    unfold Merge. cbn [list.tail].
    set (t2 := set_heap _ (<[q := n']> (heap t))).
    destruct (Merge_loop_spec H stack g t2 0 q lo fuel)
      as (t' & g' & H' & Emerge & Hinv'' & Hcaps'' & HH & Hholds' & Hgc); try done.
    + eapply anc_path_ext; [|exact Hpath]. intros p l b Hgp Hlp.
      split; [done|]. destruct (inv_node _ _ _ _ _ _ _ Hinv Hgp) as (np & Hp & _).
      exists np, np. unfold t2. tree_simpl. split_and!; try done.
      rewrite list_lookup_insert_ne; [done|].
      intros ->. rewrite Hg in Hgp. injection Hgp. lia.
    + pose proof (anc_path_length _ _ _ _ _ _ _ _ Hinv Hg Hpath). lia.
    + rewrite Emerge. eexists _, g', H'. split; [done|]. tree_simpl.
      split_and!; try done; [|by rewrite Hgc].
      intros K' v Hh. by apply Hholds', Hholds.
  - rewrite decide_False by done. rewrite decide_False by done.
    eexists _, g, H. split; [done|]. tree_simpl. done.
Qed.

Lemma Delete_present g t H K v0 fuel :
  inv g (heap t) (root_ t) H → caps_ok (heap t) → 2 * H + 3 ≤ fuel →
  holds g (heap t) K (Some v0) →
  ∃ t' g' H',
    Delete fuel t K = Some (kSuccess, t') ∧
    inv g' (heap t') (root_ t') H' ∧ caps_ok (heap t') ∧ H' ≤ H ∧
    (∀ K' v, holds g (heap t) K' v →
       holds g' (heap t') K' (if decide (K' = K) then None else v)) ∧
    gc_guards t' = gc_guards t.
Proof.
  intros Hinv Hcaps Hfuel (q & n & Hl & Hv).
  destruct (Delete_present_at g t H K q n v0 fuel Hinv Hcaps Hfuel Hl Hv)
    as (t' & g' & H' & E & Hc1 & Hc2 & Hc3 & Hc4 & Hc5 & _).
  by exists t', g', H'.
Qed.

End Merge.

(** * Scans *)

(** ** Positions in a sorted slot array *)
Lemma keys_in_lookup lo hi rs i r :
  keys_in lo (rec_key <$> rs) hi → rs !! i = Some r → in_range lo (rec_key r) hi.
Proof.
  intros Hk Hi. apply keys_in_Forall in Hk. rewrite list.Forall_forall in Hk.
  apply Hk. apply list_elem_of_fmap. exists r. split; [done|].
  by eapply list_elem_of_lookup_2.
Qed.

Lemma keys_in_lookup_lt lo hi rs i j r r' :
  keys_in lo (rec_key <$> rs) hi → rs !! i = Some r → rs !! j = Some r' → i < j →
  (rec_key r < rec_key r')%Z.
Proof.
  revert lo i j. induction rs as [|r0 rs IH]; intros lo i j Hk Hi Hj Hij; [done|].
  simpl in Hk. destruct Hk as (_ & _ & Hk).
  destruct j as [|j]; [lia|]. simpl in Hj. destruct i as [|i].
  - simpl in Hi. injection Hi as <-.
    destruct (keys_in_lookup _ _ _ _ _ Hk Hj) as [Hlo _]. unfold ble in Hlo. lia.
  - simpl in Hi. eapply IH; [exact Hk|exact Hi|exact Hj|lia].
Qed.

Lemma keys_in_lookup_inj lo hi rs i j r r' :
  keys_in lo (rec_key <$> rs) hi → rs !! i = Some r → rs !! j = Some r' →
  rec_key r = rec_key r' → i = j.
Proof.
  intros Hk Hi Hj E. destruct (Nat.lt_trichotomy i j) as [Hlt|[->|Hlt]]; [|done|].
  - pose proof (keys_in_lookup_lt _ _ _ _ _ _ _ Hk Hi Hj Hlt). lia.
  - pose proof (keys_in_lookup_lt _ _ _ _ _ _ _ Hk Hj Hi Hlt). lia.
Qed.

(** The live record of a key is the record of its slot. *)
Lemma find_live_lookup lo hi rs i r :
  keys_in lo (rec_key <$> rs) hi → rs !! i = Some r → rec_deleted r = false →
  find_live (rec_key r) rs = Some r.
Proof.
  intros Hk Hi Hd. eapply find_live_sorted; [exact Hk| |done].
  by eapply list_elem_of_lookup_2.
Qed.

Lemma find_live_index K rs r :
  find_live K rs = Some r → ∃ i, rs !! i = Some r ∧ rec_key r = K ∧ rec_deleted r = false.
Proof.
  intros E. destruct (find_live_key _ _ _ E) as [E1 E2].
  apply find_live_elem in E. apply list_elem_of_lookup_1 in E as [i Hi]. eauto.
Qed.

(** ** The ends of a scan range *)
Lemma before_end_mono e k k' :
  before_end e k = true → (k' ≤ k)%Z → before_end e k' = true.
Proof.
  unfold before_end. destruct e as [[ek []]|]; [| |done].
  - intros H1%Z.leb_le H2. apply Z.leb_le. lia.
  - intros H1%Z.ltb_lt H2. apply Z.ltb_lt. lia.
Qed.

Lemma count_before_end_le e rs : count_before_end e rs ≤ length rs.
Proof.
  induction rs as [|r rs IH]; simpl; [lia|]. destruct (before_end e (rec_key r)); lia.
Qed.

Lemma count_before_end_lt e rs i r :
  rs !! i = Some r → i < count_before_end e rs → before_end e (rec_key r) = true.
Proof.
  revert i. induction rs as [|r0 rs IH]; intros i Hi Hlt; [done|]. simpl in Hlt.
  destruct (before_end e (rec_key r0)) eqn:E; [|lia].
  destruct i as [|i]; simpl in Hi; [by injection Hi as <-|]. eapply IH; [done|lia].
Qed.

Lemma count_before_end_ge lo hi e rs i r :
  keys_in lo (rec_key <$> rs) hi → rs !! i = Some r → count_before_end e rs ≤ i →
  before_end e (rec_key r) = false.
Proof.
  revert lo i. induction rs as [|r0 rs IH]; intros lo i Hk Hi Hge; [done|].
  pose proof Hk as Hk'. simpl in Hk. destruct Hk as (_ & _ & Hk). simpl in Hge.
  destruct (before_end e (rec_key r0)) eqn:E.
  - destruct i as [|i]; [lia|]. simpl in Hi. eapply IH; [done|done|lia].
  - destruct i as [|i]; simpl in Hi; [by injection Hi as <-|].
    destruct (before_end e (rec_key r)) eqn:E'; [|done].
    assert (rec_key r0 < rec_key r)%Z as Hlt.
    { eapply (keys_in_lookup_lt _ _ (r0 :: rs) 0 (S i)); [exact Hk'|done|done|lia]. }
    rewrite (before_end_mono e (rec_key r) (rec_key r0)) in E; [done|done|lia].
Qed.

Lemma count_before_end_all lo e rs hk :
  keys_in lo (rec_key <$> rs) (Fin hk) → before_end e hk = true →
  count_before_end e rs = length rs.
Proof.
  revert lo. induction rs as [|r rs IH]; intros lo Hk He; [done|]. simpl in *.
  destruct Hk as (_ & Hlt & Hk). unfold blt in Hlt.
  rewrite (before_end_mono e hk (rec_key r)) by (done || lia).
  f_equal. by eapply IH.
Qed.

Lemma after_begin_bound b k : after_begin b k = true ↔ ble (begin_bound b) (Fin k).
Proof.
  unfold after_begin, begin_bound, ble. destruct b as [[bk []]|]; [| |done].
  - rewrite Z.leb_le. done.
  - rewrite Z.ltb_lt. lia.
Qed.

Lemma count_not_after_begin_lt b rs i r :
  rs !! i = Some r → i < count_not_after_begin b rs → after_begin b (rec_key r) = false.
Proof.
  revert i. induction rs as [|r0 rs IH]; intros i Hi Hlt; [done|]. simpl in Hlt.
  destruct (after_begin b (rec_key r0)) eqn:E; [lia|].
  destruct i as [|i]; simpl in Hi; [by injection Hi as <-|]. eapply IH; [done|lia].
Qed.

Lemma after_begin_mono b k k' :
  after_begin b k = true → (k ≤ k')%Z → after_begin b k' = true.
Proof.
  rewrite !after_begin_bound. unfold ble. destruct (begin_bound b); try done. lia.
Qed.

Lemma count_not_after_begin_ge lo hi b rs i r :
  keys_in lo (rec_key <$> rs) hi → rs !! i = Some r → count_not_after_begin b rs ≤ i →
  after_begin b (rec_key r) = true.
Proof.
  revert lo i. induction rs as [|r0 rs IH]; intros lo i Hk Hi Hge; [done|].
  pose proof Hk as Hk'. simpl in Hk. destruct Hk as (_ & _ & Hk). simpl in Hge.
  destruct (after_begin b (rec_key r0)) eqn:E.
  - destruct i as [|i]; simpl in Hi; [by injection Hi as <-|].
    assert (rec_key r0 < rec_key r)%Z as Hlt.
    { eapply (keys_in_lookup_lt _ _ (r0 :: rs) 0 (S i)); [exact Hk'|done|done|lia]. }
    eapply after_begin_mono; [exact E|lia].
  - destruct i as [|i]; [lia|]. simpl in Hi. eapply IH; [done|done|lia].
Qed.

Lemma bltb_spec a b : bltb a b = true ↔ blt a b.
Proof.
  unfold bltb, blt. destruct a, b; try done. apply Z.ltb_lt.
Qed.

Lemma rank_lt g n lo lo' q :
  g q = Some (0, lo') → q < n → blt lo lo' → rank g n lo' < rank g n lo.
Proof.
  intros Hg Hq Hlt. unfold rank.
  rewrite <- (list_filter_filter_l (λ q, is_right g lo' q = true)
                (λ q, is_right g lo q = true)).
  - apply (length_filter_lt _ _ q).
    + apply list_elem_of_filter. split.
      * unfold is_right. rewrite Hg. by apply bltb_spec.
      * apply elem_of_seq. lia.
    + unfold is_right. rewrite Hg. intros E%bltb_spec. by apply blt_irrefl in E.
  - intros p. unfold is_right. destruct (g p) as [[[|?] lo'']|]; try done.
    rewrite !bltb_spec. intros. by eapply blt_trans.
Qed.

(** ** Shared locks

    The shared lock of a node is taken and released by the cursor; the
    shape of the tree and what it holds do not depend on it. *)
Lemma inv_relock g h root H p lvl lo n c :
  inv g h root H → g p = Some (lvl, lo) → h !! p = Some n →
  inv g (<[p := set_s_lock n c]> h) root H.
Proof.
  intros Hinv Hg Hp.
  destruct (inv_node _ _ _ _ _ _ _ Hinv Hg) as (n0 & Hn0 & Hok).
  rewrite Hp in Hn0. injection Hn0 as <-.
  eapply inv_update; done.
Qed.

Lemma holds_relock g h p n c K v :
  h !! p = Some n → holds g h K v → holds g (<[p := set_s_lock n c]> h) K v.
Proof.
  intros Hp (q & nq & (lo & Hg & Hq & Hrange) & Hv).
  destruct (decide (q = p)) as [->|Hne].
  - rewrite Hp in Hq. injection Hq as <-.
    exists p, (set_s_lock n c). split; [|done]. exists lo. split_and!; try done.
    apply list_lookup_insert_eq. by eapply lookup_lt_Some.
  - exists q, nq. split; [|done]. exists lo. by rewrite list_lookup_insert_ne.
Qed.

Lemma holds_iff g h h' root H :
  inv g h root H → inv g h' root H →
  (∀ K v, holds g h K v → holds g h' K v) →
  ∀ K v, holds g h K v ↔ holds g h' K v.
Proof.
  intros Hinv Hinv' Himp K v. split; [apply Himp|].
  intros Hv'. destruct (holds_total _ _ _ _ K Hinv) as (v0 & Hv0).
  pose proof (Himp _ _ Hv0) as Hv0'.
  by rewrite (holds_unique _ _ _ _ _ _ _ Hinv' Hv' Hv0').
Qed.

Section Scan.
Context {cfg : Params}.

(** ** Fuel *)
Lemma HasNext_mono fuel :
  ∀ h it r, HasNext fuel h it = Some r → HasNext (S fuel) h it = Some r.
Proof.
  induction fuel as [|fuel IH]; intros h it r E; [done|].
  remember (S fuel) as f eqn:Ef. rewrite Ef in E at 1. simpl in E. simpl.
  destruct (h !! node_ it) as [n|]; [|done].
  destruct (_ <? _); [done|]. destruct (is_end_ it); [done|].
  destruct (Node_GetNextNodeForRead h (node_ it)) as [[h' q]|]; [|done].
  destruct (h' !! q) as [nq|]; [|done].
  destruct (Node_SearchEndPositionFor nq (end_key_ it)) as [is_end end_pos].
  subst f. by apply IH.
Qed.

Lemma drain_S fuel h it :
  drain (S fuel) h it =
  match HasNext (S fuel) h it with
  | None => None
  | Some (false, h', it') => Some ([], h', it')
  | Some (true, h', it') =>
      match Deref h' it' with
      | None => None
      | Some kv =>
          (λ '(out, h'', it''), (kv :: out, h'', it'')) <$> drain fuel h' (Advance it')
      end
  end.
Proof. done. Qed.

Lemma drain_mono fuel :
  ∀ h it r, drain fuel h it = Some r → drain (S fuel) h it = Some r.
Proof.
  induction fuel as [|fuel IH]; intros h it r E; [done|].
  rewrite drain_S in E. rewrite drain_S.
  destruct (HasNext (S fuel) h it) as [[[b h'] it']|] eqn:EH; [|done].
  rewrite (HasNext_mono _ _ _ _ EH).
  destruct b; [|done]. destruct (Deref h' it') as [kv|]; [|done].
  destruct (drain fuel h' (Advance it')) as [x|] eqn:Ed; [|done].
  by rewrite (IH _ _ _ Ed).
Qed.

(** A cursor that hops to the next leaf drains what the cursor at the
    start of that leaf drains. *)
Lemma drain_hop fuel h it h' it' r :
  HasNext (S fuel) h it = HasNext fuel h' it' →
  drain fuel h' it' = Some r → drain (S fuel) h it = Some r.
Proof.
  intros Ehop Ed. destruct fuel as [|fuel]; [done|].
  rewrite drain_S, Ehop. rewrite drain_S in Ed.
  destruct (HasNext (S fuel) h' it') as [[[b h1] it1]|] eqn:EH; [|done].
  destruct b; [|done]. destruct (Deref h1 it1) as [kv|]; [|done].
  destruct (drain fuel h1 (Advance it1)) as [x|] eqn:Ed'; [|done].
  by rewrite (drain_mono _ _ _ _ Ed').
Qed.

(** ** Skipping deleted records *)
Lemma skip_deleted_spec gap n pos :
  pos ≤ skip_deleted gap n pos ≤ pos + gap ∧
  (∀ i, pos ≤ i < skip_deleted gap n pos → Node_RecordIsDeleted n i = true) ∧
  (skip_deleted gap n pos < pos + gap →
   Node_RecordIsDeleted n (skip_deleted gap n pos) = false).
Proof.
  revert pos. induction gap as [|gap IH]; intros pos; simpl.
  - split_and!; [lia|lia|intros; lia|lia].
  - destruct (Node_RecordIsDeleted n pos) eqn:E.
    + destruct (IH (S pos)) as ((H1 & H2) & H3 & H4). split_and!; [lia|lia| |].
      * intros i Hi. destruct (decide (i = pos)) as [->|]; [done|]. apply H3. lia.
      * intros Hlt. apply H4. lia.
    + split_and!; [lia|lia|intros; lia|done].
Qed.

Lemma HasNext_S fuel h it n :
  h !! node_ it = Some n →
  HasNext (S fuel) h it =
  let pos := skip_deleted (end_pos_ it - pos_ it) n (pos_ it) in
  let it1 := mkRecordIterator (node_ it) pos (end_pos_ it) (end_key_ it) (is_end_ it) in
  if pos <? end_pos_ it then Some (true, h, it1)
  else if is_end_ it then (λ h', (false, h', it1)) <$> Node_ReleaseSharedLock h (node_ it)
  else match Node_GetNextNodeForRead h (node_ it) with
       | None => None
       | Some (h', q) =>
           match h' !! q with
           | None => None
           | Some nq =>
               HasNext fuel h'
                 (mkRecordIterator q 0 (Node_SearchEndPositionFor nq (end_key_ it)).2
                    (end_key_ it) (Node_SearchEndPositionFor nq (end_key_ it)).1)
           end
       end.
Proof. intros E. simpl. rewrite E. done. Qed.

Lemma record_deleted n i r :
  leaf_records n !! i = Some r → Node_RecordIsDeleted n i = rec_deleted r.
Proof. unfold Node_RecordIsDeleted. by intros ->. Qed.

Lemma drain_spec g root H e :
  ∀ r gap h it cur lo n,
    inv g h root H → cursor_ok g h e it cur lo n →
    rank g (length h) lo ≤ r → length (leaf_records n) - pos_ it ≤ gap →
    ∃ f0, ∀ f, f0 ≤ f →
      ∃ out h' it',
        drain f h it = Some (out, h', it') ∧
        keys_in cur (fst <$> out) PosInf ∧
        (∀ k v, (k, v) ∈ out ↔
                holds g h k (Some v) ∧ ble cur (Fin k) ∧ before_end e k = true) ∧
        inv g h' root H ∧ (∀ K v, holds g h K v → holds g h' K v) ∧
        length h' = length h.
Proof.
  induction r as [r IHr] using lt_wf_ind.
  induction gap as [gap IHg] using lt_wf_ind.
  intros h it cur lo n Hinv (Hg & Hn & Ee & Eend & Eis & Hlocur & Hcurhi & Hidx) Hrank Hgap.
  destruct (inv_node _ _ _ _ _ _ _ Hinv Hg) as (n0 & Hn0 & Hok).
  rewrite Hn in Hn0. injection Hn0 as <-.
  destruct (node_ok_leaf _ _ _ _ _ Hok) as (rs & Ers & Rn & Hkeys).
  assert (leaf_records n = rs) as Elr by (unfold leaf_records; by rewrite Ers).
  rewrite Elr in *.
  pose proof (count_before_end_le e rs) as Hcle.
  set (pos1 := skip_deleted (end_pos_ it - pos_ it) n (pos_ it)).
  destruct (skip_deleted_spec (end_pos_ it - pos_ it) n (pos_ it)) as ((Hp1 & Hp2) & Hdel & Hlive).
  fold pos1 in Hp1, Hp2, Hdel, Hlive.
  assert (leaf_for g h (pick lo (hi_of (high_key n))) (node_ it) n) as Hleaf0.
  { exists lo. split_and!; try done. apply pick_in_range. apply Hok. }
  (* the live record of a key that the leaf covers *)
  assert (∀ k v, holds g h k (Some v) → ble lo (Fin k) → blt (Fin k) (hi_of (high_key n)) →
            ∃ i r0, rs !! i = Some r0 ∧ rec_key r0 = k ∧ rec_payload r0 = v ∧
                    rec_deleted r0 = false) as Hhere.
  { intros k v (q & nq & Hl & Hv) Hlo Hhi.
    assert (leaf_for g h k (node_ it) n) as Hl' by (by exists lo).
    destruct (leaf_for_unique _ _ _ _ _ _ _ _ _ Hinv Hl Hl') as [-> ->].
    rewrite Elr in Hv. destruct (find_live k rs) as [r0|] eqn:Ef; [|done].
    injection Hv as <-. destruct (find_live_index _ _ _ Ef) as (i & Hi & Hk & Hd).
    by exists i, r0. }
  destruct (Nat.ltb_spec pos1 (end_pos_ it)) as [Hlt|Hge].
  - (* a live record before the end position *)
    destruct (lookup_lt_is_Some_2 rs pos1) as [r1 Hr1]; [lia|].
    assert (rec_deleted r1 = false) as Hd1.
    { rewrite <- (record_deleted n pos1 r1) by (by rewrite Elr). apply Hlive. lia. }
    destruct (keys_in_lookup _ _ _ _ _ Hkeys Hr1) as [Hlo1 Hhi1].
    assert (ble cur (Fin (rec_key r1))) as Hcur1.
    { specialize (Hidx _ _ Hr1). rewrite decide_False in Hidx by lia. done. }
    set (it1 := mkRecordIterator (node_ it) pos1 (end_pos_ it) (end_key_ it) (is_end_ it)).
    destruct (IHg (gap - 1) ltac:(lia) h (Advance it1) (Fin (rec_key r1 + 1)) lo n)
      as (f0 & Hf0); try done.
    { unfold cursor_ok. simpl. rewrite Elr. split_and!; try done.
      - clear -Hlo1. bnd.
      - clear -Hhi1. destruct (hi_of (high_key n)); bnd.
      - intros i r0 Hi. case_decide.
        + destruct (decide (i = pos1)) as [->|].
          * rewrite Hr1 in Hi. injection Hi as <-. unfold blt. lia.
          * pose proof (keys_in_lookup_lt _ _ _ _ _ _ _ Hkeys Hi Hr1 ltac:(lia)).
            unfold blt. lia.
        + pose proof (keys_in_lookup_lt _ _ _ _ _ _ _ Hkeys Hr1 Hi ltac:(lia)).
          unfold ble. lia. }
    { simpl. rewrite Elr. lia. }
    exists (S f0). intros f Hf. destruct f as [|f1]; [lia|].
    destruct (Hf0 f1 ltac:(lia)) as (out & h' & it' & Ed & Hsorted & Hmem & Hinv' & Hholds & Hlen).
    exists ((rec_key r1, rec_payload r1) :: out), h', it'.
    split_and!; try done.
    + rewrite drain_S, (HasNext_S _ _ _ _ Hn). cbv zeta. fold pos1.
      destruct (Nat.ltb_spec pos1 (end_pos_ it)); [|lia]. fold it1.
      unfold Deref. cbn [node_ pos_ it1]. rewrite Hn. cbn [mbind option_bind].
      unfold Node_GetRecord. rewrite Elr, Hr1. cbn [fmap option_fmap option_map].
      by rewrite Ed.
    + intros k v. rewrite elem_of_cons, Hmem. split.
      * intros [[= -> ->]|(Hh & Hc & He)].
        -- split_and!; [|done|by eapply count_before_end_lt; [done|lia]].
           exists (node_ it), n. split; [by exists lo|].
           rewrite Elr. by rewrite (find_live_lookup _ _ _ _ _ Hkeys Hr1 Hd1).
        -- split_and!; try done. clear -Hc Hcur1. bnd.
      * intros (Hh & Hc & He).
        destruct (decide (k ≤ rec_key r1)%Z) as [Hle|Hgt]; [left|right].
        -- destruct (Hhere k v Hh) as (i & r0 & Hi & <- & <- & Hd0).
           { exact (ble_trans _ _ _ Hlocur Hc). }
           { clear -Hle Hhi1. destruct (hi_of (high_key n)); bnd. }
           assert (i = pos1) as ->.
           { pose proof (Hidx _ _ Hi) as Hix. case_decide as Hip.
             { exfalso. eapply blt_irrefl. eapply blt_ble_trans; done. }
             destruct (decide (i < pos1)) as [Hip1|].
             { rewrite <- (record_deleted n i r0) in Hd0 by (by rewrite Elr).
               rewrite Hdel in Hd0 by lia. done. }
             destruct (decide (i = pos1)); [done|].
             pose proof (keys_in_lookup_lt _ _ _ _ _ _ _ Hkeys Hr1 Hi ltac:(lia)). lia. }
           rewrite Hr1 in Hi. by injection Hi as <-.
        -- split_and!; try done. unfold ble. lia.
  - (* no live record is left before the end position *)
    assert (∀ k v, holds g h k (Some v) → ble cur (Fin k) → before_end e k = true →
              blt (Fin k) (hi_of (high_key n)) → False) as Hnone.
    { intros k v Hh Hc He Hhi.
      destruct (Hhere k v Hh) as (i & r0 & Hi & <- & <- & Hd0);
        [exact (ble_trans _ _ _ Hlocur Hc)|done|].
      pose proof (Hidx _ _ Hi) as Hix. case_decide as Hip.
      { eapply blt_irrefl. eapply blt_ble_trans; done. }
      destruct (decide (i < end_pos_ it)) as [Hie|Hie].
      - rewrite <- (record_deleted n i r0) in Hd0 by (by rewrite Elr).
        rewrite Hdel in Hd0 by lia. done.
      - rewrite (count_before_end_ge _ _ _ _ _ _ Hkeys Hi) in He by lia. done. }
    set (it1 := mkRecordIterator (node_ it) pos1 (end_pos_ it) (end_key_ it) (is_end_ it)).
    destruct (is_end_ it) eqn:Eise.
    + (* the last leaf of the range *)
      exists 1. intros f Hf. destruct f as [|f1]; [lia|].
      exists [], (<[node_ it := UnlockS n]> h), it1.
      split_and!; try done.
      * rewrite drain_S, (HasNext_S _ _ _ _ Hn). cbv zeta. fold pos1.
        destruct (Nat.ltb_spec pos1 (end_pos_ it)); [lia|]. rewrite Eise.
        unfold Node_ReleaseSharedLock. rewrite Hn. done.
      * intros k v. split; [by intros ?%elem_of_nil|]. intros (Hh & Hc & He). exfalso.
        destruct (high_key n) as [hk|] eqn:Ehk.
        -- destruct (decide (k < hk)%Z) as [Hlt|Hnlt]; [by eapply Hnone|].
           unfold Node_SearchEndPositionFor in Eis. rewrite Ehk in Eis. simpl in Eis.
           destruct (next n) as [q|] eqn:Enx.
           ++ symmetry in Eis. apply negb_true_iff in Eis.
              rewrite (before_end_mono e k hk) in Eis; [done|done|lia].
           ++ destruct Hok as (_ & _ & _ & Hnx & _). rewrite Enx, Ehk in Hnx. done.
        -- by eapply Hnone.
      * by eapply inv_relock.
      * intros K v. by apply holds_relock.
      * by rewrite length_insert.
    + (* the cursor moves to the next leaf *)
      assert (∃ q hk, next n = Some q ∧ high_key n = Some hk ∧ before_end e hk = true)
        as (q & hk & Enx & Ehk & Ehkb).
      { unfold Node_SearchEndPositionFor in Eis. simpl in Eis.
        destruct (next n) as [q|]; [|done]. destruct (high_key n) as [hk|]; [|done].
        exists q, hk. split_and!; try done. symmetry in Eis.
        by apply negb_false_iff in Eis. }
      rewrite Ehk in *. simpl in Hcurhi.
      pose proof Hok as (_ & Hlohk & _ & Hnx & _). rewrite Enx, Ehk in Hnx.
      rewrite Ehk in Hlohk. simpl in Hnx, Hlohk.
      destruct (inv_node _ _ _ _ _ _ _ Hinv Hnx) as (nq & Hq & Hokq).
      assert (q ≠ node_ it) as Hqn.
      { intros E. rewrite E, Hg in Hnx. injection Hnx as ->. by apply blt_irrefl in Hlohk. }
      set (h1 := <[q := LockS nq]> h).
      set (h' := <[node_ it := UnlockS n]> h1).
      assert (inv g h1 root H) as Hinv1 by (by eapply inv_relock).
      assert (h1 !! node_ it = Some n) as Hn1 by (unfold h1; by rewrite list_lookup_insert_ne).
      assert (inv g h' root H) as Hinv' by (by eapply inv_relock).
      assert (h' !! q = Some (LockS nq)) as Hq'.
      { unfold h', h1. rewrite list_lookup_insert_ne by done.
        apply list_lookup_insert_eq. by eapply lookup_lt_Some. }
      assert (length h' = length h) as Hlen' by (unfold h', h1; by rewrite !length_insert).
      assert (∀ K v, holds g h K v → holds g h' K v) as Hholds'.
      { intros K v Hh. apply holds_relock; [done|]. by apply holds_relock. }
      pose proof (holds_iff _ _ _ _ _ Hinv Hinv' Hholds') as Hiff.
      destruct (node_ok_leaf _ _ _ _ _ Hokq) as (rsq & Ersq & _ & Hkeysq).
      set (it_n := mkRecordIterator q 0 (Node_SearchEndPositionFor (LockS nq) (end_key_ it)).2
                     (end_key_ it) (Node_SearchEndPositionFor (LockS nq) (end_key_ it)).1).
      destruct (IHr (rank g (length h') (Fin hk))) with
        (gap := length (leaf_records (LockS nq))) (h := h') (it := it_n)
        (cur := Fin hk) (lo := Fin hk) (n := LockS nq) as (f0 & Hf0); try done.
      { rewrite Hlen'. eapply Nat.lt_le_trans; [|exact Hrank].
        eapply (rank_lt g _ lo (Fin hk) q); [done|by eapply lookup_lt_Some|done]. }
      { unfold cursor_ok. cbn [node_ pos_ end_pos_ end_key_ is_end_ it_n]. rewrite Ee.
        split_and!; try done.
        - apply ble_refl.
        - apply blt_ble. apply Hokq.
        - intros i r0 Hi. rewrite decide_False by lia.
          unfold leaf_records in Hi. simpl in Hi. rewrite Ersq in Hi.
          by destruct (keys_in_lookup _ _ _ _ _ Hkeysq Hi). }
      { simpl. lia. }
      exists (S f0). intros f Hf. destruct f as [|f1]; [lia|].
      destruct (Hf0 f1 ltac:(lia)) as (out & h'' & it'' & Ed & Hsorted & Hmem & Hinv'' & Hholds'' & Hlen'').
      exists out, h'', it''. split_and!; try done.
      * eapply drain_hop; [|exact Ed].
        rewrite (HasNext_S _ _ _ _ Hn). cbv zeta. fold pos1.
        destruct (Nat.ltb_spec pos1 (end_pos_ it)); [lia|]. rewrite Eise.
        unfold Node_GetNextNodeForRead. rewrite Hn, Enx, Hq. fold h1 h'. rewrite Hq'. done.
      * eapply keys_in_weaken; [exact Hcurhi|apply ble_refl|done].
      * intros k v. rewrite Hmem, <- Hiff. split.
        -- intros (Hh & Hc & He). split_and!; try done.
           exact (ble_trans _ _ _ Hcurhi Hc).
        -- intros (Hh & Hc & He). split_and!; try done.
           destruct (decide (hk ≤ k)%Z) as [|Hlt]; [done|]. exfalso.
           eapply (Hnone k v); try done. simpl. unfold blt. lia.
      * intros K v Hh. by apply Hholds'', Hholds'.
      * by rewrite Hlen''.
Qed.

(** ** [Scan] *)
Lemma SearchLeftmostLeaf_loop_spec g t H :
  inv g (heap t) (root_ t) H →
  ∀ lvl p,
    g p = Some (lvl, NegInf) →
    ∃ q, g q = Some (0, NegInf) ∧
         ∀ fuel, lvl < fuel → SearchLeftmostLeaf_loop fuel t p = Some (q, t).
Proof.
  intros Hinv. induction lvl as [|lvl IH]; intros p Hg.
  - exists p. split; [done|]. intros fuel Hfuel. destruct fuel as [|fuel]; [lia|].
    destruct (inv_node _ _ _ _ _ _ _ Hinv Hg) as (n & Hn & Hok).
    simpl. rewrite Hn. rewrite (node_ok_IsInner _ _ _ _ _ _ Hok).
    by rewrite bool_decide_eq_false_2 by lia.
  - destruct (inv_node _ _ _ _ _ _ _ Hinv Hg) as (n & Hn & Hok).
    destruct (node_ok_inner _ _ _ _ _ _ Hok) as (cs & nx & Ecs & Rn & Hchain & _).
    destruct cs as [|c cs]; [done|].
    apply chain_head_range in Hchain. destruct (IH (child c) Hchain) as (q & Hgq & Hrun).
    exists q. split; [done|]. intros fuel Hfuel. destruct fuel as [|fuel]; [lia|].
    simpl. rewrite Hn. rewrite (node_ok_IsInner _ _ _ _ _ _ Hok).
    rewrite bool_decide_eq_true_2 by lia.
    unfold Node_GetLeftmostChild. rewrite Hn, Rn. unfold inner_records. rewrite Ecs.
    apply Hrun. lia.
Qed.

Lemma Scan_spec g t H b e :
  inv g (heap t) (root_ t) H →
  ∃ it q n lo,
    heap t !! q = Some n ∧ node_ it = q ∧
    cursor_ok g (<[q := LockS n]> (heap t)) e it (begin_bound b) lo (LockS n) ∧
    ∀ fuel, H < fuel →
      Scan fuel t b e =
        Some (it, set_heap (log_load memory_order_acquire (CreateEpochGuard t))
                    (<[q := LockS n]> (heap t))).
Proof.
  intros Hinv. unfold Scan.
  assert (∃ q n lo,
            g q = Some (0, lo) ∧ heap t !! q = Some n ∧
            match b with
            | Some (bk, _) => in_range lo bk (hi_of (high_key n))
            | None => lo = NegInf
            end ∧
            ∀ fuel, H < fuel →
              match b with
              | Some (bk, _) => SearchLeafNode fuel (CreateEpochGuard t) bk
              | None => SearchLeftmostLeaf fuel (CreateEpochGuard t)
              end = Some (q, log_load memory_order_acquire (CreateEpochGuard t)))
    as (q & n & lo & Hg & Hq & Hb & Efind).
  { destruct b as [[bk c]|].
    - destruct (SearchLeafNode_spec g (CreateEpochGuard t) H bk (S H) Hinv)
        as (q & nq & _ & Hl); [lia|].
      pose proof Hl as (lo & Hg & Hq & Hr).
      exists q, nq, lo. split_and!; try done. intros fuel Hfuel.
      destruct (SearchLeafNode_spec g (CreateEpochGuard t) H bk fuel Hinv Hfuel)
        as (q' & nq' & E & Hl').
      by destruct (leaf_for_unique _ _ _ _ _ _ _ _ _ Hinv Hl Hl') as [-> ->].
    - destruct (SearchLeftmostLeaf_loop_spec g (log_load memory_order_acquire (CreateEpochGuard t))
                  H Hinv H (root_ t)) as (q & Hg & E); [apply Hinv|].
      destruct (inv_node _ _ _ _ _ _ _ Hinv Hg) as (n & Hn & _).
      exists q, n, NegInf. split_and!; try done. }
  destruct (inv_node _ _ _ _ _ _ _ Hinv Hg) as (n0 & Hn0 & Hok).
  rewrite Hq in Hn0. injection Hn0 as <-.
  destruct (node_ok_leaf _ _ _ _ _ Hok) as (rs & Ers & Rn & Hkeys).
  assert (leaf_records n = rs) as Elr by (unfold leaf_records; by rewrite Ers).
  set (it := mkRecordIterator q (count_not_after_begin b rs)
               (Node_SearchEndPositionFor n e).2 e (Node_SearchEndPositionFor n e).1).
  exists it, q, n, lo. split_and!; try done.
  - unfold cursor_ok. cbn [node_ pos_ end_pos_ end_key_ is_end_ it].
    assert (leaf_records (LockS n) = rs) as -> by done.
    change (high_key (LockS n)) with (high_key n).
    split_and!; try done.
    + apply list_lookup_insert_eq. by eapply lookup_lt_Some.
    + simpl. by rewrite Elr.
    + destruct b as [[bk []]|]; simpl.
      * by destruct Hb.
      * destruct Hb as [Hb1 _]. clear -Hb1. bnd.
      * by subst lo.
    + destruct b as [[bk []]|]; simpl.
      * destruct Hb as [_ Hb2]. by apply blt_ble.
      * destruct Hb as [_ Hb2]. clear -Hb2. destruct (hi_of (high_key n)); bnd.
      * done.
    + intros i r0 Hi. case_decide as Hip.
      * pose proof (count_not_after_begin_lt _ _ _ _ Hi Hip) as Ha.
        destruct (bltb (Fin (rec_key r0)) (begin_bound b)) eqn:Eb; [by apply bltb_spec|].
        exfalso. assert (after_begin b (rec_key r0) = true); [|congruence].
        apply after_begin_bound.
        assert (¬ blt (Fin (rec_key r0)) (begin_bound b)) as Hn.
        { rewrite <- bltb_spec. congruence. }
        clear -Hn. destruct (begin_bound b); bnd.
      * apply after_begin_bound.
        eapply count_not_after_begin_ge; [exact Hkeys|done|lia].
  - intros fuel Hfuel. rewrite (Efind fuel Hfuel). tree_simpl.
    unfold RecordIterator_new.
    assert (match b with
            | Some (b0, _) => CheckKeyRange fuel (heap t) q b0
            | None => Some (Some q)
            end = Some (Some q)) as ->.
    { destruct b as [[bk c]|]; [|done]. destruct fuel as [|fuel']; [lia|].
      by eapply CheckKeyRange_here. }
    rewrite Hq, Elr. done.
Qed.

Lemma ScanAll_spec g t H b e :
  inv g (heap t) (root_ t) H →
  ∃ f0, ∀ fuel, f0 ≤ fuel →
    ∃ out t',
      ScanAll fuel t b e = Some (out, t') ∧
      keys_in NegInf (fst <$> out) PosInf ∧
      (∀ k v, (k, v) ∈ out ↔
              holds g (heap t) k (Some v) ∧
              after_begin b k = true ∧ before_end e k = true) ∧
      inv g (heap t') (root_ t') H ∧ root_ t' = root_ t ∧
      (∀ K v, holds g (heap t) K v → holds g (heap t') K v) ∧
      gc_guards t' = gc_guards t.
Proof.
  intros Hinv.
  destruct (Scan_spec g t H b e Hinv) as (it & q & n & lo & Hq & Eit & Hcur & EScan).
  assert (inv g (<[q := LockS n]> (heap t)) (root_ t) H) as Hinv1.
  { destruct Hcur as (Hg & _). rewrite Eit in Hg. by eapply inv_relock. }
  destruct (drain_spec g (root_ t) H e (rank g (length (<[q := LockS n]> (heap t))) lo)
              (length (leaf_records (LockS n))) _ it (begin_bound b) lo (LockS n)
              Hinv1 Hcur) as (f0 & Hf0); [done|lia|].
  exists (f0 + S H). intros fuel Hfuel.
  destruct (Hf0 fuel) as (out & h' & it' & Ed & Hsorted & Hmem & Hinv' & Hholds & Hlen); [lia|].
  unfold ScanAll. rewrite EScan by lia. tree_simpl. rewrite Ed.
  eexists out, _. split; [done|]. tree_simpl.
  assert (∀ K v, holds g (heap t) K v → holds g (<[q := LockS n]> (heap t)) K v) as Hh1.
  { intros K v. by apply holds_relock. }
  split_and!; try done.
  - eapply keys_in_weaken; [|apply ble_refl|exact Hsorted]. done.
  - intros k v. rewrite Hmem, <- (holds_iff _ _ _ _ _ Hinv Hinv1 Hh1), after_begin_bound. done.
  - intros K v Hh. by apply Hholds, Hh1.
Qed.

End Scan.

Lemma chunks_nil {A} fuel cap : chunks fuel cap (@nil A) = [].
Proof. by destruct fuel. Qed.

Lemma chunks_concat {A} cap fuel : ∀ l : list A,
  1 ≤ cap → length l ≤ fuel → concat (chunks fuel cap l) = l.
Proof.
  induction fuel as [|fuel IH]; intros l Hc Hl.
  - destruct l; [done|simpl in Hl; lia].
  - destruct l as [|a l]; [done|]. cbn [chunks concat].
    rewrite IH; [by rewrite take_drop|done|].
    rewrite length_drop. simpl in *. lia.
Qed.

Lemma chunks_nonempty {A} cap fuel : ∀ l : list A,
  1 ≤ cap → Forall (λ c, c ≠ []) (chunks fuel cap l).
Proof.
  induction fuel as [|fuel IH]; intros l Hc; [by constructor|].
  destruct l as [|a l]; [by constructor|]. cbn [chunks]. constructor; [|by apply IH].
  destruct cap; [lia|done].
Qed.

Lemma chunks_length {A} cap fuel : ∀ l : list A,
  1 ≤ cap → length (chunks fuel cap l) ≤ length l.
Proof.
  induction fuel as [|fuel IH]; intros l Hc; [simpl; lia|].
  destruct l as [|a l]; [done|]. cbn [chunks length].
  specialize (IH (drop cap (a :: l)) Hc). rewrite length_drop in IH.
  simpl in *. lia.
Qed.

Lemma chunks_shorter {A} cap fuel : ∀ l : list A,
  2 ≤ cap → 2 ≤ length l → length (chunks fuel cap l) < length l.
Proof.
  intros l Hc Hl. destruct fuel as [|fuel]; [simpl; lia|].
  destruct l as [|a l]; [simpl in Hl; lia|]. cbn [chunks length].
  pose proof (chunks_length cap fuel (drop cap (a :: l))) as Hd.
  rewrite length_drop in Hd. simpl in *. lia.
Qed.

Lemma chunks_one {A} cap fuel (l : list A) :
  l ≠ [] → length l ≤ cap → chunks (S fuel) cap l = [l].
Proof.
  intros Hl Hc. destruct l as [|a l]; [done|]. cbn [chunks].
  rewrite take_ge, drop_ge by done. by rewrite chunks_nil.
Qed.

Lemma chunks_cons {A} cap fuel (l : list A) :
  l ≠ [] → ∃ rest, chunks (S fuel) cap l = take cap l :: rest.
Proof. destruct l; [done|]. intros _. eexists. done. Qed.

Section Layer.
Context {cfg : Params}.
Context {E : Type} `{!BulkEntry E}.

Lemma length_layer_pages base cs : length (layer_pages base cs) = length cs.
Proof. revert base. induction cs as [|c cs IH]; intros base; simpl; [done|]. by rewrite IH. Qed.

Lemma length_layer_entries base cs : length (layer_entries base cs) = length cs.
Proof. revert base. induction cs as [|c cs IH]; intros base; simpl; [done|]. by rewrite IH. Qed.

Lemma set_heap_heap t : set_heap t (heap t) = t.
Proof. by destruct t. Qed.

Lemma chunk_key_take cap e (es : list E) :
  1 ≤ cap → chunk_key (take cap (e :: es)) = entry_key e.
Proof. destruct cap; [lia|done]. Qed.

(** The loop of [ConstructSingleLayer] once a page is open: the page
    gets its link when the next one is filled. *)
Lemma ConstructSingleLayer_loop_open fuel :
  ∀ entries t h0 c nodes,
    1 ≤ entry_cap → length entries ≤ fuel →
    heap t = h0 ++ [page_of c [] (length h0)] →
    ConstructSingleLayer_loop fuel t entries (Some (length h0)) nodes =
    Some (nodes ++ layer_entries (S (length h0)) (chunks fuel entry_cap entries),
          set_heap t (h0 ++ layer_pages (length h0) (c :: chunks fuel entry_cap entries))).
Proof.
  induction fuel as [|fuel IH]; intros entries t h0 c nodes Hc Hl Hh.
  - destruct entries; [|simpl in Hl; lia]. simpl. rewrite app_nil_r, <- Hh.
    by rewrite set_heap_heap.
  - destruct entries as [|e es].
    { simpl. rewrite app_nil_r, <- Hh. by rewrite set_heap_heap. }
    cbn [ConstructSingleLayer_loop chunks]. unfold GetNodePage.
    cbv beta iota zeta. cbn [heap set_heap].
    unfold Node_Bulkload. rewrite Hh.
    rewrite lookup_app_r by (rewrite length_app; simpl; lia).
    replace (length (h0 ++ [page_of c [] (length h0)]) - length (h0 ++ [page_of c [] (length h0)]))
      with 0 by lia.
    cbn [lookup list_lookup].
    set (c' := take entry_cap (e :: es)).
    assert (<[length (h0 ++ [page_of c [] (length h0)]) :=
                set_records (Node_new entry_is_inner) (entry_records c')]>
              ((h0 ++ [page_of c [] (length h0)]) ++ [Node_new entry_is_inner]) =
            (h0 ++ [page_of c [] (length h0)]) ++ [page_of c' [] (S (length h0))]) as ->.
    { rewrite insert_app_r_alt by lia.
      replace (length (h0 ++ [page_of c [] (length h0)]) - length (h0 ++ [page_of c [] (length h0)]))
        with 0 by lia.
      done. }
    rewrite <- (assoc_L (++)). cbn [app].
    rewrite lookup_app_r by lia. rewrite Nat.sub_diag. cbn [lookup list_lookup fmap option_fmap option_map].
    rewrite insert_app_r_alt by lia. rewrite Nat.sub_diag. cbn [insert list_insert].
    set (rest := chunks fuel entry_cap (drop entry_cap (e :: es))).
    assert (length (h0 ++ [page_of c [] (length h0)]) = S (length h0)) as El
      by (rewrite length_app; simpl; lia).
    rewrite El.
    assert (set_link (page_of c [] (length h0)) (Some (entry_key e)) (Some (S (length h0))) =
            page_of c (c' :: rest) (length h0)) as ->.
    { unfold page_of, set_link. simpl. unfold c'. by rewrite chunk_key_take. }
    specialize (IH (drop entry_cap (e :: es))
                  (set_heap (set_heap t ((h0 ++ [page_of c [] (length h0)]) ++ [Node_new entry_is_inner]))
                     (h0 ++ [page_of c (c' :: rest) (length h0); page_of c' [] (S (length h0))]))
                  (h0 ++ [page_of c (c' :: rest) (length h0)]) c'
                  (nodes ++ [(entry_key e, S (length h0))]) Hc).
    rewrite length_app in IH. simpl in IH. rewrite Nat.add_1_r in IH.
    rewrite IH.
    + f_equal. f_equal.
      * rewrite <- (assoc_L (++)). simpl. unfold c'. by rewrite chunk_key_take.
      * cbn [layer_pages]. destruct t. unfold set_heap. cbn.
        by rewrite <- (assoc_L (++)).
    + rewrite length_drop. simpl in *. lia.
    + by rewrite <- (assoc_L (++)).
Qed.

(** What [ConstructSingleLayer] adds to the heap. *)
Lemma ConstructSingleLayer_spec t (entries : list E) :
  1 ≤ entry_cap →
  ConstructSingleLayer t entries =
  Some (layer_entries (length (heap t)) (chunks (length entries) entry_cap entries),
        set_heap t (heap t ++
          layer_pages (length (heap t)) (chunks (length entries) entry_cap entries))).
Proof.
  intros Hc. unfold ConstructSingleLayer. destruct entries as [|e es].
  { simpl. rewrite app_nil_r. by rewrite set_heap_heap. }
  cbn [length ConstructSingleLayer_loop chunks]. unfold GetNodePage.
  cbv beta iota zeta. cbn [heap set_heap].
  unfold Node_Bulkload.
  rewrite lookup_app_r by lia. rewrite Nat.sub_diag. cbn [lookup list_lookup].
  rewrite insert_app_r_alt by lia. rewrite Nat.sub_diag.
  cbn [insert list_insert fmap option_fmap option_map].
  set (c' := take entry_cap (e :: es)). rewrite app_nil_l.
  rewrite (ConstructSingleLayer_loop_open (length es) (drop entry_cap (e :: es)) _ (heap t) c'
             [(entry_key e, length (heap t))] Hc).
  - f_equal. f_equal. simpl. unfold c'. by rewrite chunk_key_take.
  - rewrite length_drop. simpl. lia.
  - done.
Qed.

End Layer.

Lemma forest_ranges_ok g h H T : forest g h H T → ranges_ok g h.
Proof.
  intros Hf p lvl lo n Hg Hp. destruct (fr_nodes _ _ _ _ Hf _ _ _ Hg) as (n' & Hn' & Hok).
  simplify_eq. apply Hok.
Qed.

Lemma forest_bounded g h H T : forest g h H T → bounded g h.
Proof.
  intros Hf p [lvl lo] Hg. destruct (fr_nodes _ _ _ _ Hf _ _ _ Hg) as (n' & Hn' & Hok).
  by eapply lookup_lt_Some.
Qed.

Lemma chain_ghost h g lvl lo cs hi nx c :
  chain_ok h g lvl lo cs hi nx → c ∈ cs →
  ∃ b n, g (child c) = Some (lvl, b) ∧ h !! child c = Some n.
Proof.
  revert lo. induction cs as [|c0 cs IH]; intros lo Hc Hin; [by apply elem_of_nil in Hin|].
  apply chain_ok_cons in Hc as ((n & Hn & _) & Hg0 & Hrest).
  apply elem_of_cons in Hin as [->|Hin]; [eauto|].
  destruct cs as [|c1 cs]; [by apply elem_of_nil in Hin|]. by eapply IH.
Qed.

Lemma node_ok_children g h H lvl lo n c :
  node_ok g h H lvl lo n → c ∈ inner_records n →
  ∃ lvl' b nc, lvl = S lvl' ∧ g (child c) = Some (lvl', b) ∧ h !! child c = Some nc.
Proof.
  intros (_ & _ & _ & _ & Hb) Hc. unfold inner_records in Hc.
  destruct (records n) as [rs|cs]; [by apply elem_of_nil in Hc|].
  destruct Hb as (lvl' & nx & -> & Hchain & _).
  destruct (chain_ghost _ _ _ _ _ _ _ _ Hchain Hc) as (b & nc & ? & ?). eauto 10.
Qed.

Lemma is_parent_child g h H T q x :
  forest g h H T → is_parent g h q x → ∃ y, g x = Some y.
Proof.
  intros Hf (lq & bq & nq & Hg & Hq & Hx).
  destruct (fr_nodes _ _ _ _ Hf _ _ _ Hg) as (n' & Hn' & Hok). simplify_eq.
  apply list_elem_of_fmap in Hx as (c & -> & Hc).
  destruct (node_ok_children _ _ _ _ _ _ _ Hok Hc) as (? & ? & ? & _ & ? & _). eauto.
Qed.

(** Pages that are added to the heap leave the old ones well-formed. *)
Lemma node_ok_grow g g' h h' H H' lvl lo n :
  node_ok g h H lvl lo n → H ≤ H' → bounded g h →
  (∀ p, p < length h → g' p = g p) →
  (∀ p m, h !! p = Some m → h' !! p = Some m) →
  node_ok g' h' H' lvl lo n.
Proof.
  intros Hok HH Hb Hg Hh.
  eapply node_ok_transfer; [exact Hok| | | |].
  - destruct Hok as (_ & _ & ? & _). lia.
  - intros q Hq. destruct Hok as (_ & _ & _ & Hnx & _). rewrite Hq in Hnx.
    apply Hg. by eapply Hb.
  - intros c nc Hc Hnc. exists nc. split; [|done]. by apply Hh.
  - intros c Hc. destruct (node_ok_children _ _ _ _ _ _ _ Hok Hc) as (? & ? & ? & _ & Hgc & _).
    apply Hg. by eapply Hb.
Qed.

Lemma node_ok_raise g h H H' lvl lo n :
  node_ok g h H lvl lo n → H ≤ H' → node_ok g h H' lvl lo n.
Proof.
  intros (? & ? & ? & ? & ?) HH. split_and!; try done. lia.
Qed.

Lemma forest_raise g h H H' T : forest g h H T → H ≤ H' → forest g h H' T.
Proof.
  intros [F1 F2 F3 F4 F5] HH. split; try done.
  intros p lvl lo Hg. destruct (F1 _ _ _ Hg) as (n & Hn & Hok).
  exists n. split; [done|]. by eapply node_ok_raise.
Qed.

Lemma forest_tops g h H T T' :
  forest g h H T → (∀ p, T p ↔ T' p) → forest g h H T'.
Proof.
  intros [F1 F2 F3 F4 F5] HT. split; try done.
  - intros p x Hg. destruct (F2 _ _ Hg) as [Ht|Hp]; [|by right]. left. by apply HT.
  - intros x q Ht Hp. eapply F4; [|exact Hp]. by apply HT.
  - intros x Ht. apply F5. by apply HT.
Qed.

Lemma elem_of_concat {A} (x : A) (ls : list (list A)) :
  x ∈ concat ls ↔ ∃ l, x ∈ l ∧ l ∈ ls.
Proof.
  induction ls as [|l0 ls IH]; simpl.
  - split; [by intros ?%elem_of_nil|]. intros (l & _ & ?%elem_of_nil). done.
  - rewrite elem_of_app, IH. split.
    + intros [?|(l & ? & ?)]; [exists l0|exists l]; split; try done; [left|by right].
    + intros (l & Hx & [->|Hl]%elem_of_cons); [by left|right; eauto].
Qed.

Lemma NoDup_concat_lookup {A} (ls : list (list A)) i j a b x :
  NoDup (concat ls) → ls !! i = Some a → ls !! j = Some b → x ∈ a → x ∈ b → i = j.
Proof.
  revert i j. induction ls as [|l0 ls IH]; intros i j Hnd Hi Hj Ha Hb; [done|].
  simpl in Hnd. apply list.NoDup_app in Hnd as (Hn0 & Hdis & Hnd).
  destruct i as [|i], j as [|j]; simpl in *; simplify_eq; [done| | |].
  - exfalso. apply (Hdis x Ha). apply elem_of_concat. exists b. split; [done|].
    by eapply list_elem_of_lookup_2.
  - exfalso. apply (Hdis x Hb). apply elem_of_concat. exists a. split; [done|].
    by eapply list_elem_of_lookup_2.
  - f_equal. by eapply IH.
Qed.

Lemma to_inner_fmap nodes :
  to_inner nodes = (λ e, mkInnerRec (Some (fst e)) (snd e)) <$> nodes.
Proof. unfold to_inner. induction nodes as [|e es IH]; [done|]. csimpl. by rewrite IH. Qed.

Lemma child_to_inner nodes : child <$> to_inner nodes = snd <$> nodes.
Proof. unfold to_inner. induction nodes as [|e es IH]; [done|]. csimpl. by rewrite IH. Qed.

Lemma to_inner_app l1 l2 : to_inner (l1 ++ l2) = to_inner l1 ++ to_inner l2.
Proof. unfold to_inner. by rewrite map_app. Qed.

Section LayerAt.
Context {cfg : Params}.
Context {E : Type} `{!BulkEntry E}.

Lemma layer_ghost_old g lvl cs : ∀ lo base p,
  p < base → layer_ghost g lvl lo base cs p = g p.
Proof.
  induction cs as [|c cs IH]; intros lo base p Hp; [done|]. simpl.
  rewrite gset_ne by lia. apply IH. lia.
Qed.

Lemma layer_ghost_above g lvl cs : ∀ lo base p,
  base + length cs ≤ p → layer_ghost g lvl lo base cs p = g p.
Proof.
  induction cs as [|c cs IH]; intros lo base p Hp; [done|]. simpl in *.
  rewrite gset_ne by lia. apply IH. lia.
Qed.

Lemma layer_ghost_level g lvl cs : ∀ lo base p,
  base ≤ p < base + length cs → ∃ b, layer_ghost g lvl lo base cs p = Some (lvl, b).
Proof.
  induction cs as [|c cs IH]; intros lo base p Hp; [simpl in Hp; lia|]. simpl in *.
  destruct (decide (p = base)) as [->|Hne].
  - rewrite gset_eq. eauto.
  - rewrite gset_ne by done. apply IH. lia.
Qed.

Lemma layer_at_ext g1 g2 h1 h2 lvl cs : ∀ lo base,
  (∀ p, base ≤ p → g2 p = g1 p) → (∀ p, base ≤ p → h2 !! p = h1 !! p) →
  layer_at g1 h1 lvl lo base cs → layer_at g2 h2 lvl lo base cs.
Proof.
  induction cs as [|c cs IH]; intros lo base Hg Hh; [done|]. simpl.
  intros (H1 & H2 & H3). split_and!.
  - by rewrite Hh.
  - by rewrite Hg.
  - apply IH; [| |done]; intros p Hp; [apply Hg|apply Hh]; lia.
Qed.

Lemma layer_at_built g lvl cs : ∀ lo (h : list Node),
  layer_at (layer_ghost g lvl lo (length h) cs) (h ++ layer_pages (length h) cs)
    lvl lo (length h) cs.
Proof.
  induction cs as [|c cs IH]; intros lo h; [done|]. simpl. split_and!.
  - by rewrite list_lookup_middle.
  - by rewrite gset_eq.
  - specialize (IH (next_lo lo cs) (h ++ [page_of c cs (length h)])).
    rewrite length_app in IH. simpl in IH. rewrite Nat.add_1_r in IH.
    rewrite <- (assoc_L (++)) in IH. simpl in IH.
    eapply layer_at_ext; [| |exact IH]; [|done].
    intros p Hp. rewrite gset_ne by lia. done.
Qed.

Lemma layer_at_lookup g h lvl cs : ∀ lo base j c,
  layer_at g h lvl lo base cs → cs !! j = Some c →
  ∃ b rest, g (base + j) = Some (lvl, b) ∧ h !! (base + j) = Some (page_of c rest (base + j)).
Proof.
  induction cs as [|c0 cs IH]; intros lo base j c Hl Hj; [done|].
  destruct Hl as (H1 & H2 & H3). destruct j as [|j]; simpl in Hj.
  - simplify_eq. rewrite Nat.add_0_r. eauto.
  - destruct (IH _ _ _ _ H3 Hj) as (b & rest & ? & ?).
    replace (base + S j) with (S base + j) by lia. eauto.
Qed.

Lemma layer_chain g h lvl cs : ∀ lo base,
  cs ≠ [] → layer_at g h lvl lo base cs →
  chain_ok h g lvl lo (to_inner (layer_entries base cs)) PosInf None.
Proof.
  induction cs as [|c cs IH]; intros lo base Hne Hl; [done|].
  destruct Hl as (H1 & H2 & H3). cbn [layer_entries to_inner map].
  apply chain_ok_cons. split_and!.
  - eexists. split; [exact H1|]. destruct cs as [|c' cs]; done.
  - done.
  - destruct cs as [|c' cs]; [done|]. apply (IH _ (S base)); done.
Qed.

Lemma layer_entries_snd base cs p :
  p ∈ snd <$> layer_entries base cs ↔ base ≤ p < base + length cs.
Proof.
  revert base. induction cs as [|c cs IH]; intros base; simpl.
  - split; [by intros ?%elem_of_nil|lia].
  - rewrite elem_of_cons, IH. lia.
Qed.

Lemma layer_entries_head base c cs :
  head (layer_entries base (c :: cs)) = Some (chunk_key c, base).
Proof. done. Qed.

Lemma layer_entries_last base cs : ∀ c,
  list.last cs = Some c →
  list.last (layer_entries base cs) = Some (chunk_key c, base + length cs - 1).
Proof.
  revert base. induction cs as [|c0 cs IH]; intros base c Hc; [done|].
  destruct cs as [|c1 cs].
  - simpl in *. simplify_eq. do 2 f_equal. lia.
  - rewrite last_cons_cons in Hc. specialize (IH (S base) c Hc).
    cbn [layer_entries] in *. rewrite last_cons_cons, IH. do 2 f_equal. simpl. lia.
Qed.

Lemma layer_nodes_ok g h H lvl cs : ∀ lo base,
  layer_at g h lvl lo base cs → pages_ok g h H lvl lo cs →
  ∀ p l b, base ≤ p < base + length cs → g p = Some (l, b) →
    ∃ n, h !! p = Some n ∧ node_ok g h H l b n.
Proof.
  induction cs as [|c cs IH]; intros lo base Hl Hp p l b Hr Hg; [simpl in Hr; lia|].
  destruct Hl as (H1 & H2 & H3). destruct Hp as ((P1 & P2 & P3) & P4).
  destruct (decide (p = base)) as [->|Hne].
  - exists (page_of c cs base). split; [done|]. rewrite H2 in Hg. simplify_eq.
    unfold node_ok. cbn [page_of is_removed high_key next records].
    destruct cs as [|c' cs]; simpl in *; split_and!; try done.
    by destruct H3 as (_ & ? & _).
  - eapply IH; [exact H3|exact P4| |done]. simpl in Hr. lia.
Qed.

Lemma kids_of_page c rest base :
  child <$> inner_records (page_of c rest base) = kids_of c.
Proof. done. Qed.

(** A layer on top of a forest gives a forest. *)
Lemma forest_layer g h H H' T lvl lo cs :
  forest g h H T → H ≤ H' →
  pages_ok (layer_ghost g lvl lo (length h) cs) (h ++ layer_pages (length h) cs)
    H' lvl lo cs →
  (∀ x, x ∈ concat (kids_of <$> cs) → T x ∧ x < length h) →
  NoDup (concat (kids_of <$> cs)) →
  forest (layer_ghost g lvl lo (length h) cs) (h ++ layer_pages (length h) cs) H'
    (λ p, (T p ∧ p ∉ concat (kids_of <$> cs)) ∨
          (length h ≤ p < length h + length cs)).
Proof.
  intros Hf HH Hpages Hkids Hnd.
  set (g' := layer_ghost g lvl lo (length h) cs) in *.
  set (h' := h ++ layer_pages (length h) cs) in *.
  pose proof (forest_bounded _ _ _ _ Hf) as Hb.
  pose proof (layer_at_built g lvl cs lo h) as Hat. fold g' h' in Hat.
  assert (∀ p, p < length h → g' p = g p) as Hgold
    by (intros p Hp; by apply layer_ghost_old).
  assert (∀ p m, h !! p = Some m → h' !! p = Some m) as Hhold
    by (intros p m Hp; by apply lookup_app_l_Some).
  assert (∀ p x, g' p = Some x → length h ≤ p → p < length h + length cs) as Hnew.
  { intros p x Hg Hp. destruct (decide (p < length h + length cs)); [done|].
    unfold g' in Hg. rewrite layer_ghost_above in Hg by lia.
    pose proof (Hb _ _ Hg). lia. }
  assert (∀ q x, is_parent g' h' q x → q < length h → is_parent g h q x) as Hpold.
  { intros q x (lq & bq & nq & Hg & Hq & Hx) Hlt. rewrite Hgold in Hg by done.
    destruct (fr_nodes _ _ _ _ Hf _ _ _ Hg) as (n & Hn & _).
    rewrite (Hhold _ _ Hn) in Hq. simplify_eq. by exists lq, bq, nq. }
  assert (∀ q x, is_parent g' h' q x → length h ≤ q →
            ∃ j c, q = length h + j ∧ cs !! j = Some c ∧ x ∈ kids_of c) as Hpnew.
  { intros q x (lq & bq & nq & Hg & Hq & Hx) Hge.
    pose proof (Hnew _ _ Hg Hge) as Hlt.
    destruct (lookup_lt_is_Some_2 cs (q - length h)) as [c Hc]; [lia|].
    destruct (layer_at_lookup _ _ _ _ _ _ _ _ Hat Hc) as (b & rest & _ & Hpage).
    replace (length h + (q - length h)) with q in Hpage by lia.
    rewrite Hpage in Hq. simplify_eq.
    exists (q - length h), c. split_and!; [lia|done|done]. }
  assert (∀ q x, is_parent g h q x → is_parent g' h' q x) as Hpkeep.
  { intros q x (lq & bq & nq & Hg & Hq & Hx). exists lq, bq, nq.
    split_and!; [|by apply Hhold|done]. rewrite Hgold; [done|]. by eapply Hb. }
  split.
  - intros p l b Hg. destruct (decide (p < length h)) as [Hlt|Hge].
    + rewrite Hgold in Hg by done.
      destruct (fr_nodes _ _ _ _ Hf _ _ _ Hg) as (n & Hn & Hok).
      exists n. split; [by apply Hhold|]. by eapply node_ok_grow.
    + eapply layer_nodes_ok; [exact Hat|exact Hpages| |done].
      split; [lia|]. eapply Hnew; [done|lia].
  - intros p x Hg. destruct (decide (p < length h)) as [Hlt|Hge].
    + rewrite Hgold in Hg by done.
      destruct (fr_parent _ _ _ _ Hf _ _ Hg) as [Ht|[q Hq]]; [|right; eauto].
      destruct (decide (p ∈ concat (kids_of <$> cs))) as [Hin|Hout]; [|left; left; done].
      right. apply elem_of_concat in Hin as (ks & Hp & Hks).
      apply list_elem_of_fmap in Hks as (c & -> & Hc).
      apply list_elem_of_lookup in Hc as [j Hj].
      destruct (layer_at_lookup _ _ _ _ _ _ _ _ Hat Hj) as (b & rest & Hgj & Hpage).
      exists (length h + j), lvl, b, (page_of c rest (length h + j)). done.
    + left. right. split; [lia|]. eapply Hnew; [done|lia].
  - intros x q q' Hq Hq'.
    destruct (decide (q < length h)) as [Hlt|Hge], (decide (q' < length h)) as [Hlt'|Hge'].
    + eapply (fr_unique _ _ _ _ Hf); eauto.
    + exfalso. destruct (Hpnew _ _ Hq') as (j & c & -> & Hj & Hx); [lia|].
      destruct (Hkids x) as [Ht _].
      { apply elem_of_concat. exists (kids_of c). split; [done|].
        apply list_elem_of_fmap. exists c. split; [done|]. by eapply list_elem_of_lookup_2. }
      eapply (fr_free _ _ _ _ Hf); eauto.
    + exfalso. destruct (Hpnew _ _ Hq) as (j & c & -> & Hj & Hx); [lia|].
      destruct (Hkids x) as [Ht _].
      { apply elem_of_concat. exists (kids_of c). split; [done|].
        apply list_elem_of_fmap. exists c. split; [done|]. by eapply list_elem_of_lookup_2. }
      eapply (fr_free _ _ _ _ Hf); eauto.
    + destruct (Hpnew _ _ Hq) as (j & c & -> & Hj & Hx); [lia|].
      destruct (Hpnew _ _ Hq') as (j' & c' & -> & Hj' & Hx'); [lia|].
      f_equal.
      eapply (NoDup_concat_lookup (kids_of <$> cs) j j' (kids_of c) (kids_of c') x Hnd);
        try done.
      * by rewrite list_lookup_fmap, Hj.
      * by rewrite list_lookup_fmap, Hj'.
  - intros x q [[Ht Hout]|Hx] Hq.
    + destruct (decide (q < length h)) as [Hlt|Hge].
      * eapply (fr_free _ _ _ _ Hf); eauto.
      * destruct (Hpnew _ _ Hq) as (j & c & -> & Hj & Hx); [lia|].
        apply Hout. apply elem_of_concat. exists (kids_of c). split; [done|].
        apply list_elem_of_fmap. exists c. split; [done|]. by eapply list_elem_of_lookup_2.
    + destruct (decide (q < length h)) as [Hlt|Hge].
      * destruct (is_parent_child _ _ _ _ _ _ Hf (Hpold _ _ Hq Hlt)) as [y Hy].
        pose proof (Hb _ _ Hy). lia.
      * destruct (Hpnew _ _ Hq) as (j & c & -> & Hj & Hx'); [lia|].
        destruct (Hkids x) as [_ Hlt]; [|lia].
        apply elem_of_concat. exists (kids_of c). split; [done|].
        apply list_elem_of_fmap. exists c. split; [done|]. by eapply list_elem_of_lookup_2.
  - intros x [[Ht _]|Hx].
    + pose proof (fr_tops _ _ _ _ Hf _ Ht). unfold h'. rewrite length_app. lia.
    + unfold h'. rewrite length_app, length_layer_pages. lia.
Qed.

End LayerAt.

Lemma kept_weaken lb lb' g g' h h' :
  kept lb g g' h h' → ble lb lb' → kept lb' g g' h h'.
Proof.
  intros Hk Hle p l b Hg Hb. apply Hk; [done|]. by eapply ble_trans.
Qed.

Lemma rspine_kept g g' h h' lb ub lvl : ∀ p,
  kept lb g g' h h' → rspine g h lb ub lvl p → rspine g' h' lb ub lvl p.
Proof.
  induction lvl as [|lvl IH]; intros p Hk (lo & n & Hg & Hp & Hlb & Hub & Hhk & Hrest);
    destruct (Hk _ _ _ Hg Hlb) as [Hg' Hp']; exists lo, n; rewrite Hp';
    split_and!; try done.
  destruct Hrest as (c & Hc & Hs). exists c. split; [done|]. by apply IH.
Qed.

Lemma lspine_kept g g' h h' lb k lvl : ∀ p,
  kept lb g g' h h' → ble lb (Fin k) → lspine g h k lvl p → lspine g' h' k lvl p.
Proof.
  induction lvl as [|lvl IH]; intros p Hk Hle (n & Hg & Hp & Hlow & Hrest);
    destruct (Hk _ _ _ Hg Hle) as [Hg' Hp']; exists n; rewrite Hp';
    split_and!; try done.
  destruct Hrest as (c & Hc & Hs). exists c. split; [done|]. by apply IH.
Qed.

Lemma rspine_bounds g h lb ub lvl p :
  rspine g h lb ub lvl p → ∃ lo n, g p = Some (lvl, lo) ∧ h !! p = Some n ∧
                                   ble lb lo ∧ blt lo ub ∧ high_key n = None.
Proof. destruct lvl; intros (lo & n & ? & ? & ? & ? & ? & _); eauto 10. Qed.

Lemma rspine_weaken g h lb ub ub' lvl : ∀ p,
  ble ub ub' → rspine g h lb ub lvl p → rspine g h lb ub' lvl p.
Proof.
  induction lvl as [|lvl IH]; intros p Hle (lo & n & Hg & Hp & Hlb & Hub & Hhk & Hrest);
    exists lo, n; split_and!; try done; try (by eapply blt_ble_trans).
  - eapply keys_in_weaken; [apply ble_refl|exact Hle|done].
  - destruct Hrest as (c & Hc & Hs). exists c. split; [done|]. by apply IH.
Qed.

Lemma rspine_lower g h lb lb' ub lvl : ∀ p,
  ble lb' lb → rspine g h lb ub lvl p → rspine g h lb' ub lvl p.
Proof.
  induction lvl as [|lvl IH]; intros p Hle (lo & n & Hg & Hp & Hlb & Hub & Hhk & Hrest);
    exists lo, n; split_and!; try done; try (by eapply ble_trans).
  destruct Hrest as (c & Hc & Hs). exists c. split; [done|]. by apply IH.
Qed.

Lemma group_kept g g' h h' lo ub L nodes :
  ranges_ok g h → kept lo g g' h h' → group g h lo ub L nodes → group g' h' lo ub L nodes.
Proof.
  intros Hr Hk [G1 G2 G3]. split.
  - eapply chain_ok_ext; [| |exact G1].
    + intros c n Hc Hn.
      destruct (chain_elem _ _ _ _ _ _ _ _ Hr G1 Hc) as (n' & lo_c & Hn' & Hg & Hle & _).
      destruct (Hk _ _ _ Hg Hle) as [_ E]. exists n. by rewrite E.
    + intros c Hc.
      destruct (chain_elem _ _ _ _ _ _ _ _ Hr G1 Hc) as (n' & lo_c & Hn' & Hg & Hle & _).
      destruct (Hk _ _ _ Hg Hle) as [E _]. by rewrite E.
  - destruct G2 as (e & He & Hs). exists e. split; [done|]. by eapply rspine_kept.
  - destruct G3 as [->|(k & e & -> & He & Hk' & Hs)]; [by left|right].
    exists k, e. split_and!; try done. eapply lspine_kept; [done|apply ble_refl|done].
Qed.

Lemma group_nonempty g h lo ub L nodes : group g h lo ub L nodes → nodes ≠ [].
Proof. intros [G1 _ _] ->. done. Qed.

Lemma group_head_key_ok g h lo ub L nodes :
  group g h lo ub L nodes → head_key_ok lo (to_inner nodes).
Proof.
  intros [G1 _ G3]. destruct nodes as [|e es]; [done|]. simpl.
  destruct G3 as [->|(k & e' & -> & He & Hk & _)]; [by right|left].
  simpl in He. simplify_eq. done.
Qed.

Lemma leaves_from_same g g' h h' es :
  same_records g g' h h' → bounded g h →
  leaves_from g h es → leaves_from g' h' es.
Proof.
  intros (S1 & S2 & S3) Hb Hl p lo n r Hg Hp Hr.
  specialize (S3 _ _ Hg). destruct (lookup_lt_is_Some_2 h p) as [n0 Hn0]; [by eapply Hb|].
  destruct (S2 _ _ _ S3 Hn0) as (n' & Hn' & E). simplify_eq.
  eapply (Hl p lo n0); try done. by rewrite <- E.
Qed.

Lemma leaves_have_same g g' h h' es :
  same_records g g' h h' → leaves_have g h es → leaves_have g' h' es.
Proof.
  intros (S1 & S2 & S3) Hl e He. destruct (Hl e He) as (p & lo & n & Hg & Hp & Hr).
  destruct (S2 _ _ _ Hg Hp) as (n' & Hn' & E). exists p, lo, n'.
  split_and!; [by apply S1|done|]. by rewrite E.
Qed.

Lemma leaves_from_weaken g h es es' :
  leaves_from g h es → (∀ e, e ∈ es → e ∈ es') → leaves_from g h es'.
Proof.
  intros Hl Hsub p lo n r Hg Hp Hr. destruct (Hl _ _ _ _ Hg Hp Hr). split; [done|].
  by apply Hsub.
Qed.

Lemma last_concat {A} (cs : list (list A)) c :
  Forall (λ c, c ≠ []) cs → list.last cs = Some c → list.last (concat cs) = list.last c.
Proof.
  induction cs as [|c0 cs IH]; intros Hne Hc; [done|].
  apply list.Forall_cons in Hne as [Hc0 Hne]. destruct cs as [|c1 cs].
  - simpl in *. simplify_eq. by rewrite app_nil_r.
  - rewrite last_cons_cons in Hc. specialize (IH Hne Hc).
    change (concat (c0 :: c1 :: cs)) with (c0 ++ concat (c1 :: cs)).
    rewrite last_app, IH. destruct (list.last c) eqn:E; [done|].
    apply last_None in E. subst c. exfalso.
    apply list_elem_of_lookup_2 with (i := length (c1 :: cs) - 1) in Hc
      || (rewrite last_lookup in Hc; apply list_elem_of_lookup_2 in Hc).
    rewrite list.Forall_forall in Hne. by apply (Hne [] Hc).
Qed.

Lemma head_concat {A} (c : list A) cs : c ≠ [] → head (concat (c :: cs)) = head c.
Proof. destruct c; [done|]. done. Qed.

Lemma keys_in_tighten lo ks hi ub :
  keys_in lo ks hi → Forall (λ k, blt (Fin k) ub) ks → keys_in lo ks ub.
Proof.
  revert lo. induction ks as [|k ks IH]; intros lo Hk Hf; [done|].
  apply list.Forall_cons in Hf as [H1 H2]. destruct Hk as (K1 & K2 & K3).
  simpl. split_and!; try done. by apply IH.
Qed.

Section LeafLayer.
Context {cfg : Params}.

Lemma kids_of_leaf (cs : list (list (Key * Payload))) : concat (kids_of <$> cs) = [].
Proof. induction cs as [|c cs IH]; [done|]. csimpl. by rewrite IH. Qed.

Lemma leaf_records_page (c : list (Key * Payload)) rest base :
  leaf_records (page_of c rest base) = map (λ e, mkLeafRec (fst e) (snd e) false) c.
Proof. done. Qed.

Lemma rec_key_page (c : list (Key * Payload)) :
  rec_key <$> map (λ e, mkLeafRec (fst e) (snd e) false) c = fst <$> c.
Proof. induction c as [|e c IH]; [done|]. csimpl. by rewrite <- IH. Qed.

(** The runs of a sorted list of entries are sorted between the first
    keys of the runs. *)
Lemma leaf_pages_ok g h H (cs : list (list (Key * Payload))) : ∀ lo,
  Forall (λ c, c ≠ []) cs → keys_in lo (fst <$> concat cs) PosInf →
  pages_ok g h H 0 lo cs.
Proof.
  induction cs as [|c cs IH]; intros lo Hne Hk; [done|].
  apply list.Forall_cons in Hne as [Hc Hne]. cbn [pages_ok].
  destruct cs as [|c' cs].
  - simpl in Hk. rewrite app_nil_r in Hk. split; [|done].
    split_and!; [|lia|].
    + destruct c as [|e c]; [done|]. by eapply keys_in_nonempty.
    + simpl. split; [done|]. by rewrite rec_key_page.
  - pose proof Hne as Hne'. apply list.Forall_cons in Hne' as [Hc' _].
    destruct c' as [|e' c']; [done|].
    change (concat (c :: (e' :: c') :: cs)) with (c ++ e' :: (c' ++ concat cs)) in Hk.
    rewrite fmap_app, fmap_cons in Hk.
    apply keys_in_split in Hk as [K1 K2]. split.
    + split_and!; [|lia|].
      * destruct c as [|e c]; [done|]. by eapply keys_in_nonempty.
      * simpl. split; [done|]. by rewrite rec_key_page.
    + apply IH; [done|]. exact K2.
Qed.

Lemma leaf_layer g h H T (es : list (Key * Payload)) lo ub cs :
  forest g h H T → concat cs = es → Forall (λ c, c ≠ []) cs → es ≠ [] →
  keys_in lo (fst <$> es) ub →
  (lo = NegInf ∨ ∃ e, head es = Some e ∧ lo = Fin (fst e)) →
  let nodes := layer_entries (length h) cs in
  let g' := layer_ghost g 0 lo (length h) cs in
  let h' := h ++ layer_pages (length h) cs in
  forest g' h' H (λ p, T p ∨ p ∈ snd <$> nodes) ∧
  group g' h' lo ub 0 nodes ∧
  (∀ p, p < length h → g' p = g p) ∧
  (∀ p l b, g' p = Some (l, b) → length h ≤ p → l = 0 ∧ ble lo b) ∧
  (∀ es0, leaves_from g h es0 → leaves_from g' h' (es0 ++ es)) ∧
  (∀ es0, leaves_have g h es0 → leaves_have g' h' (es0 ++ es)).
Proof.
  intros Hf Hcs Hne Hes Hk Hlo nodes g' h'.
  pose proof (forest_bounded _ _ _ _ Hf) as Hb.
  assert (cs ≠ []) as Hcsne by (intros ->; simpl in Hcs; congruence).
  pose proof (layer_at_built g 0 cs lo h) as Hat. fold g' h' in Hat.
  assert (pages_ok g' h' H 0 lo cs) as Hpages.
  { apply leaf_pages_ok; [done|]. rewrite Hcs.
    eapply keys_in_weaken; [apply ble_refl| |exact Hk]. by destruct ub. }
  assert (forest g' h' H (λ p, T p ∨ p ∈ snd <$> nodes)) as Hf'.
  { eapply forest_tops.
    - apply (forest_layer g h H H T 0 lo cs Hf); [lia|done| |].
      + rewrite kids_of_leaf. by intros x ?%elem_of_nil.
      + rewrite kids_of_leaf. constructor.
    - intros p. cbv beta. rewrite kids_of_leaf. unfold nodes. rewrite layer_entries_snd.
      split; [intros [[? _]|?]; eauto|]. intros [?|?]; [left|by right].
      split; [done|]. by intros ?%elem_of_nil. }
  pose proof (forest_ranges_ok _ _ _ _ Hf') as Hr'.
  pose proof (layer_chain _ _ _ _ _ _ Hcsne Hat) as Hchain. fold nodes in Hchain.
  assert (∀ p, p < length h → g' p = g p) as Hgold
    by (intros p Hp; by apply layer_ghost_old).
  (* the records of the new pages *)
  assert (∀ p x n, g' p = Some x → length h ≤ p → h' !! p = Some n →
            ∃ j c rest, cs !! j = Some c ∧ p = length h + j ∧
                        n = page_of c rest (length h + j)) as Hnewp.
  { intros p x n Hg Hp Hn.
    assert (p < length h + length cs) as Hlt.
    { destruct (decide (p < length h + length cs)); [done|].
      unfold g' in Hg. rewrite layer_ghost_above in Hg by lia.
      pose proof (Hb _ _ Hg). lia. }
    destruct (lookup_lt_is_Some_2 cs (p - length h)) as [c Hc]; [lia|].
    destruct (layer_at_lookup _ _ _ _ _ _ _ _ Hat Hc) as (b & rest & _ & Hpage).
    replace (length h + (p - length h)) with p in Hpage by lia.
    exists (p - length h), c, rest. split_and!; [done|lia|].
    replace (length h + (p - length h)) with p by lia. congruence. }
  assert (∀ c e, c ∈ cs → e ∈ c → e ∈ es) as Hin.
  { intros c e Hc He. rewrite <- Hcs. apply elem_of_concat. eauto. }
  assert (Forall (λ k, in_range lo k ub) (fst <$> es)) as Hall by by apply keys_in_Forall.
  split_and!; try done.
  - split.
    + done.
    + (* the right border *)
      destruct (list.last cs) as [c|] eqn:Elast; [|by apply last_None in Elast].
      pose proof (layer_entries_last (length h) cs c Elast) as Hl. fold nodes in Hl.
      eexists. split; [exact Hl|]. cbn [snd rspine].
      assert (cs !! (length cs - 1) = Some c) as Hj.
      { rewrite last_lookup in Elast. by replace (length cs - 1) with (pred (length cs)) by lia. }
      destruct (layer_at_lookup _ _ _ _ _ _ _ _ Hat Hj) as (b & rest & Hgb & Hpage).
      assert (length h + length cs - 1 = length h + (length cs - 1)) as Ep.
      { destruct cs; [done|]. simpl. lia. }
      rewrite Ep.
      assert ((mkInnerRec (Some (chunk_key c)) (length h + (length cs - 1))) ∈ to_inner nodes)
        as Hmem.
      { rewrite to_inner_fmap. apply list_elem_of_fmap.
        exists (chunk_key c, length h + (length cs - 1)). split; [done|].
        rewrite last_lookup in Hl. apply list_elem_of_lookup_2 in Hl.
        by rewrite <- Ep. }
      destruct (chain_elem _ _ _ _ _ _ _ _ Hr' Hchain Hmem) as (n & lo_c & Hn & Hgc & Hle & _).
      cbn [child] in *. rewrite Hgb in Hgc. rewrite Hpage in Hn. simplify_eq.
      assert (list.last (to_inner nodes) =
              Some (mkInnerRec (Some (chunk_key c)) (length h + (length cs - 1)))) as Hlast.
      { rewrite to_inner_fmap, fmap_last, Hl. cbn. by rewrite Ep. }
      destruct (chain_ok_last _ _ _ _ _ _ _ _ _ Hchain Hlast Hpage) as [_ Ehi].
      destruct (fr_nodes _ _ _ _ Hf' _ _ _ Hgb) as (n & Hn & Hok).
      rewrite Hpage in Hn. simplify_eq.
      destruct (node_ok_leaf _ _ _ _ _ Hok) as (rs & Erec & _ & Hkeys).
      assert (keys_in lo_c (rec_key <$> leaf_records (page_of c rest (length h + (length cs - 1)))) ub)
        as Hkub.
      { unfold leaf_records. rewrite Erec. eapply keys_in_tighten; [exact Hkeys|].
        assert (rs = map (λ e, mkLeafRec (fst e) (snd e) false) c) as -> by (cbn in Erec; congruence).
        rewrite rec_key_page. apply list.Forall_forall. intros k Hk'.
        apply list_elem_of_fmap in Hk' as (e & -> & He).
        rewrite list.Forall_forall in Hall. apply (Hall (fst e)).
        apply list_elem_of_fmap. exists e. split; [done|]. eapply Hin; [|done].
        by eapply list_elem_of_lookup_2. }
      exists lo_c, (page_of c rest (length h + (length cs - 1))).
      split_and!; try done.
      * rewrite leaf_records_page, rec_key_page in Hkub.
        rewrite list.Forall_forall in Hne.
        assert (c ≠ []) by (apply Hne; by eapply list_elem_of_lookup_2).
        destruct c as [|e c]; [done|]. by eapply keys_in_nonempty.
      * destruct (high_key (page_of c rest (length h + (length cs - 1)))); done.
    + (* the left border *)
      destruct Hlo as [->|(e & He & ->)]; [by left|right].
      destruct cs as [|c0 cs0]; [done|]. apply list.Forall_cons in Hne as [Hc0 _].
      destruct c0 as [|e0 c0]; [done|].
      assert (e0 = e) as -> by (rewrite <- Hcs in He; simpl in He; congruence).
      exists (fst e), (fst e, length h). split_and!; try done.
      destruct Hat as (H1 & H2 & _). cbn [snd lspine].
      eexists. split_and!; [exact H2|exact H1|done|done].
  - intros p l b Hg Hp.
    assert (p ∈ snd <$> nodes) as Hpn.
    { unfold nodes. rewrite layer_entries_snd. split; [done|].
      destruct (decide (p < length h + length cs)); [done|].
      unfold g' in Hg. rewrite layer_ghost_above in Hg by lia.
      pose proof (Hb _ _ Hg). lia. }
    rewrite <- child_to_inner in Hpn. apply list_elem_of_fmap in Hpn as (c & -> & Hc).
    destruct (chain_elem _ _ _ _ _ _ _ _ Hr' Hchain Hc) as (n & lo_c & Hn & Hgc & Hle & _).
    rewrite Hg in Hgc. by simplify_eq.
  - intros es0 Hl p lo' n r Hg Hp Hr.
    destruct (decide (p < length h)) as [Hlt|Hge].
    + rewrite Hgold in Hg by done.
      destruct (fr_nodes _ _ _ _ Hf _ _ _ Hg) as (n0 & Hn0 & _).
      assert (h' !! p = Some n0) as E by by apply lookup_app_l_Some.
      rewrite E in Hp. simplify_eq.
      destruct (Hl _ _ _ _ Hg Hn0 Hr). split; [done|]. apply elem_of_app. by left.
    + destruct (Hnewp _ _ _ Hg ltac:(lia) Hp) as (j & c & rest & Hj & -> & ->).
      rewrite leaf_records_page in Hr. apply list_elem_of_fmap in Hr as (e & -> & He).
      split; [done|]. cbn. apply elem_of_app. right. destruct e. eapply Hin; [|done].
      by eapply list_elem_of_lookup_2.
  - intros es0 Hl e He. apply elem_of_app in He as [He|He].
    + destruct (Hl e He) as (p & lo' & n & Hg & Hp & Hr). exists p, lo', n.
      split_and!; [|by apply lookup_app_l_Some|done].
      rewrite Hgold; [done|]. by eapply Hb.
    + rewrite <- Hcs in He. apply elem_of_concat in He as (c & He & Hc).
      apply list_elem_of_lookup in Hc as [j Hj].
      destruct (layer_at_lookup _ _ _ _ _ _ _ _ Hat Hj) as (b & rest & Hgb & Hpage).
      exists (length h + j), b, (page_of c rest (length h + j)). split_and!; try done.
      rewrite leaf_records_page. apply list_elem_of_fmap. eauto.
Qed.

End LeafLayer.

Lemma kept_grow lb g g' h pages :
  bounded g h → (∀ p, p < length h → g' p = g p) → kept lb g g' h (h ++ pages).
Proof.
  intros Hb Hg p l b Hp _. pose proof (Hb _ _ Hp). split.
  - by rewrite Hg.
  - by rewrite lookup_app_l.
Qed.

Lemma blt_PosInf lo hi : blt lo hi → blt lo PosInf.
Proof. by destruct lo, hi. Qed.

Section InnerLayer.
Context {cfg : Params}.

Lemma kids_of_inner (c : list (Key * ptr)) : kids_of c = snd <$> c.
Proof. unfold kids_of. cbn. apply child_to_inner. Qed.

Lemma kids_of_inner_concat (cs : list (list (Key * ptr))) :
  concat (kids_of <$> cs) = snd <$> concat cs.
Proof.
  induction cs as [|c cs IH]; [done|]. csimpl. by rewrite IH, fmap_app, kids_of_inner.
Qed.

Lemma inner_records_page (c : list (Key * ptr)) rest base :
  inner_records (page_of c rest base) = to_inner c.
Proof. done. Qed.

(** The runs of a chain of pages are chains between the first keys of
    the runs. *)
Lemma inner_pages_ok g g' h h' H L (cs : list (list (Key * ptr))) : ∀ lo,
  ranges_ok g h → S L ≤ H → Forall (λ c, c ≠ []) cs → cs ≠ [] →
  chain_ok h g L lo (to_inner (concat cs)) PosInf None →
  head_key_ok lo (to_inner (concat cs)) →
  (∀ c n, c ∈ to_inner (concat cs) → h !! child c = Some n → h' !! child c = Some n) →
  (∀ c, c ∈ to_inner (concat cs) → g' (child c) = g (child c)) →
  pages_ok g' h' H (S L) lo cs.
Proof.
  intros lo Hr HL. revert lo.
  induction cs as [|c cs IH]; intros lo Hne Hcs Hchain Hhead Hh Hg; [done|].
  apply list.Forall_cons in Hne as [Hc Hne]. cbn [pages_ok].
  assert (∀ hi nx, chain_ok h g L lo (to_inner c) hi nx →
            chain_ok h' g' L lo (to_inner c) hi nx) as Hmove.
  { intros hi nx. apply chain_ok_ext.
    - intros c0 n Hc0 Hn. exists n. split; [|done]. apply Hh; [|done].
      simpl. rewrite to_inner_app. apply elem_of_app. by left.
    - intros c0 Hc0. apply Hg. simpl. rewrite to_inner_app. apply elem_of_app. by left. }
  assert (head_key_ok lo (to_inner c)) as Hhc.
  { destruct c as [|e c]; [done|]. done. }
  destruct cs as [|c' cs].
  - simpl in Hchain. rewrite app_nil_r in Hchain. split; [|done].
    split_and!; [|done|].
    + destruct c as [|e c]; [done|].
      pose proof (chain_head_range _ _ _ _ _ _ _ _ Hchain) as Hg0.
      apply chain_ok_cons in Hchain as ((n & Hn & _) & _ & _).
      eapply blt_PosInf. by eapply Hr.
    + cbn. exists L, None. split_and!; [done| |done]. by apply Hmove.
  - pose proof Hne as Hne'. apply list.Forall_cons in Hne' as [Hc' _].
    destruct c' as [|e' c']; [done|].
    change (concat (c :: (e' :: c') :: cs)) with (c ++ e' :: (c' ++ concat cs)) in *.
    rewrite to_inner_app in Hchain. cbn [to_inner map] in Hchain.
    apply chain_ok_app in Hchain as [C1 C2].
    destruct c as [|e c]; [done|]. cbn [to_inner map] in C1, C2. cbn [sep_key child lo_of] in C1, C2.
    split.
    + split_and!; [|done|].
      * pose proof (chain_head_range _ _ _ _ _ _ _ _ C1) as Hg0.
        destruct (chain_elem _ _ _ _ _ _ _ (mkInnerRec (Some (fst e)) (snd e)) Hr C1)
          as (n & lo_c & Hn & Hgc & _ & Hhi); [left|].
        cbn [child] in *. rewrite Hg0 in Hgc. simplify_eq.
        eapply blt_ble_trans; [by eapply Hr|done].
      * cbn. exists L, (Some (snd e')). split_and!; [done| |done]. by apply (Hmove _ _ C1).
    + apply IH; try done.
      * by left.
      * intros c0 n Hc0. apply Hh. rewrite to_inner_app. apply elem_of_app. by right.
      * intros c0 Hc0. apply Hg. rewrite to_inner_app. apply elem_of_app. by right.
Qed.

Lemma inner_layer g h H H' T lo ub L nodes (cs : list (list (Key * ptr))) :
  forest g h H T → group g h lo ub L nodes → (∀ e, e ∈ nodes → T (snd e)) →
  concat cs = nodes → Forall (λ c, c ≠ []) cs → H ≤ H' → S L ≤ H' →
  let nodes' := layer_entries (length h) cs in
  let g' := layer_ghost g (S L) lo (length h) cs in
  let h' := h ++ layer_pages (length h) cs in
  forest g' h' H' (λ p, (T p ∧ p ∉ snd <$> nodes) ∨ p ∈ snd <$> nodes') ∧
  group g' h' lo ub (S L) nodes' ∧
  (∀ p, p < length h → g' p = g p) ∧
  (∀ p l b, g' p = Some (l, b) → length h ≤ p → l = S L ∧ ble lo b).
Proof.
  intros Hf Hgr HT Hcs Hne HH HL nodes' g' h'.
  pose proof (forest_bounded _ _ _ _ Hf) as Hb.
  pose proof (forest_ranges_ok _ _ _ _ Hf) as Hr.
  pose proof (group_nonempty _ _ _ _ _ _ Hgr) as Hnodes.
  assert (cs ≠ []) as Hcsne by (intros ->; simpl in Hcs; congruence).
  pose proof (layer_at_built g (S L) cs lo h) as Hat. fold g' h' in Hat.
  assert (∀ p, p < length h → g' p = g p) as Hgold
    by (intros p Hp; by apply layer_ghost_old).
  pose proof (kept_grow lo g g' h (layer_pages (length h) cs) Hb Hgold) as Hkept.
  fold h' in Hkept.
  destruct Hgr as [G1 G2 G3].
  assert (∀ c, c ∈ to_inner nodes → ∃ b n, g (child c) = Some (L, b) ∧ h !! child c = Some n)
    as Hkid by (intros c Hc; by eapply chain_ghost).
  assert (pages_ok g' h' H' (S L) lo cs) as Hpages.
  { apply (inner_pages_ok g g' h h' H' L cs lo); try done.
    - by rewrite Hcs.
    - rewrite Hcs. by eapply (group_head_key_ok g h lo ub L nodes (mkGroup _ _ _ _ _ _ G1 G2 G3)).
    - intros c n Hc Hn. by apply lookup_app_l_Some.
    - intros c Hc. rewrite Hcs in Hc. destruct (Hkid c Hc) as (b & n & Hg & _).
      apply Hgold. by eapply Hb. }
  assert (forest g' h' H' (λ p, (T p ∧ p ∉ snd <$> nodes) ∨ p ∈ snd <$> nodes')) as Hf'.
  { eapply forest_tops.
    - apply (forest_layer g h H H' T (S L) lo cs Hf); [done|done| |].
      + rewrite kids_of_inner_concat, Hcs. intros x Hx.
        apply list_elem_of_fmap in Hx as (e & -> & He).
        split; [by apply HT|]. eapply (fr_tops _ _ _ _ Hf). by apply HT.
      + rewrite kids_of_inner_concat, Hcs. rewrite <- child_to_inner.
        by eapply chain_NoDup.
    - intros p. cbv beta. rewrite kids_of_inner_concat, Hcs. unfold nodes'.
      by rewrite layer_entries_snd. }
  pose proof (forest_ranges_ok _ _ _ _ Hf') as Hr'.
  pose proof (layer_chain _ _ _ _ _ _ Hcsne Hat) as Hchain. fold nodes' in Hchain.
  split_and!; try done.
  - split.
    + done.
    + (* the right border *)
      destruct (list.last cs) as [c|] eqn:Elast; [|by apply last_None in Elast].
      pose proof (layer_entries_last (length h) cs c Elast) as Hl. fold nodes' in Hl.
      eexists. split; [exact Hl|]. cbn [snd rspine].
      assert (cs !! (length cs - 1) = Some c) as Hj.
      { rewrite last_lookup in Elast. by replace (length cs - 1) with (pred (length cs)) by lia. }
      destruct (layer_at_lookup _ _ _ _ _ _ _ _ Hat Hj) as (b & rest & Hgb & Hpage).
      assert (length h + length cs - 1 = length h + (length cs - 1)) as Ep.
      { destruct cs; [done|]. simpl. lia. }
      rewrite Ep.
      assert ((mkInnerRec (Some (chunk_key c)) (length h + (length cs - 1))) ∈ to_inner nodes')
        as Hmem.
      { rewrite to_inner_fmap. apply list_elem_of_fmap.
        exists (chunk_key c, length h + (length cs - 1)). split; [done|].
        rewrite last_lookup in Hl. apply list_elem_of_lookup_2 in Hl.
        by rewrite <- Ep. }
      destruct (chain_elem _ _ _ _ _ _ _ _ Hr' Hchain Hmem) as (n & lo_c & Hn & Hgc & Hle & _).
      cbn [child] in *. rewrite Hgb in Hgc. rewrite Hpage in Hn. simplify_eq.
      assert (list.last (to_inner nodes') =
              Some (mkInnerRec (Some (chunk_key c)) (length h + (length cs - 1)))) as Hlast.
      { rewrite to_inner_fmap, fmap_last, Hl. cbn. by rewrite Ep. }
      destruct (chain_ok_last _ _ _ _ _ _ _ _ _ Hchain Hlast Hpage) as [_ Ehi].
      destruct (fr_nodes _ _ _ _ Hf' _ _ _ Hgb) as (n & Hn & Hok).
      rewrite Hpage in Hn. simplify_eq.
      destruct (node_ok_inner _ _ _ _ _ _ Hok) as (cs' & nx & Erec & _ & Hc' & _).
      assert (cs' = to_inner c) as -> by (cbn in Erec; by injection Erec as <-).
      destruct G2 as (e & He & Hsp).
      assert (list.last c = Some e) as Hce.
      { by rewrite <- (last_concat cs c Hne Elast). }
      assert (list.last (to_inner c) = Some (mkInnerRec (Some (fst e)) (snd e))) as Hle'.
      { by rewrite to_inner_fmap, fmap_last, Hce. }
      pose proof (rspine_kept _ _ _ _ _ _ _ _ Hkept Hsp) as Hsp'.
      destruct (rspine_bounds _ _ _ _ _ _ Hsp') as (lo_e & ne & Hge & _ & _ & Hub & _).
      destruct (chain_elem _ _ _ _ _ _ _ (mkInnerRec (Some (fst e)) (snd e)) Hr' Hc')
        as (n' & lo_e' & _ & Hge' & Hle2 & _).
      { rewrite last_lookup in Hle'. by eapply list_elem_of_lookup_2. }
      cbn [child] in Hge'. rewrite Hge in Hge'. simplify_eq.
      exists lo_c, (page_of c rest (length h + (length cs - 1))).
      split_and!; try done.
      * by eapply ble_blt_trans.
      * destruct (high_key (page_of c rest (length h + (length cs - 1)))); done.
      * exists (mkInnerRec (Some (fst e)) (snd e)). split; [|done].
        by rewrite inner_records_page.
    + (* the left border *)
      destruct G3 as [->|(k & e & -> & He & Hk & Hsp)]; [by left|right].
      destruct cs as [|c0 cs0]; [done|]. apply list.Forall_cons in Hne as [Hc0 _].
      destruct c0 as [|e0 c0]; [done|].
      assert (e0 = e) as -> by (rewrite <- Hcs in He; simpl in He; congruence).
      exists k, (fst e, length h). split_and!; try done.
      destruct Hat as (H1 & H2 & _). cbn [snd lspine].
      eexists. split_and!; [exact H2|exact H1|by rewrite <- Hk|].
      exists (mkInnerRec (Some (fst e)) (snd e)). split; [done|].
      eapply lspine_kept; [exact Hkept|apply ble_refl|done].
  - intros p l b Hg Hp.
    assert (p ∈ snd <$> nodes') as Hpn.
    { unfold nodes'. rewrite layer_entries_snd. split; [done|].
      destruct (decide (p < length h + length cs)); [done|].
      unfold g' in Hg. rewrite layer_ghost_above in Hg by lia.
      pose proof (Hb _ _ Hg). lia. }
    rewrite <- child_to_inner in Hpn. apply list_elem_of_fmap in Hpn as (c & -> & Hc).
    destruct (chain_elem _ _ _ _ _ _ _ _ Hr' Hchain Hc) as (n & lo_c & Hn & Hgc & Hle & _).
    rewrite Hg in Hgc. by simplify_eq.
Qed.

End InnerLayer.

Lemma grown_refl lmin lo g h : bounded g h → grown lmin lo g g h h.
Proof.
  intros Hb. split; [exists []; by rewrite app_nil_r|done|].
  intros p l b Hg Hp. pose proof (Hb _ _ Hg). lia.
Qed.

Lemma grown_trans lmin lo g g1 g2 h h1 h2 :
  grown lmin lo g g1 h h1 → grown lmin lo g1 g2 h1 h2 → grown lmin lo g g2 h h2.
Proof.
  intros [[p1 ->] O1 N1] [[p2 ->] O2 N2]. split.
  - exists (p1 ++ p2). by rewrite (assoc_L (++)).
  - intros p Hp. rewrite O2 by (rewrite length_app; lia). by apply O1.
  - intros p l b Hg Hp. destruct (decide (p < length (h ++ p1))) as [Hlt|Hge].
    + rewrite O2 in Hg by done. by eapply N1.
    + eapply N2; [done|lia].
Qed.

Lemma grown_weaken lmin lmin' lo g g' h h' :
  grown lmin lo g g' h h' → lmin' ≤ lmin → grown lmin' lo g g' h h'.
Proof.
  intros [G1 G2 G3] Hle. split; try done. intros p l b Hg Hp.
  destruct (G3 _ _ _ Hg Hp). split; [lia|done].
Qed.

Lemma grown_kept lmin lo lb g g' h h' :
  bounded g h → grown lmin lo g g' h h' → kept lb g g' h h'.
Proof. intros Hb [[pages ->] G2 G3]. by apply kept_grow. Qed.

Lemma grown_same_records lo g g' h h' :
  bounded g h → grown 1 lo g g' h h' → same_records g g' h h'.
Proof.
  intros Hb [[pages ->] G2 G3]. split_and!.
  - intros p x Hg. rewrite G2; [done|]. by eapply Hb.
  - intros p x n Hg Hp. exists n. split; [|done]. by apply lookup_app_l_Some.
  - intros p lo' Hg. destruct (decide (p < length h)) as [Hlt|Hge].
    + by rewrite <- G2.
    + destruct (G3 _ _ _ Hg) as [? _]; lia.
Qed.

Lemma grown_length lmin lo g g' h h' : grown lmin lo g g' h h' → length h ≤ length h'.
Proof. intros [[pages ->] _ _]. rewrite length_app. lia. Qed.

Section Partial.
Context {cfg : Params}.

Lemma set_heap_set_heap t h1 h2 : set_heap (set_heap t h1) h2 = set_heap t h2.
Proof. done. Qed.

Lemma heap_set_heap t h : heap (set_heap t h) = h.
Proof. done. Qed.

(** One more layer on a partial tree. *)
Lemma ConstructSingleLayer_inner t g H T lo ub L nodes :
  forest g (heap t) H T → group g (heap t) lo ub L nodes → (∀ e, e ∈ nodes → T (snd e)) →
  1 ≤ kInnerNodeCap →
  ∃ g' nodes' h',
    ConstructSingleLayer t nodes = Some (nodes', set_heap t h') ∧
    forest g' h' (max H (S L)) (λ p, (T p ∧ p ∉ snd <$> nodes) ∨ p ∈ snd <$> nodes') ∧
    group g' h' lo ub (S L) nodes' ∧ (∀ e, e ∈ nodes' → length (heap t) ≤ snd e) ∧
    grown (S L) lo g g' (heap t) h' ∧
    (2 ≤ kInnerNodeCap → 2 ≤ length nodes → length nodes' < length nodes) ∧
    (length nodes ≤ kInnerNodeCap → length nodes' = 1).
Proof.
  intros Hf Hgr HT Hcap.
  pose proof (group_nonempty _ _ _ _ _ _ Hgr) as Hne.
  set (cs := chunks (length nodes) kInnerNodeCap nodes).
  assert (concat cs = nodes) as Hcs by (by apply chunks_concat).
  assert (Forall (λ c, c ≠ []) cs) as Hcne by (by apply chunks_nonempty).
  destruct (inner_layer g (heap t) H (max H (S L)) T lo ub L nodes cs Hf Hgr HT Hcs Hcne)
    as (F & G & O & N); [lia|lia|].
  exists (layer_ghost g (S L) lo (length (heap t)) cs),
    (layer_entries (length (heap t)) cs), (heap t ++ layer_pages (length (heap t)) cs).
  split_and!; try done.
  - by rewrite (ConstructSingleLayer_spec (BulkEntry0 := node_entry) t nodes Hcap).
  - intros e He. assert (snd e ∈ snd <$> layer_entries (length (heap t)) cs) as Hs.
    { apply list_elem_of_fmap. eauto. }
    apply layer_entries_snd in Hs. lia.
  - split; [eauto|done|]. intros p l b Hg Hp. destruct (N _ _ _ Hg Hp) as [-> ?]. done.
  - intros Hc2 Hl. rewrite length_layer_entries. by apply chunks_shorter.
  - intros Hl. rewrite length_layer_entries. unfold cs.
    destruct nodes as [|e es]; [done|]. cbn [length].
    rewrite chunks_one; [done|done|done].
Qed.

(** Layers are added until the stop test [stop] holds of the number of
    pages of the top layer. *)
Lemma layers_spec (loop : nat → BTree → list (Key * ptr) → nat →
                       option (nat * list (Key * ptr) * BTree))
    (stop : nat → bool) lo ub :
  2 ≤ kInnerNodeCap →
  (∀ n, n ≤ 1 → stop n = true) →
  (∀ fuel t nodes height,
     loop fuel t nodes height =
     if stop (length nodes) then Some (height, nodes, t)
     else match fuel with
          | 0 => None
          | S fuel' =>
              match ConstructSingleLayer t nodes with
              | None => None
              | Some (nodes', t1) => loop fuel' t1 nodes' (S height)
              end
          end) →
  ∀ fuel t g H T nodes L,
    forest g (heap t) H (tops_with T nodes) → group g (heap t) lo ub L nodes →
    (∀ e, e ∈ nodes → ¬ T (snd e)) →
    length nodes ≤ S fuel →
    ∃ g' H' L' nodes' h',
      loop fuel t nodes (S L) = Some (S L', nodes', set_heap t h') ∧
      forest g' h' H' (tops_with T nodes') ∧ group g' h' lo ub L' nodes' ∧
      (∀ e, e ∈ nodes' → ¬ T (snd e)) ∧
      grown (S L) lo g g' (heap t) h' ∧ L ≤ L' ∧ H ≤ H' ∧ L' ≤ H' ∧
      stop (length nodes') = true.
Proof.
  intros Hcap Hstop Hloop. induction fuel as [|fuel IH]; intros t g H T nodes L Hf Hgr HT Hl.
  - rewrite Hloop. rewrite Hstop by done.
    exists g, (max H L), L, nodes, (heap t). rewrite set_heap_heap.
    split_and!; try done; try lia.
    + eapply forest_raise; [done|lia].
    + apply grown_refl. by eapply forest_bounded.
    + by apply Hstop.
  - rewrite Hloop. destruct (stop (length nodes)) eqn:Es.
    { exists g, (max H L), L, nodes, (heap t). rewrite set_heap_heap.
      split_and!; try done; try lia.
      + eapply forest_raise; [done|lia].
      + apply grown_refl. by eapply forest_bounded. }
    assert (2 ≤ length nodes) as Hl2.
    { destruct (decide (2 ≤ length nodes)); [done|]. rewrite Hstop in Es by lia. done. }
    destruct (ConstructSingleLayer_inner t g H (tops_with T nodes) lo ub L nodes Hf Hgr)
      as (g1 & nodes1 & h1 & E1 & F1 & G1 & N1 & W1 & S1 & _); [|lia|].
    { intros e He. right. apply list_elem_of_fmap. eauto. }
    rewrite E1.
    assert (∀ e, e ∈ nodes1 → ¬ T (snd e)) as HT1.
    { intros e He Ht. pose proof (N1 e He).
      assert (snd e < length (heap t)); [|lia].
      eapply (fr_tops _ _ _ _ Hf). by left. }
    destruct (IH (set_heap t h1) g1 (max H (S L)) T nodes1 (S L)) as
      (g' & H' & L' & nodes' & h' & E2 & F2 & G2 & HT2 & W2 & HL & HH & HLH & Es');
      try done.
    + eapply forest_tops; [exact F1|]. intros p. unfold tops_with. cbv beta. split.
      * intros [[[Ht|Hn] Hout]|Hin]; [by left|done|by right].
      * intros [Ht|Hin]; [left|by right]. split; [by left|].
        intros Hin. apply list_elem_of_fmap in Hin as (e & -> & He). by apply (HT e).
    + specialize (S1 Hcap Hl2). lia.
    + exists g', H', L', nodes', h'. rewrite set_heap_set_heap in E2.
      split_and!; try done; try lia.
      eapply grown_trans; [exact W1|]. eapply grown_weaken; [exact W2|lia].
Qed.

Lemma BulkloadWithSingleThread_loop_eq fuel t nodes height :
  BulkloadWithSingleThread_loop fuel t nodes height =
  if (length nodes <=? kInnerNodeCap) then Some (height, nodes, t)
  else match fuel with
       | 0 => None
       | S fuel' =>
           match ConstructSingleLayer t nodes with
           | None => None
           | Some (nodes', t1) => BulkloadWithSingleThread_loop fuel' t1 nodes' (S height)
           end
       end.
Proof. by destruct fuel. Qed.

Lemma upper_layers_eq fuel t nodes height :
  upper_layers fuel t nodes height =
  if (length nodes <=? 1) then Some (height, nodes, t)
  else match fuel with
       | 0 => None
       | S fuel' =>
           match ConstructSingleLayer t nodes with
           | None => None
           | Some (nodes', t1) => upper_layers fuel' t1 nodes' (S height)
           end
       end.
Proof. by destruct fuel. Qed.

Lemma build_upper_layers_height fuel : ∀ t nodes height,
  build_upper_layers fuel t nodes = (λ r, (snd (fst r), snd r)) <$> upper_layers fuel t nodes height.
Proof.
  induction fuel as [|fuel IH]; intros t nodes height; simpl.
  - by destruct (length nodes <=? 1).
  - destruct (length nodes <=? 1); [done|].
    destruct (ConstructSingleLayer t nodes) as [[nodes' t1]|]; [|done]. apply IH.
Qed.

(** A partial tree is loaded from a run of sorted entries. *)
Lemma BulkloadWithSingleThread_spec t g H T (es : list (Key * Payload)) lo ub :
  1 ≤ kLeafNodeCap → 2 ≤ kInnerNodeCap →
  forest g (heap t) H T → es ≠ [] → keys_in lo (fst <$> es) ub →
  (lo = NegInf ∨ ∃ e, head es = Some e ∧ lo = Fin (fst e)) →
  ∃ g' H' L nodes h',
    BulkloadWithSingleThread t es = Some (S L, nodes, set_heap t h') ∧
    forest g' h' H' (tops_with T nodes) ∧ group g' h' lo ub L nodes ∧
    (∀ e, e ∈ nodes → ¬ T (snd e)) ∧
    grown 0 lo g g' (heap t) h' ∧ H ≤ H' ∧ L ≤ H' ∧
    (∀ es0, leaves_from g (heap t) es0 → leaves_from g' h' (es0 ++ es)) ∧
    (∀ es0, leaves_have g (heap t) es0 → leaves_have g' h' (es0 ++ es)).
Proof.
  intros Hlc Hic Hf Hes Hk Hlo. unfold BulkloadWithSingleThread.
  rewrite (ConstructSingleLayer_spec (BulkEntry0 := leaf_entry) t es Hlc).
  set (cs := chunks (length es) kLeafNodeCap es).
  assert (concat cs = es) as Hcs by (by apply chunks_concat).
  assert (Forall (λ c, c ≠ []) cs) as Hcne by (by apply chunks_nonempty).
  destruct (leaf_layer g (heap t) H T es lo ub cs Hf Hcs Hcne Hes Hk Hlo)
    as (F1 & G1 & O1 & N1 & LF & LH).
  set (g1 := layer_ghost g 0 lo (length (heap t)) cs) in *.
  set (h1 := heap t ++ layer_pages (length (heap t)) cs) in *.
  set (nodes1 := layer_entries (length (heap t)) cs) in *.
  assert (∀ e, e ∈ nodes1 → ¬ T (snd e)) as HT1.
  { intros e He Ht. pose proof (fr_tops _ _ _ _ Hf _ Ht).
    assert (snd e ∈ snd <$> nodes1) as Hs by (apply list_elem_of_fmap; eauto).
    apply layer_entries_snd in Hs. lia. }
  destruct (layers_spec BulkloadWithSingleThread_loop (λ n, n <=? kInnerNodeCap) lo ub Hic)
    with (fuel := length nodes1) (t := set_heap t h1) (g := g1) (H := H) (T := T)
         (nodes := nodes1) (L := 0)
    as (g' & H' & L' & nodes' & h' & E2 & F2 & G2 & HT2 & W2 & HL & HH & HLH & _);
    try done.
  - intros n Hn. apply Nat.leb_le. lia.
  - apply BulkloadWithSingleThread_loop_eq.
  - lia.
  - cbv beta zeta.
    pose proof (forest_bounded _ _ _ _ Hf) as Hb.
    pose proof (forest_bounded _ _ _ _ F1) as Hb1.
    assert (grown 0 lo g g1 (heap t) h1) as W1.
    { split; [by eexists|done|]. intros p l b Hg Hp. destruct (N1 _ _ _ Hg Hp). split; [lia|done]. }
    exists g', H', L', nodes', h'. split_and!; try done.
    + eapply grown_trans; [exact W1|]. eapply grown_weaken; [exact W2|lia].
    + intros es0 Hl. eapply leaves_from_same; [|exact Hb1|by apply LF].
      by eapply grown_same_records.
    + intros es0 Hl. eapply leaves_have_same; [|by apply LH].
      by eapply grown_same_records.
Qed.

End Partial.

(** A chain whose last page gets a new link. *)
Lemma chain_ok_relast h h' g lvl cs : ∀ lo nx hi' nx',
  chain_ok h g lvl lo cs PosInf nx →
  (∀ c n, c ∈ cs → h !! child c = Some n → high_key n ≠ None → h' !! child c = Some n) →
  (∀ c, list.last cs = Some c →
     ∃ n', h' !! child c = Some n' ∧ hi_of (high_key n') = hi' ∧ next n' = nx') →
  chain_ok h' g lvl lo cs hi' nx'.
Proof.
  induction cs as [|c cs IH]; intros lo nx hi' nx' Hc Hkeep Hlast; [done|].
  apply chain_ok_cons in Hc as ((n & Hn & Hhi & Hnx) & Hg & Hrest).
  apply chain_ok_cons. destruct cs as [|c' cs].
  - destruct (Hlast c eq_refl) as (n' & Hn' & E1 & E2). split_and!; [|done|done].
    exists n'. done.
  - split_and!; [|done|].
    + exists n. split_and!; [|done|done]. apply Hkeep; [by left|done|].
      intros E. rewrite E in Hhi. simpl in Hhi. by destruct (sep_key c').
    + eapply IH; [exact Hrest| |].
      * intros c0 n0 Hc0. apply Hkeep. by right.
      * intros c0 Hc0. apply Hlast. by rewrite last_cons_cons.
Qed.

Section Link.
Context {cfg : Params}.

Lemma spine_pairs_spines g h lb k : ∀ lvl l r p q,
  rspine g h lb (Fin k) lvl l → lspine g h k lvl r →
  (p, q) ∈ spine_pairs h lvl l r →
  ∃ lv, lv ≤ lvl ∧ rspine g h lb (Fin k) lv p ∧ lspine g h k lv q ∧
        (lv = lvl → p = l ∧ q = r) ∧
        (lv < lvl → ∃ p' q' np' nq', (p', q') ∈ spine_pairs h lvl l r ∧
                      h !! p' = Some np' ∧ h !! q' = Some nq' ∧
                      last_child np' = Some p ∧ first_child nq' = Some q ∧
                      rspine g h lb (Fin k) (S lv) p') ∧
        (0 < lv → ∃ np nq cl cr, h !! p = Some np ∧ h !! q = Some nq ∧
                      list.last (inner_records np) = Some cl ∧
                      head (inner_records nq) = Some cr ∧
                      (child cl, child cr) ∈ spine_pairs h lvl l r).
Proof.
  induction lvl as [|lvl IH]; intros l r p q Hl Hr Hin.
  - simpl in Hin. apply list_elem_of_singleton in Hin. simplify_eq.
    exists 0. split_and!; try done; lia.
  - pose proof Hl as (lo & nl & Hgl & Hnl & _ & _ & _ & (cl & Hcl & Hsl)).
    pose proof Hr as (nr & Hgr & Hnr & _ & (cr & Hcr & Hsr)).
    assert ((child cl, child cr) ∈ spine_pairs h (S lvl) l r ∧
            ∀ x, x ∈ spine_pairs h lvl (child cl) (child cr) → x ∈ spine_pairs h (S lvl) l r)
      as [Hfirst Hsub].
    { cbn [spine_pairs]. rewrite Hnl, Hnr. cbn [mbind option_bind].
      unfold last_child, first_child. rewrite Hcl, Hcr.
      cbn [fmap option_fmap option_map]. split.
      - right. destruct lvl; left.
      - intros x Hx. by right. }
    cbn [spine_pairs] in Hin. apply elem_of_cons in Hin as [Hin|Hin].
    { simplify_eq. exists (S lvl). split_and!; try done; [lia|].
      intros _. exists nl, nr, cl, cr. done. }
    rewrite Hnl, Hnr in Hin. cbn [mbind option_bind] in Hin.
    unfold last_child, first_child in Hin. rewrite Hcl, Hcr in Hin.
    cbn [fmap option_fmap option_map] in Hin.
    destruct (IH _ _ _ _ Hsl Hsr Hin) as (lv & Hlv & Hp & Hq & Htop & Hbelow & Hdown).
    exists lv. split_and!; try done; [lia|lia| |].
    + intros Hlt. destruct (decide (lv = lvl)) as [->|Hne].
      * destruct (Htop eq_refl) as [-> ->].
        exists l, r, nl, nr. split_and!; try done.
        -- left.
        -- unfold last_child. by rewrite Hcl.
        -- unfold first_child. by rewrite Hcr.
      * destruct Hbelow as (p' & q' & np' & nq' & Hin' & ? & ? & ? & ? & ?); [lia|].
        exists p', q', np', nq'. split_and!; try done. by apply Hsub.
    + intros Hpos. destruct (Hdown Hpos) as (np & nq & cl' & cr' & ? & ? & ? & ? & ?).
      exists np, nq, cl', cr'. split_and!; try done. by apply Hsub.
Qed.

(** What [LinkVerticalBorderNodes] does to the heap. *)
Lemma Node_LinkVerticalBorderNodes_spec g H T lb k : ∀ lvl h0 h l r fuel,
  forest g h0 H T →
  rspine g h0 lb (Fin k) lvl l → lspine g h0 k lvl r → lvl < fuel →
  length h = length h0 →
  (∀ p l' b, g p = Some (l', b) → l' ≤ lvl → h !! p = h0 !! p) →
  ∃ h', Node_LinkVerticalBorderNodes fuel h l r = Some h' ∧ length h' = length h ∧
    (∀ p, p ∉ (fst <$> spine_pairs h0 lvl l r) → h' !! p = h !! p) ∧
    (∀ p q, (p, q) ∈ spine_pairs h0 lvl l r →
       ∃ n, h0 !! p = Some n ∧ h' !! p = Some (set_link n (Some k) (Some q))).
Proof.
  induction lvl as [|lvl IH]; intros h0 h l r fuel Hf Hl Hr Hfuel Hlen Hsame.
  - destruct fuel as [|fuel]; [lia|].
    destruct Hl as (lo & nl & Hgl & Hnl & _ & _ & _ & Hkeys).
    destruct Hr as (nr & Hgr & Hnr & Hlow & _).
    cbn [Node_LinkVerticalBorderNodes spine_pairs].
    rewrite (Hsame _ _ _ Hgl), (Hsame _ _ _ Hgr), Hnl, Hnr by done.
    destruct (fr_nodes _ _ _ _ Hf _ _ _ Hgl) as (n & Hn & Hok). simplify_eq.
    rewrite (node_ok_IsInner _ _ _ _ _ _ Hok). cbn. rewrite Hlow.
    eexists. split_and!; [done|by rewrite length_insert| |].
    + intros p Hp. rewrite list_lookup_insert_ne; [done|].
      intros ->. apply Hp. left.
    + intros p q Hin. apply list_elem_of_singleton in Hin. simplify_eq.
      exists nl. split; [done|]. apply list_lookup_insert_eq.
      rewrite Hlen. by eapply lookup_lt_Some.
  - destruct fuel as [|fuel]; [lia|].
    pose proof Hl as (lo & nl & Hgl & Hnl & _ & _ & _ & (cl & Hcl & Hsl)).
    pose proof Hr as (nr & Hgr & Hnr & Hlow & (cr & Hcr & Hsr)).
    cbn [Node_LinkVerticalBorderNodes spine_pairs].
    rewrite (Hsame _ _ _ Hgl), (Hsame _ _ _ Hgr), Hnl, Hnr by done.
    destruct (fr_nodes _ _ _ _ Hf _ _ _ Hgl) as (n & Hn & Hok). simplify_eq.
    rewrite (node_ok_IsInner _ _ _ _ _ _ Hok). cbn [bool_decide decide_rel].
    rewrite bool_decide_true by done. rewrite Hlow.
    cbn [mbind option_bind]. unfold last_child, first_child. rewrite Hcl, Hcr.
    cbn [fmap option_fmap option_map].
    set (h1 := <[l := set_link nl (Some k) (Some r)]> h).
    destruct (IH h0 h1 (child cl) (child cr) fuel Hf Hsl Hsr) as (h' & E & Hlen' & Hout & Hin);
      [lia|by unfold h1; rewrite length_insert| |].
    { intros p l' b Hg Hle. unfold h1. rewrite list_lookup_insert_ne.
      - apply (Hsame _ _ _ Hg). lia.
      - intros <-. rewrite Hgl in Hg. simplify_eq. lia. }
    exists h'. split_and!; [done|by rewrite Hlen'; unfold h1; rewrite length_insert| |].
    + intros p Hp. rewrite Hout.
      * unfold h1. rewrite list_lookup_insert_ne; [done|]. intros ->. apply Hp. left.
      * intros Hp'. apply Hp. by right.
    + intros p q Hpq. apply elem_of_cons in Hpq as [Hpq|Hpq].
      * simplify_eq. exists nl. split; [done|]. rewrite Hout.
        -- unfold h1. apply list_lookup_insert_eq. rewrite Hlen. by eapply lookup_lt_Some.
        -- intros Hmem. apply list_elem_of_fmap in Hmem as ([p q] & Ep & Hmem).
           simpl in Ep. subst p.
           destruct (spine_pairs_spines _ _ _ _ _ _ _ _ _ Hsl Hsr Hmem)
             as (lv & Hlv & Hp & _).
           destruct (rspine_bounds _ _ _ _ _ _ Hp) as (? & ? & Hg & _).
           rewrite Hgl in Hg. simplify_eq. lia.
      * by apply Hin.
Qed.

Lemma lspine_records g h h' k lvl : ∀ p,
  (∀ p n, h !! p = Some n → ∃ n', h' !! p = Some n' ∧ records n' = records n) →
  lspine g h k lvl p → lspine g h' k lvl p.
Proof.
  induction lvl as [|lvl IH]; intros p Hrec (n & Hg & Hp & Hlow & Hrest);
    destruct (Hrec _ _ Hp) as (n' & Hn' & E); exists n';
    (split_and!; [done|done|by unfold lowest_key; rewrite E|]); [done|].
  destruct Hrest as (c & Hc & Hs). exists c. unfold inner_records in *. rewrite E.
  split; [done|]. by apply IH.
Qed.

(** The forest after the borders are linked. *)
Lemma link_forest g h h' H T lb k L l r :
  forest g h H T → rspine g h lb (Fin k) L l → lspine g h k L r → T l →
  length h' = length h →
  (∀ p, p ∉ (fst <$> spine_pairs h L l r) → h' !! p = h !! p) →
  (∀ p q, (p, q) ∈ spine_pairs h L l r →
     ∃ n, h !! p = Some n ∧ h' !! p = Some (set_link n (Some k) (Some q))) →
  forest g h' H T ∧ kept (Fin k) g g h h' ∧
  (∀ p n, h !! p = Some n → ∃ n', h' !! p = Some n' ∧ records n' = records n) ∧
  (∀ p n, h !! p = Some n → high_key n ≠ None → h' !! p = Some n) ∧
  (∃ nl, h !! l = Some nl ∧ h' !! l = Some (set_link nl (Some k) (Some r))).
Proof.
  intros Hf Hl Hr HTl Hlen Hout Hin.
  set (pairs := spine_pairs h L l r) in *.
  assert (∀ p, p ∈ fst <$> pairs → ∃ q, (p, q) ∈ pairs) as Hq.
  { intros p Hp. apply list_elem_of_fmap in Hp as ([p' q] & -> & Hp). eauto. }
  assert (∀ p n, h !! p = Some n → ∃ n', h' !! p = Some n' ∧ records n' = records n) as Hrec.
  { intros p n Hp. destruct (decide (p ∈ fst <$> pairs)) as [Hi|Ho].
    - destruct (Hq _ Hi) as [q Hpq]. destruct (Hin _ _ Hpq) as (n0 & Hn0 & Hn').
      simplify_eq. eauto.
    - exists n. by rewrite Hout. }
  assert (∀ p n, h' !! p = Some n → ∃ n0, h !! p = Some n0 ∧ records n0 = records n) as Hrec'.
  { intros p n Hp. destruct (lookup_lt_is_Some_2 h p) as [n0 Hn0].
    { rewrite <- Hlen. by eapply lookup_lt_Some. }
    destruct (Hrec _ _ Hn0) as (n' & Hn' & E). simplify_eq. eauto. }
  assert (∀ q x, is_parent g h' q x ↔ is_parent g h q x) as Hpar.
  { intros q x. split; intros (lq & bq & nq & Hg & Hn & Hx).
    - destruct (Hrec' _ _ Hn) as (n0 & Hn0 & E). exists lq, bq, n0.
      split_and!; try done. unfold inner_records in *. by rewrite E.
    - destruct (Hrec _ _ Hn) as (n' & Hn' & E). exists lq, bq, n'.
      split_and!; try done. unfold inner_records in *. by rewrite E. }
  assert (∀ p n, h !! p = Some n → high_key n ≠ None → h' !! p = Some n) as Hhigh.
  { intros p n Hp Hhk. destruct (decide (p ∈ fst <$> pairs)) as [Hi|Ho]; [|by rewrite Hout].
    destruct (Hq _ Hi) as [q Hpq].
    destruct (spine_pairs_spines _ _ _ _ _ _ _ _ _ Hl Hr Hpq) as (lv & _ & Hp' & _).
    destruct (rspine_bounds _ _ _ _ _ _ Hp') as (? & ? & _ & ? & _ & _ & ?). simplify_eq. }
  split_and!; try done.
  - split.
    + intros p lvl lo Hg. destruct (fr_nodes _ _ _ _ Hf _ _ _ Hg) as (n & Hn & Hok).
      destruct (decide (p ∈ fst <$> pairs)) as [Hi|Ho].
      * destruct (Hq _ Hi) as [q Hpq]. destruct (Hin _ _ Hpq) as (n0 & Hn0 & Hn').
        simplify_eq. exists (set_link n (Some k) (Some q)). split; [done|].
        destruct (spine_pairs_spines _ _ _ _ _ _ _ _ _ Hl Hr Hpq)
          as (lv & _ & Hp' & Hq' & _ & _ & Hdown).
        pose proof (rspine_bounds _ _ _ _ _ _ Hp') as (lo' & n' & Hg' & Hn'' & _ & Hub & Hhk).
        rewrite Hg in Hg'. simplify_eq.
        assert (g q = Some (lv, Fin k)) as Hgq by (destruct lv; by destruct Hq' as (? & ? & _)).
        destruct Hok as (Hrm & Hne & Hle & Hnx & Hb).
        unfold node_ok. cbn [set_link is_removed high_key next records hi_of].
        split_and!; try done.
        destruct lv as [|lv].
        -- destruct Hp' as (lo0 & n0 & Hg0 & Hn0' & _ & _ & _ & Hkeys).
           rewrite Hn in Hn0'. injection Hn0' as <-.
           rewrite Hg in Hg0. injection Hg0 as <-.
           unfold leaf_records in Hkeys. destruct (records n) as [rs|cs]; [done|].
           by destruct Hb as (? & ? & ? & _).
        -- destruct (records n) as [rs|cs] eqn:Erec; [by destruct Hb|].
           destruct Hb as (lvl' & nx & Elv & Hc & Hk). simplify_eq.
           rewrite Hhk in Hc. cbn [hi_of] in Hc.
           destruct Hdown as (np & nq & cl & cr & Hnp & Hnq & Hcl & Hcr & Hnext); [lia|].
           simplify_eq. unfold inner_records in Hcl. rewrite Erec in Hcl.
           destruct (Hin _ _ Hnext) as (nc & Hnc & Hnc').
           exists lvl', (Some (child cr)). split_and!; [done| |done].
           eapply chain_ok_relast; [exact Hc| |].
           ++ intros c n0 _ Hn0 Hhk0. by apply Hhigh.
           ++ intros c Hc0. rewrite Hcl in Hc0. simplify_eq. eexists. split; [exact Hnc'|done].
      * exists n. split; [by rewrite Hout|].
        eapply node_ok_transfer; [exact Hok|apply Hok|done| |done].
        intros c nc Hc Hnc. destruct (decide (child c ∈ fst <$> pairs)) as [Hi|Ho'].
        -- exfalso. destruct (Hq _ Hi) as [q Hpq].
           destruct (spine_pairs_spines _ _ _ _ _ _ _ _ _ Hl Hr Hpq)
             as (lv & Hlv & Hp' & _ & Htop & Hbelow & _).
           assert (is_parent g h p (child c)) as Hpc.
           { exists lvl, lo, n. split_and!; try done. apply list_elem_of_fmap. eauto. }
           destruct (decide (lv = L)) as [->|Hne].
           ++ destruct (Htop eq_refl) as [E _]. rewrite E in Hpc.
              by eapply (fr_free _ _ _ _ Hf).
           ++ destruct Hbelow as (p' & q' & np' & nq' & Hin' & Hnp' & _ & Hlc & _ & Hsp); [lia|].
              destruct (rspine_bounds _ _ _ _ _ _ Hsp) as (lo' & n' & Hg' & Hn'' & _).
              rewrite Hnp' in Hn''. injection Hn'' as <-.
              assert (is_parent g h p' (child c)) as Hpc'.
              { exists (S lv), lo', np'. split_and!; try done. unfold last_child in Hlc.
                destruct (list.last (inner_records np')) as [c'|] eqn:E; [|done].
                simpl in Hlc. simplify_eq. apply list_elem_of_fmap. exists c'.
                split; [done|]. rewrite last_lookup in E. by eapply list_elem_of_lookup_2. }
              pose proof (fr_unique _ _ _ _ Hf _ _ _ Hpc Hpc') as ->.
              apply Ho. apply list_elem_of_fmap. exists (p', q'). done.
        -- exists nc. by rewrite Hout.
    + intros p x Hg. destruct (fr_parent _ _ _ _ Hf _ _ Hg) as [?|[q Hqp]]; [by left|right].
      exists q. by apply Hpar.
    + intros x q q' H1 H2. apply Hpar in H1, H2. by eapply (fr_unique _ _ _ _ Hf).
    + intros x q Ht Hp. apply Hpar in Hp. by eapply (fr_free _ _ _ _ Hf).
    + intros x Ht. rewrite Hlen. by eapply (fr_tops _ _ _ _ Hf).
  - intros p lv b Hg Hb. split; [done|]. apply Hout. intros Hi.
    destruct (Hq _ Hi) as [q Hpq].
    destruct (spine_pairs_spines _ _ _ _ _ _ _ _ _ Hl Hr Hpq) as (lv' & _ & Hp' & _).
    destruct (rspine_bounds _ _ _ _ _ _ Hp') as (lo' & n' & Hg' & _ & _ & Hub & _).
    rewrite Hg in Hg'. simplify_eq. destruct lo'; simpl in *; try done.
    unfold ble, blt in *. lia.
  - apply Hin. unfold pairs. destruct L; left.
Qed.

(** Two partial trees whose borders are linked are one partial tree. *)
Lemma group_link g h h' lo_a ub_b k L nodes_a nodes_b l r :
  ranges_ok g h →
  group g h lo_a (Fin k) L nodes_a → group g h (Fin k) ub_b L nodes_b →
  kept (Fin k) g g h h' →
  (∀ p n, h !! p = Some n → ∃ n', h' !! p = Some n' ∧ records n' = records n) →
  (∀ p n, h !! p = Some n → high_key n ≠ None → h' !! p = Some n) →
  snd <$> list.last nodes_a = Some l → snd <$> head nodes_b = Some r →
  (∃ nl, h !! l = Some nl ∧ h' !! l = Some (set_link nl (Some k) (Some r))) →
  group g h' lo_a ub_b L (nodes_a ++ nodes_b).
Proof.
  intros Hr [A1 A2 A3] [B1 B2 B3] Hkept Hrec Hhigh Hla Hhb (nl & Hnl & Hnl').
  pose proof (group_kept g g h h' (Fin k) ub_b L nodes_b Hr Hkept
                (mkGroup _ _ _ _ _ _ B1 B2 B3)) as [B1' B2' B3'].
  destruct B3 as [?|(k' & eb & Ek & Heb & Hkb & Hsb)]; [done|]. simplify_eq.
  destruct nodes_b as [|eb' nodes_b]; [done|]. simpl in Heb. simplify_eq.
  simpl in Hhb. simplify_eq.
  destruct A2 as (ea & Hea & Hsa). rewrite Hea in Hla. simpl in Hla. simplify_eq.
  destruct (rspine_bounds _ _ _ _ _ _ Hsa) as (lo' & n' & Hg' & Hn' & Hlb & Hub & Hhk).
  split.
  - rewrite to_inner_app. cbn [to_inner map]. apply chain_ok_app.
    destruct nodes_a as [|e0 na]; [done|].
    change (to_inner (e0 :: na)) with
      (mkInnerRec (Some (fst e0)) (snd e0) :: to_inner na) in *.
    cbv beta iota. split; [|exact B1'].
    change (mkInnerRec (Some (fst e0)) (snd e0) :: to_inner na) with (to_inner (e0 :: na)) in *.
    eapply chain_ok_relast; [exact A1| |].
    + intros c n _ Hn Hk. by apply Hhigh.
    + intros c Hc. rewrite to_inner_fmap, fmap_last, Hea in Hc. simpl in Hc. simplify_eq.
      cbn [child]. eexists. split; [exact Hnl'|done].
  - destruct B2' as (e & He & Hs). exists e. split.
    + rewrite last_app. by rewrite He.
    + eapply rspine_lower; [|exact Hs]. eapply ble_trans; [exact Hlb|by apply blt_ble].
  - destruct A3 as [->|(ka & e & -> & He & Hka & Hs)]; [by left|right].
    exists ka, e. split_and!; try done.
    + destruct nodes_a; [done|]. done.
    + by eapply lspine_records.
Qed.

End Link.

Lemma share_div N Tn i :
  i < Tn →
  (N + i) / Tn = N / Tn + (if decide (Tn ≤ N mod Tn + i) then 1 else 0).
Proof.
  intros Hi. pose proof (Nat.div_mod_eq N Tn) as E.
  pose proof (Nat.mod_upper_bound N Tn ltac:(lia)) as Hr.
  case_decide; symmetry.
  - apply (Nat.div_unique _ _ _ (N mod Tn + i - Tn)); [lia|nia].
  - apply (Nat.div_unique _ _ _ (N mod Tn + i)); [lia|nia].
Qed.

Lemma shares_sum N Tn : ∀ workers i,
  i + workers = Tn →
  shares workers i N Tn = workers * (N / Tn) + Nat.min workers (N mod Tn).
Proof.
  induction workers as [|w IH]; intros i Hi; [done|]. cbn [shares].
  rewrite IH by lia. rewrite share_div by lia.
  pose proof (Nat.mod_upper_bound N Tn ltac:(lia)) as Hr.
  case_decide; lia.
Qed.

Lemma shares_all N Tn : 1 ≤ Tn → shares Tn 0 N Tn = N.
Proof.
  intros HT. rewrite shares_sum by done.
  pose proof (Nat.div_mod_eq N Tn) as E.
  pose proof (Nat.mod_upper_bound N Tn ltac:(lia)) as Hr. lia.
Qed.

Lemma share_pos N Tn i : 1 ≤ Tn → Tn ≤ N → 1 ≤ (N + i) / Tn.
Proof.
  intros HT HN. apply Nat.div_le_lower_bound; lia.
Qed.

Lemma group_lo_ub g h lo ub L nodes : group g h lo ub L nodes → blt lo ub.
Proof.
  intros [_ (e & _ & Hs) _].
  destruct (rspine_bounds _ _ _ _ _ _ Hs) as (lo' & n' & _ & _ & Hlb & Hub & _).
  by eapply ble_blt_trans.
Qed.

Lemma partials_ok_kept g g' h h' H H' : ∀ parts lo,
  ranges_ok g h → kept lo g g' h h' → H ≤ H' →
  partials_ok g h H lo parts → partials_ok g' h' H' lo parts.
Proof.
  induction parts as [|part rest IH]; intros lo Hr Hk HH Hp; [done|].
  destruct Hp as (L & ub & E & HL & Hg & Hrest). exists L, ub. split_and!; [done|lia| |].
  - by eapply group_kept.
  - eapply IH; try done. eapply kept_weaken; [done|].
    apply blt_ble. by eapply group_lo_ub.
Qed.

Section Bulk.
Context {cfg : Params}.

(** The partial tree is made as high as the highest one. *)
Lemma align_height_spec lo ub : ∀ gap t g H T nodes L,
  1 ≤ kInnerNodeCap →
  forest g (heap t) H (tops_with T nodes) → group g (heap t) lo ub L nodes →
  (∀ e, e ∈ nodes → ¬ T (snd e)) → L ≤ H →
  ∃ g' H' nodes' h',
    align_height gap t nodes = Some (nodes', set_heap t h') ∧
    forest g' h' H' (tops_with T nodes') ∧ group g' h' lo ub (L + gap) nodes' ∧
    (∀ e, e ∈ nodes' → ¬ T (snd e)) ∧
    grown (S L) lo g g' (heap t) h' ∧ H ≤ H' ∧ L + gap ≤ H'.
Proof.
  induction gap as [|gap IH]; intros t g H T nodes L Hcap Hf Hgr HT HL.
  - exists g, H, nodes, (heap t). rewrite set_heap_heap, Nat.add_0_r.
    split_and!; try done. apply grown_refl. by eapply forest_bounded.
  - cbn [align_height].
    destruct (ConstructSingleLayer_inner t g H (tops_with T nodes) lo ub L nodes Hf Hgr)
      as (g1 & nodes1 & h1 & E1 & F1 & G1 & N1 & W1 & _); [|lia|].
    { intros e He. right. apply list_elem_of_fmap. eauto. }
    rewrite E1.
    assert (∀ e, e ∈ nodes1 → ¬ T (snd e)) as HT1.
    { intros e He Ht. pose proof (N1 e He).
      assert (snd e < length (heap t)); [|lia].
      eapply (fr_tops _ _ _ _ Hf). by left. }
    destruct (IH (set_heap t h1) g1 (max H (S L)) T nodes1 (S L) Hcap)
      as (g' & H' & nodes' & h' & E2 & F2 & G2 & HT2 & W2 & HH & HLH); try done.
    + eapply forest_tops; [exact F1|]. intros p. unfold tops_with. cbv beta. split.
      * intros [[[Ht|Hn] Hout]|Hin]; [by left|done|by right].
      * intros [Ht|Hin]; [left|by right]. split; [by left|].
        intros Hin. apply list_elem_of_fmap in Hin as (e & -> & He). by apply (HT e).
    + lia.
    + exists g', H', nodes', h'. rewrite set_heap_set_heap in E2.
      replace (L + S gap) with (S L + gap) by lia.
      split_and!; try done; try lia.
      eapply grown_trans; [exact W1|]. eapply grown_weaken; [exact W2|lia].
Qed.

Lemma keys_in_take_drop lo (es : list (Key * Payload)) n :
  keys_in lo (fst <$> es) PosInf →
  keys_in lo (fst <$> take n es) (next_bound (drop n es)) ∧
  keys_in (next_bound (drop n es)) (fst <$> drop n es) PosInf.
Proof.
  intros Hk. rewrite <- (take_drop n es) in Hk.
  destruct (drop n es) as [|e rest] eqn:E.
  - rewrite app_nil_r in Hk. done.
  - rewrite fmap_app, fmap_cons in Hk. apply keys_in_split in Hk. done.
Qed.

(** The workers load the partial trees. *)
Lemma load_partial_trees_spec N Tn : ∀ workers i t g H T es lo,
  1 ≤ kLeafNodeCap → 2 ≤ kInnerNodeCap → 1 ≤ Tn → Tn ≤ N →
  forest g (heap t) H T → length es = shares workers i N Tn →
  keys_in lo (fst <$> es) PosInf →
  match es with
  | [] => lo = PosInf
  | e :: _ => lo = NegInf ∨ lo = Fin (fst e)
  end →
  ∃ parts g' H' h',
    load_partial_trees workers i N Tn t es = Some (parts, set_heap t h') ∧
    forest g' h' H' (λ p, T p ∨ p ∈ all_tops parts) ∧
    partials_ok g' h' H' lo parts ∧
    NoDup (all_tops parts) ∧ (∀ p, p ∈ all_tops parts → ¬ T p) ∧
    grown 0 lo g g' (heap t) h' ∧ H ≤ H' ∧ length parts = workers ∧
    (∀ es0, leaves_from g (heap t) es0 → leaves_from g' h' (es0 ++ es)) ∧
    (∀ es0, leaves_have g (heap t) es0 → leaves_have g' h' (es0 ++ es)).
Proof.
  induction workers as [|w IH]; intros i t g H T es lo Hlc Hic HT HN Hf Hlen Hk Hlo.
  - simpl in Hlen. destruct es; [|done]. exists [], g, H, (heap t).
    rewrite set_heap_heap. split_and!; try done.
    + eapply forest_tops; [done|]. intros p. split; [by left|].
      intros [?|Hp]; [done|]. by apply elem_of_nil in Hp.
    + constructor.
    + intros p Hp. by apply elem_of_nil in Hp.
    + apply grown_refl. by eapply forest_bounded.
    + intros es0. by rewrite app_nil_r.
    + intros es0. by rewrite app_nil_r.
  - cbn [load_partial_trees shares] in *.
    set (n := (N + i) / Tn) in *.
    assert (1 ≤ n) as Hn by (by apply share_pos).
    destruct (keys_in_take_drop lo es n Hk) as [K1 K2].
    assert (take n es ≠ []) as Hne.
    { destruct es; [simpl in Hlen; lia|]. replace n with (S (n - 1)) by lia. done. }
    destruct (BulkloadWithSingleThread_spec t g H T (take n es) lo (next_bound (drop n es))
                Hlc Hic Hf Hne K1)
      as (g1 & H1 & L & nodes & h1 & E1 & F1 & G1 & HT1 & W1 & HH1 & HL1 & LF1 & LH1).
    { destruct es as [|e es]; [by rewrite take_nil in Hne|].
      destruct Hlo as [-> | ->]; [by left|right].
      exists e. split; [|done]. replace n with (S (n - 1)) by lia. done. }
    rewrite E1.
    destruct (IH (S i) (set_heap t h1) g1 H1 (tops_with T nodes) (drop n es)
                (next_bound (drop n es)) Hlc Hic HT HN F1)
      as (parts & g2 & H2 & h2 & E2 & F2 & P2 & ND2 & D2 & W2 & HH2 & Hlp & LF2 & LH2).
    { rewrite length_drop. lia. }
    { done. }
    { destruct (drop n es); [done|]. by right. }
    rewrite E2. cbn [fmap option_fmap option_map].
    pose proof (forest_bounded _ _ _ _ F1) as Hb1.
    pose proof (forest_ranges_ok _ _ _ _ F1) as Hr1.
    exists ((S L, nodes) :: parts), g2, H2, h2. split_and!; try done.
    + eapply forest_tops; [exact F2|]. intros p. unfold tops_with, all_tops. csimpl.
      rewrite elem_of_app. tauto.
    + exists L, (next_bound (drop n es)). split_and!; [done|lia| |done].
      eapply group_kept; [exact Hr1| |exact G1]. by eapply grown_kept.
    + unfold all_tops. csimpl. apply list.NoDup_app. split_and!; [|  |done].
      * rewrite <- child_to_inner. eapply chain_NoDup; [exact Hr1|]. apply G1.
      * intros p Hp Hp'. apply (D2 p Hp'). by right.
    + intros p Hp Ht. unfold all_tops in Hp. csimpl in Hp.
      apply elem_of_app in Hp as [Hp|Hp].
      * apply list_elem_of_fmap in Hp as (e & -> & He). by apply (HT1 e).
      * apply (D2 p Hp). by left.
    + eapply grown_trans; [exact W1|]. split; [apply W2|apply W2|].
      intros p l b Hg Hp. destruct (gw_new _ _ _ _ _ _ W2 _ _ _ Hg Hp) as [_ Hle].
      split; [lia|]. eapply ble_trans; [|exact Hle].
      apply blt_ble. by eapply group_lo_ub.
    + lia.
    + simpl. by rewrite Hlp.
    + intros es0 Hl. rewrite <- (take_drop n es), (assoc_L (++)). apply LF2. by apply LF1.
    + intros es0 Hl. rewrite <- (take_drop n es), (assoc_L (++)). apply LH2. by apply LH1.
Qed.

Lemma same_records_trans g g1 g2 h h1 h2 :
  same_records g g1 h h1 → same_records g1 g2 h1 h2 → same_records g g2 h h2.
Proof.
  intros (A1 & A2 & A3) (B1 & B2 & B3). split_and!.
  - intros p x Hg. by apply B1, A1.
  - intros p x n Hg Hn. destruct (A2 _ _ _ Hg Hn) as (n1 & Hn1 & E1).
    destruct (B2 _ _ _ (A1 _ _ Hg) Hn1) as (n2 & Hn2 & E2). exists n2. split; [done|congruence].
  - intros p lo Hg. by apply A3, B3.
Qed.

Lemma same_records_refl g h : same_records g g h h.
Proof. split_and!; eauto. Qed.

Lemma all_tops_cons part parts :
  all_tops (part :: parts) = (snd <$> snd part) ++ all_tops parts.
Proof. done. Qed.

Lemma link_partial_trees_spec fuel height : ∀ parts t g H acc prev lo,
  1 ≤ kInnerNodeCap → 1 ≤ height → height ≤ fuel →
  forest g (heap t) H (λ p, p ∈ snd <$> acc ∨ p ∈ all_tops parts) →
  NoDup ((snd <$> acc) ++ all_tops parts) →
  partials_ok g (heap t) H lo parts →
  (∀ part, part ∈ parts → fst part ≤ height) →
  acc_ok g (heap t) (height - 1) acc prev lo → (parts ≠ [] ∨ acc ≠ []) →
  ∃ nodes g' H' h',
    link_partial_trees fuel height t parts acc prev = Some (nodes, set_heap t h') ∧
    forest g' h' H' (λ p, p ∈ snd <$> nodes) ∧
    group g' h' NegInf PosInf (height - 1) nodes ∧
    same_records g g' (heap t) h'.
Proof.
  induction parts as [|[ht nodes_p] rest IH];
    intros t g H acc prev lo Hcap Hh1 Hfuel Hf Hnd Hparts Hhts Hacc Hne.
  - simpl in Hparts. subst lo. destruct Hacc as [(-> & _ & _)|[Hg _]].
    { by destruct Hne. }
    exists acc, g, H, (heap t). rewrite set_heap_heap. split_and!; try done.
    + eapply forest_tops; [done|]. intros p. split; [|by left].
      intros [?|Hp]; [done|]. by apply elem_of_nil in Hp.
    + apply same_records_refl.
  - destruct Hparts as (L & ub & EL & HL & Hgp & Hrest). cbn [fst snd] in *. subst ht.
    cbn [link_partial_trees].
    set (T := λ p : ptr, p ∈ snd <$> acc ∨ p ∈ all_tops rest).
    rewrite all_tops_cons in Hnd. cbn [snd] in Hnd.
    assert (∀ e, e ∈ nodes_p → ¬ T (snd e)) as HT.
    { intros e He [Ht|Ht].
      - apply list.NoDup_app in Hnd as (_ & Hd & _). apply (Hd (snd e) Ht).
        apply elem_of_app. left. apply list_elem_of_fmap. eauto.
      - apply list.NoDup_app in Hnd as (_ & _ & Hnd).
        apply list.NoDup_app in Hnd as (_ & Hd & _). apply (Hd (snd e)); [|done].
        apply list_elem_of_fmap. eauto. }
    pose proof (forest_bounded _ _ _ _ Hf) as Hb.
    pose proof (forest_ranges_ok _ _ _ _ Hf) as Hr.
    assert (S L ≤ height) as HLh by (apply (Hhts (S L, nodes_p)); left).
    destruct (align_height_spec lo ub (height - S L) t g H T nodes_p L Hcap)
      as (g1 & H1 & nodes1 & h1 & E1 & F1 & G1 & HT1 & W1 & HH1 & HLH1); try done.
    { eapply forest_tops; [exact Hf|]. intros p. unfold tops_with, T.
      rewrite all_tops_cons, elem_of_app. cbn [snd]. tauto. }
    rewrite E1. replace (L + (height - S L)) with (height - 1) in * by lia.
    pose proof (group_nonempty _ _ _ _ _ _ G1) as Hne1.
    destruct (head nodes1) as [front|] eqn:Efront; [|by destruct nodes1].
    destruct (list.last nodes1) as [back|] eqn:Eback; [|by apply last_None in Eback].
    pose proof (forest_bounded _ _ _ _ F1) as Hb1.
    pose proof (forest_ranges_ok _ _ _ _ F1) as Hr1.
    assert (kept NegInf g g1 (heap t) h1) as Hk1 by (by eapply grown_kept).
    assert (same_records g g1 (heap t) h1) as Hs1.
    { eapply grown_same_records; [done|]. eapply grown_weaken; [exact W1|lia]. }
    assert (partials_ok g1 h1 H1 ub rest) as Hrest1.
    { eapply partials_ok_kept; [exact Hr| |exact HH1|exact Hrest].
      eapply kept_weaken; [exact Hk1|done]. }
    assert (NoDup (snd <$> nodes1)) as Hnd1.
    { rewrite <- child_to_inner. eapply chain_NoDup; [exact Hr1|]. apply G1. }
    assert (NoDup ((snd <$> (acc ++ nodes1)) ++ all_tops rest)) as Hnd'.
    { rewrite fmap_app, <- (assoc_L (++)).
      apply list.NoDup_app in Hnd as (N1 & N2 & N3).
      apply list.NoDup_app in N3 as (N3 & N4 & N5).
      apply list.NoDup_app. split_and!; [done| |].
      - intros p Hp Hp'. apply elem_of_app in Hp' as [Hp'|Hp'].
        + apply list_elem_of_fmap in Hp' as (e & -> & He). apply (HT1 e He). by left.
        + apply (N2 p Hp). apply elem_of_app. by right.
      - apply list.NoDup_app. split_and!; [done| |done].
        intros p Hp Hp'. apply list_elem_of_fmap in Hp as (e & -> & He).
        apply (HT1 e He). by right. }
    destruct Hacc as [(-> & -> & ->)|[Ga ->]].
    + (* the first partial tree *)
      cbv beta iota zeta.
      destruct (IH (set_heap (set_heap t h1) (heap (set_heap t h1))) g1 H1 ([] ++ nodes1)
                  (Some (snd back)) ub Hcap Hh1 Hfuel)
        as (nodes & g' & H' & h' & E2 & F2 & G2 & S2); try done.
      * eapply forest_tops; [exact F1|]. intros p. unfold tops_with, T. simpl.
        split; [intros [[?%elem_of_nil|?]|?]|intros [?|?]]; try done; eauto.
      * intros part Hp. apply Hhts. by right.
      * right. split; [done|]. simpl. by rewrite Eback.
      * by right.
      * exists nodes, g', H', h'. split_and!; try done.
        eapply same_records_trans; [exact Hs1|exact S2].
    + (* a partial tree that is linked to the ones before *)
      pose proof (group_kept _ _ _ _ _ _ _ _ Hr Hk1 Ga) as Ga1.
      destruct (gr_rspine _ _ _ _ _ _ Ga1) as (ea & Hea & Hsa). rewrite Hea. cbn [fmap option_fmap option_map].
      pose proof (group_lo_ub _ _ _ _ _ _ Ga1) as Hlo.
      destruct (gr_lspine _ _ _ _ _ _ G1) as [->|(k & e & -> & He & Hke & Hse)]; [done|].
      rewrite Efront in He. simplify_eq.
      destruct (Node_LinkVerticalBorderNodes_spec g1 H1 (tops_with T nodes1) NegInf (fst e)
                  (height - 1) h1 h1 (snd ea) (snd e) fuel F1 Hsa Hse)
        as (h2 & E2 & Hlen2 & Hout2 & Hin2); [lia|done|done|].
      cbn [heap set_heap]. rewrite E2.
      destruct (link_forest g1 h1 h2 H1 (tops_with T nodes1) NegInf (fst e) (height - 1)
                  (snd ea) (snd e) F1 Hsa Hse)
        as (F2 & K2 & R2 & Hi2 & Hl2); try done.
      { left. left. apply list_elem_of_fmap. exists ea. split; [done|].
        rewrite last_lookup in Hea. by eapply list_elem_of_lookup_2. }
      assert (group g1 h2 NegInf ub (height - 1) (acc ++ nodes1)) as G2.
      { eapply (group_link g1 h1 h2 NegInf ub (fst e) (height - 1) acc nodes1 (snd ea) (snd e));
          try done.
        - by rewrite Hea.
        - by rewrite Efront. }
      destruct (IH (set_heap (set_heap t h1) h2) g1 H1 (acc ++ nodes1)
                  (Some (snd back)) ub Hcap Hh1 Hfuel)
        as (nodes & g' & H' & h' & E3 & F3 & G3 & S3); try done.
      * eapply forest_tops; [exact F2|]. intros p. unfold tops_with, T.
        rewrite fmap_app, elem_of_app. tauto.
      * eapply (partials_ok_kept g1 g1 h1 h2 H1 H1); [exact Hr1| |lia|exact Hrest1].
        eapply kept_weaken; [exact K2|]. apply blt_ble. by eapply group_lo_ub.
      * intros part Hp. apply Hhts. by right.
      * right. split; [done|]. rewrite last_app, Eback. done.
      * right. destruct acc; [exact Hne1|done].
      * exists nodes, g', H', h'. split_and!; try done.
        eapply same_records_trans; [exact Hs1|].
        eapply same_records_trans; [|exact S3]. split_and!; [done| |done].
        intros p x m _ Hm. destruct (R2 _ _ Hm) as (m' & Hm' & E). exists m'.
        split; [done|]. unfold leaf_records. by rewrite E.
Qed.

(** ** The root *)
Lemma max_height_ge (parts : list (nat * list (Key * ptr))) : ∀ a,
  a ≤ foldl (λ height p, if height <? fst p then fst p else height) a parts ∧
  ∀ part, part ∈ parts →
    fst part ≤ foldl (λ height p, if height <? fst p then fst p else height) a parts.
Proof.
  induction parts as [|p parts IH]; intros a; simpl.
  - split; [done|]. by intros part ?%elem_of_nil.
  - destruct (IH (if a <? fst p then fst p else a)) as [H1 H2]. split.
    + destruct (Nat.ltb_spec a (fst p)); lia.
    + intros part [E|Hp]%elem_of_cons; [|by apply H2]. subst p.
      destruct (Nat.ltb_spec a (fst part)); lia.
Qed.

Lemma node_ok_level g h H H' lvl lo n :
  node_ok g h H lvl lo n → lvl ≤ H' → node_ok g h H' lvl lo n.
Proof. intros (? & ? & ? & ? & ?) HH. split_and!; done. Qed.

(** The pages of a forest are not above its top pages. *)
Lemma forest_levels g h H T L :
  forest g h H T → (∀ p l b, T p → g p = Some (l, b) → l ≤ L) →
  ∀ p l b, g p = Some (l, b) → l ≤ L.
Proof.
  intros Hf HT.
  assert (∀ d p l b, g p = Some (l, b) → H - l ≤ d → l ≤ L) as Hind.
  { induction d as [|d IH]; intros p l b Hg Hd.
    - destruct (fr_parent _ _ _ _ Hf _ _ Hg) as [Ht|(q & lq & bq & nq & Hgq & Hq & Hc)].
      { by eapply HT. }
      destruct (fr_nodes _ _ _ _ Hf _ _ _ Hgq) as (n & Hn & Hok). simplify_eq.
      apply list_elem_of_fmap in Hc as (c & -> & Hc).
      destruct (node_ok_children _ _ _ _ _ _ _ Hok Hc) as (l' & b' & nc & -> & Hgc & _).
      rewrite Hg in Hgc. simplify_eq. destruct Hok as (_ & _ & ? & _). lia.
    - destruct (fr_parent _ _ _ _ Hf _ _ Hg) as [Ht|(q & lq & bq & nq & Hgq & Hq & Hc)].
      { by eapply HT. }
      destruct (fr_nodes _ _ _ _ Hf _ _ _ Hgq) as (n & Hn & Hok). simplify_eq.
      apply list_elem_of_fmap in Hc as (c & -> & Hc).
      destruct (node_ok_children _ _ _ _ _ _ _ Hok Hc) as (l' & b' & nc & -> & Hgc & _).
      rewrite Hg in Hgc. simplify_eq.
      assert (S l' ≤ L); [|lia]. eapply IH; [exact Hgq|].
      destruct Hok as (_ & _ & ? & _). lia. }
  intros p l b Hg. by eapply (Hind (H - l)).
Qed.

Lemma chain_ok_head_key h g lvl lo c cs hi nx k :
  chain_ok h g lvl lo (c :: cs) hi nx →
  chain_ok h g lvl lo (mkInnerRec k (child c) :: cs) hi nx.
Proof. intros Hc. apply chain_ok_cons in Hc. by apply chain_ok_cons. Qed.

(** A forest with one top page is a tree once the first key of the root
    is removed. *)
Lemma finish_inv g h H T L k root ub :
  forest g h H T → (∀ p, T p ↔ p = root) → group g h NegInf ub L [(k, root)] →
  ∃ h', Node_RemoveLeftmostKeys h root = Some h' ∧ inv g h' root L ∧
        same_records g g h h'.
Proof.
  intros Hf HT [G1 _ _]. cbn [to_inner map] in G1.
  apply chain_ok_cons in G1 as ((n & Hn & Hhi & Hnx) & Hg & _). cbn [child fst snd] in *.
  assert (high_key n = None) as Hhk by (by destruct (high_key n)).
  assert (∀ p l b, g p = Some (l, b) → l ≤ L) as Hlv.
  { eapply forest_levels; [done|]. intros p l b Hp Hgp. apply HT in Hp. subst p.
    rewrite Hg in Hgp. simplify_eq. done. }
  assert (inv g h root L) as Hinv.
  { split.
    - done.
    - eauto.
    - intros p l b Hgp. destruct (fr_nodes _ _ _ _ Hf _ _ _ Hgp) as (m & Hm & Hok).
      exists m. split; [done|]. eapply node_ok_level; [done|]. by eapply Hlv.
    - intros p l b Hgp. destruct (fr_parent _ _ _ _ Hf _ _ Hgp) as [Ht|[q Hq]].
      + left. by apply HT.
      + right. exact (ex_intro _ q Hq). }
  unfold Node_RemoveLeftmostKeys. rewrite Hn.
  destruct (records n) as [rs|[|c cs]] eqn:Erec.
  - exists h. split_and!; [done|done|apply same_records_refl].
  - exists h. split_and!; [done|done|apply same_records_refl].
  - eexists. split; [done|].
    set (n' := set_records n (InnerRecords (mkInnerRec None (child c) :: cs))).
    destruct (inv_node _ _ _ _ _ _ _ Hinv Hg) as (m & Hm & Hok). simplify_eq.
    split.
    + eapply inv_update; [done|done|done|done| |].
      * unfold inner_records. cbn. by rewrite Erec.
      * eapply node_ok_same_link; [exact Hok|done|done|done|].
        destruct Hok as (_ & _ & _ & _ & Hb). rewrite Erec in Hb.
        destruct Hb as (lvl' & nx & -> & Hc & Hk). cbn.
        exists lvl', nx. split_and!; [done| |by right].
        by apply chain_ok_head_key.
    + split_and!; [done| |done].
      intros p x m Hgp Hm. destruct (decide (p = root)) as [->|Hne].
      * simplify_eq. exists n'. split; [|by (unfold leaf_records; cbn; rewrite Erec)].
        apply list_lookup_insert_eq. by eapply lookup_lt_Some.
      * exists m. by rewrite list_lookup_insert_ne.
Qed.

Lemma forest_empty h : forest no_ghost h 0 (λ _, False).
Proof.
  split; try done.
  - intros x q q' (? & ? & ? & ? & _). done.
Qed.

(** The layers below the root: one partial tree that holds the
    entries. *)
Lemma Bulkload_built t (es : list (Key * Payload)) thread_num :
  1 ≤ kLeafNodeCap → 2 ≤ kInnerNodeCap → es ≠ [] →
  keys_in NegInf (fst <$> es) PosInf →
  ∃ nodes g H L h1,
    (if (thread_num <=? 1) || (length es <? thread_num) then
       (λ '(_, nodes, t1), (nodes, t1)) <$> BulkloadWithSingleThread t es
     else
       match load_partial_trees thread_num 0 (length es) thread_num t es with
       | None => None
       | Some (partial_trees, t1) =>
           link_partial_trees (max_height partial_trees) (max_height partial_trees)
             t1 partial_trees [] None
       end) = Some (nodes, set_heap t h1) ∧
    forest g h1 H (λ p, p ∈ snd <$> nodes) ∧ group g h1 NegInf PosInf L nodes ∧
    leaves_from g h1 es ∧ leaves_have g h1 es.
Proof.
  intros Hlc Hic Hes Hk.
  pose proof (forest_empty (heap t)) as Hf0.
  assert (leaves_from no_ghost (heap t) []) as LF0 by (intros p lo n r Hg; done).
  assert (leaves_have no_ghost (heap t) []) as LH0 by (intros e He; by apply elem_of_nil in He).
  destruct ((thread_num <=? 1) || (length es <? thread_num)) eqn:Ecase.
  - destruct (BulkloadWithSingleThread_spec t no_ghost 0 (λ _, False) es NegInf PosInf
                Hlc Hic Hf0 Hes Hk)
      as (g1 & H1 & L & nodes & h1 & E1 & F1 & G1 & _ & _ & _ & _ & LF1 & LH1); [by left|].
    rewrite E1. exists nodes, g1, H1, L, h1. split_and!; try done.
    + eapply forest_tops; [exact F1|]. intros p. unfold tops_with. tauto.
    + by apply (LF1 []).
    + by apply (LH1 []).
  - apply orb_false_iff in Ecase as [E1 E2].
    apply Nat.leb_gt in E1. apply Nat.ltb_ge in E2.
    destruct (load_partial_trees_spec (length es) thread_num thread_num 0 t no_ghost 0
                (λ _, False) es NegInf Hlc Hic)
      as (parts & g1 & H1 & h1 & EL & F1 & P1 & ND1 & _ & _ & _ & Hlen & LF1 & LH1);
      try done; try lia.
    { by rewrite shares_all by lia. }
    { destruct es; [done|]. by left. }
    rewrite EL.
    destruct (max_height_ge parts 1) as [Hm1 Hm2]. fold (max_height parts) in Hm1, Hm2.
    destruct (link_partial_trees_spec (max_height parts) (max_height parts) parts
                (set_heap t h1) g1 H1 [] None NegInf)
      as (nodes & g2 & H2 & h2 & E2' & F2 & G2 & S2); try done; try lia.
    + eapply forest_tops; [exact F1|]. intros p. simpl.
      split; [intros [?|?]|intros [?%elem_of_nil|?]]; try done; eauto.
    + by left.
    + left. intros ->. simpl in Hlen. lia.
    + rewrite E2'. exists nodes, g2, H2, (max_height parts - 1), h2.
      pose proof (forest_bounded _ _ _ _ F1) as Hb1.
      split_and!; try done.
      * eapply leaves_from_same; [exact S2|exact Hb1|]. by apply (LF1 []).
      * eapply leaves_have_same; [exact S2|]. by apply (LH1 []).
Qed.

(** [Bulkload] returns a well-formed tree whose leaves hold the
    entries. *)
Lemma Bulkload_spec t (es : list (Key * Payload)) thread_num :
  1 ≤ kLeafNodeCap → 2 ≤ kInnerNodeCap → es ≠ [] →
  keys_in NegInf (fst <$> es) PosInf →
  ∃ tb g H,
    Bulkload t es thread_num = Some (kSuccess, tb) ∧
    inv g (heap tb) (root_ tb) H ∧
    leaves_from g (heap tb) es ∧ leaves_have g (heap tb) es ∧
    gc_guards tb = gc_guards t ∧ gc_garbage tb = gc_garbage t ∧
    root_trace tb =
      root_trace t ++ [RootStore memory_order_seq_cst (root_ tb);
                       RootLoad memory_order_seq_cst].
Proof.
  intros Hlc Hic Hes Hk. unfold Bulkload.
  rewrite bool_decide_false by done.
  destruct (Bulkload_built t es thread_num Hlc Hic Hes Hk)
    as (nodes & g & H & L & h1 & E1 & F1 & G1 & LF1 & LH1).
  cbv zeta. rewrite E1.
  rewrite (build_upper_layers_height _ _ _ (S L)).
  destruct (layers_spec upper_layers (λ n, n <=? 1) NegInf PosInf Hic)
    with (fuel := length nodes) (t := set_heap t h1) (g := g) (H := H) (T := λ _ : ptr, False)
         (nodes := nodes) (L := L)
    as (g' & H' & L' & nodes' & h' & E2 & F2 & G2 & _ & W2 & _ & _ & _ & Estop);
    try done.
  - intros n Hn. by apply Nat.leb_le.
  - apply upper_layers_eq.
  - eapply forest_tops; [exact F1|]. intros p. unfold tops_with. tauto.
  - by intros e _ ?.
  - lia.
  - rewrite E2. cbn [fmap option_fmap option_map fst snd].
    apply Nat.leb_le in Estop.
    pose proof (group_nonempty _ _ _ _ _ _ G2) as Hne.
    destruct nodes' as [|[k root] [|? ?]]; [done| |simpl in Estop; lia].
    cbn [head].
    destruct (finish_inv g' h' H' (tops_with (λ _, False) [(k, root)]) L' k root PosInf F2)
      as (h'' & E3 & Hinv & S3); [|done|].
    { intros p. unfold tops_with. simpl. rewrite list_elem_of_singleton. tauto. }
    cbn [heap root_ root_store root_load set_heap]. rewrite E3.
    cbn [fmap option_fmap option_map].
    eexists _, g', L'. split; [done|].
    cbn [heap root_ set_heap root_store gc_guards gc_garbage root_trace].
    pose proof (forest_bounded _ _ _ _ F1) as Hb1.
    pose proof (forest_bounded _ _ _ _ F2) as Hb2.
    assert (same_records g g' h1 h') as S2.
    { eapply grown_same_records; [done|]. eapply grown_weaken; [exact W2|lia]. }
    split_and!; try done.
    + eapply leaves_from_same; [exact S3|exact Hb2|].
      eapply leaves_from_same; [exact S2|exact Hb1|done].
    + eapply leaves_have_same; [exact S3|]. eapply leaves_have_same; [exact S2|done].
    + by rewrite <- app_assoc.
Qed.

End Bulk.

Section Interface.
Context {cfg : Params}.

Lemma BTree_new_inv : inv ghost_new (heap BTree_new) (root_ BTree_new) 0.
Proof.
  split.
  - done.
  - by exists (Node_new false).
  - intros p lvl lo Hp. unfold ghost_new in Hp. case_decide as E; [|done].
    subst p. injection Hp as <- <-. exists (Node_new false). split; [done|].
    unfold node_ok. simpl. done.
  - intros p lvl lo Hp. unfold ghost_new in Hp. case_decide as E; [|done]. by left.
Qed.

Lemma BTree_new_ok : tree_ok BTree_new 0.
Proof.
  split; [exists ghost_new; apply BTree_new_inv|].
  intros p n Hp. destruct p as [|p]; [|done]. simpl in Hp. injection Hp as <-.
  simpl. lia.
Qed.

Lemma BTree_new_stores K : stores BTree_new K None.
Proof.
  exists ghost_new, 0. split; [apply BTree_new_inv|].
  exists 0, (Node_new false). split; [|done].
  exists NegInf. done.
Qed.

(** Every key has a value (or none) in a well-formed tree. *)
Lemma stores_total t H K : tree_ok t H → ∃ v, stores t K v.
Proof.
  intros [(g & Hinv) _]. destruct (holds_total _ _ _ _ K Hinv) as (v & Hv).
  exists v, g, H. done.
Qed.

Lemma stores_holds g t H K v :
  inv g (heap t) (root_ t) H → stores t K v → holds g (heap t) K v.
Proof.
  intros Hinv Hs. destruct (holds_total _ _ _ _ K Hinv) as (v' & Hv').
  assert (stores t K v') as Hs' by (by exists g, H).
  by rewrite (stores_unique _ _ _ _ Hs Hs').
Qed.

Lemma leaf_tree_inv rs :
  keys_in NegInf (rec_key <$> rs) PosInf →
  inv ghost_new (heap (leaf_tree rs)) (root_ (leaf_tree rs)) 0.
Proof.
  intros Hk. split.
  - done.
  - by eexists.
  - intros p lvl lo Hp. unfold ghost_new in Hp. case_decide as E; [|done].
    subst p. injection Hp as <- <-. eexists. split; [done|].
    unfold node_ok. simpl. done.
  - intros p lvl lo Hp. unfold ghost_new in Hp. case_decide as E; [|done]. by left.
Qed.

Lemma leaf_tree_ok rs :
  keys_in NegInf (rec_key <$> rs) PosInf → tree_ok (leaf_tree rs) 0.
Proof.
  intros Hk. split; [exists ghost_new; by apply leaf_tree_inv|].
  intros p n Hp. destruct p as [|p]; [|done]. simpl in Hp. injection Hp as <-.
  simpl. lia.
Qed.

Lemma leaf_tree_stores rs K :
  keys_in NegInf (rec_key <$> rs) PosInf →
  stores (leaf_tree rs) K (rec_payload <$> find_live K rs).
Proof.
  intros Hk. exists ghost_new, 0. split; [by apply leaf_tree_inv|].
  exists 0, (mkNode false 0 0 None None (LeafRecords rs)). split; [|done].
  exists NegInf. done.
Qed.

(** ** The operations on well-formed trees *)
Lemma tree_ok_observed t H : tree_ok t H → tree_ok (observed t) H.
Proof. done. Qed.

Lemma stores_observed t K v : stores t K v ↔ stores (observed t) K v.
Proof. done. Qed.

Lemma Read_ok t H K v fuel :
  tree_ok t H → H < fuel → stores t K v →
  ∃ info, Read fuel t K = Some (v, info, observed t).
Proof.
  intros [(g & Hinv) _] Hfuel Hs.
  destruct (Read_spec g t H K v fuel Hinv Hfuel) as (p & n & E & _); [|by eauto].
  by eapply stores_holds.
Qed.

Lemma Write_ok t H K V fuel :
  2 ≤ kMaxRecNum → tree_ok t H → H + 2 ≤ fuel →
  ∃ t' H',
    Write fuel t K V = Some (kSuccess, t') ∧ tree_ok t' H' ∧ H ≤ H' ≤ S H ∧
    (∀ K' v, stores t K' v → stores t' K' (if decide (K' = K) then Some V else v)) ∧
    gc_guards t' = gc_guards t.
Proof.
  intros Hmax [(g & Hinv) Hcaps] Hfuel.
  destruct (Write_spec g t H K V fuel Hmax Hinv Hcaps Hfuel)
    as (t' & g' & H' & E & Hinv' & Hcaps' & HH & Hholds & _ & Hgc).
  exists t', H'. split_and!; try done; try lia.
  - split; [by exists g'|done].
  - intros K' v Hs. exists g', H'. split; [done|]. apply Hholds. by eapply stores_holds.
Qed.

Lemma Delete_ok t H K fuel :
  tree_ok t H → 2 * H + 3 ≤ fuel →
  ∃ rc t' H',
    Delete fuel t K = Some (rc, t') ∧ tree_ok t' H' ∧ H' ≤ H ∧
    (∀ K' v, stores t K' v → stores t' K' (if decide (K' = K) then None else v)) ∧
    (∀ v0, stores t K (Some v0) → rc = kSuccess) ∧
    (stores t K None → rc = kKeyNotExist) ∧
    gc_guards t' = gc_guards t.
Proof.
  intros [(g & Hinv) Hcaps] Hfuel.
  destruct (holds_total _ _ _ _ K Hinv) as ([v0|] & Hv).
  - destruct (Delete_present g t H K v0 fuel Hinv Hcaps Hfuel Hv)
      as (t' & g' & H' & E & Hinv' & Hcaps' & HH & Hholds & Hgc).
    exists kSuccess, t', H'. split_and!; try done.
    + split; [by exists g'|done].
    + intros K' v Hs. exists g', H'. split; [done|]. apply Hholds. by eapply stores_holds.
    + intros Hs. pose proof (stores_holds _ _ _ _ _ Hinv Hs) as Hv'.
      by pose proof (holds_unique _ _ _ _ _ _ _ Hinv Hv Hv').
  - exists kKeyNotExist, (observed t), H. split_and!; try done.
    + apply (Delete_absent g t H K fuel Hinv); [lia|done].
    + split; [by exists g|done].
    + intros K' v Hs. case_decide as E; [|done]. subst K'.
      by exists g, H.
    + intros v0 Hs. pose proof (stores_holds _ _ _ _ _ Hinv Hs) as Hv'.
      by pose proof (holds_unique _ _ _ _ _ _ _ Hinv Hv Hv').
Qed.

End Interface.

Lemma assoc_elem lo hi es k v :
  keys_in lo (fst <$> es) hi → (k, v) ∈ es → assoc k es = Some v.
Proof.
  revert lo. induction es as [|e es IH]; intros lo Hk Hin; [by apply elem_of_nil in Hin|].
  destruct Hk as (H1 & H2 & H3). simpl.
  apply elem_of_cons in Hin as [<-|Hin].
  - simpl. by rewrite Z.eqb_refl.
  - pose proof (keys_in_Forall _ _ _ H3) as F3. rewrite list.Forall_forall in F3.
    destruct (F3 k) as [Hle _]; [apply list_elem_of_fmap; by exists (k, v)|].
    unfold ble in Hle. destruct (Z.eqb_spec (fst e) k); [lia|]. by eapply IH.
Qed.

Lemma assoc_Some es k v : assoc k es = Some v → (k, v) ∈ es.
Proof.
  induction es as [|e es IH]; [done|]. simpl.
  destruct (Z.eqb_spec (fst e) k) as [<-|Hne].
  - intros [= <-]. destruct e. left.
  - intros Ha. right. by apply IH.
Qed.

(** Two ascending lists with the same members are equal. *)
Lemma sorted_members_eq (l1 : list (Key * Payload)) : ∀ l2 lo,
  keys_in lo (fst <$> l1) PosInf → keys_in lo (fst <$> l2) PosInf →
  (∀ x, x ∈ l1 ↔ x ∈ l2) → l1 = l2.
Proof.
  induction l1 as [|x1 l1 IH]; intros l2 lo K1 K2 Hm.
  - destruct l2 as [|x2 l2]; [done|]. exfalso.
    assert (x2 ∈ []) as Hx by (apply Hm; left). by apply elem_of_nil in Hx.
  - destruct l2 as [|x2 l2].
    { exfalso. assert (x1 ∈ []) as Hx by (apply Hm; left). by apply elem_of_nil in Hx. }
    destruct K1 as (A1 & A2 & A3). destruct K2 as (B1 & B2 & B3).
    pose proof (keys_in_Forall _ _ _ A3) as FA. rewrite list.Forall_forall in FA.
    pose proof (keys_in_Forall _ _ _ B3) as FB. rewrite list.Forall_forall in FB.
    assert (∀ (x : Key * Payload) (l : list (Key * Payload)), x ∈ l → fst x ∈ fst <$> l)
      as Hfst by (intros x l Hx; apply list_elem_of_fmap; eauto).
    assert (x1 = x2) as ->.
    { assert (x1 ∈ x2 :: l2) as H1 by (apply Hm; left).
      assert (x2 ∈ x1 :: l1) as H2 by (apply Hm; left).
      apply elem_of_cons in H1 as [?|H1]; [done|].
      apply elem_of_cons in H2 as [?|H2]; [done|].
      destruct (FB _ (Hfst _ _ H1)) as [Hb _]. destruct (FA _ (Hfst _ _ H2)) as [Ha _].
      unfold ble in *. lia. }
    f_equal. apply (IH l2 (Fin (fst x2 + 1))); try done.
    intros x. split; intros Hx.
    + assert (x ∈ x2 :: l2) as H1 by (apply Hm; by right).
      apply elem_of_cons in H1 as [->|H1]; [|done].
      destruct (FA _ (Hfst _ _ Hx)) as [Ha _]. unfold ble in Ha. lia.
    + assert (x ∈ x2 :: l1) as H1 by (apply Hm; by right).
      apply elem_of_cons in H1 as [->|H1]; [|done].
      destruct (FB _ (Hfst _ _ Hx)) as [Hb _]. unfold ble in Hb. lia.
Qed.

Section Refinement.
Context {cfg : Params}.

(** What a bulk-loaded tree holds. *)
Lemma bulk_holds g h root H es K :
  inv g h root H → leaves_from g h es → leaves_have g h es →
  keys_in NegInf (fst <$> es) PosInf →
  holds g h K (assoc K es).
Proof.
  intros Hinv LF LH Hk.
  destruct (holds_total _ _ _ _ K Hinv) as (v & Hv).
  assert (v = assoc K es) as <-; [|done].
  pose proof Hv as (p & n & Hl & Ev).
  pose proof Hl as (lo & Hg & Hn & Hr).
  destruct (find_live K (leaf_records n)) as [r|] eqn:Ef.
  - destruct (find_live_key _ _ _ Ef) as [Ek Ed].
    destruct (LF _ _ _ _ Hg Hn (find_live_elem _ _ _ Ef)) as [_ Hin].
    rewrite Ek in Hin. rewrite (assoc_elem _ _ _ _ _ Hk Hin). by rewrite <- Ev.
  - simpl in Ev. subst v. destruct (assoc K es) as [v'|] eqn:Ea; [|done]. exfalso.
    apply assoc_Some in Ea.
    destruct (LH _ Ea) as (p' & lo' & n' & Hg' & Hn' & Hr'). cbn [fst snd] in Hr'.
    destruct (inv_node _ _ _ _ _ _ _ Hinv Hg') as (m & Hm & Hok). simplify_eq.
    destruct (node_ok_leaf _ _ _ _ _ Hok) as (rs & Erec & _ & Hkeys).
    assert (leaf_records n' = rs) as Elr by (unfold leaf_records; by rewrite Erec).
    rewrite Elr in Hr'.
    assert (in_range lo' K (hi_of (high_key n'))) as Hr2.
    { apply keys_in_Forall in Hkeys. rewrite list.Forall_forall in Hkeys.
      apply (Hkeys K). apply list_elem_of_fmap. by exists (mkLeafRec K v' false). }
    assert (leaf_for g h K p' n') as Hl' by (by exists lo').
    destruct (leaf_for_unique _ _ _ _ _ _ _ _ _ Hinv Hl Hl') as [-> ->].
    rewrite Elr in Ef.
    pose proof (find_live_sorted _ _ _ _ Hkeys Hr' eq_refl) as Ef'. cbn in Ef'. congruence.
Qed.

(** What the tree holds after the entries are inserted in turn: the
    first entry of a key wins. *)
Lemma insert_all_spec fuel : ∀ es t H (m : Key → option Payload),
  2 ≤ kMaxRecNum → tree_ok t H → (∀ K, stores t K (m K)) →
  H + length es + 2 ≤ fuel →
  ∃ ti H', insert_all fuel t es = Some ti ∧ tree_ok ti H' ∧
    ∀ K, stores ti K (match m K with Some x => Some x | None => assoc K es end).
Proof.
  induction es as [|e es IH]; intros t H m Hmax Hok Hst Hfuel.
  - exists t, H. split_and!; try done. intros K. specialize (Hst K). by destruct (m K).
  - cbn [insert_all]. pose proof Hok as [(g & Hinv) Hcaps].
    pose proof (stores_holds _ _ _ _ _ Hinv (Hst (fst e))) as Hh.
    destruct (m (fst e)) as [v0|] eqn:Em.
    + destruct (Insert_present g t H (fst e) (snd e) v0 fuel Hinv) as (q & n & _ & E);
        [simpl in Hfuel; lia|done|].
      rewrite E.
      destruct (IH (observed t) H m Hmax) as (ti & H' & E2 & Hok2 & Hst2).
      * by apply tree_ok_observed.
      * intros K. exact (Hst K).
      * simpl in Hfuel. lia.
      * exists ti, H'. split_and!; try done. intros K. specialize (Hst2 K).
        destruct (m K) eqn:EK; [done|]. simpl.
        destruct (Z.eqb_spec (fst e) K) as [<-|?]; [congruence|done].
    + destruct (Insert_absent g t H (fst e) (snd e) fuel Hmax Hinv Hcaps)
        as (p & np & t' & g' & H' & E & Hinv' & Hcaps' & HH & Hholds & _);
        [simpl in Hfuel; lia|done|].
      rewrite E.
      destruct (IH t' H' (λ K, if decide (K = fst e) then Some (snd e) else m K) Hmax)
        as (ti & H2 & E2 & Hok2 & Hst2).
      * split; [by exists g'|done].
      * intros K. exists g', H'. split; [done|]. apply Hholds.
        by eapply stores_holds.
      * simpl in Hfuel. lia.
      * exists ti, H2. split_and!; try done. intros K. specialize (Hst2 K).
        cbv beta in Hst2. simpl. case_decide as EK.
        -- subst K. rewrite Em. by rewrite Z.eqb_refl.
        -- destruct (m K); [done|]. destruct (Z.eqb_spec (fst e) K); [congruence|done].
Qed.

(** Two well-formed trees that hold the same records answer reads and
    scans alike. *)
Lemma same_contents_same_results tb ti gb Hb gi Hi :
  inv gb (heap tb) (root_ tb) Hb → inv gi (heap ti) (root_ ti) Hi →
  (∀ K v, holds gb (heap tb) K v → holds gi (heap ti) K v) →
  (∃ f0, ∀ fuel K, f0 ≤ fuel →
     ∃ v ib ii, Read fuel tb K = Some (v, ib, observed tb) ∧
                Read fuel ti K = Some (v, ii, observed ti)) ∧
  (∀ b e, ∃ f0, ∀ fuel, f0 ≤ fuel →
     ∃ out tb' ti', ScanAll fuel tb b e = Some (out, tb') ∧
                    ScanAll fuel ti b e = Some (out, ti')).
Proof.
  intros Hinvb Hinvi Hsame. split.
  - exists (S (max Hb Hi)). intros fuel K Hfuel.
    destruct (holds_total _ _ _ _ K Hinvb) as (v & Hv).
    destruct (Read_spec gb tb Hb K v fuel Hinvb) as (pb & nb & Eb & _); [lia|done|].
    destruct (Read_spec gi ti Hi K v fuel Hinvi) as (pi & ni & Ei & _); [lia|by apply Hsame|].
    eauto 10.
  - intros b e.
    destruct (ScanAll_spec gb tb Hb b e Hinvb) as (fb & Hfb).
    destruct (ScanAll_spec gi ti Hi b e Hinvi) as (fi & Hfi).
    exists (max fb fi). intros fuel Hfuel.
    destruct (Hfb fuel) as (outb & tb' & Eb & Sb & Mb & _); [lia|].
    destruct (Hfi fuel) as (outi & ti' & Ei & Si & Mi & _); [lia|].
    assert (outb = outi) as ->; [|eauto].
    eapply sorted_members_eq; [exact Sb|exact Si|].
    intros [k v]. rewrite Mb, Mi. split; intros (Hh & ? & ?); split_and!; try done.
    + by apply Hsame.
    + destruct (holds_total _ _ _ _ k Hinvb) as (v' & Hv').
      pose proof (Hsame _ _ Hv') as Hv''.
      by rewrite (holds_unique _ _ _ _ _ _ _ Hinvi Hh Hv'').
Qed.

End Refinement.

(** * The properties of the interface *)

Section Claims.
Context {cfg : Params}.

(** C1: round trip at the public interface.  In a well-formed tree (one
    operation at a time), for every key [K] and payload [V], [Write K V]
    followed by [Read K] returns [V], and [Delete K] followed by [Read K]
    returns nothing.  Pages hold at least two records; the fuel bounds the
    loops by the height of the tree. *)
Theorem round_trip t H K V fuel :
  2 ≤ kMaxRecNum → tree_ok t H → 2 * H + 3 ≤ fuel →
  (∃ t1 info, Write fuel t K V = Some (kSuccess, t1) ∧
              Read fuel t1 K = Some (Some V, info, observed t1)) ∧
  (∃ rc t1 info, Delete fuel t K = Some (rc, t1) ∧
                 Read fuel t1 K = Some (None, info, observed t1)).
Proof.
  intros Hmax Hok Hfuel. split.
  - destruct (Write_ok t H K V fuel Hmax Hok) as (t1 & H1 & E & Hok1 & HH & Hst & _); [lia|].
    destruct (stores_total t H K Hok) as (v & Hv).
    pose proof (Hst K v Hv) as Hv1. rewrite decide_True in Hv1 by done.
    destruct (Read_ok t1 H1 K (Some V) fuel Hok1) as (info & ER); [lia|done|].
    by exists t1, info.
  - destruct (Delete_ok t H K fuel Hok Hfuel) as (rc & t1 & H1 & E & Hok1 & HH & Hst & _).
    destruct (stores_total t H K Hok) as (v & Hv).
    pose proof (Hst K v Hv) as Hv1. rewrite decide_True in Hv1 by done.
    destruct (Read_ok t1 H1 K None fuel Hok1) as (info & ER); [lia|done|].
    by exists rc, t1, info.
Qed.

Lemma leaf_split_outside t q n K V t' :
  leaf_split t q n K V t' → split_leaf t q n K V t'.
Proof.
  intros (nq & nr & Hc). exists (length (heap t)), nq, nr. split; [|done].
  intros g H Hinv. pose proof (inv_bounded _ _ _ _ Hinv) as Hb.
  destruct (g (length (heap t))) as [y|] eqn:E; [|done].
  apply Hb in E. lia.
Qed.

Lemma write_new_length K V rs :
  has_space rs = true → length (write_new K V rs) ≤ kMaxRecNum.
Proof.
  unfold has_space, write_new. intros Hs. apply Nat.ltb_lt in Hs.
  destruct (Nat.ltb_spec (length rs) kMaxRecNum).
  - pose proof (put_record_length_le K V rs). lia.
  - pose proof (put_record_length_le K V (live rs)). lia.
Qed.

Lemma stores_step g t H g' t' H' K (V : option Payload) :
  inv g (heap t) (root_ t) H → inv g' (heap t') (root_ t') H' →
  (∀ K' v, holds g (heap t) K' v →
     holds g' (heap t') K' (if decide (K' = K) then V else v)) →
  ∀ K' v, stores t K' v → stores t' K' (if decide (K' = K) then V else v).
Proof.
  intros Hinv Hinv' Hholds K' v Hs. exists g', H'. split; [done|].
  apply Hholds. by eapply stores_holds.
Qed.

(** C2: [Write] is a blind upsert that always returns success.  On a
    well-formed tree it returns success, the tree stays well formed and
    stores [V] for [K] and what it stored before for the other keys.
    What it does to the pages is decided by the leaf [q] whose range
    covers [K].  If [K] is present there, its payload is overwritten in
    place: only [q] changes and it keeps its number of slots.  If [K] is
    absent and the leaf has room, the record is put into [q], which then
    holds no more than [kMaxRecNum] records.  If [K] is absent and the
    leaf is full, the leaf is split: its live records and the new one
    are divided between [q] and a page that was no page of the tree. *)
Theorem write_upsert t H K V fuel :
  2 ≤ kMaxRecNum → tree_ok t H → H + 2 ≤ fuel →
  ∃ q n t' H',
    (∃ g, inv g (heap t) (root_ t) H ∧ leaf_for g (heap t) K q n) ∧
    stores t K (rec_payload <$> find_live K (leaf_records n)) ∧
    Write fuel t K V = Some (kSuccess, t') ∧ tree_ok t' H' ∧
    (∀ K' v, stores t K' v → stores t' K' (if decide (K' = K) then Some V else v)) ∧
    match find_live K (leaf_records n) with
    | Some _ =>
        ∃ n', heap t' = <[q := n']> (heap t) ∧ root_ t' = root_ t ∧
              leaf_records n' = put_record K V (leaf_records n) ∧
              length (leaf_records n') = length (leaf_records n)
    | None =>
        if has_space (leaf_records n)
        then ∃ n', heap t' = <[q := n']> (heap t) ∧ root_ t' = root_ t ∧
                   leaf_records n' = write_new K V (leaf_records n) ∧
                   length (leaf_records n') ≤ kMaxRecNum
        else split_leaf t q n K V t'
    end.
Proof.
  intros Hmax [(g & Hinv) Hcaps] Hfuel.
  destruct (SearchLeafNode_spec g t H K fuel Hinv) as (q & n & _ & Hl); [lia|].
  destruct (Write_at g t H K V q n fuel Hmax Hinv Hcaps Hfuel Hl)
    as (t' & g' & H' & E & Hinv' & Hcaps' & HH & Hholds & _ & _ & Hcase).
  exists q, n, t', H'. split_and!; try done.
  - by exists g.
  - exists g, H. split; [done|]. by exists q, n.
  - split; [by exists g'|done].
  - by eapply stores_step.
  - unfold Node_Write in Hcase.
    destruct (find_live K (leaf_records n)) as [r|] eqn:Efind.
    + cbn [fst snd] in Hcase. subst t'. eexists. split_and!; try done.
      unfold leaf_records at 1. simpl. eapply put_record_length. by apply find_live_slot.
    + destruct (has_space (leaf_records n)) eqn:Espace; cbn [fst snd] in Hcase.
      * subst t'. eexists. split_and!; try done. by apply write_new_length.
      * by apply leaf_split_outside.
Qed.

(** C3: [Insert] of a key that is present changes nothing in the tree
    and returns key-exists with the payload stored and the current
    version of the leaf; [Insert] of a key that is absent returns
    success with the version of the leaf after the insertion, and the
    tree stores the new payload. *)
Theorem insert_present_absent t H K V fuel :
  2 ≤ kMaxRecNum → tree_ok t H → H + 2 ≤ fuel →
  (∀ v0, stores t K (Some v0) →
     ∃ q n, heap t !! q = Some n ∧
       Insert fuel t K V = Some (kKeyExist, Some v0, (q, version n, version n), observed t)) ∧
  (stores t K None →
     ∃ q n t' H',
       Insert fuel t K V =
         Some (kSuccess, None, (q, version n, GetPreviousVersion (version n)), t') ∧
       heap t' !! q = Some n ∧ tree_ok t' H' ∧
       ∀ K' v, stores t K' v → stores t' K' (if decide (K' = K) then Some V else v)).
Proof.
  intros Hmax [(g & Hinv) Hcaps] Hfuel. split.
  - intros v0 Hs. pose proof (stores_holds _ _ _ _ _ Hinv Hs) as Hv.
    destruct (Insert_present g t H K V v0 fuel Hinv) as (q & n & Hl & E); [lia|done|].
    exists q, n. split; [|done]. by destruct Hl as (? & _ & ? & _).
  - intros Hs. pose proof (stores_holds _ _ _ _ _ Hinv Hs) as Hv.
    destruct (Insert_absent g t H K V fuel Hmax Hinv Hcaps Hfuel Hv)
      as (p & np & t' & g' & H' & E & Hinv' & Hcaps' & HH & Hholds & _ & _ & Hl).
    exists p, np, t', H'. split_and!; try done.
    + by destruct Hl as (? & _ & ? & _).
    + split; [by exists g'|done].
    + intros K' v Hs'. exists g', H'. split; [done|]. apply Hholds. by eapply stores_holds.
Qed.

(** C4: idempotence.  For a key [K] that is present, [Delete K] run twice
    returns success and then key-absent; [Update K V] run twice returns
    success twice, and leaves the tree that one run leaves, but for the
    version counter of the leaf, which every run bumps. *)
Theorem delete_update_idempotent t H K V v0 fuel :
  tree_ok t H → 2 * H + 3 ≤ fuel → stores t K (Some v0) →
  (∃ t1 t2, Delete fuel t K = Some (kSuccess, t1) ∧
            Delete fuel t1 K = Some (kKeyNotExist, t2)) ∧
  (∃ t1 t2, Update fuel t K V = Some (kSuccess, t1) ∧
            Update fuel t1 K V = Some (kSuccess, t2) ∧
            unversioned <$> heap t2 = unversioned <$> heap t1 ∧
            root_ t2 = root_ t1 ∧ gc_garbage t2 = gc_garbage t1 ∧
            gc_guards t2 = gc_guards t1).
Proof.
  intros Hok Hfuel Hs. split.
  - destruct (Delete_ok t H K fuel Hok Hfuel)
      as (rc & t1 & H1 & E & Hok1 & HH & Hst & Hrc & _).
    rewrite (Hrc _ Hs) in E.
    pose proof (Hst K _ Hs) as Hs1. rewrite decide_True in Hs1 by done.
    destruct (Delete_ok t1 H1 K fuel Hok1) as (rc2 & t2 & H2 & E2 & _ & _ & _ & _ & Hrc2 & _);
      [lia|].
    rewrite (Hrc2 Hs1) in E2. by exists t1, t2.
  - destruct Hok as [(g & Hinv) Hcaps].
    pose proof (stores_holds _ _ _ _ _ Hinv Hs) as Hv.
    destruct (Update_present g t H K V v0 fuel Hinv) as (q & n & Hl & E1 & Hinv1 & Hholds1);
      [lia|done|].
    set (n1 := bump_version (set_records n (LeafRecords (put_record K V (leaf_records n)))))
      in *.
    set (t1 := set_heap (observed t) (<[q := n1]> (heap t))) in *.
    pose proof (Hholds1 K _ Hv) as Hv1. rewrite decide_True in Hv1 by done.
    destruct (Update_present g t1 H K V V fuel Hinv1) as (q' & n' & Hl' & E2 & _);
      [lia|done|].
    assert (leaf_for g (heap t1) K q n1) as Hl1.
    { destruct Hl as (lo & Hg & Hq & Hrange). exists lo. split_and!; [done| |done].
      apply list_lookup_insert_eq. by eapply lookup_lt_Some. }
    destruct (leaf_for_unique _ _ _ _ _ _ _ _ _ Hinv1 Hl' Hl1) as [-> ->].
    eexists t1, _. split_and!; [done|exact E2|..]; try done.
    cbn [heap set_heap t1 observed]. rewrite list_insert_insert_eq.
    rewrite !list_fmap_insert. f_equal.
    unfold unversioned, n1, leaf_records. simpl. by rewrite put_record_idem.
Qed.

(** ** The codes of the interface *)
Lemma Write_code fuel t K V rc t' : Write fuel t K V = Some (rc, t') → rc = kSuccess.
Proof.
  unfold Write. intros E.
  destruct (SearchLeafNodeForWrite _ _ _) as [[stack t1]|]; [|done].
  destruct (head stack) as [node0|]; [|done].
  destruct (CheckKeyRange _ _ _ _) as [[node|]|]; try done.
  destruct (heap t1 !! node) as [n|]; [|done].
  destruct (Node_Write n K V) as [n' rc']. case_decide.
  - destruct (split_and_insert _ _ _ _ _ _) as [[[? ?] ?]|]; simpl in E; by simplify_eq.
  - by simplify_eq.
Qed.

Lemma Insert_code fuel t K V rc out info t' :
  Insert fuel t K V = Some (rc, out, info, t') → rc = kSuccess ∨ rc = kKeyExist.
Proof.
  unfold Insert. intros E.
  destruct (SearchLeafNodeForWrite _ _ _) as [[stack t1]|]; [|done].
  destruct (head stack) as [node0|]; [|done].
  destruct (Node_Insert _ _ _ _ _) as [[[h node] [[rc' ver] outp]]|]; [|done].
  repeat case_decide.
  - right. by simplify_eq.
  - destruct (split_and_insert _ _ _ _ _ _) as [[[? ?] ?]|]; simpl in E; simplify_eq.
    by left.
  - left. by simplify_eq.
Qed.

Lemma Update_code fuel t K V rc t' :
  Update fuel t K V = Some (rc, t') → rc = kSuccess ∨ rc = kKeyNotExist.
Proof.
  unfold Update. intros E.
  destruct (SearchLeafNode _ _ _) as [[node t1]|]; [|done].
  unfold Node_Update, with_locked_node in E.
  destruct (CheckKeyRange _ _ _ _) as [[q|]|]; try done.
  destruct (heap t1 !! q) as [n|]; [|done].
  unfold Node_Update_locked in E.
  destruct (find_live K (leaf_records n)); simpl in E; simplify_eq; by eauto.
Qed.

Lemma Delete_code fuel t K rc t' :
  Delete fuel t K = Some (rc, t') → rc = kSuccess ∨ rc = kKeyNotExist.
Proof.
  unfold Delete. intros E.
  destruct (SearchLeafNodeForWrite _ _ _) as [[stack t1]|]; [|done].
  destruct (head stack) as [node0|]; [|done].
  destruct (Node_Delete _ _ _ _) as [[[h node] rc']|]; [|done].
  repeat case_decide.
  - right. by simplify_eq.
  - destruct (Merge _ _ _ _) as [?|]; simpl in E; simplify_eq. by left.
  - left. by simplify_eq.
Qed.

Lemma Bulkload_code t entries n rc t' :
  Bulkload t entries n = Some (rc, t') → rc = kSuccess.
Proof.
  unfold Bulkload. intros E. case_bool_decide; [by simplify_eq|].
  repeat (case_match; try done); destruct (Node_RemoveLeftmostKeys _ _);
    simpl in E; by simplify_eq.
Qed.

(** C7: the signals exchanged inside the tree never reach a caller.
    On a well-formed tree every operation of the interface returns, and
    what it returns is decided by the leaf [q] whose range covers the
    key.  [Read] returns the payload or nothing and [Scan] its records:
    they return no code.  [Write] answers both codes of the node,
    completed and need-split, with success: the record is in the leaf,
    or the leaf has been split.  [Insert] answers key-already-inserted
    with key-exists and leaves the tree as it is, and answers completed
    and need-split with success.  [Update] passes on the code of the
    node, success or key-absent.  [Delete] answers key-not-inserted with
    key-absent, and completed and need-merge with success; after a merge
    the tree is well formed.  No node operation returns another code
    here, and every operation leaves a well-formed tree.  [Bulkload] of
    a strictly ascending list returns success.  Last, whatever the state
    of the pages, a code that is returned is one of the three of the
    interface. *)
Theorem signals_not_surfaced t H K V fuel :
  2 ≤ kMaxRecNum → tree_ok t H → 2 * H + 3 ≤ fuel →
  ∃ q n,
    (∃ g, inv g (heap t) (root_ t) H ∧ leaf_for g (heap t) K q n) ∧
    (∃ info, Read fuel t K =
               Some (rec_payload <$> find_live K (leaf_records n), info, observed t)) ∧
    (∀ b e, ∃ f0, ∀ fuel', f0 ≤ fuel' → ∃ out t', ScanAll fuel' t b e = Some (out, t')) ∧
    (∃ t' H',
       Write fuel t K V = Some (kSuccess, t') ∧ tree_ok t' H' ∧ stores t' K (Some V) ∧
       match (Node_Write n K V).2 with
       | kCompleted => heap t' = <[q := (Node_Write n K V).1]> (heap t)
       | kNeedSplit => split_leaf t q n K V t'
       | _ => False
       end) ∧
    (∃ rc out info t' H',
       Insert fuel t K V = Some (rc, out, info, t') ∧ tree_ok t' H' ∧
       match (Node_Insert_locked n K V).1.1.2 with
       | kKeyAlreadyInserted => rc = kKeyExist ∧ t' = observed t
       | kCompleted =>
           rc = kSuccess ∧ heap t' = <[q := (Node_Insert_locked n K V).1.1.1]> (heap t)
       | kNeedSplit => rc = kSuccess ∧ split_leaf t q n K V t'
       | _ => False
       end) ∧
    (∃ rc t',
       Update fuel t K V = Some (rc, t') ∧ tree_ok t' H ∧
       rc = (Node_Update_locked n K V).2 ∧ (rc = kSuccess ∨ rc = kKeyNotExist) ∧
       heap t' = <[q := (Node_Update_locked n K V).1]> (heap t)) ∧
    (∃ rc t' H',
       Delete fuel t K = Some (rc, t') ∧ tree_ok t' H' ∧ stores t' K None ∧
       match (Node_Delete_locked n K).2 with
       | kKeyNotInserted => rc = kKeyNotExist ∧ t' = observed t
       | kCompleted => rc = kSuccess ∧ heap t' = <[q := (Node_Delete_locked n K).1]> (heap t)
       | kNeedMerge => rc = kSuccess
       | _ => False
       end) ∧
    (∀ entries thread_num,
       1 ≤ kLeafNodeCap → 2 ≤ kInnerNodeCap → keys_in NegInf (fst <$> entries) PosInf →
       ∃ tb, Bulkload t entries thread_num = Some (kSuccess, tb)) ∧
    (∀ fuel0 t0 K0 V0 rc t', Write fuel0 t0 K0 V0 = Some (rc, t') → rc = kSuccess) ∧
    (∀ fuel0 t0 K0 V0 rc out info t',
       Insert fuel0 t0 K0 V0 = Some (rc, out, info, t') → rc = kSuccess ∨ rc = kKeyExist) ∧
    (∀ fuel0 t0 K0 V0 rc t',
       Update fuel0 t0 K0 V0 = Some (rc, t') → rc = kSuccess ∨ rc = kKeyNotExist) ∧
    (∀ fuel0 t0 K0 rc t',
       Delete fuel0 t0 K0 = Some (rc, t') → rc = kSuccess ∨ rc = kKeyNotExist) ∧
    (∀ t0 entries thread_num rc t',
       Bulkload t0 entries thread_num = Some (rc, t') → rc = kSuccess).
Proof.
  intros Hmax [(g & Hinv) Hcaps] Hfuel.
  destruct (SearchLeafNode_spec g t H K fuel Hinv) as (q & n & _ & Hl); [lia|].
  assert (holds g (heap t) K (rec_payload <$> find_live K (leaf_records n))) as Hv.
  { by exists q, n. }
  assert (heap t !! q = Some n) as Hq by (by destruct Hl as (? & _ & ? & _)).
  exists q, n. split; [by exists g|]. split_and!.
  - destruct (Read_spec g t H K _ fuel Hinv ltac:(lia) Hv) as (p & np & E & _).
    by eexists.
  - intros b e. destruct (ScanAll_spec g t H b e Hinv) as (f0 & Hf). exists f0.
    intros fuel' Hfuel'. destruct (Hf fuel' Hfuel') as (out & t' & E & _). by exists out, t'.
  - destruct (Write_at g t H K V q n fuel Hmax Hinv Hcaps ltac:(lia) Hl)
      as (t' & g' & H' & E & Hinv' & Hcaps' & HH & Hholds & _ & _ & Hcase).
    exists t', H'. split_and!; try done.
    + split; [by exists g'|done].
    + exists g', H'. split; [done|]. specialize (Hholds K _ Hv).
      by rewrite decide_True in Hholds.
    + unfold Node_Write in *. destruct (find_live K (leaf_records n)).
      * cbn [fst snd] in *. by subst t'.
      * destruct (has_space (leaf_records n)); cbn [fst snd] in *.
        -- by subst t'.
        -- by apply leaf_split_outside.
  - destruct (find_live K (leaf_records n)) as [r|] eqn:Efind.
    + destruct (Insert_present g t H K V (rec_payload r) fuel Hinv) as (q' & n' & Hl' & E);
        [lia|exact Hv|].
      eexists _, _, _, _, H. split; [exact E|]. split; [by split; [exists g|]|].
      unfold Node_Insert_locked. by rewrite Efind.
    + destruct (Insert_absent_at g t H K V q n fuel Hmax Hinv Hcaps ltac:(lia) Hl Efind)
        as (p & np & t' & g' & H' & E & Hinv' & Hcaps' & _ & _ & _ & _ & _ & Hcase).
      eexists _, _, _, t', H'. split; [exact E|]. split; [by split; [exists g'|]|].
      unfold Node_Insert_locked in *. rewrite Efind in *.
      destruct (has_space (leaf_records n)); cbn [fst snd] in *.
      * split; [done|]. by subst t'.
      * split; [done|]. by apply leaf_split_outside.
  - destruct (find_live K (leaf_records n)) as [r|] eqn:Efind.
    + destruct (Update_present g t H K V (rec_payload r) fuel Hinv)
        as (q' & n' & Hl' & E & Hinv' & _); [lia|exact Hv|].
      destruct (leaf_for_unique _ _ _ _ _ _ _ _ _ Hinv Hl Hl') as [<- <-].
      eexists _, _. split; [exact E|]. unfold Node_Update_locked. rewrite Efind.
      split_and!; try done; [|by left].
      split; [by exists g|]. apply caps_ok_insert; [done|]. simpl. lia.
    + exists kKeyNotExist, (observed t). unfold Node_Update_locked. rewrite Efind.
      split_and!; try done.
      * apply (Update_absent g t H K V fuel Hinv); [lia|exact Hv].
      * by split; [exists g|].
      * by right.
      * simpl. by rewrite list_insert_id.
  - destruct (find_live K (leaf_records n)) as [r|] eqn:Efind.
    + destruct (Delete_present_at g t H K q n (rec_payload r) fuel Hinv Hcaps Hfuel Hl)
        as (t' & g' & H' & E & Hinv' & Hcaps' & _ & Hholds & _ & Hcase);
        [by rewrite Efind|].
      exists kSuccess, t', H'. split_and!; try done.
      * split; [by exists g'|done].
      * exists g', H'. split; [done|]. specialize (Hholds K _ Hv).
        by rewrite decide_True in Hholds.
      * unfold Node_Delete_locked in *. rewrite Efind in *. cbn [fst snd] in *.
        destruct (length (live (mark_deleted K (leaf_records n))) <? kMinRecNum); [done|].
        split; [done|]. by subst t'.
    + exists kKeyNotExist, (observed t), H. split_and!.
      * apply (Delete_absent g t H K fuel Hinv); [lia|exact Hv].
      * by split; [exists g|].
      * exists g, H. split; [done|]. exact Hv.
      * unfold Node_Delete_locked. by rewrite Efind.
  - intros entries thread_num Hlc Hic Hk. destruct entries as [|e es].
    + by exists t.
    + destruct (Bulkload_spec t (e :: es) thread_num Hlc Hic) as (tb & _ & _ & E & _);
        [done|done|]. by exists tb.
  - intros ??????. apply Write_code.
  - intros ????????. apply Insert_code.
  - intros ??????. apply Update_code.
  - intros ?????. apply Delete_code.
  - intros ?????. apply Bulkload_code.
Qed.

Lemma sole_chain_removed h r n : ∀ path p c,
  h !! r = Some n →
  sole_chain (<[r := set_removed n]> h) p path c → sole_chain h p path c.
Proof.
  assert (∀ x m, <[r := set_removed n]> h !! x = Some m → h !! r = Some n →
            ∃ m0, h !! x = Some m0 ∧ records m0 = records m) as Hlook.
  { intros x m Hx Hr. destruct (decide (x = r)) as [->|Hne].
    - rewrite list_lookup_insert_eq in Hx by (by eapply lookup_lt_Some).
      injection Hx as <-. by exists n.
    - rewrite list_lookup_insert_ne in Hx by done. by exists m. }
  induction path as [|p' rest IH]; intros p c Hr; simpl.
  - intros (-> & nc & Hc & Hb). split; [done|].
    destruct (Hlook _ _ Hc Hr) as (m0 & Hm0 & Erec). exists m0. split; [done|].
    unfold GetRecordCount, IsInner in *. by rewrite Erec.
  - intros (-> & m & ch & Hp & Erec & Hrest). split; [done|].
    destruct (Hlook _ _ Hp Hr) as (m0 & Hm0 & Erec0). exists m0, ch.
    split_and!; [done|by rewrite Erec0|by apply IH].
Qed.

Lemma TryShrinkTree_loop_chain fuel :
  ∀ t r n c t',
    heap t !! r = Some n → IsInner n = true → GetRecordCount n = 1 →
    TryShrinkTree_loop fuel t r = Some (c, t') →
    ∃ path,
      sole_chain (heap t) r path c ∧ path ≠ [] ∧
      gc_garbage t' = gc_garbage t ++ path ∧
      (∀ p, heap t' !! p = retire path (heap t) p) ∧
      root_trace t' = root_trace t ∧ root_ t' = root_ t ∧ gc_guards t' = gc_guards t.
Proof.
  induction fuel as [|fuel IH]; intros t r n c t' Hr Hin Hone E; [done|]. simpl in E.
  unfold Node_RemoveRoot in E. tree_simpl. rewrite Hr in E.
  assert (∃ ch, records n = InnerRecords [ch]) as (ch & Erec).
  { unfold IsInner, GetRecordCount in *. destruct (records n) as [|[|ch [|??]]]; try done.
    by exists ch. }
  unfold inner_records in E. rewrite Erec in E.
  set (h1 := <[r := set_removed n]> (heap t)) in *.
  assert (∀ p, h1 !! p = retire [r] (heap t) p) as Hone'.
  { intros p. unfold retire, h1. destruct (decide (p = r)) as [->|Hne].
    - rewrite list_lookup_insert_eq by (by eapply lookup_lt_Some). rewrite Hr. simpl.
      by rewrite decide_True by apply list_elem_of_here.
    - rewrite list_lookup_insert_ne by done. destruct (heap t !! p); [|done]. simpl.
      by rewrite decide_False by (by rewrite list_elem_of_singleton). }
  destruct (h1 !! child ch) as [nc|] eqn:Hc; [|done].
  destruct ((GetRecordCount nc =? 1) && IsInner nc) eqn:Eb.
  - apply andb_true_iff in Eb as [Eb1 Eb2]. apply Nat.eqb_eq in Eb1.
    destruct (IH (set_heap (AddGarbage r t) h1) _ _ _ _ Hc Eb2 Eb1 E)
      as (path & Hch & _ & Eg & Hh & Et & Ert & Egg).
    tree_simpl. exists (r :: path). split_and!; try done.
    + simpl. split; [done|]. exists n, ch. split; [done|]. split; [done|].
      by apply (sole_chain_removed (heap t) r n path (child ch) c Hr).
    + by rewrite Eg, <- app_assoc.
    + intros p. rewrite Hh. unfold retire. rewrite Hone'. unfold retire.
      destruct (heap t !! p) as [m|]; [|done]. simpl. f_equal.
      destruct (decide (p = r)) as [->|Hne].
      * rewrite (decide_True (P := r ∈ [r])) by apply list_elem_of_here.
        rewrite (decide_True (P := r ∈ r :: path)) by apply list_elem_of_here.
        by destruct (decide (r ∈ path)).
      * rewrite (decide_False (P := p ∈ [r])) by (by rewrite list_elem_of_singleton).
        destruct (decide (p ∈ path)).
        -- by rewrite decide_True by (by apply list_elem_of_further).
        -- rewrite decide_False; [done|]. rewrite elem_of_cons. by intros [|].
  - injection E as <- <-. tree_simpl. exists [r]. split_and!; try done.
    simpl. split; [done|]. exists n, ch. split; [done|]. split; [done|].
    apply (sole_chain_removed (heap t) r n [] (child ch) (child ch) Hr).
    simpl. split; [done|]. by exists nc.
Qed.

(** C9, as the code has it.  The root pointer is one atomic reference.
    (1) [TryRootSplit] loads it with relaxed ordering and compares: only
    if it still is the split-left child, a new root over the two
    children is installed, in a page that was no page of the tree, with
    a store of release ordering; otherwise nothing changes but the trace.
    (2) The split of a full leaf by a writer whose stack of ancestors is
    stale, the tree having grown since its descent, is completed all the
    same: the tree is well formed and stores the record.  When the stack
    holds the leaf alone, as the stack of a descent through a tree of one
    page does, the root split is lost: the root is loaded relaxed, then
    loaded with acquire ordering by the descent that finds the parent
    ([lost_root_split]); only if the split reaches the root of the tree,
    a new root is published.  With a stack that is complete no root
    split is lost.
    (3) [TryShrinkTree] of a root with one child loads the root pointer
    relaxed, retires the chain of inner pages of one child that starts
    at the root, and publishes the first page below that is a leaf or
    has several children, with a store of relaxed ordering; the tree
    stays well formed and stores what it stored.  On a page that is not
    the root or has several records it only loads the root pointer.
    (4) The descents load the root with acquire ordering.
    (5) [Bulkload] stores the root it built and loads it again, both
    sequentially consistent. *)
Theorem root_publication g t H K V q n stack rest fuel ts Hs ns :
  2 ≤ kMaxRecNum →
  inv g (heap t) (root_ t) H → caps_ok (heap t) →
  leaf_for g (heap t) K q n → anc_path g (heap t) (root_ t) 0 q (stack ++ rest) →
  find_live K (leaf_records n) = None → has_space (leaf_records n) = false →
  length stack + (H + 4) ≤ fuel →
  tree_ok ts (S Hs) → heap ts !! root_ ts = Some ns → GetRecordCount ns = 1 →
  S Hs ≤ fuel →
  (∀ l r k, ∃ t',
     TryRootSplit t l r k = (bool_decide (root_ t = l), t') ∧
     gc_guards t' = gc_guards t ∧
     if decide (root_ t = l)
     then outside t (root_ t') ∧
          heap t' !! root_ t' = Some (Node_new_root k l r) ∧
          (∀ p, p ≠ root_ t' → heap t' !! p = heap t !! p) ∧
          root_trace t' =
            root_trace t ++ [RootLoad memory_order_relaxed;
                             RootStore memory_order_release (root_ t')]
     else heap t' = heap t ∧ root_ t' = root_ t ∧ gc_garbage t' = gc_garbage t ∧
          root_trace t' = root_trace t ++ [RootLoad memory_order_relaxed]) ∧
  (∃ target ver t' H' lost,
     split_and_insert fuel t (q :: stack) q K V = Some (target, ver, t') ∧
     tree_ok t' H' ∧ H ≤ H' ≤ S H ∧
     (∀ K' v, stores t K' v → stores t' K' (if decide (K' = K) then Some V else v)) ∧
     split_leaf t q n K V t' ∧
     (lost = [] ∨ lost = lost_root_split) ∧
     (stack = [] → rest ≠ [] → lost = lost_root_split) ∧
     (rest = [] → lost = []) ∧
     if decide (H' = H)
     then root_ t' = root_ t ∧ root_trace t' = root_trace t ++ lost
     else root_trace t' =
            root_trace t ++ lost ++ [RootLoad memory_order_relaxed;
                                     RootStore memory_order_release (root_ t')]) ∧
  (∃ ts' path Hs',
     TryShrinkTree fuel ts (root_ ts) = Some ts' ∧
     sole_chain (heap ts) (root_ ts) path (root_ ts') ∧ path ≠ [] ∧
     gc_garbage ts' = gc_garbage ts ++ path ∧
     (∀ p, heap ts' !! p = retire path (heap ts) p) ∧
     root_trace ts' =
       root_trace ts ++ [RootLoad memory_order_relaxed;
                         RootStore memory_order_relaxed (root_ ts')] ∧
     tree_ok ts' Hs' ∧ Hs' ≤ Hs ∧ (∀ K' v, stores ts K' v → stores ts' K' v)) ∧
  (∀ node nn,
     heap t !! node = Some nn →
     bool_decide (node = root_ t) && (GetRecordCount nn =? 1) = false →
     TryShrinkTree fuel t node =
       Some (mkBTree (heap t) (root_ t) (gc_garbage t) (gc_guards t)
               (root_trace t ++ [RootLoad memory_order_relaxed]))) ∧
  (∃ q0 t0, SearchLeafNode fuel t K = Some (q0, t0) ∧
            root_trace t0 = root_trace t ++ [RootLoad memory_order_acquire]) ∧
  (∀ entries thread_num,
     1 ≤ kLeafNodeCap → 2 ≤ kInnerNodeCap → entries ≠ [] →
     keys_in NegInf (fst <$> entries) PosInf →
     ∃ tb, Bulkload t entries thread_num = Some (kSuccess, tb) ∧
           root_trace tb =
             root_trace t ++ [RootStore memory_order_seq_cst (root_ tb);
                              RootLoad memory_order_seq_cst]).
Proof.
  intros Hmax Hinv Hcaps Hl Hpath Hnone Hfull Hfuel [(gs & Hinvs) Hcapss] Hns Hone Hfs.
  split_and!.
  - intros l r k. unfold TryRootSplit. tree_simpl. case_decide as El.
    + rewrite bool_decide_eq_true_2 by done. eexists. split; [done|]. tree_simpl.
      split; [done|]. split_and!.
      * intros g0 H0 Hinv0. pose proof (inv_bounded _ _ _ _ Hinv0) as Hb.
        destruct (g0 (length (heap t))) as [y|] eqn:E; [|done]. apply Hb in E. lia.
      * by rewrite list_lookup_middle.
      * intros p Hp. destruct (decide (p < length (heap t))).
        -- by rewrite lookup_app_l.
        -- rewrite !lookup_ge_None_2; [done|lia|rewrite length_app; simpl; lia].
      * by rewrite <- app_assoc.
    + rewrite bool_decide_eq_false_2 by done. eexists. split; [done|]. by tree_simpl.
  - assert (∃ target nt t' g' H' lost,
              split_and_insert fuel t (q :: stack) q K V = Some (target, version nt, t') ∧
              ((lost = [] ∨ lost = lost_root_split) ∧
               (stack = [] → rest ≠ [] → lost = lost_root_split) ∧
               (rest = [] → lost = [])) ∧
              inv g' (heap t') (root_ t') H' ∧ caps_ok (heap t') ∧ H ≤ H' ≤ S H ∧
              (∀ K' v, holds g (heap t) K' v →
                 holds g' (heap t') K' (if decide (K' = K) then Some V else v)) ∧
              root_grown t lost H t' H' ∧ leaf_split t q n K V t')
      as (target & nt & t' & g' & H' & lost & E & (Hl1 & Hl2 & Hl3) & Hinv' & Hcaps' & HH
          & Hholds & Hgr & Hsp).
    { destruct rest as [|P rest].
      - rewrite app_nil_r in Hpath.
        destruct (split_and_insert_spec g t H K V q n stack fuel)
          as (target & nt & t' & g' & H' & E & Hc1 & Hc2 & Hc3 & Hc4 & _ & _ & _ & Hc5 & Hc6);
          try done; [lia|].
        exists target, nt, t', g', H', []. split_and!; try done; try lia. by left.
      - destruct (split_and_insert_stale g t H K V q n stack (P :: rest) fuel)
          as (target & nt & t' & g' & H' & lost & E & (Hc0 & Hc0') & Hc1 & Hc2 & Hc3 & Hc4
              & _ & _ & _ & Hc5 & Hc6); try done.
        exists target, nt, t', g', H', lost. split_and!; try done; lia. }
    exists target, (version nt), t', H', lost. split_and!; try done; try lia.
    + split; [by exists g'|done].
    + by eapply stores_step.
    + by apply leaf_split_outside.
  - destruct (inv_node _ _ _ _ _ _ _ Hinvs (inv_root _ _ _ _ Hinvs)) as (ns' & Hns' & Hok).
    rewrite Hns in Hns'. injection Hns' as <-.
    pose proof (node_ok_IsInner _ _ _ _ _ _ Hok) as Hin.
    rewrite bool_decide_eq_true_2 in Hin by lia.
    unfold TryShrinkTree. tree_simpl. rewrite Hns.
    rewrite bool_decide_eq_true_2 by done. rewrite Hone. simpl.
    set (t1 := mkBTree _ _ _ _ _).
    destruct (TryShrinkTree_loop_spec Hs gs t1 (root_ ts) ns fuel)
      as (c & t2 & gs' & Hs' & El & Hinvs' & Hcapss' & HH & Hholds & _); try done.
    { unfold GetRecordCount in Hone. unfold inner_records.
      destruct (node_ok_inner _ _ _ _ _ _ Hok) as (cs & ? & Ercs & _).
      by rewrite Ercs in *. }
    rewrite El. simpl.
    destruct (TryShrinkTree_loop_chain _ t1 _ _ _ _ Hns Hin Hone El)
      as (path & Hch & Hne & Eg & Hh & Et & Er & Egg).
    exists (root_store memory_order_relaxed c t2), path, Hs'. unfold t1 in *.
    tree_simpl. split_and!; try done.
    + rewrite Et. by rewrite <- app_assoc.
    + split; [by exists gs'|done].
    + intros K' v Hs0. exists gs', Hs'. split; [done|]. apply Hholds.
      by eapply stores_holds.
  - intros node nn Hn Hb. unfold TryShrinkTree. tree_simpl. by rewrite Hn, Hb.
  - destruct (SearchLeafNode_spec g t H K fuel Hinv) as (q0 & nq & E & _); [lia|].
    by eexists q0, _.
  - intros entries thread_num Hlc Hic Hne Hk.
    destruct (Bulkload_spec t entries thread_num Hlc Hic Hne Hk)
      as (tb & _ & _ & E & _ & _ & _ & _ & _ & Htr). by exists tb.
Qed.

(** C10: [Bulkload] with no entries returns success and leaves the tree
    as it is: no page is allocated, the root and every record stay. *)
Theorem bulkload_empty t thread_num : Bulkload t [] thread_num = Some (kSuccess, t).
Proof. done. Qed.

(** C6: bulk equivalence.  For entries in strictly ascending order of
    the keys and every number of threads, [Bulkload] on a new tree returns
    success, and the tree it builds answers every [Read] and every scan as
    the tree does into which the entries were inserted one by one with
    [Insert]: the same payload (or none) for every key and the same list
    of records for every pair of scan keys.  Leaves take at least one
    record and inner pages at least two children when they are filled;
    the fuel bounds the loops. *)
Theorem bulk_equivalence (entries : list (Key * Payload)) (thread_num : nat) :
  2 ≤ kMaxRecNum → 1 ≤ kLeafNodeCap → 2 ≤ kInnerNodeCap →
  keys_in NegInf (fst <$> entries) PosInf →
  ∃ tb, Bulkload BTree_new entries thread_num = Some (kSuccess, tb) ∧
    ∀ fi, length entries + 2 ≤ fi →
      ∃ ti, insert_all fi BTree_new entries = Some ti ∧
        (∃ f0, ∀ fuel K, f0 ≤ fuel →
           ∃ v ib ii, Read fuel tb K = Some (v, ib, observed tb) ∧
                      Read fuel ti K = Some (v, ii, observed ti)) ∧
        (∀ b e, ∃ f0, ∀ fuel, f0 ≤ fuel →
           ∃ out tb' ti', ScanAll fuel tb b e = Some (out, tb') ∧
                          ScanAll fuel ti b e = Some (out, ti')).
Proof.
  intros Hmax Hlc Hic Hk.
  assert (∀ fi, length entries + 2 ≤ fi →
            ∃ ti gi Hi, insert_all fi BTree_new entries = Some ti ∧
                        inv gi (heap ti) (root_ ti) Hi ∧
                        ∀ K, holds gi (heap ti) K (assoc K entries)) as Hins.
  { intros fi Hfi.
    destruct (insert_all_spec fi entries BTree_new 0 (λ _, None) Hmax BTree_new_ok)
      as (ti & Hi & E & [(gi & Hinvi) _] & Hst); [apply BTree_new_stores|lia|].
    exists ti, gi, Hi. split_and!; try done. intros K.
    eapply stores_holds; [done|]. apply (Hst K). }
  destruct (decide (entries = [])) as [->|Hne].
  - exists BTree_new. split; [done|]. intros fi Hfi.
    destruct (Hins fi Hfi) as (ti & gi & Hi & E & Hinvi & _). simpl in E. simplify_eq.
    exists BTree_new. split; [done|].
    by eapply (same_contents_same_results BTree_new BTree_new gi Hi gi Hi).
  - destruct (Bulkload_spec BTree_new entries thread_num Hlc Hic Hne Hk)
      as (tb & gb & Hb & E & Hinvb & LF & LH & _).
    exists tb. split; [done|]. intros fi Hfi.
    destruct (Hins fi Hfi) as (ti & gi & Hi & Ei & Hinvi & Hhi).
    exists ti. split; [done|].
    eapply (same_contents_same_results tb ti gb Hb gi Hi); try done.
    intros K v Hv.
    pose proof (bulk_holds _ _ _ _ _ K Hinvb LF LH Hk) as Hv'.
    by rewrite (holds_unique _ _ _ _ _ _ _ Hinvb Hv Hv').
Qed.

(** C5: scan coverage.  With one operation at a time, a scan of a
    well-formed tree yields, in ascending order of the keys and each with
    its payload, exactly the records that the tree stores (so none that is
    marked deleted) and whose keys lie between the begin and the end key,
    the flags of the two keys telling whether the key itself belongs to
    the range. *)
Theorem scan_coverage t H b e :
  tree_ok t H →
  ∃ f0, ∀ fuel, f0 ≤ fuel →
    ∃ out t',
      ScanAll fuel t b e = Some (out, t') ∧
      keys_in NegInf (fst <$> out) PosInf ∧
      ∀ k v, (k, v) ∈ out ↔
             stores t k (Some v) ∧ after_begin b k = true ∧ before_end e k = true.
Proof.
  intros [(g & Hinv) _].
  destruct (ScanAll_spec g t H b e Hinv) as (f0 & Hf0).
  exists f0. intros fuel Hfuel.
  destruct (Hf0 fuel Hfuel) as (out & t' & E & Hsorted & Hmem & _).
  exists out, t'. split_and!; try done.
  intros k v. rewrite Hmem. split.
  - intros (Hh & ? & ?). split_and!; try done. by exists g, H.
  - intros (Hs & ? & ?). split_and!; try done. by eapply stores_holds.
Qed.

(** C8, as the code has it: [HasNext] skips the slots that are marked
    deleted and returns true at the first slot before the end position
    that is not; when no slot is left and the node is the last of the
    scan range, it releases the shared lock of the node and returns
    false; otherwise it moves to the right sibling under lock coupling,
    puts the position to 0, takes the end position and the flag of the
    sibling and goes on. *)
Theorem has_next_protocol fuel h it n :
  h !! node_ it = Some n →
  let pos := skip_deleted (end_pos_ it - pos_ it) n (pos_ it) in
  let it1 := mkRecordIterator (node_ it) pos (end_pos_ it) (end_key_ it) (is_end_ it) in
  (∀ i, pos_ it ≤ i < pos → Node_RecordIsDeleted n i = true) ∧
  (pos < end_pos_ it →
     Node_RecordIsDeleted n pos = false ∧ HasNext (S fuel) h it = Some (true, h, it1)) ∧
  (end_pos_ it ≤ pos → is_end_ it = true →
     HasNext (S fuel) h it = Some (false, <[node_ it := UnlockS n]> h, it1)) ∧
  (end_pos_ it ≤ pos → is_end_ it = false →
     ∀ q nq, next n = Some q → h !! q = Some nq → q ≠ node_ it →
       HasNext (S fuel) h it =
       HasNext fuel (<[node_ it := UnlockS n]> (<[q := LockS nq]> h))
         (mkRecordIterator q 0 (count_before_end (end_key_ it) (leaf_records nq))
            (end_key_ it) (Node_SearchEndPositionFor nq (end_key_ it)).1)).
Proof.
  intros Hn pos it1.
  destruct (skip_deleted_spec (end_pos_ it - pos_ it) n (pos_ it)) as ((Hp1 & Hp2) & Hdel & Hlive).
  fold pos in Hp1, Hp2, Hdel, Hlive.
  split_and!.
  - exact Hdel.
  - intros Hlt. split; [apply Hlive; lia|].
    rewrite (HasNext_S _ _ _ _ Hn). cbv zeta. fold pos.
    by destruct (Nat.ltb_spec pos (end_pos_ it)); [|lia].
  - intros Hge Hend. rewrite (HasNext_S _ _ _ _ Hn). cbv zeta. fold pos.
    destruct (Nat.ltb_spec pos (end_pos_ it)); [lia|]. rewrite Hend.
    unfold Node_ReleaseSharedLock. rewrite Hn. unfold it1. by rewrite Hend.
  - intros Hge Hend q nq Hnx Hq Hne. rewrite (HasNext_S _ _ _ _ Hn). cbv zeta. fold pos.
    destruct (Nat.ltb_spec pos (end_pos_ it)); [lia|]. rewrite Hend.
    unfold Node_GetNextNodeForRead. rewrite Hn, Hnx, Hq.
    rewrite list_lookup_insert_ne by done.
    rewrite list_lookup_insert_eq by (by eapply lookup_lt_Some). done.
Qed.

End Claims.

(** * Examples

    The properties above at concrete trees: pages of four records, a
    leaf that is full, keys that cause a split or a merge. *)

Section Examples.
#[local] Existing Instance cfg4.

Lemma four_sorted : keys_in NegInf (rec_key <$> four) PosInf.
Proof. simpl. unfold ble, blt. lia. Qed.

Lemma holed_sorted : keys_in NegInf (rec_key <$> holed) PosInf.
Proof. simpl. unfold ble, blt. lia. Qed.

Lemma round_trip_witness :
  (∃ t1 info, Write 5 (leaf_tree four) 5 50 = Some (kSuccess, t1) ∧
              Read 5 t1 5 = Some (Some 50%Z, info, observed t1)) ∧
  (∃ rc t1 info, Delete 5 (leaf_tree four) 5 = Some (rc, t1) ∧
                 Read 5 t1 5 = Some (None, info, observed t1)).
Proof.
  apply (round_trip (leaf_tree four) 0 5 50 5);
    [simpl; lia|apply leaf_tree_ok, four_sorted|lia].
Defined.

Lemma insert_present_absent_witness :
  (∀ v0, stores (leaf_tree four) 3 (Some v0) →
     ∃ q n, heap (leaf_tree four) !! q = Some n ∧
       Insert 5 (leaf_tree four) 3 33 =
         Some (kKeyExist, Some v0, (q, version n, version n), observed (leaf_tree four))) ∧
  (stores (leaf_tree four) 3 None →
     ∃ q n t' H',
       Insert 5 (leaf_tree four) 3 33 =
         Some (kSuccess, None, (q, version n, GetPreviousVersion (version n)), t') ∧
       heap t' !! q = Some n ∧ tree_ok t' H' ∧
       ∀ K' v, stores (leaf_tree four) K' v →
               stores t' K' (if decide (K' = 3%Z) then Some 33%Z else v)).
Proof.
  apply (insert_present_absent (leaf_tree four) 0 3 33 5);
    [simpl; lia|apply leaf_tree_ok, four_sorted|lia].
Defined.

Lemma delete_update_idempotent_witness :
  (∃ t1 t2, Delete 5 (leaf_tree four) 3 = Some (kSuccess, t1) ∧
            Delete 5 t1 3 = Some (kKeyNotExist, t2)) ∧
  (∃ t1 t2, Update 5 (leaf_tree four) 3 33 = Some (kSuccess, t1) ∧
            Update 5 t1 3 33 = Some (kSuccess, t2) ∧
            unversioned <$> heap t2 = unversioned <$> heap t1 ∧
            root_ t2 = root_ t1 ∧ gc_garbage t2 = gc_garbage t1 ∧
            gc_guards t2 = gc_guards t1).
Proof.
  apply (delete_update_idempotent (leaf_tree four) 0 3 33 30 5);
    [apply leaf_tree_ok, four_sorted|lia|exact (leaf_tree_stores four 3 four_sorted)].
Defined.

Lemma scan_coverage_witness :
  ∃ f0, ∀ fuel, f0 ≤ fuel →
    ∃ out t',
      ScanAll fuel (leaf_tree holed) (Some (1%Z, false)) (Some (3%Z, true)) = Some (out, t') ∧
      keys_in NegInf (fst <$> out) PosInf ∧
      ∀ k v, (k, v) ∈ out ↔
             stores (leaf_tree holed) k (Some v) ∧
             after_begin (Some (1%Z, false)) k = true ∧
             before_end (Some (3%Z, true)) k = true.
Proof.
  apply (scan_coverage (leaf_tree holed) 0); apply leaf_tree_ok, holed_sorted.
Defined.

(** The scan of the example yields the one record that is live and in
    the range. *)
Lemma scan_example :
  fst <$> ScanAll 3 (leaf_tree holed) (Some (1%Z, false)) (Some (3%Z, true))
  = Some [(3%Z, 30%Z)].
Proof. vm_compute. reflexivity. Qed.

(** Against C9 as the specification has it: the shrink of a tree reads
    the root with relaxed ordering and publishes the new root with
    relaxed ordering, and the split of a root reads the root with relaxed
    ordering. *)
Lemma root_accesses_relaxed :
  (∃ t', TryShrinkTree 1 lonely_root 1 = Some t' ∧ root_ t' = 0 ∧
         root_trace t' = [RootLoad memory_order_relaxed;
                          RootStore memory_order_relaxed 0] ∧
         ¬ Forall release_acquire (root_trace t')) ∧
  (∃ t', TryRootSplit (leaf_tree four) 0 1 3 = (true, t') ∧
         root_trace t' = [RootLoad memory_order_relaxed;
                          RootStore memory_order_release 1] ∧
         ¬ Forall release_acquire (root_trace t')).
Proof.
  split.
  - eexists. split; [vm_compute; reflexivity|]. split_and!; [done|done|].
    intros Hall. apply Forall_cons_1 in Hall as [Hl _]. done.
  - eexists. split; [vm_compute; reflexivity|]. split; [done|].
    intros Hall. apply Forall_cons_1 in Hall as [Hl _]. done.
Qed.

Lemma five_sorted : keys_in NegInf (fst <$> five) PosInf.
Proof. simpl. unfold ble, blt. lia. Qed.

Lemma bulk_equivalence_witness :
  ∃ tb, Bulkload BTree_new five 2 = Some (kSuccess, tb) ∧
    ∀ fi, length five + 2 ≤ fi →
      ∃ ti, insert_all fi BTree_new five = Some ti ∧
        (∃ f0, ∀ fuel K, f0 ≤ fuel →
           ∃ v ib ii, Read fuel tb K = Some (v, ib, observed tb) ∧
                      Read fuel ti K = Some (v, ii, observed ti)) ∧
        (∀ b e, ∃ f0, ∀ fuel, f0 ≤ fuel →
           ∃ out tb' ti', ScanAll fuel tb b e = Some (out, tb') ∧
                          ScanAll fuel ti b e = Some (out, ti')).
Proof.
  apply (bulk_equivalence five 2); [simpl; lia|simpl; lia|simpl; lia|exact five_sorted].
Defined.

(** The trees of the example: the two threads load a leaf each, the
    leaves are linked and get a root (the old root leaf stays behind as
    an unused page); the insertions split the root leaf once.  Both
    trees hold the five entries. *)
Lemma bulk_example :
  (λ r, length (heap (snd r))) <$> Bulkload BTree_new five 2 = Some 4 ∧
  (λ t, length (heap t)) <$> insert_all 7 BTree_new five = Some 3 ∧
  (fst <$> (Bulkload BTree_new five 2 ≫= λ r, ScanAll 9 (snd r) None None)) = Some five ∧
  (fst <$> (insert_all 7 BTree_new five ≫= λ t, ScanAll 9 t None None)) = Some five.
Proof. vm_compute. done. Qed.

End Examples.

Lemma anc_path_parents g h root : ∀ stack lvl x,
  anc_path g h root lvl x stack → parents_ok h root x stack.
Proof.
  induction stack as [|p rest IH]; intros lvl x; simpl; [done|].
  intros [(lo & n & _ & Hn & Hx) Hrest]. split; [by eauto|]. by eapply IH.
Qed.

Section Descents.
Context {cfg : Params}.

Lemma leaf_decides g t H K q n :
  inv g (heap t) (root_ t) H → leaf_for g (heap t) K q n →
  ∀ v, stores t K v ↔ rec_payload <$> find_live K (leaf_records n) = v.
Proof.
  intros Hinv Hleaf v. split.
  - intros Hs. pose proof (stores_holds _ _ _ _ _ Hinv Hs) as (p & n' & Hl & E).
    by destruct (leaf_for_unique _ _ _ _ _ _ _ _ _ Hinv Hleaf Hl) as [-> ->].
  - intros E. exists g, H. split; [done|]. by exists q, n.
Qed.

Lemma leaf_for_leaf g h root H K q n :
  inv g h root H → leaf_for g h K q n →
  h !! q = Some n ∧ IsInner n = false ∧ is_removed n = false ∧
  blt (Fin K) (hi_of (high_key n)).
Proof.
  intros Hinv (lo & Hg & Hq & Hr).
  destruct (inv_node _ _ _ _ _ _ _ Hinv Hg) as (n' & Hq' & Hok).
  rewrite Hq in Hq'. injection Hq' as <-.
  split_and!; [done| |apply Hok|apply Hr].
  by rewrite (node_ok_IsInner _ _ _ _ _ _ Hok).
Qed.

(** The loop of [SearchParentNode] below a node [p] that covers the key:
    the nodes from [p] down to the parent of the target are pushed. *)
Lemma SearchParentNode_loop_spec g t H K x lvx lox nx :
  inv g (heap t) (root_ t) H →
  g x = Some (lvx, lox) → heap t !! x = Some nx →
  in_range lox K (hi_of (high_key nx)) →
  ∀ d p lo n stack0 path c0 fuel,
    g p = Some (lvx + d, lo) → heap t !! p = Some n →
    in_range lo K (hi_of (high_key n)) → d + 2 ≤ fuel →
    anc_path g (heap t) (root_ t) (lvx + d) p path →
    ∃ path',
      SearchParentNode_loop fuel t (path ++ stack0) (Some p) c0 K x =
        Some (path' ++ stack0, t) ∧
      anc_path g (heap t) (root_ t) lvx x path'.
Proof.
  intros Hinv Hx Hnx Hrx.
  induction d as [|d IH]; intros p lo n stack0 path c0 fuel Hp Hn Hr Hfuel Hpath.
  - rewrite Nat.add_0_r in Hp, Hpath.
    assert (p = x) as -> by (eapply level_lt_hi; eauto).
    rewrite Hnx in Hn. injection Hn as <-.
    destruct fuel as [|[|fuel]]; [lia|lia|].
    exists path. split; [|done].
    destruct (inv_node _ _ _ _ _ _ _ Hinv Hx) as (n' & Hn' & Hok).
    rewrite Hnx in Hn'. injection Hn' as <-.
    cbn [SearchParentNode_loop]. rewrite Hnx.
    rewrite (node_ok_IsInner _ _ _ _ _ _ Hok).
    destruct lvx as [|lvx].
    + rewrite bool_decide_eq_false_2 by lia.
      rewrite (CheckKeyRange_here fuel _ _ _ _ _ Hnx (proj1 Hok) Hrx).
      cbn [fmap option_fmap option_map]. by rewrite decide_True.
    + destruct (search_step _ _ _ _ _ _ _ _ _ fuel Hinv Hx Hnx Hrx) as (c & nc & lc & E & _).
      rewrite bool_decide_eq_true_2 by lia. rewrite E.
      cbn [fmap option_fmap option_map]. by rewrite decide_True.
  - destruct fuel as [|[|fuel]]; [lia|lia|].
    replace (lvx + S d) with (S (lvx + d)) in Hp, Hpath by lia.
    destruct (inv_node _ _ _ _ _ _ _ Hinv Hp) as (n' & Hn' & Hok).
    rewrite Hn in Hn'. injection Hn' as <-.
    destruct (search_step _ _ _ _ _ _ _ _ _ fuel Hinv Hp Hn Hr)
      as (c & nc & lc & E & Hc & Hgc & Hnc & Hrc).
    assert (p ≠ x) as Hne by (intros ->; rewrite Hx in Hp; injection Hp; lia).
    destruct (IH c lc nc stack0 (p :: path) (Some c) (S fuel) Hgc Hnc Hrc)
      as (path' & E' & Hp');
      [lia|split; [by eauto 10|done]|].
    exists path'. split; [|done].
    cbn [SearchParentNode_loop]. rewrite Hn.
    rewrite (node_ok_IsInner _ _ _ _ _ _ Hok).
    rewrite bool_decide_eq_true_2 by lia. rewrite E.
    cbn [fmap option_fmap option_map].
    rewrite decide_False by congruence. exact E'.
Qed.

(** X3: [SearchLeafNode] returns the leaf that decides the key: a live leaf
    whose high key lies above the key and whose records tell what the
    tree stores for it.  The tree is left as it was, but for one acquire
    load of the root. *)
Theorem search_leaf_decides t H K fuel :
  tree_ok t H → H < fuel →
  ∃ q n, SearchLeafNode fuel t K = Some (q, observed t) ∧
    heap t !! q = Some n ∧ IsInner n = false ∧ is_removed n = false ∧
    blt (Fin K) (hi_of (high_key n)) ∧
    ∀ v, stores t K v ↔ rec_payload <$> find_live K (leaf_records n) = v.
Proof.
  intros [(g & Hinv) _] Hfuel.
  destruct (SearchLeafNode_spec g t H K fuel Hinv Hfuel) as (q & n & E & Hleaf).
  destruct (leaf_for_leaf _ _ _ _ _ _ _ Hinv Hleaf) as (Hq & Hi & Hr & Hhi).
  exists q, n. split_and!; try done. by eapply leaf_decides.
Qed.

(** X4: [SearchLeafNodeForWrite] returns the same leaf on top of the stack
    of its ancestors: as many as the tree is high, each the parent of
    the one before, the root last. *)
Theorem search_for_write_stack t H K fuel :
  tree_ok t H → H < fuel →
  ∃ q n stack,
    SearchLeafNodeForWrite fuel t K = Some (q :: stack, observed t) ∧
    heap t !! q = Some n ∧ IsInner n = false ∧
    length stack = H ∧ parents_ok (heap t) (root_ t) q stack ∧
    ∀ v, stores t K v ↔ rec_payload <$> find_live K (leaf_records n) = v.
Proof.
  intros [(g & Hinv) _] Hfuel.
  destruct (SearchLeafNodeForWrite_spec g t H K fuel Hinv Hfuel)
    as (q & n & stack & E & Hleaf & Hpath).
  destruct (leaf_for_leaf _ _ _ _ _ _ _ Hinv Hleaf) as (Hq & Hi & Hr & Hhi).
  exists q, n, stack. split_and!; try done.
  - destruct Hleaf as (lo & Hg & _).
    by rewrite <- (anc_path_length _ _ _ _ _ _ _ _ Hinv Hg Hpath).
  - by eapply anc_path_parents.
  - by eapply leaf_decides.
Qed.

(** X5: [SearchLeftmostLeaf] returns the leaf that decides every key below
    its high key, so every key when it has none. *)
Theorem leftmost_leaf t H :
  tree_ok t H →
  ∃ q n, heap t !! q = Some n ∧ IsInner n = false ∧
    (∀ fuel, H < fuel → SearchLeftmostLeaf fuel t = Some (q, observed t)) ∧
    ∀ K, blt (Fin K) (hi_of (high_key n)) →
      ∀ v, stores t K v ↔ rec_payload <$> find_live K (leaf_records n) = v.
Proof.
  intros [(g & Hinv) _].
  destruct (SearchLeftmostLeaf_loop_spec g (observed t) H Hinv H (root_ t))
    as (q & Hq & Hrun); [apply Hinv|].
  destruct (inv_node _ _ _ _ _ _ _ Hinv Hq) as (n & Hn & Hok).
  exists q, n. split_and!; [done| |exact Hrun|].
  - by rewrite (node_ok_IsInner _ _ _ _ _ _ Hok).
  - intros K HK. eapply leaf_decides; [done|]. exists NegInf. by split_and!.
Qed.

(** X6: [SearchParentNode] for a node of the tree and a key of its range:
    the ancestors of the node, from the root down to its parent, are
    pushed on the stack that is passed in, which is not cleared. *)
Theorem search_parent_path g t H K x lvl lo n stack fuel :
  inv g (heap t) (root_ t) H →
  g x = Some (lvl, lo) → heap t !! x = Some n →
  in_range lo K (hi_of (high_key n)) → H - lvl + 2 ≤ fuel →
  ∃ path,
    SearchParentNode fuel t stack K x = Some (path ++ stack, observed t) ∧
    length path = H - lvl ∧ parents_ok (heap t) (root_ t) x path.
Proof.
  intros Hinv Hx Hn Hr Hfuel.
  assert (lvl ≤ H) as Hle.
  { destruct (inv_node _ _ _ _ _ _ _ Hinv Hx) as (n' & _ & Hok). apply Hok. }
  destruct (root_range _ _ _ _ K Hinv) as (nr & Hnr & Hrr).
  destruct (SearchParentNode_loop_spec g (observed t) H K x lvl lo n Hinv Hx Hn Hr
              (H - lvl) (root_ t) NegInf nr stack [] None fuel) as (path & E & Hpath);
    try done.
  - replace (lvl + (H - lvl)) with H by lia. apply Hinv.
  - exists path. split_and!; [exact E| |by eapply anc_path_parents].
    pose proof (anc_path_length _ _ _ _ _ _ _ _ Hinv Hx Hpath). lia.
Qed.

End Descents.

(** * The operations of the interface, one after the other *)

Section Operations.
Context {cfg : Params}.

(** X1: the tree of the constructor is one empty leaf, published by a
    release store: it is well formed, every read finds nothing and every
    scan is empty. *)
Theorem new_tree_empty K b e fuel :
  heap BTree_new = [Node_new false] ∧
  root_trace BTree_new = [RootStore memory_order_release (root_ BTree_new)] ∧
  gc_guards BTree_new = 0 ∧ gc_garbage BTree_new = [] ∧
  tree_ok BTree_new 0 ∧
  (∃ info, Read (S fuel) BTree_new K = Some (None, info, observed BTree_new)) ∧
  (∃ t', ScanAll (S fuel) BTree_new b e = Some ([], t')).
Proof.
  split_and!; try done.
  - apply BTree_new_ok.
  - apply (Read_ok BTree_new 0 K None (S fuel)); [apply BTree_new_ok|lia|apply BTree_new_stores].
  - destruct b as [[bk [|]]|], e as [[ek [|]]|]; by eexists.
Qed.

(** X2: [Read] is total on a well-formed tree: it returns what the tree
    stores for the key, names the leaf that decides the key with its
    version, and leaves the tree as it was but for one acquire load of
    the root; the guard it takes is released. *)
Theorem read_observes t H K fuel :
  tree_ok t H → H < fuel →
  ∃ v q n,
    Read fuel t K = Some (v, (q, version n, version n), observed t) ∧
    heap t !! q = Some n ∧ IsInner n = false ∧
    v = rec_payload <$> find_live K (leaf_records n) ∧ stores t K v.
Proof.
  intros [(g & Hinv) _] Hfuel.
  destruct (holds_total _ _ _ _ K Hinv) as (v & Hv).
  destruct (Read_spec g t H K v fuel Hinv Hfuel Hv) as (q & n & E & Hleaf).
  exists v, q, n. split; [done|].
  assert (stores t K v) as Hs by (by exists g, H).
  destruct Hleaf as (lo & Hg & Hq & Hr).
  destruct (inv_node _ _ _ _ _ _ _ Hinv Hg) as (n' & Hq' & Hok).
  rewrite Hq in Hq'. injection Hq' as <-.
  split_and!; [done| | |done].
  - by rewrite (node_ok_IsInner _ _ _ _ _ _ Hok).
  - destruct Hv as (p & n' & Hl & E').
    assert (leaf_for g (heap t) K q n) as Hl' by (by exists lo).
    by destruct (leaf_for_unique _ _ _ _ _ _ _ _ _ Hinv Hl Hl') as [-> ->].
Qed.

(** X7: [Update] of a key that is not stored returns [kKeyNotExist] and
    changes nothing; of a key that is stored it returns [kSuccess],
    rewrites one page in place (no page is added, the root and the
    height stay) and changes the payload of that key only. *)
Theorem update_in_place t H K V fuel :
  tree_ok t H → H < fuel →
  (stores t K None → Update fuel t K V = Some (kKeyNotExist, observed t)) ∧
  (∀ v0, stores t K (Some v0) →
     ∃ t', Update fuel t K V = Some (kSuccess, t') ∧ tree_ok t' H ∧
       length (heap t') = length (heap t) ∧ root_ t' = root_ t ∧
       gc_garbage t' = gc_garbage t ∧ gc_guards t' = gc_guards t ∧
       ∀ K' v, stores t K' v → stores t' K' (if decide (K' = K) then Some V else v)).
Proof.
  intros [(g & Hinv) Hcaps] Hfuel. split.
  - intros Hs. apply (Update_absent g t H K V fuel Hinv Hfuel).
    by eapply stores_holds.
  - intros v0 Hs.
    destruct (Update_present g t H K V v0 fuel Hinv Hfuel) as (q & n & Hleaf & E & Hinv' & Hh);
      [by eapply stores_holds|].
    eexists. split; [exact E|]. split_and!; try done.
    + split; [by exists g|]. apply caps_ok_insert; [done|]. simpl. lia.
    + simpl. by rewrite length_insert.
    + intros K' v Hs'. exists g, H. split; [done|]. apply Hh. by eapply stores_holds.
Qed.

(** X8: [Delete] of a key that is not stored returns [kKeyNotExist] and
    changes nothing.  In every case the other keys keep what they had,
    the tree stays well formed and does not grow in height, and the
    guard is released. *)
Theorem delete_keeps_others t H K fuel :
  tree_ok t H → 2 * H + 3 ≤ fuel →
  (stores t K None → Delete fuel t K = Some (kKeyNotExist, observed t)) ∧
  ∃ rc t' H',
    Delete fuel t K = Some (rc, t') ∧ tree_ok t' H' ∧ H' ≤ H ∧
    (∀ K' v, stores t K' v → stores t' K' (if decide (K' = K) then None else v)) ∧
    gc_guards t' = gc_guards t.
Proof.
  intros Hok Hfuel. split.
  - destruct Hok as [(g & Hinv) _]. intros Hs.
    apply (Delete_absent g t H K fuel Hinv); [lia|by eapply stores_holds].
  - destruct (Delete_ok t H K fuel Hok Hfuel) as (rc & t' & H' & E & Hok' & HH & Hs & _ & _ & Hg).
    by exists rc, t', H'.
Qed.

(** X11: [Insert] twice: the first call stores the payload, the second
    returns [kKeyExist] with the payload of the first and changes
    nothing. *)
Theorem insert_twice t H K V V' fuel :
  2 ≤ kMaxRecNum → tree_ok t H → H + 2 ≤ fuel → stores t K None →
  ∃ t1 info1 info2,
    Insert fuel t K V = Some (kSuccess, None, info1, t1) ∧
    Insert fuel t1 K V' = Some (kKeyExist, Some V, info2, observed t1).
Proof.
  intros Hmax [(g & Hinv) Hcaps] Hfuel Hs.
  destruct (Insert_absent g t H K V fuel Hmax Hinv Hcaps Hfuel)
    as (p & np & t1 & g1 & H1 & E & Hinv1 & Hcaps1 & HH & Hh & _);
    [by eapply stores_holds|].
  pose proof (Hh K None (stores_holds _ _ _ _ _ Hinv Hs)) as HK.
  rewrite decide_True in HK by done.
  destruct (Insert_present g1 t1 H1 K V' V fuel Hinv1) as (q & n & _ & E1); [lia|done|].
  by eexists _, _, _.
Qed.

(** X12: [Delete] and then [Insert] of the same key: the insertion succeeds
    and the key reads as the new payload. *)
Theorem delete_then_insert t H K V v0 fuel :
  2 ≤ kMaxRecNum → tree_ok t H → 2 * H + 3 ≤ fuel → stores t K (Some v0) →
  ∃ t1 t2 info1 info2,
    Delete fuel t K = Some (kSuccess, t1) ∧
    Insert fuel t1 K V = Some (kSuccess, None, info1, t2) ∧
    Read fuel t2 K = Some (Some V, info2, observed t2).
Proof.
  intros Hmax [(g & Hinv) Hcaps] Hfuel Hs.
  destruct (Delete_present g t H K v0 fuel Hinv Hcaps Hfuel)
    as (t1 & g1 & H1 & E1 & Hinv1 & Hcaps1 & HH1 & Hh1 & _);
    [by eapply stores_holds|].
  pose proof (Hh1 K _ (stores_holds _ _ _ _ _ Hinv Hs)) as HK1.
  rewrite decide_True in HK1 by done.
  destruct (Insert_absent g1 t1 H1 K V fuel Hmax Hinv1 Hcaps1)
    as (p & np & t2 & g2 & H2 & E2 & Hinv2 & Hcaps2 & HH2 & Hh2 & _); [lia|done|].
  pose proof (Hh2 K None HK1) as HK2. rewrite decide_True in HK2 by done.
  destruct (Read_spec g2 t2 H2 K (Some V) fuel Hinv2) as (q & n & E3 & _); [lia|done|].
  by eexists _, _, _, _.
Qed.

(** X14: a scan whose begin key lies behind its end key, or whose two keys
    are equal with one of them excluded, yields nothing. *)
Theorem scan_empty_range t H b cb e ce :
  tree_ok t H → (e < b ∨ (e = b ∧ (cb = false ∨ ce = false)))%Z →
  ∃ f0, ∀ fuel, f0 ≤ fuel →
    ∃ t', ScanAll fuel t (Some (b, cb)) (Some (e, ce)) = Some ([], t').
Proof.
  intros [(g & Hinv) _] Hbe.
  destruct (ScanAll_spec g t H (Some (b, cb)) (Some (e, ce)) Hinv) as (f0 & Hf).
  exists f0. intros fuel Hfuel.
  destruct (Hf fuel Hfuel) as (out & t' & E & _ & Hmem & _).
  exists t'. rewrite E. do 2 f_equal.
  destruct out as [|[k v] out]; [done|].
  destruct (proj1 (Hmem k v)) as (_ & Hb & He); [by left|].
  simpl in Hb, He. destruct cb, ce; lia.
Qed.

(** X17: [GetPreviousVersion] of the version that follows [v]: the counter
    is stepped back and the 18 lock and flag bits are cleared, also
    when the counter wraps around. *)
Theorem previous_version v :
  (0 ≤ v < 2 ^ 64)%Z →
  GetPreviousVersion ((v + kVersionUnit) mod 2 ^ 64) = (v - v mod 2 ^ 18)%Z.
Proof.
  intros Hv. unfold GetPreviousVersion, kVersionUnit.
  rewrite !Z.shiftl_mul_pow2, Z.shiftr_div_pow2 by lia. rewrite Z.mul_1_l.
  pose proof (Z.div_mod v (2 ^ 18) ltac:(lia)) as Hdm.
  pose proof (Z.mod_pos_bound v (2 ^ 18) ltac:(lia)) as Hr.
  set (q := (v / 2 ^ 18)%Z) in *. set (r := (v mod 2 ^ 18)%Z) in *.
  assert (0 ≤ q < 2 ^ 46)%Z as Hq.
  { subst q. split; [apply Z.div_pos; lia|]. apply Z.div_lt_upper_bound; lia. }
  clearbody q r.
  replace (v - r)%Z with (q * 2 ^ 18)%Z by lia.
  replace (v + 2 ^ 18)%Z with ((q + 1) * 2 ^ 18 + r)%Z by lia.
  destruct (decide (q + 1 < 2 ^ 46)%Z) as [Hlt|Hge].
  - rewrite (Z.mod_small ((q + 1) * 2 ^ 18 + r)) by lia.
    assert (((q + 1) * 2 ^ 18 + r) / 2 ^ 18 = q + 1)%Z as ->.
    { symmetry. apply (Z.div_unique_pos _ _ _ r); lia. }
    replace (q + 1 - 1)%Z with q by lia.
    rewrite (Z.mod_small q) by lia. apply Z.mod_small. lia.
  - assert (q = 2 ^ 46 - 1)%Z as -> by lia.
    assert (((2 ^ 46 - 1 + 1) * 2 ^ 18 + r) mod 2 ^ 64 = r)%Z as ->.
    { symmetry. apply (Z.mod_unique_pos _ _ 1); lia. }
    rewrite (Z.div_small r) by lia. done.
Qed.

End Operations.

Lemma UnlockS_LockS n : UnlockS (LockS n) = n.
Proof. by destruct n. Qed.

Lemma locked_at_lookup h0 h q : locked_at h0 h q → ∃ n, h0 !! q = Some n ∧ h !! q = Some (LockS n).
Proof.
  intros (n & Hn & ->). exists n. split; [done|].
  apply list_lookup_insert_eq. by eapply lookup_lt_Some.
Qed.

Lemma locked_at_release h0 h q n :
  locked_at h0 h q → h !! q = Some n → <[q := UnlockS n]> h = h0.
Proof.
  intros Hl Hq. destruct (locked_at_lookup _ _ _ Hl) as (n0 & Hn0 & Hq').
  rewrite Hq in Hq'. injection Hq' as ->.
  destruct Hl as (n1 & Hn1 & ->). rewrite Hn0 in Hn1. injection Hn1 as <-.
  rewrite UnlockS_LockS, list_insert_insert_eq. by apply list_insert_id.
Qed.

Section Cursor.
Context {cfg : Params}.

(** A leaf of the tree is not its own right sibling; the sibling is a
    leaf of the tree. *)
Lemma leaf_next g h root H p lo n q :
  inv g h root H → g p = Some (0, lo) → h !! p = Some n → next n = Some q →
  q ≠ p ∧ ∃ nq, g q = Some (0, hi_of (high_key n)) ∧ h !! q = Some nq.
Proof.
  intros Hinv Hg Hp Hnext.
  destruct (inv_node _ _ _ _ _ _ _ Hinv Hg) as (n' & Hp' & Hok).
  rewrite Hp in Hp'. injection Hp' as <-.
  destruct Hok as (_ & Hlt & _ & Hnx & _). rewrite Hnext in Hnx.
  destruct (inv_node _ _ _ _ _ _ _ Hinv Hnx) as (nq & Hq & _).
  split; [|by eauto].
  intros ->. rewrite Hg in Hnx. injection Hnx as ->. by apply blt_irrefl in Hlt.
Qed.

(** [HasNext] keeps one shared lock while it answers true and none when
    it answers false. *)
Lemma HasNext_locked g h0 root H : inv g h0 root H →
  ∀ fuel h it b h' it' lo,
    g (node_ it) = Some (0, lo) → locked_at h0 h (node_ it) →
    HasNext fuel h it = Some (b, h', it') →
    if b then ∃ lo', g (node_ it') = Some (0, lo') ∧ locked_at h0 h' (node_ it')
    else h' = h0.
Proof.
  intros Hinv. induction fuel as [|fuel IH]; intros h it b h' it' lo Hg Hl E; [done|].
  destruct (locked_at_lookup _ _ _ Hl) as (n0 & Hn0 & Hq).
  rewrite (HasNext_S _ _ _ _ Hq) in E. cbv zeta in E.
  destruct (_ <? _).
  { injection E as <- <- <-. by eauto. }
  destruct (is_end_ it).
  { unfold Node_ReleaseSharedLock in E. rewrite Hq in E. simpl in E.
    injection E as <- <- <-. by eapply locked_at_release. }
  unfold Node_GetNextNodeForRead in E. rewrite Hq in E.
  change (next (LockS n0)) with (next n0) in E.
  destruct (next n0) as [q|] eqn:Hnext; [|done].
  destruct (leaf_next _ _ _ _ _ _ _ _ Hinv Hg Hn0 Hnext) as (Hne & nq & Hgq & Hnq).
  assert (h !! q = Some nq) as Hhq.
  { destruct Hl as (n1 & _ & ->). by rewrite list_lookup_insert_ne. }
  rewrite Hhq in E.
  assert (<[node_ it := UnlockS (LockS n0)]> (<[q := LockS nq]> h) = <[q := LockS nq]> h0)
    as Eh.
  { rewrite list_insert_insert_ne by done. f_equal. by eapply locked_at_release. }
  rewrite Eh in E.
  destruct (<[q := LockS nq]> h0 !! q) as [nq'|] eqn:Eq; [|done].
  eapply IH in E; [exact E| |by exists nq]. exact Hgq.
Qed.

Lemma drain_locked g h0 root H : inv g h0 root H →
  ∀ fuel h it out h' it' lo,
    g (node_ it) = Some (0, lo) → locked_at h0 h (node_ it) →
    drain fuel h it = Some (out, h', it') → h' = h0.
Proof.
  intros Hinv. induction fuel as [|fuel IH]; intros h it out h' it' lo Hg Hl E; [done|].
  rewrite drain_S in E.
  destruct (HasNext (S fuel) h it) as [[[b h1] it1]|] eqn:EH; [|done].
  pose proof (HasNext_locked _ _ _ _ Hinv _ _ _ _ _ _ _ Hg Hl EH) as Hb.
  destruct b.
  - destruct Hb as (lo' & Hg' & Hl').
    destruct (Deref h1 it1) as [kv|]; [|done].
    destruct (drain fuel h1 (Advance it1)) as [[[out2 h2] it2]|] eqn:Ed; [|done].
    injection E as <- <- <-. by eapply (IH h1 (Advance it1) _ _ _ lo' Hg' Hl' Ed).
  - injection E as <- <- <-. done.
Qed.

(** X16: after [HasNext] answered true the cursor stands on a record that is
    not deleted, inside its page and before the end key: [operator*],
    [GetKey] and [GetPayload] return that record.  The end position that
    the cursor starts with has to lie within the records before the end
    key, as [SearchEndPositionFor] computes it. *)
Theorem has_next_record fuel h it h' it' :
  (∀ n, h !! node_ it = Some n →
     end_pos_ it ≤ count_before_end (end_key_ it) (leaf_records n)) →
  HasNext fuel h it = Some (true, h', it') →
  ∃ n r, h' !! node_ it' = Some n ∧ leaf_records n !! pos_ it' = Some r ∧
    rec_deleted r = false ∧ pos_ it' < end_pos_ it' ∧
    before_end (end_key_ it) (rec_key r) = true ∧
    Deref h' it' = Some (rec_key r, rec_payload r) ∧
    GetKey h' it' = Some (rec_key r) ∧ GetPayload h' it' = Some (rec_payload r).
Proof.
  revert h it. induction fuel as [|fuel IH]; intros h it Hend E; [done|].
  destruct (h !! node_ it) as [n|] eqn:Hn; [|by simpl in E; rewrite Hn in E].
  rewrite (HasNext_S _ _ _ _ Hn) in E. cbv zeta in E.
  destruct (_ <? _) eqn:Epos.
  - injection E as <- <-. apply Nat.ltb_lt in Epos.
    set (pos := skip_deleted (end_pos_ it - pos_ it) n (pos_ it)) in *.
    destruct (skip_deleted_spec (end_pos_ it - pos_ it) n (pos_ it)) as (Hge & _ & Hlive).
    fold pos in Hge, Hlive.
    pose proof (Hend n eq_refl) as Hcount.
    pose proof (count_before_end_le (end_key_ it) (leaf_records n)) as Hlen.
    destruct (lookup_lt_is_Some_2 (leaf_records n) pos) as (r & Hr); [lia|].
    exists n, r. simpl. split_and!; try done.
    + rewrite <- (record_deleted _ _ _ Hr). apply Hlive. lia.
    + eapply count_before_end_lt; [done|lia].
    + unfold Deref. simpl. rewrite Hn. simpl. unfold Node_GetRecord. by rewrite Hr.
    + unfold GetKey. simpl. rewrite Hn. simpl. unfold Node_GetKey. by rewrite Hr.
    + unfold GetPayload. simpl. rewrite Hn. simpl. unfold Node_GetPayload. by rewrite Hr.
  - destruct (is_end_ it).
    { destruct (Node_ReleaseSharedLock h (node_ it)); done. }
    destruct (Node_GetNextNodeForRead h (node_ it)) as [[h1 q]|]; [|done].
    destruct (h1 !! q) as [nq|] eqn:Hq; [|done].
    apply IH in E; [exact E|].
    simpl. intros n1 Hn1. rewrite Hq in Hn1. by injection Hn1 as <-.
Qed.

(** X15: a loop that drains a cursor with [HasNext], [operator*] and
    [operator++] comes to an end and leaves every page as it was before
    the cursor took the shared lock of its leaf: the lock of a leaf is
    released when the cursor moves on to the right sibling, the last one
    by the call of [HasNext] that returns false.  The cursor stands on a
    leaf of a well-formed tree, wherever in the leaf, with the end
    position and the flag of that leaf for its end key. *)
Theorem drain_releases_locks g h0 root H it lo n :
  inv g h0 root H → g (node_ it) = Some (0, lo) → h0 !! node_ it = Some n →
  Node_SearchEndPositionFor n (end_key_ it) = (is_end_ it, end_pos_ it) →
  ∃ f0, ∀ fuel, f0 ≤ fuel →
    ∃ out it', drain fuel (<[node_ it := LockS n]> h0) it = Some (out, h0, it').
Proof.
  intros Hinv Hg Hn Eend.
  set (h := <[node_ it := LockS n]> h0).
  assert (inv g h root H) as Hinv1 by (by eapply inv_relock).
  assert (h !! node_ it = Some (LockS n)) as Hq.
  { apply list_lookup_insert_eq. by eapply lookup_lt_Some. }
  destruct (inv_node _ _ _ _ _ _ _ Hinv Hg) as (n' & Hn' & Hok).
  rewrite Hn in Hn'. injection Hn' as <-.
  destruct (node_ok_leaf _ _ _ _ _ Hok) as (rs & Ers & _ & Hkeys).
  assert (leaf_records (LockS n) = rs) as Elr by (unfold leaf_records; simpl; by rewrite Ers).
  assert (blt lo (hi_of (high_key n))) as Hlt by apply Hok.
  set (cur := match rs !! pos_ it with
              | Some r => Fin (rec_key r)
              | None => hi_of (high_key n)
              end).
  assert (cursor_ok g h (end_key_ it) it cur lo (LockS n)) as Hcur.
  { unfold cursor_ok. rewrite Elr. split_and!; try done.
    - unfold Node_SearchEndPositionFor in Eend. unfold leaf_records in Eend.
      rewrite Ers in Eend. by injection Eend.
    - unfold Node_SearchEndPositionFor in *. by injection Eend.
    - unfold cur. destruct (rs !! pos_ it) as [r|] eqn:Er; [|by apply blt_ble].
      by destruct (keys_in_lookup _ _ _ _ _ Hkeys Er).
    - unfold cur. destruct (rs !! pos_ it) as [r|] eqn:Er; [|apply ble_refl].
      apply blt_ble. by destruct (keys_in_lookup _ _ _ _ _ Hkeys Er).
    - intros i r Hr. unfold cur. case_decide as Hi.
      + destruct (rs !! pos_ it) as [r'|] eqn:Er.
        * pose proof (keys_in_lookup_lt _ _ _ _ _ _ _ Hkeys Hr Er Hi). unfold blt. lia.
        * by destruct (keys_in_lookup _ _ _ _ _ Hkeys Hr).
      + destruct (rs !! pos_ it) as [r'|] eqn:Er.
        * destruct (decide (i = pos_ it)) as [->|Hne].
          -- rewrite Hr in Er. injection Er as <-. apply ble_refl.
          -- assert (pos_ it < i) as Hlt' by lia.
             pose proof (keys_in_lookup_lt _ _ _ _ _ _ _ Hkeys Er Hr Hlt'). unfold ble. lia.
        * apply lookup_ge_None in Er. apply lookup_lt_Some in Hr. lia. }
  destruct (drain_spec g root H (end_key_ it) (rank g (length h) lo)
              (length (leaf_records (LockS n))) h it cur lo (LockS n) Hinv1 Hcur)
    as (f0 & Hf0); [done|lia|].
  exists f0. intros fuel Hfuel.
  destruct (Hf0 fuel Hfuel) as (out & h' & it' & Ed & _).
  exists out, it'. rewrite Ed. do 3 f_equal.
  eapply (drain_locked g h0 root H Hinv); [exact Hg| |exact Ed]. by exists n.
Qed.

End Cursor.

Lemma pages_kept_refl h : pages_kept h h.
Proof. split; [done|]. by eauto. Qed.

Lemma pages_kept_trans h1 h2 h3 : pages_kept h1 h2 → pages_kept h2 h3 → pages_kept h1 h3.
Proof.
  intros [L1 K1] [L2 K2]. split; [congruence|].
  intros p n Hp Hr. destruct (K1 p n Hp Hr) as (n' & Hp' & Hr'). by eauto.
Qed.

Lemma pages_kept_insert h p n n' :
  h !! p = Some n → (is_removed n = true → is_removed n' = true) →
  pages_kept h (<[p := n']> h).
Proof.
  intros Hp Hr. split; [by rewrite length_insert|].
  intros q m Hq Hm. destruct (decide (q = p)) as [->|Hne].
  - rewrite Hp in Hq. injection Hq as <-. exists n'. split; [|by auto].
    apply list_lookup_insert_eq. by eapply lookup_lt_Some.
  - exists m. by rewrite list_lookup_insert_ne.
Qed.

Lemma retires_refl t : retires t t.
Proof.
  split_and!; [apply pages_kept_refl|done|]. exists []. split; [by rewrite app_nil_r|].
  by intros p ?%elem_of_nil.
Qed.

Lemma retires_trans t1 t2 t3 : retires t1 t2 → retires t2 t3 → retires t1 t3.
Proof.
  intros (K1 & G1 & e1 & E1 & R1) (K2 & G2 & e2 & E2 & R2).
  split_and!; [by eapply pages_kept_trans|congruence|].
  exists (e1 ++ e2). split; [by rewrite E2, E1, app_assoc|].
  intros p [Hp|Hp]%elem_of_app; [|by auto].
  destruct (R1 p Hp) as (n & Hn & Hr). by apply (proj2 K2 p n).
Qed.

(** A step that changes neither the pages nor the garbage list. *)
Lemma retires_same t t' :
  heap t' = heap t → gc_garbage t' = gc_garbage t → gc_guards t' = gc_guards t →
  retires t t'.
Proof.
  intros Eh Eg Egd. split_and!; [rewrite Eh; apply pages_kept_refl|done|].
  exists []. split; [by rewrite app_nil_r|]. by intros p ?%elem_of_nil.
Qed.

Lemma retires_insert t p n n' :
  heap t !! p = Some n → (is_removed n = true → is_removed n' = true) →
  retires t (set_heap t (<[p := n']> (heap t))).
Proof.
  intros Hp Hr. split_and!; [by eapply pages_kept_insert|done|].
  exists []. split; [by rewrite app_nil_r|]. by intros q ?%elem_of_nil.
Qed.

Section Retire.
Context {cfg : Params}.

Lemma SearchLeafNodeForWrite_loop_same fuel : ∀ t stack node K stack' t',
  SearchLeafNodeForWrite_loop fuel t stack node K = Some (stack', t') →
  heap t' = heap t ∧ gc_garbage t' = gc_garbage t ∧ gc_guards t' = gc_guards t.
Proof.
  induction fuel as [|fuel IH]; intros t stack node K stack' t' E; [done|].
  cbn [SearchLeafNodeForWrite_loop] in E. destruct (heap t !! node) as [n|]; [|done].
  destruct (IsInner n).
  - destruct (Node_SearchChild fuel (heap t) node K) as [[[p|] c]|]; [| |done].
    + by apply IH in E.
    + by apply IH in E.
  - by injection E as <- <-.
Qed.

Lemma SearchParentNode_loop_same fuel : ∀ t stack node c K x stack' t',
  SearchParentNode_loop fuel t stack node c K x = Some (stack', t') →
  heap t' = heap t ∧ gc_garbage t' = gc_garbage t ∧ gc_guards t' = gc_guards t.
Proof.
  induction fuel as [|fuel IH]; intros t stack node c K x stack' t' E; [done|].
  cbn [SearchParentNode_loop] in E.
  destruct node as [p|]; [|done]. destruct (heap t !! p) as [n|]; [|done].
  destruct (if IsInner n then _ else _) as [[nd c']|]; [|done].
  case_decide; [by injection E as <- <-|].
  destruct nd as [p'|]; by apply IH in E.
Qed.

Lemma SearchParentNode_same fuel t stack K x stack' t' :
  SearchParentNode fuel t stack K x = Some (stack', t') →
  heap t' = heap t ∧ gc_garbage t' = gc_garbage t ∧ gc_guards t' = gc_guards t.
Proof. intros E. by apply SearchParentNode_loop_same in E. Qed.

Lemma Node_DeleteChild_removed n k :
  is_removed (Node_DeleteChild n k).1 = is_removed n.
Proof.
  unfold Node_DeleteChild. destruct (find_sep k (inner_records n)) as [[|i]|]; done.
Qed.

Lemma merged_retires h l r nl nr nl' :
  h !! l = Some nl → h !! r = Some nr → is_removed nl' = is_removed nl →
  pages_kept h (<[r := set_removed nr]> (<[l := nl']> h)) ∧
  ∃ n, <[r := set_removed nr]> (<[l := nl']> h) !! r = Some n ∧ is_removed n = true.
Proof.
  intros Hl Hr Hrem. split.
  - eapply pages_kept_trans; [eapply (pages_kept_insert h l nl); [done|by rewrite Hrem]|].
    destruct (decide (r = l)) as [->|Hne].
    + eapply pages_kept_insert; [|done].
      apply list_lookup_insert_eq. by eapply lookup_lt_Some.
    + eapply pages_kept_insert; [|done]. by rewrite list_lookup_insert_ne.
  - exists (set_removed nr). split; [|done].
    apply list_lookup_insert_eq. rewrite length_insert. by eapply lookup_lt_Some.
Qed.

Lemma Node_Merge_retires h l r h' :
  Node_Merge h l r = Some h' →
  pages_kept h h' ∧ ∃ n, h' !! r = Some n ∧ is_removed n = true.
Proof.
  unfold Node_Merge. intros E.
  destruct (h !! l) as [nl|] eqn:Hl; [|done].
  destruct (h !! r) as [nr|] eqn:Hr; [|done].
  destruct (records nl), (records nr); try done; injection E as <-;
    by apply (merged_retires h l r nl nr).
Qed.

Lemma retires_merge t h r :
  pages_kept (heap t) h → (∃ n, h !! r = Some n ∧ is_removed n = true) →
  retires t (AddGarbage r (set_heap t h)).
Proof.
  intros Hk Hr. split_and!; [done|done|]. exists [r]. split; [done|].
  by intros p ->%list_elem_of_singleton.
Qed.

Lemma TryShrinkTree_loop_retires fuel : ∀ t node c t',
  TryShrinkTree_loop fuel t node = Some (c, t') → retires t t'.
Proof.
  induction fuel as [|fuel IH]; intros t node c t' E; [done|].
  simpl in E. unfold Node_RemoveRoot in E.
  destruct (heap t !! node) as [n|] eqn:Hn; [|done].
  destruct (inner_records n) as [|c0 cs]; [done|]. simpl in E.
  assert (retires t (set_heap (AddGarbage node t) (<[node := set_removed n]> (heap t)))) as R.
  { apply (retires_merge t _ node); [by eapply pages_kept_insert|].
    exists (set_removed n). split; [|done].
    apply list_lookup_insert_eq. by eapply lookup_lt_Some. }
  destruct (_ !! child c0) as [nc|]; [|done].
  destruct (_ && _).
  - eapply retires_trans; [exact R|]. by eapply IH.
  - by injection E as <- <-.
Qed.

Lemma TryShrinkTree_retires fuel t node t' :
  TryShrinkTree fuel t node = Some t' → retires t t'.
Proof.
  unfold TryShrinkTree. simpl. intros E.
  destruct (heap t !! node) as [n|]; [|done].
  destruct (_ && _).
  - destruct (TryShrinkTree_loop _ _ _) as [[c t2]|] eqn:El; [|done].
    injection E as <-. apply TryShrinkTree_loop_retires in El.
    eapply retires_trans; [|apply retires_same; done].
    eapply retires_trans; [|exact El]. by apply retires_same.
  - injection E as <-. by apply retires_same.
Qed.

Lemma Merge_loop_retires fuel : ∀ t stack node l t',
  Merge_loop fuel t stack node l = Some t' → retires t t'.
Proof.
  induction fuel as [|fuel IH]; intros t stack node l t' E; [done|].
  cbn [Merge_loop] in E.
  destruct (Node_GetMergeableSiblingNode (heap t) l) as [[r|]|]; [| |done].
  2: { injection E as <-. apply retires_refl. }
  destruct (heap t !! l ≫= high_key) as [dk|]; [|done].
  assert (∀ stack1 node1,
            match SearchParentNode fuel t stack1 dk r with
            | Some (stack', t1) => Merge_loop fuel t1 stack' node1 l
            | None => None
            end = Some t' → retires t t') as Hsearch.
  { intros stack1 node1 E1.
    destruct (SearchParentNode fuel t stack1 dk r) as [[stack' t1]|] eqn:Es; [|done].
    apply SearchParentNode_same in Es as (Eh & Eg & Egd).
    apply IH in E1. eapply retires_trans; [|exact E1]. by apply retires_same. }
  destruct stack as [|top rest]; [by eapply Hsearch|].
  destruct (match node with None => (top, rest) | Some p => (p, top :: rest) end)
    as [node0 stack0].
  destruct (CheckKeyRange fuel (heap t) node0 dk) as [[p|]|]; [|by eapply Hsearch|done].
  destruct (heap t !! p) as [n|] eqn:Hp; [|done].
  pose proof (Node_DeleteChild_removed n dk) as Hrem.
  destruct (Node_DeleteChild n dk) as [n' rc]. simpl in Hrem.
  assert (retires t (set_heap t (<[p := n']> (heap t)))) as R1.
  { eapply retires_insert; [done|]. by rewrite Hrem. }
  assert (∀ h, Node_Merge (<[p := n']> (heap t)) l r = Some h →
            retires t (AddGarbage r (set_heap (set_heap t (<[p := n']> (heap t))) h)))
    as Hmerge.
  { intros h [K R]%Node_Merge_retires.
    eapply retires_trans; [exact R1|]. by apply retires_merge. }
  assert (∀ t2, retires t t2 →
            match stack0 with
            | [] => TryShrinkTree fuel t2 p
            | _ :: _ => Merge_loop fuel t2 stack0 None p
            end = Some t' → retires t t') as Hup.
  { intros t2 R2 E2. destruct stack0 as [|s0 stack0].
    - by eapply retires_trans, TryShrinkTree_retires.
    - apply IH in E2. by eapply retires_trans. }
  destruct rc; simpl in E.
  all: try (destruct (Node_Merge _ l r) as [h|] eqn:Em; [|done]).
  all: try (by injection E as <-; apply Hmerge).
  all: try (by eapply Hup; [by apply Hmerge|exact E]).
  all: try (by injection E as <-).
  all: try (by apply IH in E; eapply retires_trans).
Qed.

(** X9: [Delete] adds no page and drops none.  The pages it hands to the
    garbage collector are flagged removed, and so belong to no
    well-formed tree over the pages; what was in the garbage list
    before stays there. *)
Theorem delete_retires_removed t H K fuel :
  tree_ok t H → 2 * H + 3 ≤ fuel →
  ∃ rc t' extra,
    Delete fuel t K = Some (rc, t') ∧
    length (heap t') = length (heap t) ∧
    gc_garbage t' = gc_garbage t ++ extra ∧
    ∀ p, p ∈ extra →
      (∃ n, heap t' !! p = Some n ∧ is_removed n = true) ∧
      ∀ g' H', inv g' (heap t') (root_ t') H' → g' p = None.
Proof.
  intros Hok Hfuel.
  destruct (Delete_ok t H K fuel Hok Hfuel) as (rc & t' & H' & E & _).
  assert (retires (CreateEpochGuard t) (CreateEpochGuard t')) as (Hk & _ & extra & Eg & Hex).
  { unfold Delete in E.
    destruct (SearchLeafNodeForWrite _ _ _) as [[stack t1]|] eqn:Es; [|done].
    apply SearchLeafNodeForWrite_loop_same in Es as (Eh & Egb & Egd).
    assert (retires (CreateEpochGuard t) t1) as R1 by (by apply retires_same).
    destruct (head stack) as [node0|]; [|done].
    unfold Node_Delete, with_locked_node in E.
    destruct (CheckKeyRange _ _ _ _) as [[q|]|]; [|done|done].
    destruct (heap t1 !! q) as [n|] eqn:Hq; [|done].
    assert (is_removed (Node_Delete_locked n K).1 = is_removed n) as Hrem.
    { unfold Node_Delete_locked. by destruct (find_live _ _). }
    destruct (Node_Delete_locked n K) as [n' rc']. simpl in Hrem.
    assert (retires (CreateEpochGuard t) (set_heap t1 (<[q := n']> (heap t1)))) as R2.
    { eapply retires_trans; [exact R1|]. eapply retires_insert; [done|]. by rewrite Hrem. }
    assert (∀ t3, retires (CreateEpochGuard t) t3 →
              retires (CreateEpochGuard t) (CreateEpochGuard (ReleaseEpochGuard t3))) as Hrel.
    { intros t3 R3. eapply retires_trans; [exact R3|].
      apply retires_same; try done. simpl. destruct R3 as (_ & G & _). by rewrite G. }
    repeat case_decide.
    - injection E as <- <-. by apply Hrel.
    - destruct (Merge _ _ _ _) as [t3|] eqn:Em; [|done]. injection E as <- <-.
      apply Hrel. eapply retires_trans; [exact R2|]. by eapply Merge_loop_retires.
    - injection E as <- <-. by apply Hrel. }
  exists rc, t', extra. split_and!; [done|apply Hk|done|].
  intros p Hp. destruct (Hex p Hp) as (n & Hn & Hr). split; [by eauto|].
  intros g' H'' Hinv'. destruct (g' p) as [[lvl lo]|] eqn:Hg; [|done].
  destruct (inv_node _ _ _ _ _ _ _ Hinv' Hg) as (n1 & Hn1 & Hok1).
  simpl in Hn. rewrite Hn in Hn1. injection Hn1 as <-.
  destruct Hok1 as (Hr1 & _). congruence.
Qed.

(** X22: [Merge] of a node of a well-formed tree, called with the stack
    of the node and its ancestors: the result is a well-formed tree that
    is not higher and stores what the tree stored; no guard is taken or
    released. *)
Theorem merge_keeps_contents g t H lvl L lo stack fuel :
  inv g (heap t) (root_ t) H → caps_ok (heap t) →
  g L = Some (lvl, lo) → anc_path g (heap t) (root_ t) lvl L stack →
  length stack + H + 3 ≤ fuel →
  ∃ t' H',
    Merge fuel t (L :: stack) L = Some t' ∧ tree_ok t' H' ∧ H' ≤ H ∧
    (∀ K v, stores t K v → stores t' K v) ∧ gc_guards t' = gc_guards t.
Proof.
  intros Hinv Hcaps HL Hpath Hfuel.
  destruct (Merge_loop_spec H stack g t lvl L lo fuel Hinv Hcaps HL Hpath Hfuel)
    as (t' & g' & H' & E & Hinv' & Hcaps' & HH & Hh & Hg).
  exists t', H'. split_and!; try done.
  - split; [by exists g'|done].
  - intros K v Hs. exists g', H'. split; [done|]. apply Hh. by eapply stores_holds.
Qed.

(** X23: [TryShrinkTree] of the root of a well-formed tree that is not a
    single leaf: the result is a well-formed tree that is not higher and
    stores what the tree stored. *)
Theorem shrink_keeps_contents t H fuel :
  tree_ok t H → 0 < H → H ≤ fuel →
  ∃ t' H',
    TryShrinkTree fuel t (root_ t) = Some t' ∧ tree_ok t' H' ∧ H' ≤ H ∧
    (∀ K v, stores t K v → stores t' K v) ∧ gc_guards t' = gc_guards t.
Proof.
  intros [(g & Hinv) Hcaps] HH Hfuel.
  destruct (TryShrinkTree_spec g t H (root_ t) fuel Hinv Hcaps eq_refl HH Hfuel)
    as (t' & g' & H' & E & Hinv' & Hcaps' & Hle & Hh & Hg).
  exists t', H'. split_and!; try done.
  - split; [by exists g'|done].
  - intros K v Hs. exists g', H'. split; [done|]. apply Hh. by eapply stores_holds.
Qed.

End Retire.

(** A loop over the slots of a list is a loop over the list. *)
Lemma foldl_seq_lookup {A B} (f : B → option A → B) (cs : list A) : ∀ pre b,
  foldl (λ acc i, f acc ((pre ++ cs) !! i)) b (seq (length pre) (length cs)) =
  foldl (λ acc c, f acc (Some c)) b cs.
Proof.
  induction cs as [|c cs IH]; intros pre b; [done|]. simpl.
  rewrite lookup_app_r by lia. replace (length pre - length pre) with 0 by lia. simpl.
  specialize (IH (pre ++ [c]) (f b (Some c))).
  rewrite <- app_assoc in IH. simpl in IH. rewrite length_app in IH. simpl in IH.
  replace (length pre + 1) with (S (length pre)) in IH by lia. exact IH.
Qed.

Section Under.
Context {cfg : Params}.
Context (g : Ghost) (h : list Node) (root : ptr) (H : nat).
Context (Hinv : inv g h root H).

Lemma own_range x lx bx nx :
  g x = Some (lx, bx) → h !! x = Some nx →
  in_range bx (pick bx (hi_of (high_key nx))) (hi_of (high_key nx)).
Proof using Hinv.
  intros Hx Hnx. apply pick_in_range. by eapply (inv_ranges_ok _ _ _ _ Hinv).
Qed.

Lemma under_self p x0 : g p = Some x0 → under g h p p.
Proof using Hinv.
  destruct x0 as [lp bp]. intros Hp.
  destruct (inv_node _ _ _ _ _ _ _ Hinv Hp) as (n & Hn & _).
  exists lp, bp, n, lp, bp, n. split_and!; try done. by eapply own_range.
Qed.

Lemma under_root x x0 : g x = Some x0 → under g h root x.
Proof using Hinv.
  destruct x0 as [lx bx]. intros Hx.
  destruct (inv_node _ _ _ _ _ _ _ Hinv Hx) as (nx & Hnx & Hok).
  destruct (inv_root_hi _ _ _ _ Hinv) as (nr & Hnr & Hhi).
  exists H, NegInf, nr, lx, bx, nx. split_and!; try done.
  - apply Hinv.
  - apply Hok.
  - rewrite Hhi. done.
Qed.

Lemma under_node p x : under g h p x → ∃ lx bx, g x = Some (lx, bx).
Proof. intros (lp & bp & np & lx & bx & nx & _ & _ & Hx & _). by eauto. Qed.

Lemma under_level p x lp bp lx bx :
  under g h p x → g p = Some (lp, bp) → g x = Some (lx, bx) → lx ≤ lp.
Proof.
  intros (lp' & bp' & np & lx' & bx' & nx & Hp & _ & Hx & _ & Hle & _) Hp' Hx'.
  rewrite Hp in Hp'. rewrite Hx in Hx'. injection Hp' as <- <-. by injection Hx' as <- <-.
Qed.

Lemma under_same_level p x l bp bx :
  under g h p x → g p = Some (l, bp) → g x = Some (l, bx) → x = p.
Proof using Hinv.
  intros (lp' & bp' & np & lx' & bx' & nx & Hp & Hnp & Hx & Hnx & Hle & Hr) Hp' Hx'.
  rewrite Hp in Hp'. rewrite Hx in Hx'. injection Hp' as -> ->. injection Hx' as -> ->.
  eapply (level_lt_hi g h root H _ x p l); eauto using own_range.
Qed.

Lemma under_child p lp bp np c x :
  g p = Some (lp, bp) → h !! p = Some np → c ∈ inner_records np →
  under g h (child c) x → under g h p x.
Proof using Hinv.
  intros Hp Hnp Hc (lc & bc & nc & lx & bx & nx & Hgc & Hnc & Hx & Hnx & Hle & Hr).
  destruct (inv_child _ _ _ _ _ _ _ _ _ Hinv Hp Hnp Hc)
    as (l' & nc' & bc' & -> & Hnc' & Hgc' & Hlo & Hhi).
  rewrite Hnc in Hnc'. rewrite Hgc in Hgc'. injection Hnc' as <-. injection Hgc' as -> <-.
  exists (S l'), bp, np, lx, bx, nx. split_and!; try done; [lia|].
  destruct Hr as [Hr1 Hr2]. split.
  - by eapply ble_trans.
  - by eapply blt_ble_trans.
Qed.

Lemma under_cases p lp bp np x :
  g p = Some (lp, bp) → h !! p = Some np → under g h p x → x ≠ p →
  ∃ c, c ∈ inner_records np ∧ under g h (child c) x.
Proof using Hinv.
  intros Hp Hnp Hu Hne.
  pose proof Hu as (lp' & bp' & np' & lx & bx & nx & Hp' & Hnp' & Hx & Hnx & Hle & Hr).
  rewrite Hp in Hp'. rewrite Hnp in Hnp'. injection Hp' as <- <-. injection Hnp' as <-.
  destruct (decide (lx = lp)) as [->|Hlt].
  { exfalso. apply Hne. by eapply under_same_level. }
  destruct lp as [|l]; [lia|].
  destruct (inv_node _ _ _ _ _ _ _ Hinv Hp) as (n' & Hn' & Hok).
  rewrite Hnp in Hn'. injection Hn' as <-.
  destruct (node_ok_inner _ _ _ _ _ _ Hok) as (cs & nxt & Ecs & _ & Hchain & _).
  destruct (chain_search _ _ _ _ _ _ _ _ Hchain Hr) as (c & nc & lc & Hc & Hnc & Hgc & Hrc).
  exists c. split.
  - unfold inner_records. rewrite Ecs. by eapply list_elem_of_lookup_2.
  - exists l, lc, nc, lx, bx, nx. split_and!; try done. lia.
Qed.

Lemma under_disjoint p lp bp np c1 c2 x :
  g p = Some (lp, bp) → h !! p = Some np →
  c1 ∈ inner_records np → c2 ∈ inner_records np →
  under g h (child c1) x → under g h (child c2) x → child c1 = child c2.
Proof using Hinv.
  intros Hp Hnp Hc1 Hc2
    (l1 & b1 & n1 & lx & bx & nx & Hg1 & Hn1 & Hx & Hnx & _ & Hr1)
    (l2 & b2 & n2 & lx' & bx' & nx' & Hg2 & Hn2 & Hx' & Hnx' & _ & Hr2).
  rewrite Hx in Hx'. rewrite Hnx in Hnx'. injection Hx' as <- <-. injection Hnx' as <-.
  destruct (inv_child _ _ _ _ _ _ _ _ _ Hinv Hp Hnp Hc1) as (l' & ? & ? & -> & _ & Hg1' & _).
  destruct (inv_child _ _ _ _ _ _ _ _ _ Hinv Hp Hnp Hc2) as (l'' & ? & ? & E & _ & Hg2' & _).
  injection E as <-. rewrite Hg1 in Hg1'. rewrite Hg2 in Hg2'.
  injection Hg1' as -> _. injection Hg2' as -> _.
  by eapply (level_lt_hi g h root H _ (child c1) (child c2) l').
Qed.

Lemma under_child_not_self p lp bp np c :
  g p = Some (lp, bp) → h !! p = Some np → c ∈ inner_records np →
  ¬ under g h (child c) p.
Proof using Hinv.
  intros Hp Hnp Hc Hu.
  destruct (inv_child _ _ _ _ _ _ _ _ _ Hinv Hp Hnp Hc) as (l' & ? & bc & -> & _ & Hgc & _).
  pose proof (under_level _ _ _ _ _ _ Hu Hgc Hp). lia.
Qed.

(** [DeleteChildren] below a page of the tree releases the pages of its
    subtree, each once, the page itself last. *)
Lemma DeleteChildren_spec :
  ∀ lvl p lo fuel released,
    g p = Some (lvl, lo) → lvl < fuel → (∀ x, under g h p x → x ∉ released) →
    ∃ sub, DeleteChildren fuel h p released = Some (released ++ sub) ∧
      NoDup sub ∧ (∀ x, x ∈ sub ↔ under g h p x) ∧ list.last sub = Some p.
Proof using Hinv.
  induction lvl as [|l IH]; intros p lo fuel released Hp Hfuel Hfresh;
    (destruct fuel as [|fuel]; [lia|]);
    destruct (inv_node _ _ _ _ _ _ _ Hinv Hp) as (n & Hn & Hok);
    cbn [DeleteChildren];
    rewrite bool_decide_eq_false_2 by (by eapply Hfresh, under_self);
    rewrite Hn, (node_ok_IsInner _ _ _ _ _ _ Hok).
  - rewrite bool_decide_eq_false_2 by lia. simpl. exists [p].
    split_and!; [done|apply NoDup_singleton| |done].
    intros x. rewrite list_elem_of_singleton. split; [intros ->; by eapply under_self|].
    intros Hu. destruct (under_node _ _ Hu) as (lx & bx & Hx).
    pose proof (under_level _ _ _ _ _ _ Hu Hp Hx).
    eapply under_same_level; [done|done|]. replace lx with 0 in Hx by lia. done.
  - rewrite bool_decide_eq_true_2 by lia.
    destruct (node_ok_inner _ _ _ _ _ _ Hok) as (cs & nxt & Ecs & _ & Hchain & _).
    assert (inner_records n = cs) as Eics by (unfold inner_records; by rewrite Ecs).
    assert (GetRecordCount n = length cs) as -> by (unfold GetRecordCount; by rewrite Ecs).
    pose proof (foldl_seq_lookup
                  (λ (acc : option (list ptr)) (o : option InnerRec),
                     acc ≫= λ rel, (child <$> o) ≫= λ c, DeleteChildren fuel h c rel)
                  cs [] (Some released)) as Efold.
    simpl in Efold. unfold Node_GetChild. rewrite Eics, Efold. clear Efold.
    assert (∀ cs2 rel,
              (∀ c, c ∈ cs2 → c ∈ cs) → NoDup (child <$> cs2) →
              (∀ c x, c ∈ cs2 → under g h (child c) x → x ∉ rel) →
              ∃ sub,
                foldl (λ (acc : option (list ptr)) (c : InnerRec),
                         acc ≫= λ rel, DeleteChildren fuel h (child c) rel)
                  (Some rel) cs2 = Some (rel ++ sub) ∧
                NoDup sub ∧
                ∀ x, x ∈ sub ↔ ∃ c, c ∈ cs2 ∧ under g h (child c) x) as Hloop.
    { induction cs2 as [|c cs2 IH2]; intros rel Hsub Hnd Hfr.
      - exists []. simpl. rewrite app_nil_r. split_and!; [done|constructor|].
        intros x. split; [by intros ?%elem_of_nil|]. by intros (c & ?%elem_of_nil & _).
      - assert (c ∈ inner_records n) as Hc by (rewrite Eics; apply Hsub; by left).
        destruct (inv_child _ _ _ _ _ _ _ _ _ Hinv Hp Hn Hc)
          as (l' & nc & bc & El & Hnc & Hgc & _). injection El as <-.
        destruct (IH (child c) bc fuel rel Hgc) as (sub1 & E1 & Hnd1 & Hm1 & _); [lia| |].
        { intros x Hx. eapply Hfr; [by left|done]. }
        rewrite fmap_cons in Hnd; apply list.NoDup_cons in Hnd as [Hc_new Hnd].
        assert (∀ c' x, c' ∈ cs2 → under g h (child c') x → ¬ under g h (child c) x)
          as Hdis.
        { intros c' x Hc' Hu' Hu. apply Hc_new.
          rewrite (under_disjoint p (S l) lo n c c' x); try done.
          - by apply list_elem_of_fmap_2.
          - rewrite Eics. apply Hsub. by right. }
        destruct (IH2 (rel ++ sub1)) as (sub2 & E2 & Hnd2 & Hm2).
        { intros c' Hc'. apply Hsub. by right. }
        { done. }
        { intros c' x Hc' Hu. rewrite elem_of_app. intros [Hx|Hx].
          - eapply Hfr; [by right|done|done].
          - apply Hm1 in Hx. by eapply Hdis. }
        exists (sub1 ++ sub2). simpl. rewrite E1, E2, app_assoc.
        split_and!; [done| |].
        + apply list.NoDup_app. split_and!; [done| |done].
          intros x Hx1 Hx2. apply Hm1 in Hx1. apply Hm2 in Hx2 as (c' & Hc' & Hu').
          by eapply Hdis.
        + intros x. rewrite elem_of_app, Hm1, Hm2. split.
          * intros [Hu|(c' & Hc' & Hu')]; [exists c; split; [by left|done]|].
            exists c'. split; [by right|done].
          * intros (c' & [->|Hc']%elem_of_cons & Hu'); [by left|]. right. by eauto. }
    destruct (Hloop cs released) as (subs & E & Hnd & Hm); [done| |..].
    { by eapply chain_NoDup, Hchain; eapply inv_ranges_ok. }
    { intros c x Hc Hu. apply Hfresh. eapply under_child; [done|done| |done].
      by rewrite Eics. }
    rewrite E. simpl. exists (subs ++ [p]). rewrite app_assoc.
    split_and!; [done| | |by rewrite last_snoc].
    + apply list.NoDup_app. split_and!; [done| |apply NoDup_singleton].
      intros x Hx ->%list_elem_of_singleton. apply Hm in Hx as (c & Hc & Hu).
      eapply under_child_not_self; [done|done| |done]. by rewrite Eics.
    + intros x. rewrite elem_of_app, Hm, list_elem_of_singleton. split.
      * intros [(c & Hc & Hu)| ->]; [|by eapply under_self].
        eapply under_child; [done|done| |done]. by rewrite Eics.
      * intros Hu. destruct (decide (x = p)) as [->|Hne]; [by right|]. left.
        destruct (under_cases _ _ _ _ _ Hp Hn Hu Hne) as (c & Hc & Hu').
        exists c. by rewrite <- Eics.
Qed.

End Under.

Section Destroy.
Context {cfg : Params}.

(** X18: the destructor of a well-formed tree releases the pages of the tree,
    each once and the root last, after the pages below it; it reads no
    page that it has released.  Pages that are not part of the tree are
    not released, so none of the pages that are flagged removed. *)
Theorem destructor_releases_tree g t H fuel :
  inv g (heap t) (root_ t) H → H < fuel →
  ∃ released,
    BTree_destroy fuel t = Some (released, observed t) ∧
    NoDup released ∧ (∀ p, p ∈ released ↔ is_Some (g p)) ∧
    list.last released = Some (root_ t) ∧
    ∀ p n, heap t !! p = Some n → is_removed n = true → p ∉ released.
Proof.
  intros Hinv Hfuel.
  destruct (DeleteChildren_spec g (heap t) (root_ t) H Hinv H (root_ t) NegInf fuel [])
    as (sub & E & Hnd & Hm & Hlast); [apply Hinv|done|by intros x _ ?%elem_of_nil|].
  exists sub. unfold BTree_destroy. simpl. rewrite E. simpl.
  assert (∀ p, p ∈ sub ↔ is_Some (g p)) as Hm'.
  { intros p. rewrite Hm. split.
    - intros (lx & bx & Hx)%under_node. by eauto.
    - intros [x0 Hx]. by eapply under_root. }
  split_and!; try done.
  intros p n Hn Hr [[lvl lo] Hg]%Hm'.
  destruct (inv_node _ _ _ _ _ _ _ Hinv Hg) as (n' & Hn' & Hok).
  rewrite Hn in Hn'. injection Hn' as <-. destruct Hok as (Hr' & _). congruence.
Qed.

End Destroy.

Lemma at_depth_app d W1 W2 : at_depth d (W1 ++ W2) = at_depth d W1 ++ at_depth d W2.
Proof. unfold at_depth. by rewrite list.filter_app, fmap_app. Qed.

Lemma at_depth_one d d' x : at_depth d [(d', x)] = if decide (d' = d) then [x] else [].
Proof.
  unfold at_depth. rewrite filter_cons. simpl. by destruct (decide (d' = d)).
Qed.

Lemma at_depth_elem d W x : x ∈ at_depth d W ↔ (d, x) ∈ W.
Proof.
  unfold at_depth. rewrite list_elem_of_fmap. split.
  - intros ([d' x'] & -> & [Hd He]%list_elem_of_filter). simpl in Hd. by subst d'.
  - intros He. exists (d, x). split; [done|]. by apply list_elem_of_filter.
Qed.

Lemma at_depth_none d W n : (∀ e, e ∈ W → e.1 < n) → n ≤ d → at_depth d W = [].
Proof.
  intros Hlt Hle. destruct (at_depth d W) as [|x l] eqn:E; [done|].
  assert (x ∈ at_depth d W) as Hx by (rewrite E; by left).
  apply at_depth_elem, Hlt in Hx. simpl in Hx. lia.
Qed.

Lemma at_depth_NoDup d W : NoDup (snd <$> W) → NoDup (at_depth d W).
Proof.
  induction W as [|[d' x] W IH]; [done|].
  rewrite fmap_cons. intros [Hx Hnd]%list.NoDup_cons.
  change ((d', x) :: W) with ([(d', x)] ++ W). rewrite at_depth_app, at_depth_one.
  destruct (decide (d' = d)); [|by apply IH].
  simpl. apply list.NoDup_cons. split; [|by apply IH].
  intros Hin%at_depth_elem. apply Hx. apply list_elem_of_fmap. by exists (d, x).
Qed.

Lemma tally_step u page W st d x :
  tally u page W st → d ≤ length st →
  ∃ a b c,
    (if length st <=? d then st ++ [(0, 0, 0)] else st) !! d = Some (a, b, c) ∧
    tally u page (W ++ [(d, x)])
      (<[d := (S a, b + u x, c + page)]>
         (if length st <=? d then st ++ [(0, 0, 0)] else st)) ∧
    length (<[d := (S a, b + u x, c + page)]>
              (if length st <=? d then st ++ [(0, 0, 0)] else st)) =
      max (length st) (S d).
Proof.
  intros [Hlt Hst] Hd. destruct (Nat.leb_spec (length st) d) as [Hle|Hgt].
  - assert (d = length st) as -> by lia.
    exists 0, 0, 0. rewrite length_insert, length_app. simpl.
    split_and!; [by apply list_lookup_middle| |lia].
    split.
    + intros e [He| ->%list_elem_of_singleton]%elem_of_app;
        rewrite length_insert, length_app; simpl; [|lia].
      specialize (Hlt e He). lia.
    + intros d'. rewrite length_insert, length_app. simpl. intros Hd'.
      rewrite at_depth_app, at_depth_one.
      destruct (decide (length st = d')) as [<-|Hne].
      * rewrite list_lookup_insert_eq by (rewrite length_app; simpl; lia).
        rewrite (at_depth_none _ W (length st)) by (done || lia). simpl.
        do 2 f_equal; [f_equal|]; lia.
      * rewrite list_lookup_insert_ne by done.
        rewrite lookup_app_l by lia. rewrite app_nil_r. apply Hst. lia.
  - pose proof (Hst d Hgt) as E. eexists _, _, _. split; [exact E|].
    rewrite length_insert. split; [|lia]. split.
    + intros e [He| ->%list_elem_of_singleton]%elem_of_app;
        rewrite length_insert; [by apply Hlt|done].
    + intros d'. rewrite length_insert. intros Hd'.
      rewrite at_depth_app, at_depth_one.
      destruct (decide (d = d')) as [<-|Hne].
      * rewrite list_lookup_insert_eq by done.
        rewrite length_app, sum_list_with_app. simpl.
        do 2 f_equal; [f_equal|]; lia.
      * rewrite list_lookup_insert_ne by done. rewrite app_nil_r. by apply Hst.
Qed.

Lemma IsInner_LockS n : IsInner (LockS n) = IsInner n.
Proof. done. Qed.

Section StatSpec.
Context {cfg : Params}.
Context (GetNodeUsage : Node → nat) (kPageSize : nat).
Context (g : Ghost) (h0 : list Node) (root : ptr) (H : nat).
Context (Hinv : inv g h0 root H).

Lemma CollectStatisticalData_rec_spec :
  ∀ lvl p lo fuel h st W,
    g p = Some (lvl, lo) → lvl < fuel →
    (∀ x, under g h0 p x → h !! x = h0 !! x) →
    H - lvl ≤ length st → tally (usage_of GetNodeUsage h0) kPageSize W st →
    ∃ V st',
      CollectStatisticalData_rec GetNodeUsage kPageSize fuel h p (H - lvl) st =
        Some (h, st') ∧
      tally (usage_of GetNodeUsage h0) kPageSize (W ++ V) st' ∧
      length st' = max (length st) (S H) ∧
      NoDup (snd <$> V) ∧
      ∀ d x, (d, x) ∈ V ↔ under g h0 p x ∧ ∃ lx bx, g x = Some (lx, bx) ∧ d = H - lx.
Proof using Hinv.
  induction lvl as [|l IH]; intros p lo fuel h st W Hp Hfuel Hsame Hlen Htally;
    (destruct fuel as [|fuel]; [lia|]);
    destruct (inv_node _ _ _ _ _ _ _ Hinv Hp) as (n0 & Hn0 & Hok);
    pose proof (Hsame p (under_self _ _ _ _ Hinv _ _ Hp)) as Hhp;
    rewrite Hn0 in Hhp;
    destruct (tally_step _ _ _ _ _ p Htally Hlen) as (sa & sb & sc & Est & Htally1 & Hlen1);
    assert (usage_of GetNodeUsage h0 p = GetNodeUsage (LockS n0)) as Eu
      by (unfold usage_of; by rewrite Hn0);
    rewrite Eu in Htally1, Hlen1;
    assert (<[p := LockS n0]> h !! p = Some (LockS n0)) as Hlocked
      by (apply list_lookup_insert_eq; by eapply lookup_lt_Some);
    assert (<[p := UnlockS (LockS n0)]> (<[p := LockS n0]> h) = h) as Hunlock
      by (rewrite UnlockS_LockS, list_insert_insert_eq; by apply list_insert_id);
    assert (lvl_le : ∀ lv bd, g p = Some (lv, bd) → lv ≤ H)
      by (intros lv bd Hg; destruct (inv_node _ _ _ _ _ _ _ Hinv Hg) as (? & _ & Hk);
          apply Hk);
    cbn [CollectStatisticalData_rec]; rewrite Hhp; cbv zeta; rewrite Est;
    rewrite IsInner_LockS, (node_ok_IsInner _ _ _ _ _ _ Hok).
  - rewrite bool_decide_eq_false_2 by lia. rewrite Hlocked, Hunlock.
    eexists [(H - 0, p)], _. split; [done|]. split_and!; [done|lia|apply NoDup_singleton|].
    intros d x. rewrite list_elem_of_singleton. split.
    + intros [= -> ->]. split; [by eapply under_self|]. by eauto.
    + intros (Hu & lx & bx & Hx & ->).
      pose proof (under_level _ _ _ _ _ _ _ _ Hu Hp Hx).
      replace lx with 0 in * by lia.
      by rewrite (under_same_level _ _ _ _ Hinv _ _ _ _ _ Hu Hp Hx).
  - rewrite bool_decide_eq_true_2 by lia.
    pose proof (lvl_le _ _ Hp) as HlH.
    destruct (node_ok_inner _ _ _ _ _ _ Hok) as (cs & nxt & Ecs & _ & Hchain & _).
    assert (inner_records n0 = cs) as Eics by (unfold inner_records; by rewrite Ecs).
    assert (GetRecordCount (LockS n0) = length cs) as ->
      by (unfold GetRecordCount; simpl; by rewrite Ecs).
    set (h1 := <[p := LockS n0]> h) in *.
    set (st2 := <[H - S l := _]> _) in *.
    pose proof (foldl_seq_lookup
                  (λ (acc : option (list Node * list Stat)) (o : option InnerRec),
                     acc ≫= λ '(h', st), (child <$> o) ≫= λ c,
                     CollectStatisticalData_rec GetNodeUsage kPageSize fuel h' c
                       (S (H - S l)) st)
                  cs [] (Some (h1, st2))) as Efold.
    simpl in Efold. unfold Node_GetChild.
    change (inner_records (LockS n0)) with (inner_records n0).
    rewrite Eics, Efold. clear Efold.
    replace (S (H - S l)) with (H - l) by lia.
    assert (∀ x, (∃ c, c ∈ cs ∧ under g h0 (child c) x) → h1 !! x = h0 !! x) as Hsame1.
    { intros x (c & Hc & Hu).
      assert (x ≠ p) as Hne.
      { intros ->. eapply (under_child_not_self _ _ _ _ Hinv); [done|done| |done].
        by rewrite Eics. }
      unfold h1. rewrite list_lookup_insert_ne by done.
      apply Hsame. eapply (under_child _ _ _ _ Hinv); [done|done| |done]. by rewrite Eics. }
    assert (∀ cs2 st3 W3,
              (∀ c, c ∈ cs2 → c ∈ cs) → NoDup (child <$> cs2) →
              H - l ≤ length st3 →
              tally (usage_of GetNodeUsage h0) kPageSize W3 st3 →
              ∃ V2 st',
                foldl (λ (acc : option (list Node * list Stat)) (c : InnerRec),
                         acc ≫= λ '(h', st),
                         CollectStatisticalData_rec GetNodeUsage kPageSize fuel h'
                           (child c) (H - l) st)
                  (Some (h1, st3)) cs2 = Some (h1, st') ∧
                tally (usage_of GetNodeUsage h0) kPageSize (W3 ++ V2) st' ∧
                length st3 ≤ length st' ∧ length st' ≤ max (length st3) (S H) ∧
                (cs2 ≠ [] → S H ≤ length st') ∧
                NoDup (snd <$> V2) ∧
                ∀ d x, (d, x) ∈ V2 ↔
                  (∃ c, c ∈ cs2 ∧ under g h0 (child c) x) ∧
                  ∃ lx bx, g x = Some (lx, bx) ∧ d = H - lx) as Hloop.
    { induction cs2 as [|c cs2 IH2]; intros st3 W3 Hsub Hnd Hl3 Ht3.
      - exists [], st3. simpl. rewrite app_nil_r.
        split_and!; [done|done|lia|lia|done|constructor|].
        intros d x. split; [by intros ?%elem_of_nil|].
        by intros ((c & ?%elem_of_nil & _) & _).
      - assert (c ∈ inner_records n0) as Hc by (rewrite Eics; apply Hsub; by left).
        destruct (inv_child _ _ _ _ _ _ _ _ _ Hinv Hp Hn0 Hc)
          as (l' & nc & bc & El & Hnc & Hgc & _). injection El as <-.
        destruct (IH (child c) bc fuel h1 st3 W3 Hgc) as (V1 & st4 & E1 & Ht4 & Hl4 & Hnd1 & Hm1);
          [lia| |done|done|].
        { intros x Hu. apply Hsame1. exists c. split; [|done]. apply Hsub. by left. }
        rewrite fmap_cons in Hnd. apply list.NoDup_cons in Hnd as [Hc_new Hnd].
        assert (∀ c' x, c' ∈ cs2 → under g h0 (child c') x → ¬ under g h0 (child c) x)
          as Hdis.
        { intros c' x Hc' Hu' Hu. apply Hc_new.
          rewrite (under_disjoint _ _ _ _ Hinv p (S l) lo n0 c c' x); try done.
          - by apply list_elem_of_fmap_2.
          - rewrite Eics. apply Hsub. by right. }
        destruct (IH2 st4 (W3 ++ V1)) as (V2 & st5 & E2 & Ht5 & Hl5a & Hl5b & _ & Hnd2 & Hm2).
        { intros c' Hc'. apply Hsub. by right. }
        { done. }
        { lia. }
        { done. }
        exists (V1 ++ V2), st5. simpl. rewrite E1. simpl. rewrite E2, app_assoc.
        split_and!; [done|done|lia|lia|intros _; lia| |].
        + rewrite fmap_app. apply list.NoDup_app. split_and!; [done| |done].
          intros x ([d1 x1] & -> & Hx1)%list_elem_of_fmap ([d2 x2] & E & Hx2)%list_elem_of_fmap.
          simpl in E. subst x2.
          apply Hm1 in Hx1 as (Hu1 & _). apply Hm2 in Hx2 as ((c' & Hc' & Hu') & _).
          by eapply Hdis.
        + intros d x. rewrite elem_of_app, Hm1, Hm2. split.
          * intros [(Hu & Hx)|((c' & Hc' & Hu') & Hx)]; (split; [|done]).
            -- exists c. split; [by left|done].
            -- exists c'. split; [by right|done].
          * intros ((c' & [->|Hc']%elem_of_cons & Hu') & Hx); [by left|].
            right. split; [by eauto|done]. }
    destruct (Hloop cs st2 (W ++ [(H - S l, p)])) as (V2 & st' & E & Ht & Hla & Hlb & Hlc & Hnd & Hm);
      [done| |lia|done|].
    { by eapply chain_NoDup, Hchain; eapply inv_ranges_ok. }
    rewrite E. fold h1 in Hlocked. rewrite Hlocked. fold h1 in Hunlock. rewrite Hunlock.
    exists ((H - S l, p) :: V2), st'.
    assert (cs ≠ []) as Hcs by (intros ->; done).
    specialize (Hlc Hcs).
    split_and!; [done|by rewrite cons_middle, app_assoc|lia| |].
    + rewrite fmap_cons. apply list.NoDup_cons. split; [|done]. simpl.
      intros ([d x] & E' & Hx)%list_elem_of_fmap. simpl in E'. subst x.
      apply Hm in Hx as ((c & Hc & Hu) & _).
      eapply (under_child_not_self _ _ _ _ Hinv); [done|done| |done]. by rewrite Eics.
    + intros d x. rewrite elem_of_cons, Hm. split.
      * intros [[= -> ->]|((c & Hc & Hu) & Hx)].
        -- split; [by eapply under_self|]. by eauto.
        -- split; [|done].
           eapply (under_child _ _ _ _ Hinv); [done|done| |done]. by rewrite Eics.
      * intros (Hu & lx & bx & Hx & ->).
        destruct (decide (x = p)) as [->|Hne].
        -- left. rewrite Hp in Hx. by injection Hx as <- <-.
        -- right. split; [|by eauto].
           destruct (under_cases _ _ _ _ Hinv _ _ _ _ _ Hp Hn0 Hu Hne) as (c & Hc & Hu').
           exists c. by rewrite <- Eics.
Qed.

End StatSpec.

Section Statistics.
Context {cfg : Params}.

(** X19: [CollectStatisticalData] on a well-formed tree of height [H] returns
    one element per level, the root level first: the number of pages of
    the level, the sum of their usages and the number of pages times the
    page size.  Every shared lock it takes is released: the pages are as
    before. *)
Theorem statistics_per_level (GetNodeUsage : Node → nat) (kPageSize : nat) g t H fuel :
  inv g (heap t) (root_ t) H → H < fuel →
  ∃ stat,
    CollectStatisticalData GetNodeUsage kPageSize fuel t = Some (stat, observed t) ∧
    length stat = S H ∧
    ∀ d, d ≤ H →
      stat !! d =
        Some (length (level_pages g (heap t) (H - d)),
              sum_list_with (usage_of GetNodeUsage (heap t)) (level_pages g (heap t) (H - d)),
              length (level_pages g (heap t) (H - d)) * kPageSize).
Proof.
  intros Hinv Hfuel.
  destruct (CollectStatisticalData_rec_spec GetNodeUsage kPageSize g (heap t) (root_ t) H Hinv
              H (root_ t) NegInf fuel (heap t) [] [])
    as (V & stat & E & [_ Ht] & Hlen & Hnd & Hm); [apply Hinv|done|done|simpl; lia| |].
  { split; [by intros e ?%elem_of_nil|]. simpl. lia. }
  rewrite Nat.sub_diag in E. simpl in Hlen.
  exists stat. unfold CollectStatisticalData. simpl. rewrite E. simpl.
  split_and!; [done|lia|]. intros d Hd. rewrite Ht by lia. simpl.
  assert (at_depth d V ≡ₚ level_pages g (heap t) (H - d)) as Hperm.
  { apply NoDup_Permutation.
    - by apply at_depth_NoDup.
    - apply list.NoDup_filter, NoDup_seq.
    - intros x. rewrite at_depth_elem, Hm. unfold level_pages.
      rewrite list_elem_of_filter, elem_of_seq. split.
      + intros (_ & lx & bx & Hx & ->).
        destruct (inv_node _ _ _ _ _ _ _ Hinv Hx) as (nx & Hnx & Hok).
        assert (lx ≤ H) by apply Hok.
        split; [rewrite Hx; simpl; f_equal; lia|].
        apply lookup_lt_Some in Hnx. lia.
      + intros [Hx _]. destruct (g x) as [[lx bx]|] eqn:Hgx; [|done].
        simpl in Hx. injection Hx as ->.
        split; [by eapply under_root|]. exists (H - d), bx. split; [done|lia]. }
  by rewrite Hperm.
Qed.

End Statistics.

(** * Bulk loading into a tree *)

Section Build.
Context {cfg : Params}.

(** X21: [Bulkload] of a strictly ascending, non-empty list into a tree
    of which no page has been retired (so that every page of the new
    tree is newly allocated): the result is a well-formed tree that
    stores exactly the entries, whatever the tree held before; a scan of
    everything returns the list.  The root is published with one
    sequentially consistent store and read back once; the pages of the
    old tree are not handed to the garbage collector. *)
Theorem bulkload_round_trip t entries thread_num :
  1 ≤ kLeafNodeCap → 2 ≤ kInnerNodeCap → entries ≠ [] →
  keys_in NegInf (fst <$> entries) PosInf → gc_garbage t = [] →
  ∃ tb H,
    Bulkload t entries thread_num = Some (kSuccess, tb) ∧
    (∃ g, inv g (heap tb) (root_ tb) H) ∧
    (∀ K, stores tb K (assoc K entries)) ∧
    (∃ f0, ∀ fuel, f0 ≤ fuel →
       ∃ t', ScanAll fuel tb None None = Some (entries, t')) ∧
    gc_garbage tb = [] ∧ gc_guards tb = gc_guards t ∧
    root_trace tb =
      root_trace t ++ [RootStore memory_order_seq_cst (root_ tb);
                       RootLoad memory_order_seq_cst].
Proof.
  intros Hleaf Hinner Hne Hsorted Hnone.
  destruct (Bulkload_spec t entries thread_num Hleaf Hinner Hne Hsorted)
    as (tb & g & H & E & Hinv & Hfrom & Hhave & Hgd & Hgb & Htr).
  assert (∀ K, holds g (heap tb) K (assoc K entries)) as Hholds.
  { intros K. by eapply bulk_holds. }
  exists tb, H. split_and!; try done;
    [by exists g|by intros K; exists g, H| |by rewrite Hgb].
  destruct (ScanAll_spec g tb H None None Hinv) as (f0 & Hf).
  exists f0. intros fuel Hfuel.
  destruct (Hf fuel Hfuel) as (out & t' & Es & Hso & Hmem & _).
  exists t'. rewrite Es. do 2 f_equal.
  apply (sorted_members_eq out entries NegInf Hso Hsorted).
  intros [k v]. rewrite Hmem. split.
  - intros (Hk & _). apply assoc_Some.
    by rewrite (holds_unique _ _ _ _ _ _ _ Hinv (Hholds k) Hk).
  - intros Hin. split; [|done].
    rewrite <- (assoc_elem _ _ _ _ _ Hsorted Hin). apply Hholds.
Qed.

End Build.

Lemma two_level_inv : inv ghost_two (heap two_level) (root_ two_level) 1.
Proof.
  split.
  - done.
  - by exists top_node.
  - intros p lvl lo Hp. destruct p as [|[|[|p]]]; simpl in Hp; [| | |done];
      injection Hp as <- <-; eexists; (split; [done|]); unfold node_ok; simpl;
      split_and!; try done; try lia.
    exists 0, None. split_and!; try done; [|by left].
    simpl. split_and!; try done; [by exists left_leaf|].
    simpl. split_and!; try done. by exists right_leaf.
  - intros p lvl lo Hp. destruct p as [|[|[|p]]]; simpl in Hp; [| | |done].
    + right. exists 2, 1, NegInf, top_node. split_and!; try done. simpl. by left.
    + right. exists 2, 1, NegInf, top_node. split_and!; try done. simpl. right. by left.
    + by left.
Qed.

Section MoreExamples.
#[local] Existing Instance cfg4.

Lemma two_level_ok : tree_ok two_level 1.
Proof.
  split; [exists ghost_two; apply two_level_inv|].
  intros p n Hp. destruct p as [|[|[|p]]]; simpl in Hp; [| | |done];
    injection Hp as <-; simpl; lia.
Qed.

Lemma search_leaf_decides_witness :
  ∃ q n, SearchLeafNode 2 two_level 4 = Some (q, observed two_level) ∧
    heap two_level !! q = Some n ∧ IsInner n = false ∧ is_removed n = false ∧
    blt (Fin 4) (hi_of (high_key n)) ∧
    ∀ v, stores two_level 4 v ↔ rec_payload <$> find_live 4 (leaf_records n) = v.
Proof. apply (search_leaf_decides two_level 1 4 2); [apply two_level_ok|lia]. Defined.

Lemma search_for_write_stack_witness :
  ∃ q n stack,
    SearchLeafNodeForWrite 2 two_level 4 = Some (q :: stack, observed two_level) ∧
    heap two_level !! q = Some n ∧ IsInner n = false ∧
    length stack = 1 ∧ parents_ok (heap two_level) (root_ two_level) q stack ∧
    ∀ v, stores two_level 4 v ↔ rec_payload <$> find_live 4 (leaf_records n) = v.
Proof. apply (search_for_write_stack two_level 1 4 2); [apply two_level_ok|lia]. Defined.

Lemma leftmost_leaf_witness :
  ∃ q n, heap two_level !! q = Some n ∧ IsInner n = false ∧
    (∀ fuel, 1 < fuel → SearchLeftmostLeaf fuel two_level = Some (q, observed two_level)) ∧
    ∀ K, blt (Fin K) (hi_of (high_key n)) →
      ∀ v, stores two_level K v ↔ rec_payload <$> find_live K (leaf_records n) = v.
Proof. apply (leftmost_leaf two_level 1), two_level_ok. Defined.

Lemma search_parent_path_witness :
  ∃ path,
    SearchParentNode 3 two_level [7] 4 1 = Some (path ++ [7], observed two_level) ∧
    length path = 1 - 0 ∧ parents_ok (heap two_level) (root_ two_level) 1 path.
Proof.
  apply (search_parent_path ghost_two two_level 1 4 1 0 (Fin 3) right_leaf [7] 3);
    [apply two_level_inv|done|done|done|lia].
Defined.

(** The descents of the example: the leaf of key 4 is page 1, below the
    root, page 2; the search for the parent of page 1 pushes the root on
    the stack it is given. *)
Lemma descent_example :
  fst <$> SearchLeafNode 2 two_level 4 = Some 1 ∧
  fst <$> SearchLeafNodeForWrite 2 two_level 4 = Some [1; 2] ∧
  fst <$> SearchLeftmostLeaf 2 two_level = Some 0 ∧
  fst <$> SearchParentNode 3 two_level [7] 4 1 = Some [2; 7].
Proof. vm_compute. done. Qed.

Lemma read_observes_witness :
  ∃ v q n,
    Read 2 two_level 4 = Some (v, (q, version n, version n), observed two_level) ∧
    heap two_level !! q = Some n ∧ IsInner n = false ∧
    v = rec_payload <$> find_live 4 (leaf_records n) ∧ stores two_level 4 v.
Proof. apply (read_observes two_level 1 4 2); [apply two_level_ok|lia]. Defined.

Lemma update_in_place_witness :
  (stores two_level 4 None →
     Update 2 two_level 4 44 = Some (kKeyNotExist, observed two_level)) ∧
  (∀ v0, stores two_level 4 (Some v0) →
     ∃ t', Update 2 two_level 4 44 = Some (kSuccess, t') ∧ tree_ok t' 1 ∧
       length (heap t') = length (heap two_level) ∧ root_ t' = root_ two_level ∧
       gc_garbage t' = gc_garbage two_level ∧ gc_guards t' = gc_guards two_level ∧
       ∀ K' v, stores two_level K' v →
               stores t' K' (if decide (K' = 4%Z) then Some 44%Z else v)).
Proof. apply (update_in_place two_level 1 4 44 2); [apply two_level_ok|lia]. Defined.

Lemma delete_keeps_others_witness :
  (stores two_level 1 None →
     Delete 5 two_level 1 = Some (kKeyNotExist, observed two_level)) ∧
  ∃ rc t' H',
    Delete 5 two_level 1 = Some (rc, t') ∧ tree_ok t' H' ∧ H' ≤ 1 ∧
    (∀ K' v, stores two_level K' v →
             stores t' K' (if decide (K' = 1%Z) then None else v)) ∧
    gc_guards t' = gc_guards two_level.
Proof. apply (delete_keeps_others two_level 1 1 5); [apply two_level_ok|lia]. Defined.

Lemma insert_twice_witness :
  ∃ t1 info1 info2,
    Insert 2 (leaf_tree four) 7 70 = Some (kSuccess, None, info1, t1) ∧
    Insert 2 t1 7 71 = Some (kKeyExist, Some 70%Z, info2, observed t1).
Proof.
  apply (insert_twice (leaf_tree four) 0 7 70 71 2);
    [simpl; lia|apply leaf_tree_ok, four_sorted|lia|
     exact (leaf_tree_stores four 7 four_sorted)].
Defined.

Lemma delete_then_insert_witness :
  ∃ t1 t2 info1 info2,
    Delete 3 (leaf_tree four) 3 = Some (kSuccess, t1) ∧
    Insert 3 t1 3 33 = Some (kSuccess, None, info1, t2) ∧
    Read 3 t2 3 = Some (Some 33%Z, info2, observed t2).
Proof.
  apply (delete_then_insert (leaf_tree four) 0 3 33 30 3);
    [simpl; lia|apply leaf_tree_ok, four_sorted|lia|
     exact (leaf_tree_stores four 3 four_sorted)].
Defined.

Lemma scan_empty_range_witness :
  ∃ f0, ∀ fuel, f0 ≤ fuel →
    ∃ t', ScanAll fuel two_level (Some (3%Z, true)) (Some (2%Z, true)) = Some ([], t').
Proof.
  apply (scan_empty_range two_level 1 3 true 2 true); [apply two_level_ok|lia].
Defined.

Lemma previous_version_witness :
  GetPreviousVersion ((262147 + kVersionUnit) mod 2 ^ 64) = (262147 - 262147 mod 2 ^ 18)%Z.
Proof. apply (previous_version 262147). lia. Defined.

(** The version after the last one of the counter: the counter wraps
    around, and the version before it is the last one, without its lock
    bits. *)
Lemma previous_version_example :
  GetPreviousVersion ((2 ^ 64 - 1 + kVersionUnit) mod 2 ^ 64) = (2 ^ 64 - 2 ^ 18)%Z.
Proof. vm_compute. done. Qed.

Lemma has_next_record_witness :
  ∃ n r,
    heap (leaf_tree holed) !! node_ (mkRecordIterator 0 2 3 None true) = Some n ∧
    leaf_records n !! pos_ (mkRecordIterator 0 2 3 None true) = Some r ∧
    rec_deleted r = false ∧
    pos_ (mkRecordIterator 0 2 3 None true) < end_pos_ (mkRecordIterator 0 2 3 None true) ∧
    before_end (end_key_ holed_cursor) (rec_key r) = true ∧
    Deref (heap (leaf_tree holed)) (mkRecordIterator 0 2 3 None true)
      = Some (rec_key r, rec_payload r) ∧
    GetKey (heap (leaf_tree holed)) (mkRecordIterator 0 2 3 None true) = Some (rec_key r) ∧
    GetPayload (heap (leaf_tree holed)) (mkRecordIterator 0 2 3 None true)
      = Some (rec_payload r).
Proof.
  apply (has_next_record 1 (heap (leaf_tree holed)) holed_cursor);
    [by intros n [= <-]; simpl; lia|reflexivity].
Defined.

(** The cursor of the example stands before a deleted record: [HasNext]
    moves it to the record behind, which the getters return. *)
Lemma cursor_example :
  HasNext 1 (heap (leaf_tree holed)) holed_cursor
    = Some (true, heap (leaf_tree holed), mkRecordIterator 0 2 3 None true) ∧
  GetKey (heap (leaf_tree holed)) (mkRecordIterator 0 2 3 None true) = Some 3%Z ∧
  GetPayload (heap (leaf_tree holed)) (mkRecordIterator 0 2 3 None true) = Some 30%Z.
Proof. vm_compute. done. Qed.

Lemma delete_retires_removed_witness :
  ∃ rc t' extra,
    Delete 5 two_level 1 = Some (rc, t') ∧
    length (heap t') = length (heap two_level) ∧
    gc_garbage t' = gc_garbage two_level ++ extra ∧
    ∀ p, p ∈ extra →
      (∃ n, heap t' !! p = Some n ∧ is_removed n = true) ∧
      ∀ g' H', inv g' (heap t') (root_ t') H' → g' p = None.
Proof. apply (delete_retires_removed two_level 1 1 5); [apply two_level_ok|lia]. Defined.

(** The deletion of the example merges the two leaves and removes the
    root: the right leaf and the old root are retired, the left leaf is
    the new root. *)
Lemma delete_example :
  (λ r, (gc_garbage r.2, root_ r.2, is_removed <$> heap r.2)) <$> Delete 5 two_level 1
  = Some ([1; 2], 0, [false; true; true]).
Proof. vm_compute. done. Qed.

Lemma merge_keeps_contents_witness :
  ∃ t' H',
    Merge 5 two_level [0; 2] 0 = Some t' ∧ tree_ok t' H' ∧ H' ≤ 1 ∧
    (∀ K v, stores two_level K v → stores t' K v) ∧
    gc_guards t' = gc_guards two_level.
Proof.
  apply (merge_keeps_contents ghost_two two_level 1 0 0 NegInf [2] 5);
    [apply two_level_inv|apply two_level_ok|done| |simpl; lia].
  split; [|done]. exists NegInf, top_node. split_and!; [done|done|by left].
Defined.

(** The merge of the example: the right leaf goes into the left one,
    the root is left with one child and is removed. *)
Lemma merge_example :
  (λ t, (root_ t, gc_garbage t, GetRecordCount <$> heap t)) <$> Merge 5 two_level [0; 2] 0
  = Some (0, [1; 2], [4; 2; 1]).
Proof. vm_compute. done. Qed.

Lemma shrink_keeps_contents_witness :
  ∃ t' H',
    TryShrinkTree 1 two_level (root_ two_level) = Some t' ∧ tree_ok t' H' ∧ H' ≤ 1 ∧
    (∀ K v, stores two_level K v → stores t' K v) ∧
    gc_guards t' = gc_guards two_level.
Proof. apply (shrink_keeps_contents two_level 1 1); [apply two_level_ok|lia|lia]. Defined.

Lemma destructor_releases_tree_witness :
  ∃ released,
    BTree_destroy 2 two_level = Some (released, observed two_level) ∧
    NoDup released ∧ (∀ p, p ∈ released ↔ is_Some (ghost_two p)) ∧
    list.last released = Some (root_ two_level) ∧
    ∀ p n, heap two_level !! p = Some n → is_removed n = true → p ∉ released.
Proof.
  apply (destructor_releases_tree ghost_two two_level 1 2); [apply two_level_inv|lia].
Defined.

(** The destructor of the example releases the two leaves and then the
    root; after the deletion above it releases the one page that is
    left of the tree. *)
Lemma destructor_example :
  fst <$> BTree_destroy 2 two_level = Some [0; 1; 2] ∧
  (Delete 5 two_level 1 ≫= λ r, fst <$> BTree_destroy 2 r.2) = Some [0].
Proof. vm_compute. done. Qed.

Lemma statistics_per_level_witness :
  ∃ stat,
    CollectStatisticalData usage16 512 2 two_level = Some (stat, observed two_level) ∧
    length stat = 2 ∧
    ∀ d, d ≤ 1 →
      stat !! d =
        Some (length (level_pages ghost_two (heap two_level) (1 - d)),
              sum_list_with (usage_of usage16 (heap two_level))
                (level_pages ghost_two (heap two_level) (1 - d)),
              length (level_pages ghost_two (heap two_level) (1 - d)) * 512).
Proof.
  apply (statistics_per_level usage16 512 ghost_two two_level 1 2);
    [apply two_level_inv|lia].
Defined.

(** The statistics of the example: one node of two records at the root
    level, two nodes of four records in all at the leaf level. *)
Lemma statistics_example :
  fst <$> CollectStatisticalData usage16 512 2 two_level
  = Some [(1, 32, 512); (2, 64, 1024)].
Proof. vm_compute. done. Qed.

Lemma bulkload_round_trip_witness :
  ∃ tb H,
    Bulkload two_level five 2 = Some (kSuccess, tb) ∧
    (∃ g, inv g (heap tb) (root_ tb) H) ∧
    (∀ K, stores tb K (assoc K five)) ∧
    (∃ f0, ∀ fuel, f0 ≤ fuel →
       ∃ t', ScanAll fuel tb None None = Some (five, t')) ∧
    gc_garbage tb = [] ∧ gc_guards tb = gc_guards two_level ∧
    root_trace tb =
      root_trace two_level ++ [RootStore memory_order_seq_cst (root_ tb);
                               RootLoad memory_order_seq_cst].
Proof.
  apply (bulkload_round_trip two_level five 2);
    [simpl; lia|simpl; lia|done|exact five_sorted|reflexivity].
Defined.

(** The tree that [Bulkload] of the example publishes: the root is
    stored and loaded again, and a scan returns the five entries. *)
Lemma bulkload_example :
  (λ r, (root_ r.2, root_trace r.2)) <$> Bulkload two_level five 2
    = Some (5, [RootStore memory_order_seq_cst 5; RootLoad memory_order_seq_cst]) ∧
  (fst <$> (Bulkload two_level five 2 ≫= λ r, ScanAll 9 r.2 None None)) = Some five.
Proof. vm_compute. done. Qed.

Lemma drain_releases_locks_witness :
  ∃ f0, ∀ fuel, f0 ≤ fuel →
    ∃ out it',
      drain fuel (<[node_ (mkRecordIterator 0 0 2 None false) := LockS left_leaf]>
                    (heap two_level))
        (mkRecordIterator 0 0 2 None false)
      = Some (out, heap two_level, it').
Proof.
  apply (drain_releases_locks ghost_two (heap two_level) (root_ two_level) 1
           (mkRecordIterator 0 0 2 None false) NegInf left_leaf);
    [apply two_level_inv|reflexivity|reflexivity|reflexivity].
Defined.

(** The cursor of the example is drained over both leaves: the records
    come out in order and the pages are as they were before the first
    leaf was locked. *)
Lemma drain_example :
  (λ r, (r.1.1, r.1.2)) <$>
    drain 5 (<[0 := LockS left_leaf]> (heap two_level)) (mkRecordIterator 0 0 2 None false)
  = Some ([(1, 10); (2, 20); (3, 30); (4, 40)]%Z, heap two_level).
Proof. vm_compute. done. Qed.

(** ** The split of a full leaf *)
Lemma write_upsert_witness :
  ∃ q n t' H',
    (∃ g, inv g (heap (leaf_tree four)) (root_ (leaf_tree four)) 0 ∧
          leaf_for g (heap (leaf_tree four)) 5 q n) ∧
    stores (leaf_tree four) 5 (rec_payload <$> find_live 5 (leaf_records n)) ∧
    Write 5 (leaf_tree four) 5 50 = Some (kSuccess, t') ∧ tree_ok t' H' ∧
    (∀ K' v, stores (leaf_tree four) K' v →
       stores t' K' (if decide (K' = 5%Z) then Some 50%Z else v)) ∧
    match find_live 5 (leaf_records n) with
    | Some _ =>
        ∃ n', heap t' = <[q := n']> (heap (leaf_tree four)) ∧
              root_ t' = root_ (leaf_tree four) ∧
              leaf_records n' = put_record 5 50 (leaf_records n) ∧
              length (leaf_records n') = length (leaf_records n)
    | None =>
        if has_space (leaf_records n)
        then ∃ n', heap t' = <[q := n']> (heap (leaf_tree four)) ∧
                   root_ t' = root_ (leaf_tree four) ∧
                   leaf_records n' = write_new 5 50 (leaf_records n) ∧
                   length (leaf_records n') ≤ kMaxRecNum
        else split_leaf (leaf_tree four) q n 5 50 t'
    end.
Proof.
  apply (write_upsert (leaf_tree four) 0 5 50 5);
    [simpl; lia|apply leaf_tree_ok, four_sorted|lia].
Defined.

(** The three cases of [Write] at a leaf of four slots: a key that is
    present is overwritten in its slot; a key that is absent goes to a
    leaf with room; a key that is absent from a full leaf splits it, and
    the tree gets a root over the two halves. *)
Lemma write_example :
  (λ r, (λ m, (rec_key <$> leaf_records m, rec_payload <$> leaf_records m)) <$> heap r.2)
    <$> Write 5 (leaf_tree four) 3 33
    = Some [([1; 2; 3; 4]%Z, [10; 20; 33; 40]%Z)] ∧
  (λ r, (λ m, rec_key <$> leaf_records m) <$> heap r.2) <$> Write 5 (leaf_tree holed) 5 50
    = Some [[1; 2; 3; 5]%Z] ∧
  (λ r, (root_ r.2,
         (λ m, (rec_key <$> leaf_records m, child <$> inner_records m, high_key m, next m))
           <$> heap r.2)) <$> Write 5 (leaf_tree four) 5 50
    = Some (2, [([1; 2]%Z, [], Some 3%Z, Some 1);
                ([3; 4; 5]%Z, [], None, None);
                ([], [0; 1], None, None)]).
Proof. vm_compute. done. Qed.

(** ** The codes of the nodes *)
Lemma signals_not_surfaced_witness :
  ∃ q n,
    (∃ g, inv g (heap two_level) (root_ two_level) 1 ∧ leaf_for g (heap two_level) 1 q n) ∧
    (∃ info, Read 5 two_level 1 =
               Some (rec_payload <$> find_live 1 (leaf_records n), info,
                     observed two_level)) ∧
    (∀ b e, ∃ f0, ∀ fuel', f0 ≤ fuel' →
       ∃ out t', ScanAll fuel' two_level b e = Some (out, t')) ∧
    (∃ t' H',
       Write 5 two_level 1 11 = Some (kSuccess, t') ∧ tree_ok t' H' ∧
       stores t' 1 (Some 11%Z) ∧
       match (Node_Write n 1 11).2 with
       | kCompleted => heap t' = <[q := (Node_Write n 1 11).1]> (heap two_level)
       | kNeedSplit => split_leaf two_level q n 1 11 t'
       | _ => False
       end) ∧
    (∃ rc out info t' H',
       Insert 5 two_level 1 11 = Some (rc, out, info, t') ∧ tree_ok t' H' ∧
       match (Node_Insert_locked n 1 11).1.1.2 with
       | kKeyAlreadyInserted => rc = kKeyExist ∧ t' = observed two_level
       | kCompleted =>
           rc = kSuccess ∧
           heap t' = <[q := (Node_Insert_locked n 1 11).1.1.1]> (heap two_level)
       | kNeedSplit => rc = kSuccess ∧ split_leaf two_level q n 1 11 t'
       | _ => False
       end) ∧
    (∃ rc t',
       Update 5 two_level 1 11 = Some (rc, t') ∧ tree_ok t' 1 ∧
       rc = (Node_Update_locked n 1 11).2 ∧ (rc = kSuccess ∨ rc = kKeyNotExist) ∧
       heap t' = <[q := (Node_Update_locked n 1 11).1]> (heap two_level)) ∧
    (∃ rc t' H',
       Delete 5 two_level 1 = Some (rc, t') ∧ tree_ok t' H' ∧ stores t' 1 None ∧
       match (Node_Delete_locked n 1).2 with
       | kKeyNotInserted => rc = kKeyNotExist ∧ t' = observed two_level
       | kCompleted =>
           rc = kSuccess ∧ heap t' = <[q := (Node_Delete_locked n 1).1]> (heap two_level)
       | kNeedMerge => rc = kSuccess
       | _ => False
       end) ∧
    (∀ entries thread_num,
       1 ≤ kLeafNodeCap → 2 ≤ kInnerNodeCap → keys_in NegInf (fst <$> entries) PosInf →
       ∃ tb, Bulkload two_level entries thread_num = Some (kSuccess, tb)) ∧
    (∀ fuel0 t0 K0 V0 rc t', Write fuel0 t0 K0 V0 = Some (rc, t') → rc = kSuccess) ∧
    (∀ fuel0 t0 K0 V0 rc out info t',
       Insert fuel0 t0 K0 V0 = Some (rc, out, info, t') → rc = kSuccess ∨ rc = kKeyExist) ∧
    (∀ fuel0 t0 K0 V0 rc t',
       Update fuel0 t0 K0 V0 = Some (rc, t') → rc = kSuccess ∨ rc = kKeyNotExist) ∧
    (∀ fuel0 t0 K0 rc t',
       Delete fuel0 t0 K0 = Some (rc, t') → rc = kSuccess ∨ rc = kKeyNotExist) ∧
    (∀ t0 entries thread_num rc t',
       Bulkload t0 entries thread_num = Some (rc, t') → rc = kSuccess).
Proof.
  apply (signals_not_surfaced two_level 1 1 11 5); [simpl; lia|apply two_level_ok|lia].
Defined.

(** Every code of a node operation at work: the code that the node
    returns, and what the operation of the tree returns for it. *)
Lemma signals_example :
  ((Node_Write (mkNode false 0 0 None None (LeafRecords four)) 5 50).2 = kNeedSplit ∧
   fst <$> Write 5 (leaf_tree four) 5 50 = Some kSuccess) ∧
  ((Node_Write left_leaf 1 11).2 = kCompleted ∧
   fst <$> Write 5 two_level 1 11 = Some kSuccess) ∧
  ((Node_Insert_locked (mkNode false 0 0 None None (LeafRecords four)) 5 50).1.1.2
     = kNeedSplit ∧
   (λ r, r.1.1.1) <$> Insert 5 (leaf_tree four) 5 50 = Some kSuccess) ∧
  ((Node_Insert_locked left_leaf 1 11).1.1.2 = kKeyAlreadyInserted ∧
   (λ r, r.1.1.1) <$> Insert 5 two_level 1 11 = Some kKeyExist) ∧
  ((Node_Insert_locked left_leaf 0 7).1.1.2 = kCompleted ∧
   (λ r, r.1.1.1) <$> Insert 5 two_level 0 7 = Some kSuccess) ∧
  ((Node_Delete_locked left_leaf 1).2 = kNeedMerge ∧
   fst <$> Delete 5 two_level 1 = Some kSuccess) ∧
  ((Node_Delete_locked (mkNode false 0 0 None None (LeafRecords four)) 3).2 = kCompleted ∧
   fst <$> Delete 5 (leaf_tree four) 3 = Some kSuccess) ∧
  ((Node_Delete_locked left_leaf 0).2 = kKeyNotInserted ∧
   fst <$> Delete 5 two_level 0 = Some kKeyNotExist) ∧
  fst <$> Update 5 two_level 1 11 = Some kSuccess ∧
  fst <$> Update 5 two_level 0 7 = Some kKeyNotExist.
Proof. vm_compute. done. Qed.

(** A merge that is aborted.  The deletion of key 3 leaves one record in
    the second leaf, which asks for a merge with the third leaf; the
    entry of the third leaf leads the other inner page, so [DeleteChild]
    returns abort-merge and [Merge] gives up.  [Delete] returns success,
    no page is retired and the other records are all there. *)
Lemma abort_merge_example :
  (Node_Delete_locked
     (mkNode false 0 0 (Some 5%Z) (Some 2)
        (LeafRecords [mkLeafRec 3 30 false; mkLeafRec 4 40 false])) 3).2 = kNeedMerge ∧
  (Node_DeleteChild
     (mkNode false 0 0 None None
        (InnerRecords [mkInnerRec (Some 5%Z) 2; mkInnerRec (Some 7%Z) 3])) 5).2
    = kAbortMerge ∧
  (λ r, (r.1, gc_garbage r.2, is_removed <$> heap r.2)) <$> Delete 9 wide_tree 3
    = Some (kSuccess, [], [false; false; false; false; false; false; false]) ∧
  fst <$> (Delete 9 wide_tree 3 ≫= λ r, ScanAll 9 r.2 None None)
    = Some [(1, 10); (2, 20); (4, 40); (5, 50); (6, 60); (7, 70); (8, 80)]%Z.
Proof. vm_compute. done. Qed.

(** [HasNext] at three cursors.  The first stands before a dead slot of
    a leaf: the slot is skipped and the call returns true.  The second
    stands at the end of the last leaf of its range: the lock of the leaf
    is released and the call returns false.  The third stands at the end
    of the first leaf of [two_level]: the call moves to the second leaf,
    whose first record it finds. *)
Lemma has_next_protocol_witness :
  (let h := heap (leaf_tree holed) in
   let n := mkNode false 0 0 None None (LeafRecords holed) in
   let it := holed_cursor in
   let pos := skip_deleted (end_pos_ it - pos_ it) n (pos_ it) in
   let it1 := mkRecordIterator (node_ it) pos (end_pos_ it) (end_key_ it) (is_end_ it) in
   (∀ i, pos_ it ≤ i < pos → Node_RecordIsDeleted n i = true) ∧
   (pos < end_pos_ it →
      Node_RecordIsDeleted n pos = false ∧ HasNext 2 h it = Some (true, h, it1)) ∧
   (end_pos_ it ≤ pos → is_end_ it = true →
      HasNext 2 h it = Some (false, <[node_ it := UnlockS n]> h, it1)) ∧
   (end_pos_ it ≤ pos → is_end_ it = false →
      ∀ q nq, next n = Some q → h !! q = Some nq → q ≠ node_ it →
        HasNext 2 h it =
        HasNext 1 (<[node_ it := UnlockS n]> (<[q := LockS nq]> h))
          (mkRecordIterator q 0 (count_before_end (end_key_ it) (leaf_records nq))
             (end_key_ it) (Node_SearchEndPositionFor nq (end_key_ it)).1))) ∧
  (pos_ holed_cursor = 1 ∧
   skip_deleted (end_pos_ holed_cursor - pos_ holed_cursor)
     (mkNode false 0 0 None None (LeafRecords holed)) (pos_ holed_cursor) = 2 ∧
   HasNext 2 (heap (leaf_tree holed)) holed_cursor
     = Some (true, heap (leaf_tree holed), mkRecordIterator 0 2 3 None true)) ∧
  (let h := heap guarded_leaf in
   let n := LockS (mkNode false 0 0 None None (LeafRecords holed)) in
   let it := mkRecordIterator 0 3 3 None true in
   let pos := skip_deleted (end_pos_ it - pos_ it) n (pos_ it) in
   let it1 := mkRecordIterator (node_ it) pos (end_pos_ it) (end_key_ it) (is_end_ it) in
   (∀ i, pos_ it ≤ i < pos → Node_RecordIsDeleted n i = true) ∧
   (pos < end_pos_ it →
      Node_RecordIsDeleted n pos = false ∧ HasNext 2 h it = Some (true, h, it1)) ∧
   (end_pos_ it ≤ pos → is_end_ it = true →
      HasNext 2 h it = Some (false, <[node_ it := UnlockS n]> h, it1)) ∧
   (end_pos_ it ≤ pos → is_end_ it = false →
      ∀ q nq, next n = Some q → h !! q = Some nq → q ≠ node_ it →
        HasNext 2 h it =
        HasNext 1 (<[node_ it := UnlockS n]> (<[q := LockS nq]> h))
          (mkRecordIterator q 0 (count_before_end (end_key_ it) (leaf_records nq))
             (end_key_ it) (Node_SearchEndPositionFor nq (end_key_ it)).1))) ∧
  (HasNext 2 (heap guarded_leaf) (mkRecordIterator 0 3 3 None true)
     = Some (false, [mkNode false 0 0 None None (LeafRecords holed)],
             mkRecordIterator 0 3 3 None true)) ∧
  (let h := locked_pages in
   let n := LockS left_leaf in
   let it := mkRecordIterator 0 2 2 (Some (4%Z, false)) false in
   let pos := skip_deleted (end_pos_ it - pos_ it) n (pos_ it) in
   let it1 := mkRecordIterator (node_ it) pos (end_pos_ it) (end_key_ it) (is_end_ it) in
   (∀ i, pos_ it ≤ i < pos → Node_RecordIsDeleted n i = true) ∧
   (pos < end_pos_ it →
      Node_RecordIsDeleted n pos = false ∧ HasNext 2 h it = Some (true, h, it1)) ∧
   (end_pos_ it ≤ pos → is_end_ it = true →
      HasNext 2 h it = Some (false, <[node_ it := UnlockS n]> h, it1)) ∧
   (end_pos_ it ≤ pos → is_end_ it = false →
      ∀ q nq, next n = Some q → h !! q = Some nq → q ≠ node_ it →
        HasNext 2 h it =
        HasNext 1 (<[node_ it := UnlockS n]> (<[q := LockS nq]> h))
          (mkRecordIterator q 0 (count_before_end (end_key_ it) (leaf_records nq))
             (end_key_ it) (Node_SearchEndPositionFor nq (end_key_ it)).1))) ∧
  (HasNext 2 locked_pages (mkRecordIterator 0 2 2 (Some (4%Z, false)) false)
     = Some (true, [left_leaf; LockS right_leaf; top_node],
             mkRecordIterator 1 0 1 (Some (4%Z, false)) true)).
Proof.
  split.
  { apply (has_next_protocol 1 (heap (leaf_tree holed)) holed_cursor). reflexivity. }
  split; [vm_compute; done|]. split.
  { apply (has_next_protocol 1 (heap guarded_leaf) (mkRecordIterator 0 3 3 None true)).
    reflexivity. }
  split; [vm_compute; done|]. split.
  { apply (has_next_protocol 1 locked_pages
             (mkRecordIterator 0 2 2 (Some (4%Z, false)) false)).
    reflexivity. }
  vm_compute. done.
Defined.

(** Against C8 as the specification has it.  The caller holds one guard
    and its cursor, built with the constructor of [RecordIterator], the
    shared lock of the leaf; the cursor stands at the end of the leaf,
    the last of its range.  [HasNext] returns false and has released the
    lock of the leaf; the guard is still held. *)
Lemma has_next_keeps_guard :
  ∃ t' it',
    HasNext_in 1 guarded_leaf (mkRecordIterator 0 3 3 None true) = Some (false, t', it') ∧
    s_lock <$> heap guarded_leaf = [1] ∧ s_lock <$> heap t' = [0] ∧
    gc_guards guarded_leaf = 1 ∧ gc_guards t' = 1.
Proof. do 2 eexists. vm_compute. done. Qed.

Lemma grown_tree_inv : inv ghost_grown (heap grown_tree) (root_ grown_tree) 1.
Proof.
  split.
  - done.
  - by exists top_five.
  - intros p lvl lo Hp. destruct p as [|[|[|p]]]; simpl in Hp; [| | |done];
      injection Hp as <- <-; eexists; (split; [done|]); unfold node_ok; simpl;
      split_and!; try done; try lia.
    exists 0, None. split_and!; try done; [|by left].
    simpl. split_and!; try done; [by exists left_full|].
    simpl. split_and!; try done. by exists right_small.
  - intros p lvl lo Hp. destruct p as [|[|[|p]]]; simpl in Hp; [| | |done].
    + right. exists 2, 1, NegInf, top_five. split_and!; try done. simpl. by left.
    + right. exists 2, 1, NegInf, top_five. split_and!; try done. simpl. right. by left.
    + by left.
Qed.

Lemma grown_tree_caps : caps_ok (heap grown_tree).
Proof.
  intros p n Hp. destruct p as [|[|[|p]]]; simpl in Hp; [| | |done];
    injection Hp as <-; simpl; lia.
Qed.

Lemma lonely_root_inv : inv ghost_lonely (heap lonely_root) (root_ lonely_root) 1.
Proof.
  split.
  - done.
  - by eexists.
  - intros p lvl lo Hp. destruct p as [|[|p]]; simpl in Hp; [| |done];
      injection Hp as <- <-; eexists; (split; [done|]); unfold node_ok; simpl;
      split_and!; try done; try lia.
    exists 0, None. split_and!; try done; [|by left].
    simpl. split_and!; try done. by eexists.
  - intros p lvl lo Hp. destruct p as [|[|p]]; simpl in Hp; [| |done].
    + right. eexists 1, 1, NegInf, _. split_and!; try done. simpl. by left.
    + by left.
Qed.

Lemma lonely_root_ok : tree_ok lonely_root 1.
Proof.
  split; [exists ghost_lonely; apply lonely_root_inv|].
  intros p n Hp. destruct p as [|[|p]]; simpl in Hp; [| |done];
    injection Hp as <-; simpl; lia.
Qed.

(** The writer of the witness descended when the full leaf was the root
    of its tree: its stack holds the leaf alone, and the tree has grown
    a root over the leaf since.  The tree that shrinks is a root over
    one leaf. *)
Lemma root_publication_witness :
  (∀ l r k, ∃ t',
     TryRootSplit grown_tree l r k = (bool_decide (root_ grown_tree = l), t') ∧
     gc_guards t' = gc_guards grown_tree ∧
     if decide (root_ grown_tree = l)
     then outside grown_tree (root_ t') ∧
          heap t' !! root_ t' = Some (Node_new_root k l r) ∧
          (∀ p, p ≠ root_ t' → heap t' !! p = heap grown_tree !! p) ∧
          root_trace t' =
            root_trace grown_tree ++ [RootLoad memory_order_relaxed;
                                      RootStore memory_order_release (root_ t')]
     else heap t' = heap grown_tree ∧ root_ t' = root_ grown_tree ∧
          gc_garbage t' = gc_garbage grown_tree ∧
          root_trace t' = root_trace grown_tree ++ [RootLoad memory_order_relaxed]) ∧
  (∃ target ver t' H' lost,
     split_and_insert 9 grown_tree (0 :: []) 0 0 7 = Some (target, ver, t') ∧
     tree_ok t' H' ∧ 1 ≤ H' ≤ 2 ∧
     (∀ K' v, stores grown_tree K' v →
        stores t' K' (if decide (K' = 0%Z) then Some 7%Z else v)) ∧
     split_leaf grown_tree 0 left_full 0 7 t' ∧
     (lost = [] ∨ lost = lost_root_split) ∧
     (@nil ptr = [] → [2] ≠ [] → lost = lost_root_split) ∧
     ([2] = [] → lost = []) ∧
     if decide (H' = 1)
     then root_ t' = root_ grown_tree ∧ root_trace t' = root_trace grown_tree ++ lost
     else root_trace t' =
            root_trace grown_tree ++ lost ++ [RootLoad memory_order_relaxed;
                                              RootStore memory_order_release (root_ t')]) ∧
  (∃ ts' path Hs',
     TryShrinkTree 9 lonely_root (root_ lonely_root) = Some ts' ∧
     sole_chain (heap lonely_root) (root_ lonely_root) path (root_ ts') ∧ path ≠ [] ∧
     gc_garbage ts' = gc_garbage lonely_root ++ path ∧
     (∀ p, heap ts' !! p = retire path (heap lonely_root) p) ∧
     root_trace ts' =
       root_trace lonely_root ++ [RootLoad memory_order_relaxed;
                                  RootStore memory_order_relaxed (root_ ts')] ∧
     tree_ok ts' Hs' ∧ Hs' ≤ 0 ∧ (∀ K' v, stores lonely_root K' v → stores ts' K' v)) ∧
  (∀ node nn,
     heap grown_tree !! node = Some nn →
     bool_decide (node = root_ grown_tree) && (GetRecordCount nn =? 1) = false →
     TryShrinkTree 9 grown_tree node =
       Some (mkBTree (heap grown_tree) (root_ grown_tree) (gc_garbage grown_tree)
               (gc_guards grown_tree)
               (root_trace grown_tree ++ [RootLoad memory_order_relaxed]))) ∧
  (∃ q0 t0, SearchLeafNode 9 grown_tree 0 = Some (q0, t0) ∧
            root_trace t0 = root_trace grown_tree ++ [RootLoad memory_order_acquire]) ∧
  (∀ entries thread_num,
     1 ≤ kLeafNodeCap → 2 ≤ kInnerNodeCap → entries ≠ [] →
     keys_in NegInf (fst <$> entries) PosInf →
     ∃ tb, Bulkload grown_tree entries thread_num = Some (kSuccess, tb) ∧
           root_trace tb =
             root_trace grown_tree ++ [RootStore memory_order_seq_cst (root_ tb);
                                       RootLoad memory_order_seq_cst]).
Proof.
  apply (root_publication ghost_grown grown_tree 1 0 7 0 left_full [] [2] 9
           lonely_root 0 (mkNode false 0 0 None None (InnerRecords [mkInnerRec None 0]))).
  - simpl. lia.
  - apply grown_tree_inv.
  - apply grown_tree_caps.
  - by exists NegInf.
  - simpl. split; [|done]. exists NegInf, top_five. split_and!; try done.
    simpl. apply list_elem_of_here.
  - reflexivity.
  - reflexivity.
  - simpl. lia.
  - apply lonely_root_ok.
  - reflexivity.
  - reflexivity.
  - lia.
Defined.

(** Root splits that are lost, run.  In [grown_tree] the writer's stack
    holds the full leaf alone: [TryRootSplit] loads the root and returns
    false, [SearchParentNode] loads it again and finds the parent, which
    takes the new leaf (page 3).  In [deep_tree] the stack of the writer
    ends at the inner page 4, which is full and is no longer the root:
    the leaf is split (page 6), then page 4 (page 7), the root split of
    page 4 is lost, and the parent that is found, the root (page 5),
    takes page 7.  No record is lost. *)
Lemma lost_root_split_example :
  (λ r, (root_ r.2, root_trace r.2,
         (λ m, (rec_key <$> leaf_records m, child <$> inner_records m)) <$> heap r.2))
    <$> split_and_insert 9 grown_tree [0] 0 0 7
    = Some (2, [RootLoad memory_order_relaxed; RootLoad memory_order_acquire],
            [([0; 1; 2]%Z, []); ([5; 6]%Z, []); ([], [0; 3; 1]); ([3; 4]%Z, [])]) ∧
  fst <$> (split_and_insert 9 grown_tree [0] 0 0 7 ≫= λ r, ScanAll 9 r.2 None None)
    = Some [(0, 7); (1, 10); (2, 20); (3, 30); (4, 40); (5, 50); (6, 60)]%Z ∧
  (λ r, (root_ r.2, root_trace r.2,
         (λ m, (rec_key <$> leaf_records m, child <$> inner_records m)) <$> heap r.2))
    <$> split_and_insert 12 deep_tree [0; 4] 0 5 55
    = Some (5, [RootLoad memory_order_relaxed; RootLoad memory_order_acquire],
            [([1; 2]%Z, []); ([10]%Z, []); ([20]%Z, []); ([30]%Z, []);
             ([], [0; 6; 1]); ([], [4; 7]); ([3; 4; 5]%Z, []); ([], [2; 3])]) ∧
  fst <$> (split_and_insert 12 deep_tree [0; 4] 0 5 55 ≫= λ r, ScanAll 12 r.2 None None)
    = Some [(1, 10); (2, 20); (3, 30); (4, 40); (5, 55); (10, 100); (20, 200);
            (30, 300)]%Z ∧
  fst <$> SearchParentNode 9 deep_tree [] 20 4 = Some [5].
Proof. vm_compute. done. Qed.

(** A shrink over a chain of two pages with one child each. *)
Lemma shrink_chain_example :
  (λ t, (root_ t, gc_garbage t, root_trace t, is_removed <$> heap t))
    <$> TryShrinkTree 3
          (mkBTree [mkNode false 0 0 None None (LeafRecords four);
                    mkNode false 0 0 None None (InnerRecords [mkInnerRec None 0]);
                    mkNode false 0 0 None None (InnerRecords [mkInnerRec None 1])]
             2 [] 0 []) 2
    = Some (0, [2; 1],
            [RootLoad memory_order_relaxed; RootStore memory_order_relaxed 0],
            [false; true; true]).
Proof. vm_compute. done. Qed.

End MoreExamples.
